(** * Pannellum tour editor: the tour document and its mutation engine

    A shallow embedding of the document-mutating part of [tour-editor.js].

    The editor keeps one global [tourConfig] (the tour document), a global
    [hotspotCounter] and a few selection globals.  Every function below is
    the document part of the JavaScript function of the same name: globals
    the function reads ([currentScene], [pendingHotspot], form fields, the
    answer of a [confirm] dialog) are explicit arguments, the globals it
    writes are returned.  Calls into the Pannellum viewer and the DOM only
    receive deep copies of the document ([JSON.parse(JSON.stringify(...))])
    and are wrapped in [try]/[catch]; they never write [tourConfig] and are
    left out.

    Modelling boundaries, stated once:
    - strings are ASCII strings; [trim] knows the ASCII white space only;
    - numbers that the code only stores and copies (angles, resolutions)
      are binary64 floats.  The hotspot counter and the numbers read off
      hotspot ids are exact integers, which is what JavaScript computes up
      to [MAX_SAFE_INTEGER]; beyond it the code rounds, and the statements
      that depend on the value of the counter carry the bound as a
      hypothesis;
    - a hotspot is stored through [JSON.parse(JSON.stringify(...))], which
      keeps a finite number (and turns [-0] into [0]) but stores [null]
      for an infinity or a [NaN]; the hotspot record has numbers only, so
      statements about stored arrival views are for finite cameras;
    - [tourConfig.scenes] is a plain object used as a map from scene id to
      scene.  Its own-property order is the one of ECMAScript
      (OrdinaryOwnPropertyKeys): canonical array indices in ascending
      numeric order first, then the other string keys in creation order.
      Reading [tourConfig.scenes[k]] also finds what every object inherits
      from [Object.prototype] ([constructor], [toString], [__proto__],
      ...): the tests of [addNewScene] and [renameScene] see these members
      ([obj_truthy]).  [reorderScenes] would copy such a member into the
      scene map, or replace the prototype of the map, which leaves the
      typed document: statements about it are for lists of ids that hold
      none of these names ([own_names]). *)

From Stdlib Require Import String Ascii List NArith ZArith Lia Bool.
From Stdlib Require Import Permutation.
From Stdlib Require Import DecimalString DecimalN.
From Stdlib Require Import HexadecimalString HexadecimalN.
From Stdlib Require Import Floats.
Import ListNotations.

Open Scope string_scope.
Open Scope list_scope.

(** ** JavaScript strings *)

(** White space removed by [String.prototype.trim] (ASCII part). *)
Definition is_ws (c : ascii) : bool :=
  let n := nat_of_ascii c in
  ((9 <=? n) && (n <=? 13) || (n =? 32))%nat.

Fixpoint trimStart (s : string) : string :=
  match s with
  | EmptyString => EmptyString
  | String c r => if is_ws c then trimStart r else s
  end.

Definition string_rev (s : string) : string :=
  string_of_list_ascii (rev (list_ascii_of_string s)).

Definition trimEnd (s : string) : string :=
  string_rev (trimStart (string_rev s)).

Definition trim (s : string) : string := trimEnd (trimStart s).

Definition is_digit (c : ascii) : bool :=
  let n := nat_of_ascii c in ((48 <=? n) && (n <=? 57))%nat.

Definition is_hex_digit (c : ascii) : bool :=
  let n := nat_of_ascii c in
  (is_digit c || (65 <=? n) && (n <=? 70) || (97 <=? n) && (n <=? 102))%nat.

(** The character class [[a-zA-Z0-9_-]]. *)
Definition is_id_char (c : ascii) : bool :=
  let n := nat_of_ascii c in
  ((97 <=? n) && (n <=? 122) || (65 <=? n) && (n <=? 90) || is_digit c
   || (n =? 95) || (n =? 45))%nat.

(** [/^[a-zA-Z0-9_-]+$/.test(s)] *)
Definition id_pattern (s : string) : bool :=
  negb (s =? "") && forallb is_id_char (list_ascii_of_string s).

(** Upper-case hexadecimal digits read like the lower-case ones. *)
Definition lower_hex (c : ascii) : ascii :=
  let n := nat_of_ascii c in
  if ((65 <=? n) && (n <=? 70))%nat then ascii_of_nat (n + 32) else c.

Definition string_map (f : ascii -> ascii) (s : string) : string :=
  string_of_list_ascii (map f (list_ascii_of_string s)).

Fixpoint takeWhile (p : ascii -> bool) (s : string) : string :=
  match s with
  | EmptyString => EmptyString
  | String c r => if p c then String c (takeWhile p r) else EmptyString
  end.

(** [n.toString()] of a safe integer [n]: all its decimal digits. *)
Definition toStringN (n : N) : string :=
  DecimalString.NilEmpty.string_of_uint (N.to_uint n).

(** [Number.MAX_SAFE_INTEGER], 2^53 - 1: for an integer [n] up to it,
    [n + 1], [n.toString()] and [parseInt] of its numeral are computed
    without rounding. *)
Definition MAX_SAFE_INTEGER : N := 9007199254740991.

(** [s.padStart(3, '0')] *)
Definition padStart3 (s : string) : string :=
  string_of_list_ascii (repeat "0"%char (3 - String.length s)) ++ s.

(** [parseInt(s)] with no radix argument; [None] is [NaN].  Leading white
    space is skipped, then an optional sign, then [0x]/[0X] selects radix
    16; the longest prefix of digits of the radix is the value.  The value
    is the exact integer: JavaScript returns it as long as it is a safe
    integer, and the nearest binary64 number beyond. *)
Definition parseInt (s : string) : option Z :=
  let s1 := trimStart s in
  let '(neg, s2) :=
    match s1 with
    | String "-" r => (true, r)
    | String "+" r => (false, r)
    | _ => (false, s1)
    end in
  let hex := String.prefix "0x" s2 || String.prefix "0X" s2 in
  let s3 := if hex then String.substring 2 (String.length s2 - 2) s2 else s2 in
  let ds := takeWhile (if hex then is_hex_digit else is_digit) s3 in
  if ds =? "" then None
  else
    let v :=
      if hex
      then option_map N.of_hex_uint
             (HexadecimalString.NilEmpty.uint_of_string (string_map lower_hex ds))
      else option_map N.of_uint (DecimalString.NilEmpty.uint_of_string ds) in
    option_map (fun m => if neg then (- Z.of_N m)%Z else Z.of_N m) v.

(** The last element of [s.split('_')]: what follows the last underscore. *)
Fixpoint lastPart (s : string) : string :=
  match s with
  | EmptyString => EmptyString
  | String c r =>
      if existsb (Ascii.eqb "_"%char) (list_ascii_of_string r) then lastPart r
      else if Ascii.eqb c "_"%char then r
      else s
  end.

(** [s.split('_').length] *)
Definition partsLength (s : string) : nat :=
  S (length (filter (Ascii.eqb "_"%char) (list_ascii_of_string s))).

(** ** JavaScript arrays *)

(** [a.indexOf(x)], [None] for [-1]. *)
Fixpoint indexOf (x : string) (a : list string) : option nat :=
  match a with
  | [] => None
  | y :: r => if y =? x then Some 0%nat else option_map S (indexOf x r)
  end.

(** [a.splice(i, 1)] *)
Definition splice_remove {A} (i : nat) (a : list A) : list A :=
  firstn i a ++ skipn (S i) a.

(** [a.splice(i, 0, x)]; the start index is clamped to the length. *)
Definition splice_insert {A} (i : nat) (x : A) (a : list A) : list A :=
  firstn i a ++ x :: skipn i a.

(** [a[i] = x] for an index inside the array. *)
Definition array_set {A} (i : nat) (x : A) (a : list A) : list A :=
  firstn i a ++ x :: skipn (S i) a.

(** ** JavaScript objects used as maps *)

Definition obj (V : Type) : Type := list (string * V).

(** The canonical array index a property key denotes, if any: the decimal
    string of an integer below 2^32 - 1, without sign or leading zero. *)
Definition arrayIndex (k : string) : option N :=
  match DecimalString.NilEmpty.uint_of_string k with
  | Some u =>
      let n := N.of_uint u in
      if (toStringN n =? k) && (n <? 4294967295)%N then Some n else None
  | None => None
  end.

Fixpoint obj_get {V} (k : string) (o : obj V) : option V :=
  match o with
  | [] => None
  | (k', v) :: r => if k' =? k then Some v else obj_get k r
  end.

Definition obj_has {V} (k : string) (o : obj V) : bool :=
  match obj_get k o with Some _ => true | None => false end.

Definition obj_keys {V} (o : obj V) : list string := map fst o.

Definition obj_values {V} (o : obj V) : list V := map snd o.

Fixpoint obj_replace {V} (k : string) (v : V) (o : obj V) : obj V :=
  match o with
  | [] => []
  | (k', v') :: r =>
      if k' =? k then (k', v) :: r else (k', v') :: obj_replace k v r
  end.

(** A new integer key goes before the first key that is not an integer key
    or is a larger one. *)
Fixpoint obj_insert_index {V} (n : N) (k : string) (v : V) (o : obj V) : obj V :=
  match o with
  | [] => [(k, v)]
  | (k', v') :: r =>
      match arrayIndex k' with
      | Some m =>
          if (m <? n)%N then (k', v') :: obj_insert_index n k v r
          else (k, v) :: o
      | None => (k, v) :: o
      end
  end.

(** [o[k] = v] *)
Definition obj_set {V} (k : string) (v : V) (o : obj V) : obj V :=
  if obj_has k o then obj_replace k v o
  else
    match arrayIndex k with
    | Some n => obj_insert_index n k v o
    | None => o ++ [(k, v)]
    end.

(** [delete o[k]] *)
Definition obj_delete {V} (k : string) (o : obj V) : obj V :=
  filter (fun e => negb (fst e =? k)) o.

(** Updating every value in place keeps keys and order. *)
Definition obj_map {V} (f : string -> V -> V) (o : obj V) : obj V :=
  map (fun e => (fst e, f (fst e) (snd e))) o.

(** The names of the properties that every plain object inherits from
    [Object.prototype].  On an object without an own property of that
    name, [o[k]] reads a function for each of them (for [__proto__], the
    prototype object): a truthy value. *)
Definition prototype_names : list string :=
  ["constructor"; "hasOwnProperty"; "isPrototypeOf"; "propertyIsEnumerable";
   "toLocaleString"; "toString"; "valueOf"; "__proto__";
   "__defineGetter__"; "__defineSetter__";
   "__lookupGetter__"; "__lookupSetter__"].

Definition inherited (k : string) : bool :=
  existsb (fun name => name =? k) prototype_names.

(** Whether [o[k]] is truthy, for a plain object [o] whose own values are
    objects: an own property, or an inherited one. *)
Definition obj_truthy {V} (k : string) (o : obj V) : bool :=
  obj_has k o || inherited k.

(** A list of ids none of which names an inherited property. *)
Definition own_names (l : list string) : bool :=
  forallb (fun k => negb (inherited k)) l.

(** No entry is filed under the name [__proto__].  The editor fills its
    scene map by assignments, and the assignment [o["__proto__"] = v] sets
    the prototype of [o] instead of creating a property, so that a map
    built by the editor has no such key. *)
Definition no_proto_key {V} (o : obj V) : Prop :=
  ~ In "__proto__" (obj_keys o).

(** ** The tour document *)

(** JavaScript's [x || d] on numbers: [0], [-0] and [NaN] are falsy. *)
Definition num_or (x d : float) : float :=
  if PrimFloat.is_nan x || PrimFloat.eqb x 0 then d else x.

(** A number that [JSON.parse(JSON.stringify(x))] gives back as it is:
    a finite number other than [-0]. *)
Definition json_kept (x : float) : bool :=
  PrimFloat.is_finite x && negb (PrimFloat.is_zero x && PrimFloat.get_sign x).

(** A hotspot as stored in [scene.hotSpots].  An imported hotspot may come
    without [id]. *)
Record Hotspot := mkHotspot {
  hs_pitch : float;
  hs_yaw : float;
  hs_type : string;
  text : string;
  sceneId : string;
  hs_id : option string;
  targetPitch : float;
  targetYaw : float;
  targetHfov : float
}.

Record MultiRes := mkMultiRes {
  basePath : string;
  path : string;
  fallbackPath : string;
  extension : string;
  tileResolution : float;
  maxLevel : float;
  cubeResolution : float
}.

Record Scene := mkScene {
  hfov : float;
  pitch : float;
  yaw : float;
  sc_type : string;
  preview : string;
  multiRes : MultiRes;
  hotSpots : list Hotspot
}.

(** [tourConfig]; the fields of [tourConfig.default] are kept at top level. *)
Record TourConfig := mkTourConfig {
  firstScene : string;
  sceneOrder : list string;
  sceneFadeDuration : float;
  autoLoad : bool;
  scenes : obj Scene
}.

(** The editor's globals that the mutation functions write. *)
Record Editor := mkEditor {
  tourConfig : TourConfig;
  hotspotCounter : N
}.

Definition initialConfig : TourConfig :=
  {| firstScene := ""; sceneOrder := []; sceneFadeDuration := 1000%float;
     autoLoad := true; scenes := [] |}.

Definition initialEditor : Editor :=
  {| tourConfig := initialConfig; hotspotCounter := 0 |}.

(** How a call ends: it ran to its end, it returned early without writing
    anything (an [alert], a declined [confirm], a guard), or it raised a
    [TypeError] / left the typed document (an [undefined] array element). *)
Inductive outcome (S : Type) : Type :=
| Completed (s : S)
| Rejected
| Fault.
Arguments Completed {S} s.
Arguments Rejected {S}.
Arguments Fault {S}.

Definition set_hotSpots (hs : list Hotspot) (sc : Scene) : Scene :=
  {| hfov := hfov sc; pitch := pitch sc; yaw := yaw sc; sc_type := sc_type sc;
     preview := preview sc; multiRes := multiRes sc; hotSpots := hs |}.

Definition set_camera (p y h : float) (sc : Scene) : Scene :=
  {| hfov := h; pitch := p; yaw := y; sc_type := sc_type sc;
     preview := preview sc; multiRes := multiRes sc; hotSpots := hotSpots sc |}.

Definition set_scenes (o : obj Scene) (cfg : TourConfig) : TourConfig :=
  {| firstScene := firstScene cfg; sceneOrder := sceneOrder cfg;
     sceneFadeDuration := sceneFadeDuration cfg; autoLoad := autoLoad cfg;
     scenes := o |}.

Definition set_sceneId (t : string) (h : Hotspot) : Hotspot :=
  {| hs_pitch := hs_pitch h; hs_yaw := hs_yaw h; hs_type := hs_type h;
     text := text h; sceneId := t; hs_id := hs_id h;
     targetPitch := targetPitch h; targetYaw := targetYaw h;
     targetHfov := targetHfov h |}.

Definition set_id (i : string) (h : Hotspot) : Hotspot :=
  {| hs_pitch := hs_pitch h; hs_yaw := hs_yaw h; hs_type := hs_type h;
     text := text h; sceneId := sceneId h; hs_id := Some i;
     targetPitch := targetPitch h; targetYaw := targetYaw h;
     targetHfov := targetHfov h |}.

(** [hotspot.id === hotspotId] *)
Definition id_is (h : Hotspot) (hotspotId : string) : bool :=
  match hs_id h with
  | Some i => i =? hotspotId
  | None => false
  end.

(** ** Identifier policy *)

(** [isHotspotIdInUse]: some hotspot of some scene carries the id. *)
Definition isHotspotIdInUse (hotspotId : string) (cfg : TourConfig) : bool :=
  existsb (fun sc => existsb (fun h => id_is h hotspotId) (hotSpots sc))
          (obj_values (scenes cfg)).

(** The result object [{isValid, errorMessage}] of [validateHotspotId]; the
    duplicate message names the scene the id was found in. *)
Inductive validation : Type :=
| Valid
| BadCharacters
| Duplicate (checkSceneId : string).

Definition isValid (v : validation) : bool :=
  match v with Valid => true | _ => false end.

(** The inner [for] loop over one scene's hotspots, from index [i] on. *)
Fixpoint dup_in_hotspots (hotspotId : string) (same : bool) (excludeIndex : Z)
         (i : nat) (hs : list Hotspot) : bool :=
  match hs with
  | [] => false
  | h :: r =>
      if same && (Z.of_nat i =? excludeIndex)%Z
      then dup_in_hotspots hotspotId same excludeIndex (S i) r
      else if id_is h hotspotId then true
      else dup_in_hotspots hotspotId same excludeIndex (S i) r
  end.

(** The outer loop over [Object.entries(tourConfig.scenes)]. *)
Fixpoint dup_in_scenes (hotspotId sceneId' : string) (excludeIndex : Z)
         (o : obj Scene) : option string :=
  match o with
  | [] => None
  | (checkSceneId, scene) :: r =>
      if dup_in_hotspots hotspotId (checkSceneId =? sceneId') excludeIndex 0
                         (hotSpots scene)
      then Some checkSceneId
      else dup_in_scenes hotspotId sceneId' excludeIndex r
  end.

Definition validateHotspotId (hotspotId sceneId' : string) (excludeIndex : Z)
           (cfg : TourConfig) : validation :=
  if (hotspotId =? "") || (trim hotspotId =? "") then Valid
  else if negb (id_pattern hotspotId) then BadCharacters
  else
    match dup_in_scenes hotspotId sceneId' excludeIndex (scenes cfg) with
    | Some checkSceneId => Duplicate checkSceneId
    | None => Valid
    end.

Definition candidateId (targetSceneId : string) (counter : N) : string :=
  "hs_" ++ targetSceneId ++ "_" ++ padStart3 (toStringN counter).

(** The template [`hs_${sceneId}_${hotspotCounter++}`] of the fallback
    generator, for the counter value it prints. *)
Definition fallbackId (sceneId' : string) (counter : N) : string :=
  "hs_" ++ sceneId' ++ "_" ++ toStringN counter.

(** The [do ... while] loop of [generateSceneBasedHotspotId], [fuel]
    iterations at most. *)
Fixpoint generate_loop (fuel : nat) (targetSceneId : string) (counter : N)
         (cfg : TourConfig) : option string :=
  match fuel with
  | O => None
  | S fuel' =>
      if isHotspotIdInUse (candidateId targetSceneId counter) cfg
      then generate_loop fuel' targetSceneId (counter + 1) cfg
      else Some (candidateId targetSceneId counter)
  end.

Definition hotspotCount (cfg : TourConfig) : nat :=
  length (flat_map hotSpots (obj_values (scenes cfg))).

(** One more iteration than there are hotspots always suffices (see
    [generateSceneBasedHotspotId_total]). *)
Definition generateSceneBasedHotspotId (targetSceneId : string)
           (cfg : TourConfig) : option string :=
  generate_loop (S (hotspotCount cfg)) targetSceneId 1 cfg.

(** ** Scene operations *)

(** The scene record [addNewScene] creates. *)
Definition newScene (newScenePath : string) (maxLevel' cubeResolution' : float)
  : Scene :=
  {| hfov := 100%float; pitch := 0%float; yaw := 0%float;
     sc_type := "multires";
     preview := newScenePath ++ "1/f_0_0.jpg";
     multiRes :=
       {| basePath := newScenePath; path := "%l/%s_%y_%x";
          fallbackPath := "/fallback/%s"; extension := "jpg";
          tileResolution := 512%float; maxLevel := maxLevel';
          cubeResolution := cubeResolution' |};
     hotSpots := [] |}.

(** [addNewScene]; the two text fields are read untrimmed from the form.
    The test [tourConfig.scenes[newSceneId]] is a test of truthiness. *)
Definition addNewScene (idField pathField : string)
           (maxLevel' cubeResolution' : float) (cfg : TourConfig)
  : outcome TourConfig :=
  let newSceneId := trim idField in
  let newScenePath := trim pathField in
  if (newSceneId =? "") || (newScenePath =? "") then Rejected
  else if obj_truthy newSceneId (scenes cfg) then Rejected
  else
    let scenes1 :=
      obj_set newSceneId (newScene newScenePath maxLevel' cubeResolution')
              (scenes cfg) in
    Completed
      {| firstScene :=
           if (length (obj_keys scenes1) =? 1)%nat then newSceneId
           else firstScene cfg;
         sceneOrder := sceneOrder cfg ++ [newSceneId];
         sceneFadeDuration := sceneFadeDuration cfg;
         autoLoad := autoLoad cfg;
         scenes := scenes1 |}.

(** [scene.hotSpots.filter(h => h.sceneId !== sceneToDelete)] *)
Definition drop_links (sceneToDelete : string) (hs : list Hotspot)
  : list Hotspot :=
  filter (fun h => negb (sceneId h =? sceneToDelete)) hs.

(** [deleteCurrentScene], with the answer given to its [confirm] dialog. *)
Definition deleteCurrentScene (currentScene : string) (confirmed : bool)
           (cfg : TourConfig) : outcome TourConfig :=
  if currentScene =? "" then Rejected
  else if negb confirmed then Rejected
  else
    let sceneToDelete := currentScene in
    let scenes1 := obj_delete sceneToDelete (scenes cfg) in
    let order1 :=
      match indexOf sceneToDelete (sceneOrder cfg) with
      | Some orderIndex => splice_remove orderIndex (sceneOrder cfg)
      | None => sceneOrder cfg
      end in
    let first1 :=
      if firstScene cfg =? sceneToDelete
      then match obj_keys scenes1 with
           | remaining0 :: _ => remaining0
           | [] => ""
           end
      else firstScene cfg in
    Completed
      {| firstScene := first1;
         sceneOrder := order1;
         sceneFadeDuration := sceneFadeDuration cfg;
         autoLoad := autoLoad cfg;
         scenes :=
           obj_map (fun _ sc =>
                      set_hotSpots (drop_links sceneToDelete (hotSpots sc)) sc)
                   scenes1 |}.

(** The rebuilt [updatedScenes] object of [renameScene]. *)
Definition rename_key (oldSceneId newSceneId : string) (o : obj Scene)
  : obj Scene :=
  fold_left
    (fun updatedScenes e =>
       if fst e =? oldSceneId then obj_set newSceneId (snd e) updatedScenes
       else obj_set (fst e) (snd e) updatedScenes)
    o [].

Definition retarget (oldSceneId newSceneId : string) (h : Hotspot) : Hotspot :=
  if sceneId h =? oldSceneId then set_sceneId newSceneId h else h.

(** [renameScene], with the answer given to its [confirm] dialog; the
    boolean is the function's return value. *)
Definition renameScene (oldSceneId newSceneId : string) (confirmed : bool)
           (cfg : TourConfig) : bool * TourConfig :=
  if (newSceneId =? "") || (trim newSceneId =? "") then (false, cfg)
  else if negb (id_pattern newSceneId) then (false, cfg)
  else if oldSceneId =? newSceneId then (true, cfg)
  else if obj_truthy newSceneId (scenes cfg) then (false, cfg)
  else if negb confirmed then (false, cfg)
  else
    (true,
     {| firstScene :=
          if firstScene cfg =? oldSceneId then newSceneId else firstScene cfg;
        sceneOrder :=
          match indexOf oldSceneId (sceneOrder cfg) with
          | Some orderIndex => array_set orderIndex newSceneId (sceneOrder cfg)
          | None => sceneOrder cfg
          end;
        sceneFadeDuration := sceneFadeDuration cfg;
        autoLoad := autoLoad cfg;
        scenes :=
          obj_map (fun _ sc =>
                     set_hotSpots
                       (map (retarget oldSceneId newSceneId) (hotSpots sc)) sc)
                  (rename_key oldSceneId newSceneId (scenes cfg)) |}).

(** The [updates] argument of [updateHotspotReferences]: each property may
    be [undefined]. *)
Record Updates := mkUpdates {
  u_targetPitch : option float;
  u_targetYaw : option float;
  u_targetHfov : option float
}.

Definition apply_updates (updates : Updates) (h : Hotspot) : Hotspot :=
  {| hs_pitch := hs_pitch h; hs_yaw := hs_yaw h; hs_type := hs_type h;
     text := text h; sceneId := sceneId h; hs_id := hs_id h;
     targetPitch :=
       match u_targetPitch updates with Some p => p | None => targetPitch h end;
     targetYaw :=
       match u_targetYaw updates with Some y => y | None => targetYaw h end;
     targetHfov :=
       match u_targetHfov updates with Some f => f | None => targetHfov h end
  |}.

(** The inner [forEach] of [updateHotspotReferences]: the hotspots seen so
    far and the running [updateCount]. *)
Fixpoint update_hotspots (targetSceneId : string) (updates : Updates)
         (hs : list Hotspot) (updateCount : nat) : list Hotspot * nat :=
  match hs with
  | [] => ([], updateCount)
  | h :: r =>
      if sceneId h =? targetSceneId
      then let '(r', n) :=
             update_hotspots targetSceneId updates r (S updateCount) in
           (apply_updates updates h :: r', n)
      else let '(r', n) :=
             update_hotspots targetSceneId updates r updateCount in
           (h :: r', n)
  end.

(** The outer [forEach] over [Object.entries(tourConfig.scenes)]. *)
Fixpoint update_scenes (targetSceneId : string) (updates : Updates)
         (o : obj Scene) (updateCount : nat) : obj Scene * nat :=
  match o with
  | [] => ([], updateCount)
  | (k, scene) :: r =>
      let '(hs', n1) :=
        update_hotspots targetSceneId updates (hotSpots scene) updateCount in
      let '(r', n2) := update_scenes targetSceneId updates r n1 in
      ((k, set_hotSpots hs' scene) :: r', n2)
  end.

(** [updateHotspotReferences]: the document after the call and the
    returned [updateCount]. *)
Definition updateHotspotReferences (targetSceneId : string)
           (updates : Updates) (cfg : TourConfig) : TourConfig * nat :=
  let '(scenes', updateCount) :=
    update_scenes targetSceneId updates (scenes cfg) 0 in
  (set_scenes scenes' cfg, updateCount).

(** [updateSceneWithCapturedView]: the document after the call, and the
    [updateCount] it obtained from [updateHotspotReferences] (the number it
    logs and tests to decide on a viewer refresh). *)
Definition updateSceneWithCapturedView (currentScene : string)
           (pitch' yaw' hfov' : float) (cfg : TourConfig)
  : outcome (TourConfig * nat) :=
  if currentScene =? "" then Rejected
  else
    match obj_get currentScene (scenes cfg) with
    | None => Rejected
    | Some scene =>
        Completed
          (updateHotspotReferences currentScene
             {| u_targetPitch := Some pitch'; u_targetYaw := Some yaw';
                u_targetHfov := Some hfov' |}
             (set_scenes
                (obj_replace currentScene (set_camera pitch' yaw' hfov' scene)
                             (scenes cfg))
                cfg))
    end.

(** ** Hotspot operations *)

(** [pendingHotspot]: the dialog is adding a hotspot, or editing the one at
    [editIndex] of the current scene. *)
Inductive PendingHotspot : Type :=
| AddingHotspot
| EditingHotspot (editIndex : nat).

(** The options [showAddHotspotModal] puts into the target drop-down. *)
Definition hotspotTargetOptions (currentScene : string) (cfg : TourConfig)
  : list string :=
  filter (fun k => negb (k =? currentScene)) (obj_keys (scenes cfg)).

(** [confirmAddHotspot]: [textField], [idField] and [targetScene] are the
    form values, [hotspotPitch] and [hotspotYaw] the parsed coordinates.
    The stored copy goes through JSON, which keeps a finite number, turns
    [-0] into [0] and stores [null] for an infinity or a [NaN]; the record
    keeps the number it was given, which is the stored one for every
    finite number other than [-0] ([json_kept]).  The counter is exact up
    to [MAX_SAFE_INTEGER]. *)
Definition confirmAddHotspot (currentScene : string)
           (pendingHotspot : option PendingHotspot)
           (textField idField targetScene : string)
           (hotspotPitch hotspotYaw : float) (ed : Editor) : outcome Editor :=
  let cfg := tourConfig ed in
  match pendingHotspot with
  | None => Rejected
  | Some pending =>
      if currentScene =? "" then Rejected
      else if targetScene =? "" then Rejected
      else
        let excludeIndex :=
          match pending with
          | EditingHotspot editIndex => Z.of_nat editIndex
          | AddingHotspot => (-1)%Z
          end in
        let typedId := trim idField in
        if negb (isValid (validateHotspotId typedId currentScene excludeIndex cfg))
        then Rejected
        else
          let text' := if trim textField =? "" then targetScene
                       else trim textField in
          let '(hotspotId, counter') :=
            if typedId =? ""
            then (fallbackId currentScene (hotspotCounter ed),
                  (hotspotCounter ed + 1)%N)
            else (typedId, hotspotCounter ed) in
          let '(tp, ty, th) :=
            match obj_get targetScene (scenes cfg) with
            | Some targetSceneConfig =>
                (num_or (pitch targetSceneConfig) 0,
                 num_or (yaw targetSceneConfig) 0,
                 num_or (hfov targetSceneConfig) 100)
            | None => (0%float, 0%float, 100%float)
            end in
          let hotspotData :=
            {| hs_pitch := hotspotPitch; hs_yaw := hotspotYaw;
               hs_type := "scene"; text := text'; sceneId := targetScene;
               hs_id := Some hotspotId; targetPitch := tp; targetYaw := ty;
               targetHfov := th |} in
          match obj_get currentScene (scenes cfg) with
          | None => Fault
          | Some scene =>
              match pending with
              | EditingHotspot editIndex =>
                  match nth_error (hotSpots scene) editIndex with
                  | None => Fault
                  | Some _ =>
                      Completed
                        {| tourConfig :=
                             set_scenes
                               (obj_replace currentScene
                                  (set_hotSpots
                                     (array_set editIndex hotspotData
                                                (hotSpots scene)) scene)
                                  (scenes cfg)) cfg;
                           hotspotCounter := counter' |}
                  end
              | AddingHotspot =>
                  Completed
                    {| tourConfig :=
                         set_scenes
                           (obj_replace currentScene
                              (set_hotSpots (hotSpots scene ++ [hotspotData])
                                            scene)
                              (scenes cfg)) cfg;
                       hotspotCounter := counter' |}
              end
          end
  end.

(** [window.deleteHotspot(index)] *)
Definition deleteHotspot (currentScene : string) (index : Z)
           (cfg : TourConfig) : outcome TourConfig :=
  if currentScene =? "" then Rejected
  else
    match obj_get currentScene (scenes cfg) with
    | None => Fault
    | Some scene =>
        if ((0 <=? index) && (index <? Z.of_nat (length (hotSpots scene))))%Z
        then Completed
               (set_scenes
                  (obj_replace currentScene
                     (set_hotSpots
                        (splice_remove (Z.to_nat index) (hotSpots scene)) scene)
                     (scenes cfg)) cfg)
        else Rejected
    end.

(** [handleHotspotDrop]: the hotspot dragged from [draggedHotspotIndex] is
    dropped on the item at [targetIndex]. *)
Definition handleHotspotDrop (currentScene : string)
           (draggedHotspotIndex : option nat) (targetIndex : nat)
           (cfg : TourConfig) : outcome TourConfig :=
  match draggedHotspotIndex with
  | None => Rejected
  | Some dragged =>
      if (targetIndex =? dragged)%nat then Rejected
      else
        match obj_get currentScene (scenes cfg) with
        | None => Fault
        | Some scene =>
            match nth_error (hotSpots scene) dragged with
            | None => Fault
            | Some draggedHotspot =>
                Completed
                  (set_scenes
                     (obj_replace currentScene
                        (set_hotSpots
                           (splice_insert targetIndex draggedHotspot
                              (splice_remove dragged (hotSpots scene))) scene)
                        (scenes cfg)) cfg)
            end
        end
  end.

(** ** Scene order *)

(** The body of the loop of [reorderScenes] that rebuilds the scene
    object from the old one, [src], for an id that is an own key of [src]
    or names nothing at all.  (For the name of an inherited property the
    test of the code is truthy as well, see [obj_truthy]: the code then
    copies a member of [Object.prototype] into the map or, for
    [__proto__], gives the map another prototype.  Neither is a scene
    map; the statements that depend on what is copied are for
    [own_names].) *)
Definition rebuild_step (src : obj Scene) (reorderedScenes : obj Scene)
           (sceneId' : string) : obj Scene :=
  match obj_get sceneId' src with
  | Some scene => obj_set sceneId' scene reorderedScenes
  | None => reorderedScenes
  end.

(** [reorderScenes]: no check is made on [newOrder]. *)
Definition reorderScenes (newOrder : list string) (cfg : TourConfig)
  : TourConfig :=
  {| firstScene := firstScene cfg;
     sceneOrder := newOrder;
     sceneFadeDuration := sceneFadeDuration cfg;
     autoLoad := autoLoad cfg;
     scenes := fold_left (rebuild_step (scenes cfg)) newOrder [] |}.

(** Exchanging the array elements at [i] and [j]. *)
Definition swap (i j : nat) (a : list string) : list string :=
  match nth_error a i, nth_error a j with
  | Some x, Some y => array_set j x (array_set i y a)
  | _, _ => a
  end.

(** [moveScene(sceneId, direction)] *)
Definition moveScene (sceneId' direction : string) (cfg : TourConfig)
  : outcome TourConfig :=
  match indexOf sceneId' (sceneOrder cfg) with
  | None => Rejected
  | Some currentIndex =>
      let newOrder :=
        if (direction =? "up") && (0 <? currentIndex)%nat
        then swap (currentIndex - 1) currentIndex (sceneOrder cfg)
        else if (direction =? "down")
                && (currentIndex <? length (sceneOrder cfg) - 1)%nat
        then swap currentIndex (currentIndex + 1) (sceneOrder cfg)
        else sceneOrder cfg in
      Completed (reorderScenes newOrder cfg)
  end.

(** [handleDrop]: the scene [draggedSceneId] is dropped on the list item of
    [targetSceneId]. *)
Definition handleDrop (draggedSceneId targetSceneId : string)
           (cfg : TourConfig) : outcome TourConfig :=
  if (draggedSceneId =? "") || (targetSceneId =? "")
     || (draggedSceneId =? targetSceneId)
  then Rejected
  else
    match indexOf draggedSceneId (sceneOrder cfg),
          indexOf targetSceneId (sceneOrder cfg) with
    | Some draggedIndex, Some targetIndex =>
        Completed
          (reorderScenes
             (splice_insert targetIndex draggedSceneId
                (splice_remove draggedIndex (sceneOrder cfg)))
             cfg)
    | _, _ => Rejected
    end.

(** ** Import *)

(** [hotspot.id] is falsy or blank. *)
Definition id_missing (h : Hotspot) : bool :=
  match hs_id h with
  | Some i => (i =? "") || (trim i =? "")
  | None => true
  end.

(** The body of the first pass of [ensureHotspotIds] for one hotspot. *)
Definition scan_counter (maxCounter : Z) (h : Hotspot) : Z :=
  match hs_id h with
  | Some i =>
      if negb (i =? "") && String.prefix "hs_" i && (3 <=? partsLength i)%nat
      then match parseInt (lastPart i) with
           | Some counter => Z.max maxCounter counter
           | None => maxCounter
           end
      else maxCounter
  | None => maxCounter
  end.

Definition maxCounter (o : obj Scene) : Z :=
  fold_left (fun m scene => fold_left scan_counter (hotSpots scene) m)
            (obj_values o) 0%Z.

(** [fixMissingHotspotId], threading the global [hotspotCounter] (exact
    up to [MAX_SAFE_INTEGER], as in [confirmAddHotspot]). *)
Definition fixMissingHotspotId (hotspot : Hotspot) (sceneId' : string)
           (counter : N) : Hotspot * N :=
  if id_missing hotspot
  then (set_id (fallbackId sceneId' counter) hotspot, (counter + 1)%N)
  else (hotspot, counter).

Fixpoint fix_hotspots (sceneId' : string) (hs : list Hotspot) (counter : N)
  : list Hotspot * N :=
  match hs with
  | [] => ([], counter)
  | h :: r =>
      let '(h', c1) := fixMissingHotspotId h sceneId' counter in
      let '(r', c2) := fix_hotspots sceneId' r c1 in
      (h' :: r', c2)
  end.

Fixpoint fix_scenes (o : obj Scene) (counter : N) : obj Scene * N :=
  match o with
  | [] => ([], counter)
  | (k, scene) :: r =>
      let '(hs', c1) := fix_hotspots k (hotSpots scene) counter in
      let '(r', c2) := fix_scenes r c1 in
      ((k, set_hotSpots hs' scene) :: r', c2)
  end.

(** [ensureHotspotIds]: seed the counter, then give ids where missing.
    [maxCounter + 1] is exact when [maxCounter] is a safe integer. *)
Definition ensureHotspotIds (cfg : TourConfig) : Editor :=
  let seed := Z.to_N (maxCounter (scenes cfg) + 1) in
  let '(scenes', counter) := fix_scenes (scenes cfg) seed in
  {| tourConfig := set_scenes scenes' cfg; hotspotCounter := counter |}.

(** A parsed import file: as [TourConfig], but [default.sceneOrder] may be
    absent. *)
Record Imported := mkImported {
  imp_firstScene : string;
  imp_sceneOrder : option (list string);
  imp_sceneFadeDuration : float;
  imp_autoLoad : bool;
  imp_scenes : obj Scene
}.

(** The [reader.onload] callback of [importConfiguration] after a
    successful [JSON.parse]. *)
Definition importConfiguration (imported : Imported) : Editor :=
  let cfg0 :=
    {| firstScene := imp_firstScene imported;
       sceneOrder :=
         match imp_sceneOrder imported with
         | Some (x :: r) => x :: r
         | _ => obj_keys (imp_scenes imported)
         end;
       sceneFadeDuration := imp_sceneFadeDuration imported;
       autoLoad := imp_autoLoad imported;
       scenes := imp_scenes imported |} in
  let ed := ensureHotspotIds cfg0 in
  {| tourConfig := reorderScenes (sceneOrder (tourConfig ed)) (tourConfig ed);
     hotspotCounter := hotspotCounter ed |}.

(** ** Vocabulary of the statements *)

(** What [updateHotspotReferences] does to one hotspot. *)
Definition refreshed (targetSceneId : string) (updates : Updates) (h : Hotspot)
  : Hotspot :=
  if sceneId h =? targetSceneId then apply_updates updates h else h.

(** [hotspot.sceneId === targetSceneId] *)
Definition targets (targetSceneId : string) (h : Hotspot) : bool :=
  sceneId h =? targetSceneId.

(** The key a scene has after [renameScene]. *)
Definition renamed (oldSceneId newSceneId k : string) : string :=
  if k =? oldSceneId then newSceneId else k.

Definition rename_entry (oldSceneId newSceneId : string) (e : string * Scene)
  : string * Scene :=
  (renamed oldSceneId newSceneId (fst e), snd e).

(** The number a string of decimal digits denotes (leading zeros allowed). *)
Definition numeral_value (s : string) : option N :=
  option_map N.of_uint (DecimalString.NilEmpty.uint_of_string s).

(** The candidates for the counters [c], [c+1], ..., [c+n-1]. *)
Fixpoint candidates (t : string) (c : N) (n : nat) : list (option string) :=
  match n with
  | O => []
  | S n' => Some (candidateId t c) :: candidates t (c + 1) n'
  end.

(** ** The four global invariants *)

(** Hotspot ids of the scenes of an object, in document order. *)
Definition ids_of (o : obj Scene) : list (option string) :=
  map hs_id (flat_map hotSpots (obj_values o)).

(** All hotspot ids of the document, in document order. *)
Definition hotspot_ids (cfg : TourConfig) : list (option string) :=
  ids_of (scenes cfg).

(** 1. No two hotspots of the document carry the same id. *)
Definition ids_unique (cfg : TourConfig) : Prop :=
  NoDup (hotspot_ids cfg).

(** 2. Every hotspot targets an existing scene other than its owner. *)
Definition links_sound (cfg : TourConfig) : Prop :=
  forall k sc x,
    In (k, sc) (scenes cfg) -> In x (hotSpots sc) ->
    In (sceneId x) (obj_keys (scenes cfg)) /\ sceneId x <> k.

(** 3. [sceneOrder] lists every scene id once and nothing else. *)
Definition order_sound (cfg : TourConfig) : Prop :=
  Permutation (sceneOrder cfg) (obj_keys (scenes cfg)).

(** 4. [firstScene] is empty or an existing scene id. *)
Definition first_sound (cfg : TourConfig) : Prop :=
  firstScene cfg = "" \/ In (firstScene cfg) (obj_keys (scenes cfg)).

(** The four invariants; an object never holds a key twice. *)
Definition invariants (cfg : TourConfig) : Prop :=
  NoDup (obj_keys (scenes cfg))
  /\ ids_unique cfg /\ links_sound cfg /\ order_sound cfg /\ first_sound cfg.

(** ** Sequences of operations *)

(** The operations of the editor, each with what the user supplies. *)
Inductive operation : Type :=
| AddScene (idField pathField : string) (maxLevel' cubeResolution' : float)
| RenameScene (oldSceneId newSceneId : string) (confirmed : bool)
| DeleteScene (currentScene : string) (confirmed : bool)
| AddHotspot (currentScene textField idField targetScene : string)
             (hotspotPitch hotspotYaw : float)
| EditHotspot (currentScene : string) (editIndex : nat)
              (textField idField targetScene : string)
              (hotspotPitch hotspotYaw : float)
| DeleteHotspot (currentScene : string) (index : Z)
| ReorderHotspots (currentScene : string) (dragged targetIndex : nat)
| ReorderScenes (newOrder : list string)
| MoveScene (sceneId' direction : string)
| DropScene (draggedSceneId targetSceneId : string)
| CaptureView (currentScene : string) (pitch' yaw' hfov' : float).

Definition completed {S} (o : outcome S) : option S :=
  match o with
  | Completed s => Some s
  | _ => None
  end.

Definition with_config (ed : Editor) (o : option TourConfig) : option Editor :=
  option_map (fun cfg => {| tourConfig := cfg;
                            hotspotCounter := hotspotCounter ed |}) o.

(** The editor after an operation that completes successfully. *)
Definition exec (op : operation) (ed : Editor) : option Editor :=
  let cfg := tourConfig ed in
  match op with
  | AddScene i p ml cr => with_config ed (completed (addNewScene i p ml cr cfg))
  | RenameScene o n c =>
      let '(ok, cfg') := renameScene o n c cfg in
      if ok then with_config ed (Some cfg') else None
  | DeleteScene cur c => with_config ed (completed (deleteCurrentScene cur c cfg))
  | AddHotspot cur t i tg p y =>
      completed (confirmAddHotspot cur (Some AddingHotspot) t i tg p y ed)
  | EditHotspot cur e t i tg p y =>
      completed (confirmAddHotspot cur (Some (EditingHotspot e)) t i tg p y ed)
  | DeleteHotspot cur i => with_config ed (completed (deleteHotspot cur i cfg))
  | ReorderHotspots cur d t =>
      with_config ed (completed (handleHotspotDrop cur (Some d) t cfg))
  | ReorderScenes newOrder => with_config ed (Some (reorderScenes newOrder cfg))
  | MoveScene s d => with_config ed (completed (moveScene s d cfg))
  | DropScene d t => with_config ed (completed (handleDrop d t cfg))
  | CaptureView cur p y h =>
      with_config ed
        (option_map fst (completed (updateSceneWithCapturedView cur p y h cfg)))
  end.

(** What the user interface guarantees about the arguments: a rename is
    asked for the selected, existing scene; the target of a hotspot is
    picked from the drop-down of the dialog and its id is typed in;
    [reorderScenes] receives a rearrangement of the current order. *)
Definition admissible (op : operation) (ed : Editor) : Prop :=
  let cfg := tourConfig ed in
  match op with
  | RenameScene o _ _ => In o (obj_keys (scenes cfg))
  | AddHotspot cur _ i tg _ _ =>
      trim i <> "" /\ In tg (hotspotTargetOptions cur cfg)
  | EditHotspot cur _ _ i tg _ _ =>
      trim i <> "" /\ In tg (hotspotTargetOptions cur cfg)
  | ReorderScenes newOrder => Permutation newOrder (sceneOrder cfg)
  | _ => True
  end.

(** [steps ed ops eds]: from [ed], the operations [ops] are admissible and
    complete one after the other, passing through the editors [eds]. *)
Inductive steps : Editor -> list operation -> list Editor -> Prop :=
| steps_nil ed : steps ed [] []
| steps_cons ed op ed' ops eds :
    admissible op ed -> exec op ed = Some ed' -> steps ed' ops eds ->
    steps ed (op :: ops) (ed' :: eds).

(** ** Concrete documents used in examples *)

(** Two scenes "A" and "B" without hotspots, as two calls of [addNewScene]
    leave them in a fresh editor. *)
Definition doc_AB : TourConfig :=
  {| firstScene := "A"; sceneOrder := ["A"; "B"];
     sceneFadeDuration := 1000%float; autoLoad := true;
     scenes := [("A", newScene "./A/" 4 4096); ("B", newScene "./B/" 4 4096)] |}.

(** A hotspot from some scene to scene [target], as [confirmAddHotspot]
    builds it when the target's camera is the default one. *)
Definition link (hid label target : string) : Hotspot :=
  {| hs_pitch := 0%float; hs_yaw := 0%float; hs_type := "scene";
     text := label; sceneId := target; hs_id := Some hid;
     targetPitch := 0%float; targetYaw := 0%float; targetHfov := 100%float |}.

(** Scenes "A" and "B" linked to each other. *)
Definition doc_linked : TourConfig :=
  {| firstScene := "A"; sceneOrder := ["A"; "B"];
     sceneFadeDuration := 1000%float; autoLoad := true;
     scenes :=
       [("A", set_hotSpots [link "hs_B_001" "B" "B"] (newScene "./A/" 4 4096));
        ("B", set_hotSpots [link "hs_A_001" "Go to A" "A"]
                           (newScene "./B/" 4 4096))] |}.

(** The entries [reorderScenes] copies for the ids of [newOrder]. *)
Definition pick (src : obj Scene) (newOrder : list string) : obj Scene :=
  flat_map (fun k => match obj_get k src with
                     | Some sc => [(k, sc)]
                     | None => []
                     end) newOrder.

(** Whether a string holds a character that is not white space. *)
Definition has_ink (s : string) : bool :=
  existsb (fun c => negb (is_ws c)) (list_ascii_of_string s).

(** Two scene entries that agree up to a renaming [f] of scene ids: the key
    and the hotspot targets are renamed, the hotspot ids are the same. *)
Definition entry_renamed (f : string -> string) (e e' : string * Scene) : Prop :=
  fst e' = f (fst e)
  /\ map hs_id (hotSpots (snd e')) = map hs_id (hotSpots (snd e))
  /\ map sceneId (hotSpots (snd e')) = map f (map sceneId (hotSpots (snd e))).

(** A session that uses every operation. *)
Definition session : list operation :=
  [ AddScene "lobby" "./lobby/" 4 4096;
    AddScene " hall " "./hall/" 4 4096;
    AddScene "roof" "./roof/" 5 8192;
    AddHotspot "lobby" "" "to_hall" "hall" 1 2;
    AddHotspot "lobby" "Up" "to_roof" "roof" 3 4;
    AddHotspot "roof" "" "down" "hall" 5 6;
    CaptureView "hall" 7 8 90;
    RenameScene "hall" "atrium" true;
    EditHotspot "lobby" 0 "Atrium" "to_atrium" "roof" 9 10;
    ReorderHotspots "lobby" 0 1;
    DeleteHotspot "lobby" 0;
    MoveScene "roof" "up";
    DropScene "lobby" "roof";
    ReorderScenes ["atrium"; "roof"; "lobby"];
    DeleteScene "atrium" true ].

(** Running operations one after the other, as long as each completes. *)
Fixpoint run (ops : list operation) (ed : Editor) : option Editor :=
  match ops with
  | [] => Some ed
  | op :: r =>
      match exec op ed with
      | Some ed' => run r ed'
      | None => None
      end
  end.

(** Scene "A" with two hotspots of the same id: the first was given the
    id "hs_A_0" by the user, the second was added with the id field left
    empty in a fresh editor. *)
Definition doc_twins : TourConfig :=
  {| firstScene := "A"; sceneOrder := ["A"; "B"];
     sceneFadeDuration := 1000%float; autoLoad := true;
     scenes :=
       [("A", set_hotSpots [link "hs_A_0" "B" "B"; link "hs_A_0" "B" "B"]
                           (newScene "./A/" 4 4096));
        ("B", newScene "./B/" 4 4096)] |}.

(** A scene whose id has a blank inside, as [addNewScene] accepts it. *)
Definition doc_spaced : TourConfig :=
  {| firstScene := "my scene"; sceneOrder := ["my scene"];
     sceneFadeDuration := 1000%float; autoLoad := true;
     scenes := [("my scene", newScene "./p/" 4 4096)] |}.

(** An import file whose [sceneOrder] names scene "B" twice. *)
Definition file_repeated : Imported :=
  {| imp_firstScene := "A"; imp_sceneOrder := Some ["A"; "B"; "B"];
     imp_sceneFadeDuration := 1000%float; imp_autoLoad := true;
     imp_scenes := scenes doc_AB |}.

(** Scenes "a", "b", "c" without hotspots, added in this order. *)
Definition doc_abc : TourConfig :=
  {| firstScene := "a"; sceneOrder := ["a"; "b"; "c"];
     sceneFadeDuration := 1000%float; autoLoad := true;
     scenes := [("a", newScene "./a/" 4 4096); ("b", newScene "./b/" 4 4096);
                ("c", newScene "./c/" 4 4096)] |}.

(** An imported scene whose only hotspot has an id with a blank inside. *)
Definition doc_blank_id : TourConfig :=
  {| firstScene := "A"; sceneOrder := ["A"; "B"];
     sceneFadeDuration := 1000%float; autoLoad := true;
     scenes :=
       [("A", set_hotSpots [link "to hall" "B" "B"] (newScene "./A/" 4 4096));
        ("B", newScene "./B/" 4 4096)] |}.

(** ** Vocabulary for the import *)

(** All hotspots of the scenes of an object, in document order. *)
Definition all_hotspots (o : obj Scene) : list Hotspot :=
  flat_map hotSpots (obj_values o).

(** The number [ensureHotspotIds] reads off an id: [parseInt] of what
    follows the last underscore. *)
Definition suffix_number (i : option string) : option Z :=
  match i with
  | Some s => parseInt (lastPart s)
  | None => None
  end.

(** An id that the first pass of [ensureHotspotIds] takes into account. *)
Definition counted (s : string) : bool :=
  negb (s =? "") && String.prefix "hs_" s && (3 <=? partsLength s)%nat.

(** An id that carries a name which the first pass takes into account. *)
Definition well_formed_id (i : option string) : Prop :=
  exists s, i = Some s /\ counted s = true.

(** The ids given by the second pass: those of the hotspots of [after]
    whose counterpart in [before] had none. *)
Definition assigned_ids (before after : list Hotspot) : list (option string) :=
  map (fun p => hs_id (snd p))
      (filter (fun p => id_missing (fst p)) (combine before after)).

(** What the second pass does to one hotspot of scene [owner]. *)
Definition id_given (seed : N) (owner : string) (h h' : Hotspot) : Prop :=
  if id_missing h
  then exists n, (seed <= n)%N /\ h' = set_id (fallbackId owner n) h
  else h' = h.

(** ... and to one scene. *)
Definition ids_given (seed : N) (e e' : string * Scene) : Prop :=
  fst e' = fst e
  /\ exists hs', snd e' = set_hotSpots hs' (snd e)
                 /\ Forall2 (id_given seed (fst e)) (hotSpots (snd e)) hs'.

(** The counter values [c], [c+1], ..., [c+m-1], as [suffix_number] reads
    them. *)
Fixpoint counter_run (c : N) (m : nat) : list (option Z) :=
  match m with
  | O => []
  | S m' => Some (Z.of_N c) :: counter_run (c + 1) m'
  end.

(** [k] may come before [k'] in the own-property order of one object. *)
Definition key_before (k k' : string) : bool :=
  match arrayIndex k, arrayIndex k' with
  | Some n, Some m => (n <? m)%N
  | Some _, None => true
  | None, Some _ => false
  | None, None => true
  end.

(** A list of keys in an order in which an object can enumerate them:
    array indices ascending, before all other keys. *)
Fixpoint js_ordered (l : list string) : bool :=
  match l with
  | [] => true
  | k :: r => forallb (key_before k) r && js_ordered r
  end.

(** An import file without [sceneOrder]; the hotspot of "B" has no id. *)
Definition file_legacy : Imported :=
  {| imp_firstScene := "A"; imp_sceneOrder := None;
     imp_sceneFadeDuration := 1000%float; imp_autoLoad := true;
     imp_scenes :=
       [("A", set_hotSpots [link "hs_B_001" "B" "B"] (newScene "./A/" 4 4096));
        ("B", set_hotSpots
                [{| hs_pitch := 0%float; hs_yaw := 0%float; hs_type := "scene";
                    text := "A"; sceneId := "A"; hs_id := None;
                    targetPitch := 0%float; targetYaw := 0%float;
                    targetHfov := 100%float |}]
                (newScene "./B/" 4 4096))] |}.

(** An import file whose [sceneOrder] names a scene that does not exist. *)
Definition file_dangling : Imported :=
  {| imp_firstScene := "A"; imp_sceneOrder := Some ["B"; "ghost"; "A"];
     imp_sceneFadeDuration := 1000%float; imp_autoLoad := true;
     imp_scenes := scenes doc_AB |}.

(** ** Further functions of the editor

    The functions below also read or write the selection globals
    [currentScene] and [currentSceneIndex] and the fields of the dialogs.
    As before, what a function reads is an argument and what it writes is
    returned; whether a viewer exists is a boolean argument where the code
    tests it.  Callbacks that the viewer may run on its own (its
    [scenechange] event) are not part of a call; [pressed] adds the
    handler of that event to what a navigation button does. *)

(** *** The count shown before a scene is deleted *)

(** The object [{own, referencing, total}] of [countRelatedHotspots]. *)
Record RelatedHotspots := mkRelatedHotspots {
  own : nat;
  referencing : nat;
  total : nat
}.

(** The body of the [forEach] over [Object.keys(tourConfig.scenes)]: the
    scene of each key is looked up in the object again. *)
Definition count_referencing (sceneId' : string) (o : obj Scene)
           (referencingHotspots : nat) (otherSceneId : string) : nat :=
  if negb (otherSceneId =? sceneId')
  then match obj_get otherSceneId o with
       | Some other =>
           referencingHotspots
           + length (filter (fun hotspot => sceneId hotspot =? sceneId')
                            (hotSpots other))
       | None => referencingHotspots
       end
  else referencingHotspots.

Definition countRelatedHotspots (sceneId' : string) (cfg : TourConfig)
  : RelatedHotspots :=
  let ownHotspots :=
    match obj_get sceneId' (scenes cfg) with
    | Some scene => length (hotSpots scene)
    | None => 0%nat
    end in
  let referencingHotspots :=
    fold_left (count_referencing sceneId' (scenes cfg))
              (obj_keys (scenes cfg)) 0%nat in
  {| own := ownHotspots; referencing := referencingHotspots;
     total := (ownHotspots + referencingHotspots)%nat |}.

(** *** Previous / next navigation *)

(** [a[i]] for a number [i]; [None] is [undefined]. *)
Definition array_get {A} (a : list A) (i : Z) : option A :=
  if (i <? 0)%Z then None else nth_error a (Z.to_nat i).

(** What a navigation function asks of the viewer. *)
Inductive ViewerCall : Type :=
| NoCall
| LoadScene (sceneId' : option string).

(** [updateNavigationIndex]: the new value of the global
    [currentSceneIndex].  ([tourConfig.default.sceneOrder] is an array,
    which is truthy also when empty, so the [|| Object.keys(...)] part is
    never evaluated.) *)
Definition updateNavigationIndex (sceneId' : string) (cfg : TourConfig)
           (currentSceneIndex : Z) : Z :=
  match indexOf sceneId' (sceneOrder cfg) with
  | Some index => Z.of_nat index
  | None => currentSceneIndex
  end.

(** [nextScene]: the new [currentSceneIndex] and the call made to the
    viewer; [viewer] tells whether a viewer exists.  JavaScript's [%] is
    the truncated remainder, [Z.rem]. *)
Definition nextScene (viewer : bool) (cfg : TourConfig)
           (currentSceneIndex : Z) : Z * ViewerCall :=
  let sceneOrder' := sceneOrder cfg in
  if (0 <? length sceneOrder')%nat && viewer
  then
    let i := Z.rem (currentSceneIndex + 1) (Z.of_nat (length sceneOrder')) in
    (i, LoadScene (array_get sceneOrder' i))
  else (currentSceneIndex, NoCall).

(** [prevScene] *)
Definition prevScene (viewer : bool) (cfg : TourConfig)
           (currentSceneIndex : Z) : Z * ViewerCall :=
  let sceneOrder' := sceneOrder cfg in
  if (0 <? length sceneOrder')%nat && viewer
  then
    let i := Z.rem (currentSceneIndex - 1 + Z.of_nat (length sceneOrder'))
                   (Z.of_nat (length sceneOrder')) in
    (i, LoadScene (array_get sceneOrder' i))
  else (currentSceneIndex, NoCall).

(** The global [currentSceneIndex] once a navigation button has been
    pressed: the button's function has run and asked the viewer for a
    scene; [fired] tells whether the viewer has since reported the scene
    change, on which the editor's [scenechange] handler calls
    [updateNavigationIndex] with the scene that was loaded. *)
Definition pressed (fired : bool) (cfg : TourConfig) (r : Z * ViewerCall) : Z :=
  match r with
  | (i, LoadScene (Some sceneId')) =>
      if fired then updateNavigationIndex sceneId' cfg i else i
  | (i, _) => i
  end.

(** *** The selected scene *)

(** The options [updateSceneDropdowns] puts into the scene drop-down: the
    placeholder with the empty value, then one option per scene. *)
Definition sceneOptions (cfg : TourConfig) : list string :=
  "" :: obj_keys (scenes cfg).

(** What [sceneSelect.value] reads after [sceneSelect.value = v]: [v] when
    an option has this value; otherwise no option is selected and the value
    reads as the empty string. *)
Definition select_value (options : list string) (v : string) : string :=
  if existsb (fun o => o =? v) options then v else "".

(** The global [currentScene] after the call [renameScene(oldSceneId,
    newSceneId)]: a rename that is carried out rebuilds the drop-down, sets
    it to [newSceneId] and calls [selectScene], which reads the selection
    back; the early returns leave the global alone. *)
Definition renameScene_selection (oldSceneId newSceneId : string)
           (confirmed : bool) (cfg : TourConfig) (currentScene : string)
  : string :=
  let '(ok, cfg') := renameScene oldSceneId newSceneId confirmed cfg in
  if ok && negb (oldSceneId =? newSceneId)
  then select_value (sceneOptions cfg') newSceneId
  else currentScene.

(** The scene record after the assignments of [editCurrentScene]. *)
Definition edited_scene (newScenePath : string)
           (newHfov newPitch newYaw newMaxLevel newCubeResolution : float)
           (scene : Scene) : Scene :=
  {| hfov := newHfov; pitch := newPitch; yaw := newYaw;
     sc_type := sc_type scene;
     preview := newScenePath ++ "1/f_0_0.jpg";
     multiRes :=
       {| basePath := newScenePath;
          path := path (multiRes scene);
          fallbackPath := fallbackPath (multiRes scene);
          extension := extension (multiRes scene);
          tileResolution := tileResolution (multiRes scene);
          maxLevel := newMaxLevel;
          cubeResolution := newCubeResolution |};
     hotSpots := hotSpots scene |}.

(** [editCurrentScene]: [idField] and [pathField] are the text fields of
    the dialog, the numbers are the parsed number fields, [confirmed] is
    the answer to the [confirm] dialog of [renameScene] if it is asked.
    The result is the document and the global [currentScene]. *)
Definition editCurrentScene (currentScene idField pathField : string)
           (newHfov newPitch newYaw newMaxLevel newCubeResolution : float)
           (confirmed : bool) (cfg : TourConfig)
  : outcome (TourConfig * string) :=
  if currentScene =? "" then Rejected
  else
    let newSceneId := trim idField in
    let newScenePath := trim pathField in
    if (newSceneId =? "") || (newScenePath =? "") then Rejected
    else
      let '(ok, cfg1, currentScene1) :=
        if negb (newSceneId =? currentScene)
        then (renameScene currentScene newSceneId confirmed cfg,
              renameScene_selection currentScene newSceneId confirmed cfg
                                    currentScene)
        else (true, cfg, currentScene) in
      if negb ok then Rejected
      else
        match obj_get currentScene1 (scenes cfg1) with
        | None => Fault
        | Some scene =>
            let scene' :=
              edited_scene newScenePath newHfov newPitch newYaw newMaxLevel
                           newCubeResolution scene in
            Completed
              (fst (updateHotspotReferences currentScene1
                      {| u_targetPitch := Some newPitch;
                         u_targetYaw := Some newYaw;
                         u_targetHfov := Some newHfov |}
                      (set_scenes
                         (obj_replace currentScene1 scene' (scenes cfg1))
                         cfg1)),
               currentScene1)
        end.

(** *** Vocabulary of the further statements *)

(** Every scene of the scene object is listed in [sceneOrder] (and the
    object holds no key twice). *)
Definition scenes_listed (cfg : TourConfig) : Prop :=
  NoDup (obj_keys (scenes cfg))
  /\ forall k, In k (obj_keys (scenes cfg)) -> In k (sceneOrder cfg).

(** The global counter is above every number that [ensureHotspotIds]
    would read off an id of the document. *)
Definition counter_above (ed : Editor) : Prop :=
  forall h s z,
    In h (all_hotspots (scenes (tourConfig ed))) ->
    hs_id h = Some s -> counted s = true ->
    parseInt (lastPart s) = Some z ->
    (z < Z.of_N (hotspotCounter ed))%Z.

(** The counter can still be printed and advanced without rounding. *)
Definition counter_exact (ed : Editor) : Prop :=
  (hotspotCounter ed <= MAX_SAFE_INTEGER)%N.

(** The numbers of an import are exact: the largest number read off an id
    of the file, plus one for every hotspot that lacks an id, is a safe
    integer, so that neither [parseInt] nor the counter rounds. *)
Definition import_exact (imported : Imported) : Prop :=
  (maxCounter (imp_scenes imported)
   + Z.of_nat (length (filter id_missing (all_hotspots (imp_scenes imported))))
   <= Z.of_N MAX_SAFE_INTEGER)%Z.

(** The scene order an import works with. *)
Definition import_order (imported : Imported) : list string :=
  match imp_sceneOrder imported with
  | Some (x :: r) => x :: r
  | _ => obj_keys (imp_scenes imported)
  end.

(** A file whose parsed content is the document [cfg]. *)
Definition file_of (cfg : TourConfig) : Imported :=
  {| imp_firstScene := firstScene cfg;
     imp_sceneOrder := Some (sceneOrder cfg);
     imp_sceneFadeDuration := sceneFadeDuration cfg;
     imp_autoLoad := autoLoad cfg;
     imp_scenes := scenes cfg |}.

(** *** The target drop-down of the hotspot dialog *)

(** The character class [\w]. *)
Definition is_word_char (c : ascii) : bool :=
  let n := nat_of_ascii c in
  ((97 <=? n) && (n <=? 122) || (65 <=? n) && (n <=? 90) || is_digit c
   || (n =? 95))%nat.

(** [/^hs_\w+_\d{3}$/.test(s)]: after the prefix [hs_], the string ends in
    an underscore and three digits, and what stands between is a
    non-empty run of word characters. *)
Definition generated_pattern (s : string) : bool :=
  String.prefix "hs_" s
  && match rev (list_ascii_of_string
                  (String.substring 3 (String.length s - 3) s)) with
     | d3 :: d2 :: d1 :: u :: w0 :: w =>
         is_digit d3 && is_digit d2 && is_digit d1 && Ascii.eqb u "_"
         && forallb is_word_char (w0 :: w)
     | _ => false
     end.

(** The [change] handler of the target drop-down: the text field and the
    id field of the dialog after the event.  ([None] only if the id
    generator gave no id, which never happens.) *)
Definition targetChanged (targetScene textField idField : string)
           (cfg : TourConfig) : option (string * string) :=
  if targetScene =? "" then Some (textField, idField)
  else
    let text' := if trim textField =? "" then targetScene else textField in
    let currentId := trim idField in
    if (currentId =? "") || generated_pattern currentId
    then option_map (fun newId => (text', newId))
                    (generateSceneBasedHotspotId targetScene cfg)
    else Some (text', idField).

(** The operations on scenes that are meant to leave the hotspots'
    identity alone. *)
Definition scene_operation (op : operation) : bool :=
  match op with
  | AddScene _ _ _ _ | RenameScene _ _ _ | MoveScene _ _ | DropScene _ _
  | CaptureView _ _ _ _ => true
  | _ => false
  end.

(** The arrival view of every hotspot whose target exists is the camera
    of the target scene. *)
Definition arrivals_synced (cfg : TourConfig) : Prop :=
  forall x t,
    In x (all_hotspots (scenes cfg)) ->
    obj_get (sceneId x) (scenes cfg) = Some t ->
    targetPitch x = pitch t /\ targetYaw x = yaw t /\ targetHfov x = hfov t.

(** A camera whose numbers [confirmAddHotspot] stores as they are: the
    defaults of [pitch || 0], [yaw || 0] and [hfov || 100] do not step
    in, and the JSON copy keeps each number. *)
Definition camera_plain (p y h : float) : Prop :=
  (num_or p 0 = p /\ num_or y 0 = y /\ num_or h 100 = h)
  /\ json_kept p = true /\ json_kept y = true /\ json_kept h = true.

Definition cameras_plain (cfg : TourConfig) : Prop :=
  forall k sc, obj_get k (scenes cfg) = Some sc ->
               camera_plain (pitch sc) (yaw sc) (hfov sc).

(** What the statement about arrival views requires of the arguments of
    an operation: a camera that is written is plain, and a scene order
    that is installed names no inherited property. *)
Definition plain_arguments (op : operation) : Prop :=
  match op with
  | CaptureView _ p y h => camera_plain p y h
  | ReorderScenes newOrder => own_names newOrder = true
  | _ => True
  end.

(** * Properties *)

(** ** Objects as maps *)

Section ObjectFacts.

Context {V : Type}.
Implicit Types (o : obj V) (k : string) (v : V).

Lemma obj_has_In k o : obj_has k o = true <-> In k (obj_keys o).
Proof.
  unfold obj_has. induction o as [|[k' v'] r IH]; simpl.
  - split; [discriminate | tauto].
  - destruct (String.eqb_spec k' k) as [->|Hne].
    + split; auto.
    + rewrite IH. split; [auto | intros [H|H]; [contradiction | exact H]].
Qed.

Lemma obj_has_false k o : obj_has k o = false <-> ~ In k (obj_keys o).
Proof.
  rewrite <- obj_has_In. destruct (obj_has k o); split; intros H;
    try discriminate; try reflexivity; try (intros H'; discriminate).
  exfalso; apply H; reflexivity.
Qed.

Lemma obj_get_None k o : obj_get k o = None <-> ~ In k (obj_keys o).
Proof.
  rewrite <- obj_has_false. unfold obj_has.
  destruct (obj_get k o); split; intros; try discriminate; reflexivity.
Qed.

Lemma obj_get_In k o v : obj_get k o = Some v -> In (k, v) o.
Proof.
  induction o as [|[k' v'] r IH]; simpl; [discriminate|].
  destruct (String.eqb_spec k' k) as [->|Hne].
  - intros [= ->]. now left.
  - intros H. right. now apply IH.
Qed.

Lemma obj_get_NoDup k o v :
  NoDup (obj_keys o) -> In (k, v) o -> obj_get k o = Some v.
Proof.
  induction o as [|[k' v'] r IH]; simpl; [tauto|].
  intros Hnd [H|H].
  - inversion H; subst. now rewrite String.eqb_refl.
  - inversion Hnd as [|? ? Hnotin Hnd']; subst.
    destruct (String.eqb_spec k' k) as [->|Hne].
    + exfalso. apply Hnotin. change k with (fst (k, v)). now apply in_map.
    + now apply IH.
Qed.

Lemma obj_keys_replace k v o : obj_keys (obj_replace k v o) = obj_keys o.
Proof.
  induction o as [|[k' v'] r IH]; simpl; [reflexivity|].
  destruct (k' =? k); simpl; [reflexivity | now rewrite IH].
Qed.

Lemma obj_get_replace k k' v o :
  obj_get k (obj_replace k' v o) =
  if (k' =? k) && obj_has k' o then Some v else obj_get k o.
Proof.
  unfold obj_has. induction o as [|[k0 v0] r IH]; simpl.
  - now rewrite andb_false_r.
  - destruct (String.eqb_spec k0 k') as [->|Hne]; simpl.
    + rewrite andb_true_r. destruct (String.eqb_spec k' k); reflexivity.
    + rewrite IH. destruct (String.eqb_spec k0 k) as [->|Hne'].
      * destruct (String.eqb_spec k' k); [congruence | reflexivity].
      * reflexivity.
Qed.

Lemma obj_keys_insert_index n k v o :
  Permutation (obj_keys (obj_insert_index n k v o)) (k :: obj_keys o).
Proof.
  induction o as [|[k' v'] r IH]; simpl; [reflexivity|].
  destruct (arrayIndex k') as [m|]; [|reflexivity].
  destruct (m <? n)%N; simpl; [|reflexivity].
  rewrite IH. apply perm_swap.
Qed.

Lemma obj_get_insert_index n k k' v o :
  obj_get k' o = None ->
  obj_get k (obj_insert_index n k' v o) =
  if k' =? k then Some v else obj_get k o.
Proof.
  induction o as [|[k0 v0] r IH]; simpl; [reflexivity|].
  destruct (String.eqb_spec k0 k') as [->|Hne]; [discriminate|].
  intros Hnone.
  destruct (arrayIndex k0) as [m|]; [destruct (m <? n)%N|]; simpl;
    try reflexivity.
  rewrite IH by assumption.
  destruct (String.eqb_spec k0 k) as [->|Hne'];
    destruct (String.eqb_spec k' k); congruence.
Qed.

Lemma obj_get_app k o1 o2 :
  obj_get k (o1 ++ o2) =
  match obj_get k o1 with Some v => Some v | None => obj_get k o2 end.
Proof.
  induction o1 as [|[k0 v0] r IH]; simpl; [reflexivity|].
  destruct (k0 =? k); [reflexivity | exact IH].
Qed.

(** Reading after a write: [o[k'] = v; o[k]]. *)
Lemma obj_get_set k k' v o :
  obj_get k (obj_set k' v o) = if k' =? k then Some v else obj_get k o.
Proof.
  unfold obj_set. destruct (obj_has k' o) eqn:Hhas.
  - rewrite obj_get_replace, Hhas, andb_true_r. reflexivity.
  - assert (Hnone : obj_get k' o = None).
    { unfold obj_has in Hhas. destruct (obj_get k' o); [discriminate|reflexivity]. }
    destruct (arrayIndex k') as [n|].
    + now apply obj_get_insert_index.
    + rewrite obj_get_app. simpl.
      destruct (String.eqb_spec k' k) as [->|Hne].
      * now rewrite Hnone.
      * destruct (obj_get k o); reflexivity.
Qed.

Lemma obj_keys_set_present k v o :
  obj_has k o = true -> obj_keys (obj_set k v o) = obj_keys o.
Proof.
  intros H. unfold obj_set. rewrite H. apply obj_keys_replace.
Qed.

Lemma obj_keys_set_fresh k v o :
  obj_has k o = false -> Permutation (obj_keys (obj_set k v o)) (k :: obj_keys o).
Proof.
  intros H. unfold obj_set. rewrite H.
  destruct (arrayIndex k).
  - apply obj_keys_insert_index.
  - unfold obj_keys. rewrite map_app. simpl.
    symmetry. apply Permutation_cons_append.
Qed.

(** A key that is no array index is appended after all present keys. *)
Lemma obj_set_fresh_string k v o :
  obj_has k o = false -> arrayIndex k = None -> obj_set k v o = o ++ [(k, v)].
Proof.
  intros H1 H2. unfold obj_set. now rewrite H1, H2.
Qed.

Lemma obj_keys_set_NoDup k v o :
  NoDup (obj_keys o) -> NoDup (obj_keys (obj_set k v o)).
Proof.
  intros Hnd. destruct (obj_has k o) eqn:Hhas.
  - now rewrite obj_keys_set_present.
  - eapply Permutation_NoDup.
    + symmetry. now apply obj_keys_set_fresh.
    + constructor; [now apply obj_has_false | assumption].
Qed.

Lemma obj_keys_set_In k k' v o :
  In k (obj_keys (obj_set k' v o)) <-> k = k' \/ In k (obj_keys o).
Proof.
  rewrite <- !obj_has_In. unfold obj_has. rewrite obj_get_set.
  destruct (String.eqb_spec k' k) as [->|Hne].
  - split; auto.
  - split; [auto | intros [->|H]; [contradiction | exact H]].
Qed.

Lemma obj_keys_delete k o :
  obj_keys (obj_delete k o) = filter (fun k' => negb (k' =? k)) (obj_keys o).
Proof.
  induction o as [|[k' v'] r IH]; simpl; [reflexivity|].
  destruct (k' =? k); simpl; now rewrite IH.
Qed.

Lemma obj_get_delete k k' o :
  obj_get k (obj_delete k' o) = if k' =? k then None else obj_get k o.
Proof.
  induction o as [|[k0 v0] r IH]; simpl.
  - now destruct (k' =? k).
  - destruct (String.eqb_spec k0 k') as [->|Hne]; simpl.
    + rewrite IH. destruct (String.eqb_spec k' k); reflexivity.
    + rewrite IH. destruct (String.eqb_spec k0 k) as [->|Hne'].
      * destruct (String.eqb_spec k' k); [congruence | reflexivity].
      * reflexivity.
Qed.

Lemma obj_keys_map (f : string -> V -> V) o : obj_keys (obj_map f o) = obj_keys o.
Proof.
  unfold obj_keys, obj_map. rewrite map_map. reflexivity.
Qed.

Lemma obj_get_map (f : string -> V -> V) k o :
  obj_get k (obj_map f o) = option_map (f k) (obj_get k o).
Proof.
  induction o as [|[k0 v0] r IH]; simpl; [reflexivity|].
  destruct (String.eqb_spec k0 k) as [->|Hne]; [reflexivity | exact IH].
Qed.

End ObjectFacts.

(** ** Strings *)

Lemma is_id_char_not_ws c : is_id_char c = true -> is_ws c = false.
Proof.
  destruct c as [[] [] [] [] [] [] [] []]; vm_compute; congruence.
Qed.

Lemma string_rev_involutive s : string_rev (string_rev s) = s.
Proof.
  unfold string_rev.
  rewrite list_ascii_of_string_of_list_ascii, rev_involutive.
  apply string_of_list_ascii_of_string.
Qed.

Lemma trimStart_head c r : is_ws c = false -> trimStart (String c r) = String c r.
Proof. intros H. simpl. now rewrite H. Qed.

Lemma rev_head_forallb (p : ascii -> bool) (l : list ascii) :
  l <> [] -> forallb p l = true ->
  exists c r, rev l = c :: r /\ p c = true.
Proof.
  intros Hne Hall.
  destruct (rev l) as [|c r] eqn:Hrev.
  - exfalso. apply Hne. rewrite <- (rev_involutive l), Hrev. reflexivity.
  - exists c, r. split; [reflexivity|].
    rewrite forallb_forall in Hall. apply Hall.
    apply in_rev. rewrite Hrev. now left.
Qed.

(** An id that matches the pattern holds no white space: trimming keeps it. *)
Lemma trim_id_pattern s : id_pattern s = true -> trim s = s.
Proof.
  unfold id_pattern. intros H. apply andb_true_iff in H as [Hne Hall].
  destruct s as [|c r]; [discriminate|].
  assert (Hc : is_ws c = false).
  { simpl in Hall. apply andb_true_iff in Hall as [Hc _].
    now apply is_id_char_not_ws. }
  unfold trim. rewrite trimStart_head by assumption.
  unfold trimEnd.
  destruct (rev_head_forallb is_id_char (list_ascii_of_string (String c r)))
    as (c' & r' & Hrev & Hc'); [discriminate | assumption |].
  assert (Hsr : string_rev (String c r) = String c' (string_of_list_ascii r')).
  { unfold string_rev. rewrite Hrev. reflexivity. }
  rewrite Hsr, trimStart_head by now apply is_id_char_not_ws.
  rewrite <- Hsr. apply string_rev_involutive.
Qed.

Lemma id_pattern_not_blank s :
  id_pattern s = true -> (s =? "") || (trim s =? "") = false.
Proof.
  intros H. rewrite (trim_id_pattern s H), orb_diag.
  unfold id_pattern in H. apply andb_true_iff in H as [H _].
  now apply negb_true_iff in H.
Qed.

Lemma blank_not_id_pattern s :
  (s =? "") || (trim s =? "") = true -> id_pattern s = false.
Proof.
  intros H. destruct (id_pattern s) eqn:Hp; [|reflexivity].
  rewrite id_pattern_not_blank in H by assumption. discriminate.
Qed.

(** ** Renaming a scene to its own id *)

(** C9 (as amended): renaming a scene to the identical id returns [true]
    exactly when the id matches the id pattern, and in every case leaves the
    document as it was.  The identity test comes after the emptiness and
    character checks, and before the duplicate check and the [confirm]
    dialog, whose answer therefore plays no part. *)
Theorem renameScene_identity (cfg : TourConfig) (x : string) (confirmed : bool) :
  renameScene x x confirmed cfg = (id_pattern x, cfg).
Proof.
  unfold renameScene.
  destruct ((x =? "") || (trim x =? "")) eqn:Hblank.
  - now rewrite blank_not_id_pattern.
  - destruct (id_pattern x); simpl; [|reflexivity].
    now rewrite String.eqb_refl.
Qed.

(** ** Reordering scenes *)

Lemma rebuild_get (src : obj Scene) (newOrder : list string) :
  forall (acc : obj Scene) (k : string),
    obj_get k (fold_left (rebuild_step src) newOrder acc) =
    if existsb (fun id => id =? k) newOrder
    then match obj_get k src with
         | Some scene => Some scene
         | None => obj_get k acc
         end
    else obj_get k acc.
Proof.
  induction newOrder as [|id r IH]; intros acc k; simpl; [reflexivity|].
  rewrite IH. unfold rebuild_step.
  destruct (String.eqb_spec id k) as [->|Hne]; simpl.
  - destruct (obj_get k src) as [scene|] eqn:Hsrc.
    + rewrite obj_get_set, String.eqb_refl.
      now destruct (existsb (fun id => id =? k) r).
    + now destruct (existsb (fun id => id =? k) r).
  - destruct (obj_get id src) as [scene|]; [|reflexivity].
    rewrite obj_get_set.
    destruct (String.eqb_spec id k); [contradiction | reflexivity].
Qed.

Lemma rebuild_NoDup (src : obj Scene) (newOrder : list string) :
  forall acc : obj Scene,
    NoDup (obj_keys acc) ->
    NoDup (obj_keys (fold_left (rebuild_step src) newOrder acc)).
Proof.
  induction newOrder as [|id r IH]; intros acc Hnd; simpl; [assumption|].
  apply IH. unfold rebuild_step.
  destruct (obj_get id src); [now apply obj_keys_set_NoDup | assumption].
Qed.

Lemma existsb_eqb_In (k : string) (l : list string) :
  existsb (fun id => id =? k) l = true <-> In k l.
Proof.
  rewrite existsb_exists. split.
  - intros (x & Hin & Heq). apply String.eqb_eq in Heq. now subst.
  - intros H. exists k. split; [assumption | apply String.eqb_refl].
Qed.

Lemma reorderScenes_scenes (newOrder : list string) (cfg : TourConfig) :
  scenes (reorderScenes newOrder cfg) =
  fold_left (rebuild_step (scenes cfg)) newOrder [].
Proof. reflexivity. Qed.

Lemma reorderScenes_get (newOrder : list string) (cfg : TourConfig) (k : string) :
  obj_get k (scenes (reorderScenes newOrder cfg)) =
  if existsb (fun id => id =? k) newOrder then obj_get k (scenes cfg) else None.
Proof.
  rewrite reorderScenes_scenes, rebuild_get. simpl.
  destruct (existsb _ newOrder); [|reflexivity].
  now destruct (obj_get k (scenes cfg)).
Qed.

Lemma reorderScenes_get_perm (newOrder : list string) (cfg : TourConfig) :
  Permutation newOrder (obj_keys (scenes cfg)) ->
  forall k, obj_get k (scenes (reorderScenes newOrder cfg)) =
            obj_get k (scenes cfg).
Proof.
  intros Hperm k. rewrite reorderScenes_get.
  destruct (existsb (fun id => id =? k) newOrder) eqn:Hex; [reflexivity|].
  symmetry. apply obj_get_None. intros Hin.
  apply (Permutation_in _ (Permutation_sym Hperm)) in Hin.
  apply existsb_eqb_In in Hin. congruence.
Qed.

Lemma reorderScenes_keys_NoDup (newOrder : list string) (cfg : TourConfig) :
  NoDup (obj_keys (scenes (reorderScenes newOrder cfg))).
Proof.
  rewrite reorderScenes_scenes. apply rebuild_NoDup. constructor.
Qed.

Lemma same_get_same_keys {V} (o1 o2 : obj V) :
  (forall k, obj_get k o1 = obj_get k o2) ->
  forall k, In k (obj_keys o1) <-> In k (obj_keys o2).
Proof.
  intros H k. rewrite <- !obj_has_In. unfold obj_has. now rewrite H.
Qed.

(** C2 (as amended): [reorderScenes] checks nothing and rejects nothing.
    It always installs [newOrder] as the scene order and rebuilds the scene
    map from what [newOrder] names; a scene whose id [newOrder] misses is
    dropped from the map.  When [newOrder] holds no name of a property
    that the scene map inherits from [Object.prototype] ("constructor",
    "toString", "__proto__", ...), for which [tourConfig.scenes[id]] is
    truthy without being a scene, a scene is kept, unchanged, exactly when
    its id occurs in [newOrder]; so a permutation of the scene ids keeps
    every scene and the key set of the map. *)
Theorem reorderScenes_replaces_and_rebuilds
        (newOrder : list string) (cfg : TourConfig) :
  let cfg' := reorderScenes newOrder cfg in
  sceneOrder cfg' = newOrder
  /\ firstScene cfg' = firstScene cfg
  /\ NoDup (obj_keys (scenes cfg'))
  /\ (forall k, In k (obj_keys (scenes cfg)) -> ~ In k newOrder ->
                obj_get k (scenes cfg') = None)
  /\ (own_names newOrder = true ->
      (forall k, obj_get k (scenes cfg') =
                 if existsb (fun id => id =? k) newOrder
                 then obj_get k (scenes cfg) else None)
      /\ (Permutation newOrder (obj_keys (scenes cfg)) ->
          (forall k, obj_get k (scenes cfg') = obj_get k (scenes cfg))
          /\ (forall k, In k (obj_keys (scenes cfg')) <-> In k newOrder))).
Proof.
  cbv zeta. split; [reflexivity|]. split; [reflexivity|].
  split; [apply reorderScenes_keys_NoDup|]. split.
  - intros k Hin Hnot. rewrite reorderScenes_get.
    destruct (existsb (fun id => id =? k) newOrder) eqn:Hex; [|reflexivity].
    apply existsb_eqb_In in Hex. contradiction.
  - intros _. split; [apply reorderScenes_get|]. intros Hperm.
    split; [now apply reorderScenes_get_perm|]. intros k. split; intros Hin.
    + apply (same_get_same_keys _ _ (reorderScenes_get_perm _ _ Hperm)) in Hin.
      now apply (Permutation_in _ (Permutation_sym Hperm)).
    + apply (same_get_same_keys _ _ (reorderScenes_get_perm _ _ Hperm)).
      now apply (Permutation_in _ Hperm).
Qed.

(** Scenes "a", "b", "c" reordered to "c", "a", "b". *)
Lemma reorderScenes_replaces_and_rebuilds_witness :
  own_names ["c"; "a"; "b"] = true
  /\ sceneOrder (reorderScenes ["c"; "a"; "b"] doc_abc) = ["c"; "a"; "b"]
  /\ (forall k, obj_get k (scenes (reorderScenes ["c"; "a"; "b"] doc_abc))
                = obj_get k (scenes doc_abc)).
Proof.
  assert (Hnames : own_names ["c"; "a"; "b"] = true) by reflexivity.
  destruct (reorderScenes_replaces_and_rebuilds ["c"; "a"; "b"] doc_abc)
    as (Horder & _ & _ & _ & Hkept).
  destruct (Hkept Hnames) as [_ Hperm].
  split; [exact Hnames|]. split; [exact Horder|].
  apply Hperm. simpl.
  apply (Permutation_cons_app ["a"; "b"] [] "c"). now rewrite app_nil_r.
Defined.

(** ** Arrays *)

Lemma indexOf_None (x : string) (a : list string) :
  indexOf x a = None <-> ~ In x a.
Proof.
  induction a as [|y r IH]; simpl; [tauto|].
  destruct (String.eqb_spec y x) as [->|Hne].
  - split; [discriminate | intros H; exfalso; apply H; now left].
  - destruct (indexOf x r); simpl.
    + split; [discriminate|]. intros H.
      assert (Hr : ~ In x r) by tauto. apply IH in Hr. discriminate.
    + split; [|reflexivity]. intros _ [H|H]; [contradiction|].
      now apply (proj1 IH eq_refl).
Qed.

Lemma indexOf_first (x : string) (l1 l2 : list string) :
  ~ In x l1 -> indexOf x (l1 ++ x :: l2) = Some (length l1).
Proof.
  induction l1 as [|y r IH]; simpl; intros Hnot.
  - now rewrite String.eqb_refl.
  - destruct (String.eqb_spec y x) as [->|Hne]; [exfalso; apply Hnot; now left|].
    rewrite IH; [reflexivity | tauto].
Qed.

Lemma indexOf_Some (x : string) (a : list string) (i : nat) :
  indexOf x a = Some i ->
  exists l1 l2, a = l1 ++ x :: l2 /\ ~ In x l1 /\ length l1 = i.
Proof.
  revert i. induction a as [|y r IH]; simpl; intros i; [discriminate|].
  destruct (String.eqb_spec y x) as [->|Hne].
  - intros [= <-]. exists [], r. simpl. tauto.
  - destruct (indexOf x r) as [j|]; simpl; [|discriminate].
    intros [= <-]. destruct (IH j eq_refl) as (l1 & l2 & -> & Hnot & Hlen).
    exists (y :: l1), l2. simpl. repeat split; [|congruence].
    intros [H|H]; [congruence | contradiction].
Qed.

Lemma firstn_length_app {A} (l1 l2 : list A) :
  firstn (length l1) (l1 ++ l2) = l1.
Proof. induction l1 as [|a r IH]; simpl; [reflexivity | now rewrite IH]. Qed.

Lemma skipn_length_app {A} (l1 l2 : list A) :
  skipn (length l1) (l1 ++ l2) = l2.
Proof. induction l1 as [|a r IH]; simpl; [reflexivity | exact IH]. Qed.

Lemma skipn_S_length_app {A} (l1 l2 : list A) (x : A) :
  skipn (S (length l1)) (l1 ++ x :: l2) = l2.
Proof. induction l1 as [|a r IH]; simpl; [reflexivity | exact IH]. Qed.

Lemma splice_remove_app {A} (l1 l2 : list A) (x : A) :
  splice_remove (length l1) (l1 ++ x :: l2) = l1 ++ l2.
Proof.
  unfold splice_remove. now rewrite firstn_length_app, skipn_S_length_app.
Qed.

Lemma splice_insert_app {A} (l1 l2 : list A) (x : A) :
  splice_insert (length l1) x (l1 ++ l2) = l1 ++ x :: l2.
Proof.
  unfold splice_insert. now rewrite firstn_length_app, skipn_length_app.
Qed.

Lemma array_set_app {A} (l1 l2 : list A) (x y : A) :
  array_set (length l1) y (l1 ++ x :: l2) = l1 ++ y :: l2.
Proof.
  unfold array_set. now rewrite firstn_length_app, skipn_S_length_app.
Qed.

(** ** Deleting a scene *)

Lemma deleteCurrentScene_completes (X : string) (cfg : TourConfig) :
  X <> "" -> exists cfg', deleteCurrentScene X true cfg = Completed cfg'.
Proof.
  intros HX. unfold deleteCurrentScene.
  destruct (String.eqb_spec X ""); [contradiction|]. simpl. eauto.
Qed.

Lemma deleteCurrentScene_sceneOrder (X : string) (cfg cfg' : TourConfig) :
  deleteCurrentScene X true cfg = Completed cfg' ->
  (forall l1 l2, sceneOrder cfg = l1 ++ X :: l2 -> ~ In X l1 ->
                 sceneOrder cfg' = l1 ++ l2)
  /\ (~ In X (sceneOrder cfg) -> sceneOrder cfg' = sceneOrder cfg).
Proof.
  unfold deleteCurrentScene. destruct (X =? ""); [discriminate|]. simpl.
  intros [= <-]. simpl. split.
  - intros l1 l2 Heq Hnot. rewrite Heq, indexOf_first by assumption.
    apply splice_remove_app.
  - intros Hnot. apply indexOf_None in Hnot. now rewrite Hnot.
Qed.

(** C3 (as amended): deleting an existing scene [X] (a non-empty id, the
    [confirm] dialog accepted) completes and
    - removes [X] from the scene map and keeps the other scenes in order;
    - leaves in every other scene exactly the hotspots that do not target
      [X], in their order, and changes nothing else of those scenes (the
      hotspots owned by [X] go with the scene);
    - removes the first occurrence of [X] from [sceneOrder], so that [X] no
      longer occurs there when [sceneOrder] had no repetition;
    - when [firstScene] was [X], sets it to the first remaining key of the
      scene map, or to the empty string when none remains. *)
Theorem deleteCurrentScene_cascade (cfg : TourConfig) (X : string)
        (Hid : X <> "") (Hex : In X (obj_keys (scenes cfg))) :
  exists cfg',
    deleteCurrentScene X true cfg = Completed cfg'
    /\ obj_keys (scenes cfg') =
       filter (fun k => negb (k =? X)) (obj_keys (scenes cfg))
    /\ obj_get X (scenes cfg') = None
    /\ (forall k, k <> X ->
          obj_get k (scenes cfg') =
          option_map
            (fun sc => set_hotSpots
                         (filter (fun h => negb (sceneId h =? X)) (hotSpots sc))
                         sc)
            (obj_get k (scenes cfg)))
    /\ (forall l1 l2, sceneOrder cfg = l1 ++ X :: l2 -> ~ In X l1 ->
                      sceneOrder cfg' = l1 ++ l2)
    /\ (~ In X (sceneOrder cfg) -> sceneOrder cfg' = sceneOrder cfg)
    /\ (NoDup (sceneOrder cfg) -> ~ In X (sceneOrder cfg'))
    /\ firstScene cfg' =
       (if firstScene cfg =? X then hd "" (obj_keys (scenes cfg'))
        else firstScene cfg).
Proof.
  destruct (deleteCurrentScene_completes X cfg Hid) as (cfg' & Hrun).
  exists cfg'. split; [exact Hrun|].
  destruct (deleteCurrentScene_sceneOrder X cfg cfg' Hrun) as [Hfirst Hnone].
  assert (Hscenes : scenes cfg' =
                    obj_map (fun _ sc => set_hotSpots (drop_links X (hotSpots sc)) sc)
                            (obj_delete X (scenes cfg))).
  { revert Hrun. unfold deleteCurrentScene.
    destruct (X =? ""); [discriminate|]. simpl. now intros [= <-]. }
  repeat split.
  - now rewrite Hscenes, obj_keys_map, obj_keys_delete.
  - now rewrite Hscenes, obj_get_map, obj_get_delete, String.eqb_refl.
  - intros k Hk. rewrite Hscenes, obj_get_map, obj_get_delete.
    destruct (String.eqb_spec X k); [congruence | reflexivity].
  - exact Hfirst.
  - exact Hnone.
  - intros Hnd Hin.
    destruct (in_split X (sceneOrder cfg)) as (l1 & l2 & Heq).
    + destruct (in_dec string_dec X (sceneOrder cfg)) as [H|H]; [exact H|].
      rewrite (Hnone H) in Hin. contradiction.
    + rewrite Heq in Hnd. apply NoDup_remove_2 in Hnd.
      rewrite (Hfirst l1 l2 Heq) in Hin; [contradiction|].
      intros H. apply Hnd. apply in_or_app. now left.
  - revert Hrun. unfold deleteCurrentScene.
    destruct (X =? ""); [discriminate|]. simpl. intros [= <-]. simpl.
    rewrite obj_keys_map.
    destruct (firstScene cfg =? X); [|reflexivity].
    now destruct (obj_keys (obj_delete X (scenes cfg))).
Qed.

Lemma deleteCurrentScene_cascade_witness :
  exists cfg',
    deleteCurrentScene "B" true doc_linked = Completed cfg'
    /\ obj_keys (scenes cfg') = ["A"]
    /\ sceneOrder cfg' = ["A"]
    /\ hotspot_ids cfg' = []
    /\ firstScene cfg' = "A".
Proof.
  destruct (deleteCurrentScene_cascade doc_linked "B")
    as (cfg' & Hrun & Hkeys & _ & _ & _ & _ & _ & Hfirst).
  - discriminate.
  - right. now left.
  - exists cfg'. split; [exact Hrun|]. split; [exact Hkeys|].
    split; [|split; [|exact Hfirst]].
    + vm_compute in Hrun. injection Hrun as <-. reflexivity.
    + vm_compute in Hrun. injection Hrun as <-. reflexivity.
Defined.

(** ** Capturing a view *)

Lemma update_hotspots_spec (t : string) (u : Updates) (hs : list Hotspot) :
  forall n, update_hotspots t u hs n =
            (map (refreshed t u) hs, (n + length (filter (targets t) hs))%nat).
Proof.
  unfold targets.
  induction hs as [|h r IH]; intros n; simpl.
  - now rewrite Nat.add_0_r.
  - unfold refreshed at 1. destruct (sceneId h =? t); rewrite IH; simpl.
    + now rewrite Nat.add_succ_r.
    + reflexivity.
Qed.

Lemma update_scenes_spec (t : string) (u : Updates) (o : obj Scene) :
  forall n, update_scenes t u o n =
            (obj_map (fun _ sc => set_hotSpots (map (refreshed t u) (hotSpots sc)) sc) o,
             (n + length (filter (targets t) (flat_map hotSpots (obj_values o))))%nat).
Proof.
  induction o as [|[k sc] r IH]; intros n; simpl.
  - now rewrite Nat.add_0_r.
  - rewrite update_hotspots_spec, IH. simpl. f_equal.
    now rewrite filter_app, length_app, Nat.add_assoc.
Qed.

Lemma updateHotspotReferences_spec (t : string) (u : Updates) (cfg : TourConfig) :
  updateHotspotReferences t u cfg =
  (set_scenes
     (obj_map (fun _ sc => set_hotSpots (map (refreshed t u) (hotSpots sc)) sc)
              (scenes cfg)) cfg,
   length (filter (targets t) (flat_map hotSpots (obj_values (scenes cfg))))).
Proof.
  unfold updateHotspotReferences. now rewrite update_scenes_spec.
Qed.

Lemma flat_map_hotSpots_replace (k : string) (sc sc' : Scene) (o : obj Scene) :
  obj_get k o = Some sc -> hotSpots sc' = hotSpots sc ->
  flat_map hotSpots (obj_values (obj_replace k sc' o)) =
  flat_map hotSpots (obj_values o).
Proof.
  intros Hget Hhs. induction o as [|[k0 v0] r IH]; simpl in *; [discriminate|].
  destruct (k0 =? k); simpl.
  - injection Hget as ->. now rewrite Hhs.
  - now rewrite IH.
Qed.

Lemma refreshed_frame (t : string) (p y h : float) (x : Hotspot) :
  let u := {| u_targetPitch := Some p; u_targetYaw := Some y;
              u_targetHfov := Some h |} in
  text (refreshed t u x) = text x
  /\ hs_pitch (refreshed t u x) = hs_pitch x
  /\ hs_yaw (refreshed t u x) = hs_yaw x
  /\ hs_id (refreshed t u x) = hs_id x
  /\ sceneId (refreshed t u x) = sceneId x
  /\ (sceneId x = t ->
      targetPitch (refreshed t u x) = p
      /\ targetYaw (refreshed t u x) = y
      /\ targetHfov (refreshed t u x) = h)
  /\ (sceneId x <> t -> refreshed t u x = x).
Proof.
  unfold refreshed. simpl.
  destruct (String.eqb_spec (sceneId x) t) as [Heq|Hne]; simpl;
    repeat split; try reflexivity; try contradiction.
Qed.

(** C4: for an existing scene [sid] (a non-empty id of the scene map),
    capturing the view [(p, y, h)] completes; afterwards scene [sid] has camera
    [(p, y, h)]; every scene keeps its key, its position and its other
    fields; every hotspot of every scene whose target is [sid] has
    [targetPitch], [targetYaw], [targetHfov] equal to [(p, y, h)] and all
    its other fields (label text, anchor position, id, target scene) as
    before; every other hotspot is untouched; and the count obtained is the
    number of hotspots in the document whose target is [sid]. *)
Theorem updateSceneWithCapturedView_captures
        (cfg : TourConfig) (sid : string) (p y h : float) (scene : Scene)
        (Hid : sid <> "") (Hex : obj_get sid (scenes cfg) = Some scene) :
  let u := {| u_targetPitch := Some p; u_targetYaw := Some y;
              u_targetHfov := Some h |} in
  exists cfg' updateCount,
    updateSceneWithCapturedView sid p y h cfg = Completed (cfg', updateCount)
    /\ (exists scene', obj_get sid (scenes cfg') = Some scene'
                       /\ pitch scene' = p /\ yaw scene' = y /\ hfov scene' = h)
    /\ obj_keys (scenes cfg') = obj_keys (scenes cfg)
    /\ (forall k,
          obj_get k (scenes cfg') =
          option_map
            (fun sc => set_hotSpots (map (refreshed sid u) (hotSpots sc))
                         (if k =? sid then set_camera p y h sc else sc))
            (obj_get k (scenes cfg)))
    /\ (forall x : Hotspot,
          text (refreshed sid u x) = text x
          /\ hs_pitch (refreshed sid u x) = hs_pitch x
          /\ hs_yaw (refreshed sid u x) = hs_yaw x
          /\ hs_id (refreshed sid u x) = hs_id x
          /\ sceneId (refreshed sid u x) = sceneId x
          /\ (sceneId x = sid ->
              targetPitch (refreshed sid u x) = p
              /\ targetYaw (refreshed sid u x) = y
              /\ targetHfov (refreshed sid u x) = h)
          /\ (sceneId x <> sid -> refreshed sid u x = x))
    /\ updateCount =
       length (filter (fun x => sceneId x =? sid)
                      (flat_map hotSpots (obj_values (scenes cfg))))
    /\ sceneOrder cfg' = sceneOrder cfg
    /\ firstScene cfg' = firstScene cfg.
Proof.
  intros u. unfold updateSceneWithCapturedView.
  destruct (String.eqb_spec sid ""); [contradiction|]. rewrite Hex.
  fold u. rewrite updateHotspotReferences_spec. simpl.
  eexists. eexists. split; [reflexivity|]. simpl.
  assert (Hhas : obj_has sid (scenes cfg) = true).
  { unfold obj_has. now rewrite Hex. }
  split; [|split; [|split; [|split; [|split; [|split]]]]].
  - exists (set_hotSpots (map (refreshed sid u) (hotSpots scene))
                         (set_camera p y h scene)).
    rewrite obj_get_map, obj_get_replace, String.eqb_refl, Hhas. simpl. tauto.
  - now rewrite obj_keys_map, obj_keys_replace.
  - intros k. rewrite obj_get_map, obj_get_replace, Hhas, andb_true_r.
    rewrite (String.eqb_sym k sid).
    destruct (String.eqb_spec sid k) as [<-|Hne].
    + now rewrite Hex.
    + now destruct (obj_get k (scenes cfg)).
  - intros x. apply refreshed_frame.
  - f_equal. f_equal. now apply flat_map_hotSpots_replace with (sc := scene).
  - reflexivity.
  - reflexivity.
Qed.

Lemma updateSceneWithCapturedView_captures_witness :
  exists cfg' updateCount,
    updateSceneWithCapturedView "B" 10 20 90 doc_linked
    = Completed (cfg', updateCount)
    /\ updateCount = 1%nat
    /\ map targetHfov (flat_map hotSpots (obj_values (scenes cfg')))
       = [90%float; 100%float].
Proof.
  destruct (updateSceneWithCapturedView_captures
              doc_linked "B" 10 20 90
              (set_hotSpots [link "hs_A_001" "Go to A" "A"]
                            (newScene "./B/" 4 4096))
              ltac:(discriminate) eq_refl)
    as (cfg' & n & Hrun & _ & _ & _ & _ & Hn & _).
  exists cfg', n. split; [exact Hrun|]. split; [exact Hn|].
  vm_compute in Hrun. injection Hrun as <- _. vm_compute. reflexivity.
Defined.

(** ** Validating a hotspot id *)

Lemma dup_in_hotspots_true (hid : string) (same : bool) (e : Z)
      (hs : list Hotspot) :
  forall start,
    dup_in_hotspots hid same e start hs = true <->
    exists j x, nth_error hs j = Some x /\ id_is x hid = true
                /\ same && (Z.of_nat (start + j) =? e)%Z = false.
Proof.
  induction hs as [|x r IH]; intros start; simpl.
  - split; [discriminate|]. intros (j & y & H & _). now destruct j.
  - destruct (same && (Z.of_nat start =? e)%Z) eqn:Hskip.
    + rewrite IH. split.
      * intros (j & y & Hn & Hid & Hs). exists (S j), y.
        now rewrite Nat.add_succ_r.
      * intros ([|j] & y & Hn & Hid & Hs).
        -- rewrite Nat.add_0_r in Hs. congruence.
        -- exists j, y. now rewrite Nat.add_succ_r in Hs.
    + destruct (id_is x hid) eqn:Hx.
      * split; [|reflexivity]. intros _. exists 0%nat, x.
        now rewrite Nat.add_0_r.
      * rewrite IH. split.
        -- intros (j & y & Hn & Hid & Hs). exists (S j), y.
           now rewrite Nat.add_succ_r.
        -- intros ([|j] & y & Hn & Hid & Hs).
           ++ simpl in Hn. congruence.
           ++ exists j, y. now rewrite Nat.add_succ_r in Hs.
Qed.

Lemma dup_in_scenes_Some (hid s : string) (e : Z) (o : obj Scene) :
  (exists c, dup_in_scenes hid s e o = Some c) <->
  exists k sc, In (k, sc) o
               /\ dup_in_hotspots hid (k =? s) e 0 (hotSpots sc) = true.
Proof.
  induction o as [|[k sc] r IH]; simpl.
  - split; [intros (c & H); discriminate | intros (k & sc & [] & _)].
  - destruct (dup_in_hotspots hid (k =? s) e 0 (hotSpots sc)) eqn:Hd.
    + split; [|eauto]. intros _. exists k, sc. auto.
    + rewrite IH. split.
      * intros (k' & sc' & Hin & H). exists k', sc'. auto.
      * intros (k' & sc' & [Heq|Hin] & H).
        -- injection Heq as <- <-. congruence.
        -- exists k', sc'. auto.
Qed.

Lemma dup_in_scenes_None (hid s : string) (e : Z) (o : obj Scene) :
  dup_in_scenes hid s e o = None <->
  forall k sc, In (k, sc) o ->
               dup_in_hotspots hid (k =? s) e 0 (hotSpots sc) = false.
Proof.
  split.
  - intros Hnone k sc Hin.
    destruct (dup_in_hotspots hid (k =? s) e 0 (hotSpots sc)) eqn:Hd;
      [|reflexivity].
    destruct (proj2 (dup_in_scenes_Some hid s e o)) as (c & Hc); [eauto|].
    congruence.
  - intros Hall. destruct (dup_in_scenes hid s e o) as [c|] eqn:Hd;
      [|reflexivity].
    destruct (proj1 (dup_in_scenes_Some hid s e o)) as (k & sc & Hin & H);
      [eauto|].
    rewrite Hall in H by assumption. discriminate.
Qed.

Lemma id_is_true (x : Hotspot) (hid : string) :
  id_is x hid = true <-> hs_id x = Some hid.
Proof.
  unfold id_is. destruct (hs_id x) as [i|]; [|split; discriminate].
  destruct (String.eqb_spec i hid) as [->|Hne]; split; congruence.
Qed.

(** C10 (as amended): let the hotspot at index [i] of scene [sid] carry the
    id [hid], and let [hid] match the id pattern.  Validating [hid] while
    editing that hotspot skips the hotspot itself in the duplicate check:
    it passes whenever no other hotspot of the document carries [hid].
    Offered for any other hotspot (another scene, another index, or a new
    hotspot) the same id is rejected as a duplicate. *)
Theorem validateHotspotId_excludes_edited
        (cfg : TourConfig) (sid : string) (i : nat) (scene : Scene)
        (x : Hotspot) (hid : string)
        (Hscene : obj_get sid (scenes cfg) = Some scene)
        (Hat : nth_error (hotSpots scene) i = Some x)
        (Hid : hs_id x = Some hid)
        (Hpat : id_pattern hid = true) :
  ((forall k sc j y, In (k, sc) (scenes cfg) ->
                     nth_error (hotSpots sc) j = Some y ->
                     hs_id y = Some hid -> k = sid /\ j = i) ->
   validateHotspotId hid sid (Z.of_nat i) cfg = Valid)
  /\ (forall sid' e, sid' <> sid \/ e <> Z.of_nat i ->
        exists c, validateHotspotId hid sid' e cfg = Duplicate c).
Proof.
  unfold validateHotspotId.
  rewrite (id_pattern_not_blank hid Hpat), Hpat. simpl. split.
  - intros Honly.
    assert (Hnone : dup_in_scenes hid sid (Z.of_nat i) (scenes cfg) = None).
    { apply dup_in_scenes_None. intros k sc Hin.
      destruct (dup_in_hotspots hid (k =? sid) (Z.of_nat i) 0 (hotSpots sc))
        eqn:Hd; [|reflexivity].
      apply dup_in_hotspots_true in Hd as (j & y & Hn & Hy & Hs).
      apply id_is_true in Hy.
      destruct (Honly k sc j y Hin Hn Hy) as [-> ->].
      simpl in Hs. now rewrite String.eqb_refl, Z.eqb_refl in Hs. }
    now rewrite Hnone.
  - intros sid' e Hother.
    destruct (proj2 (dup_in_scenes_Some hid sid' e (scenes cfg))) as (c & Hc).
    + exists sid, scene. split; [now apply obj_get_In|].
      apply dup_in_hotspots_true. exists i, x.
      split; [assumption|]. split; [now apply id_is_true|]. simpl.
      destruct (String.eqb_spec sid sid') as [->|Hne]; [|reflexivity].
      destruct (Z.eqb_spec (Z.of_nat i) e) as [<-|Hne]; [|reflexivity].
      destruct Hother; contradiction.
    + rewrite Hc. eauto.
Qed.

Lemma validateHotspotId_excludes_edited_witness :
  validateHotspotId "hs_B_001" "A" 0 doc_linked = Valid
  /\ (exists c, validateHotspotId "hs_B_001" "B" 0 doc_linked = Duplicate c)
  /\ (exists c, validateHotspotId "hs_B_001" "A" (-1) doc_linked = Duplicate c).
Proof.
  destruct (validateHotspotId_excludes_edited
              doc_linked "A" 0
              (set_hotSpots [link "hs_B_001" "B" "B"] (newScene "./A/" 4 4096))
              (link "hs_B_001" "B" "B") "hs_B_001"
              eq_refl eq_refl eq_refl eq_refl) as [Hown Hother].
  split; [|split].
  - apply Hown. intros k sc j y [Hin|[Hin|[]]] Hj Hy;
      injection Hin as <- <-.
    + split; [reflexivity|].
      destruct j as [|[|j]]; [reflexivity | discriminate | discriminate].
    + destruct j as [|[|j]]; simpl in Hj; try discriminate.
      injection Hj as <-. discriminate.
  - apply Hother. left. discriminate.
  - apply Hother. right. discriminate.
Defined.

(** ** Adding a scene *)

Lemma length_one_after_insert {A} (l l' : list A) (x : A) :
  Permutation l' (x :: l) -> (length l' =? 1)%nat = true <-> l = [].
Proof.
  intros Hperm. apply Permutation_length in Hperm. simpl in Hperm.
  rewrite Hperm, Nat.eqb_eq. destruct l; simpl; split; congruence.
Qed.

(** What [addNewScene] does: it rejects, writing nothing, an id or a path
    that is empty after trimming, an id that is already a key of the scene
    map, and an id that names a property which the scene map inherits from
    [Object.prototype] ("constructor", "toString", "__proto__", ...), for
    which [tourConfig.scenes[id]] is truthy as well; no other check is
    made on the id.  Otherwise it completes:
    the new id maps to a fresh scene without hotspots, the other scenes are
    as before, the id is appended to [sceneOrder], and [firstScene] becomes
    the new id exactly when the scene map was empty. *)
Theorem addNewScene_spec (idField pathField : string) (ml cr : float)
        (cfg : TourConfig) :
  let newId := trim idField in
  let newPath := trim pathField in
  if (newId =? "") || (newPath =? "") || obj_has newId (scenes cfg)
     || inherited newId
  then addNewScene idField pathField ml cr cfg = Rejected
  else exists cfg',
      addNewScene idField pathField ml cr cfg = Completed cfg'
      /\ obj_get newId (scenes cfg') = Some (newScene newPath ml cr)
      /\ hotSpots (newScene newPath ml cr) = []
      /\ (forall k, k <> newId -> obj_get k (scenes cfg') = obj_get k (scenes cfg))
      /\ Permutation (obj_keys (scenes cfg')) (newId :: obj_keys (scenes cfg))
      /\ sceneOrder cfg' = sceneOrder cfg ++ [newId]
      /\ firstScene cfg' =
         (match obj_keys (scenes cfg) with
          | [] => newId
          | _ :: _ => firstScene cfg
          end).
Proof.
  cbv zeta. unfold addNewScene.
  destruct ((trim idField =? "") || (trim pathField =? "")) eqn:Hblank;
    simpl; [reflexivity|].
  unfold obj_truthy.
  destruct (obj_has (trim idField) (scenes cfg)) eqn:Hhas; [reflexivity|].
  destruct (inherited (trim idField)) eqn:Hinh; [reflexivity|].
  eexists. split; [reflexivity|]. simpl.
  pose proof (obj_keys_set_fresh (trim idField)
                (newScene (trim pathField) ml cr) (scenes cfg) Hhas) as Hperm.
  split; [|split; [|split; [|split; [|split]]]].
  - now rewrite obj_get_set, String.eqb_refl.
  - reflexivity.
  - intros k Hk. rewrite obj_get_set.
    destruct (String.eqb_spec (trim idField) k); [congruence | reflexivity].
  - exact Hperm.
  - reflexivity.
  - pose proof (length_one_after_insert _ _ _ Hperm) as Hlen.
    destruct (obj_keys (scenes cfg)) as [|k0 r].
    + now rewrite (proj2 Hlen eq_refl).
    + destruct (length (obj_keys (obj_set (trim idField)
                  (newScene (trim pathField) ml cr) (scenes cfg))) =? 1)%nat;
        [|reflexivity].
      destruct Hlen as [Hlen _]. discriminate (Hlen eq_refl).
Qed.

(** ** Renaming a scene *)

Lemma rename_key_fold_get (old new : string) (l : obj Scene) :
  forall (acc : obj Scene) (k : string),
    NoDup (obj_keys (map (rename_entry old new) l)) ->
    (forall k', In k' (obj_keys (map (rename_entry old new) l)) ->
                ~ In k' (obj_keys acc)) ->
    obj_get k
      (fold_left
         (fun updatedScenes e =>
            if fst e =? old then obj_set new (snd e) updatedScenes
            else obj_set (fst e) (snd e) updatedScenes) l acc) =
    match obj_get k acc with
    | Some v => Some v
    | None => obj_get k (map (rename_entry old new) l)
    end.
Proof.
  induction l as [|[k0 v0] r IH]; intros acc k Hnd Hdisj; simpl.
  - now destruct (obj_get k acc).
  - simpl in Hnd. inversion Hnd as [|? ? Hnotin Hnd']; subst.
    assert (Hstep : (if k0 =? old then obj_set new v0 acc else obj_set k0 v0 acc)
                    = obj_set (renamed old new k0) v0 acc).
    { unfold renamed. now destruct (k0 =? old). }
    rewrite Hstep, IH; [|assumption|].
    + rewrite obj_get_set.
      destruct (String.eqb_spec (renamed old new k0) k) as [<-|Hne].
      * assert (Hacc : obj_get (renamed old new k0) acc = None).
        { apply obj_get_None. apply Hdisj. now left. }
        now rewrite Hacc.
      * reflexivity.
    + intros k' Hin Hin'. apply obj_keys_set_In in Hin' as [->|Hin'].
      * contradiction.
      * apply (Hdisj k'); [now right | assumption].
Qed.

Lemma rename_key_fold_keys (old new : string) (l : obj Scene) :
  forall acc : obj Scene,
    NoDup (obj_keys (map (rename_entry old new) l)) ->
    (forall k', In k' (obj_keys (map (rename_entry old new) l)) ->
                ~ In k' (obj_keys acc) /\ arrayIndex k' = None) ->
    fold_left
      (fun updatedScenes e =>
         if fst e =? old then obj_set new (snd e) updatedScenes
         else obj_set (fst e) (snd e) updatedScenes) l acc =
    acc ++ map (rename_entry old new) l.
Proof.
  induction l as [|[k0 v0] r IH]; intros acc Hnd Hdisj; simpl.
  - now rewrite app_nil_r.
  - simpl in Hnd. inversion Hnd as [|? ? Hnotin Hnd']; subst.
    assert (Hstep : (if k0 =? old then obj_set new v0 acc else obj_set k0 v0 acc)
                    = obj_set (renamed old new k0) v0 acc).
    { unfold renamed. now destruct (k0 =? old). }
    destruct (Hdisj (renamed old new k0)) as [Hfresh Hstr]; [now left|].
    rewrite Hstep, obj_set_fresh_string;
      [|now apply obj_has_false | assumption].
    rewrite IH; [|assumption|].
    + now rewrite <- app_assoc.
    + intros k' Hin. split; [|apply Hdisj; now right].
      unfold obj_keys. rewrite map_app, in_app_iff.
      intros [Hin'|[<-|[]]].
      * destruct (Hdisj k') as [Hf _]; [now right|]. contradiction.
      * contradiction.
Qed.

Lemma renamed_keys_NoDup (old new : string) (o : obj Scene) :
  NoDup (obj_keys o) -> ~ In new (obj_keys o) ->
  NoDup (obj_keys (map (rename_entry old new) o)).
Proof.
  induction o as [|[k0 v0] r IH]; simpl; intros Hnd Hnew; [constructor|].
  inversion Hnd as [|? ? Hnotin Hnd']; subst.
  constructor; [|apply IH; tauto].
  unfold obj_keys. rewrite map_map. simpl. intros Hin.
  apply in_map_iff in Hin as ([k1 v1] & Heq & Hin). simpl in Heq.
  assert (Hk1 : In k1 (obj_keys r)).
  { change k1 with (fst (k1, v1)). now apply in_map. }
  unfold renamed in Heq.
  destruct (String.eqb_spec k1 old) as [->|Hne1];
    destruct (String.eqb_spec k0 old) as [->|Hne0]; subst; tauto.
Qed.

Lemma renamed_entries_get (old new k : string) (o : obj Scene) :
  ~ In new (obj_keys o) -> k <> new ->
  obj_get (renamed old new k) (map (rename_entry old new) o) = obj_get k o.
Proof.
  intros Hnew Hk. induction o as [|[k0 v0] r IH]; simpl in *; [reflexivity|].
  rewrite IH by tauto. unfold renamed.
  destruct (String.eqb_spec k0 old) as [->|Hne0];
    destruct (String.eqb_spec k old) as [->|Hne].
  - now rewrite !String.eqb_refl.
  - destruct (String.eqb_spec new k); [congruence|].
    destruct (String.eqb_spec old k); [congruence | reflexivity].
  - destruct (String.eqb_spec k0 new); [exfalso; tauto|].
    destruct (String.eqb_spec k0 old); [congruence | reflexivity].
  - reflexivity.
Qed.

Lemma renamed_entries_get_old (old new : string) (o : obj Scene) :
  old <> new ->
  obj_get old (map (rename_entry old new) o) = None.
Proof.
  intros Hne. induction o as [|[k0 v0] r IH]; simpl; [reflexivity|].
  rewrite IH. unfold renamed.
  destruct (String.eqb_spec k0 old) as [->|Hne0].
  - destruct (String.eqb_spec new old); [congruence | reflexivity].
  - destruct (String.eqb_spec k0 old); [congruence | reflexivity].
Qed.

Lemma retarget_frame (old new : string) (x : Hotspot) :
  text (retarget old new x) = text x
  /\ hs_id (retarget old new x) = hs_id x
  /\ hs_pitch (retarget old new x) = hs_pitch x
  /\ hs_yaw (retarget old new x) = hs_yaw x
  /\ targetPitch (retarget old new x) = targetPitch x
  /\ targetYaw (retarget old new x) = targetYaw x
  /\ targetHfov (retarget old new x) = targetHfov x
  /\ sceneId (retarget old new x) = renamed old new (sceneId x).
Proof.
  unfold retarget, renamed. destruct (sceneId x =? old); simpl; tauto.
Qed.

Lemma renameScene_run (old new : string) (cfg : TourConfig) :
  id_pattern new = true -> old <> new -> ~ In new (obj_keys (scenes cfg)) ->
  inherited new = false ->
  renameScene old new true cfg =
  (true,
   {| firstScene := renamed old new (firstScene cfg);
      sceneOrder :=
        match indexOf old (sceneOrder cfg) with
        | Some orderIndex => array_set orderIndex new (sceneOrder cfg)
        | None => sceneOrder cfg
        end;
      sceneFadeDuration := sceneFadeDuration cfg;
      autoLoad := autoLoad cfg;
      scenes :=
        obj_map (fun _ sc =>
                   set_hotSpots (map (retarget old new) (hotSpots sc)) sc)
                (rename_key old new (scenes cfg)) |}).
Proof.
  intros Hpat Hne Hfresh Hown. unfold renameScene, obj_truthy.
  rewrite (id_pattern_not_blank new Hpat), Hpat. simpl.
  destruct (String.eqb_spec old new); [contradiction|].
  apply obj_has_false in Hfresh. rewrite Hfresh, Hown. reflexivity.
Qed.

(** What a successful [renameScene] does (the new id matches the pattern,
    differs from the old one, is not taken and is not the name of a
    property that the scene map inherits from [Object.prototype], such as
    "constructor", which the code refuses as already existing; the
    [confirm] dialog is accepted; no scene is filed under "__proto__",
    as in every scene map the editor builds): every scene is found under its renamed key with its fields
    unchanged, except that every hotspot that targeted the old id targets
    the new one; label text, hotspot id, anchor and arrival camera of every
    hotspot are untouched; the first occurrence of the old id in
    [sceneOrder] is overwritten in place; [firstScene] follows the rename.
    When neither the new id nor any scene id is an array-index key, the
    renamed scene also keeps its position in the scene map. *)
Theorem renameScene_spec (cfg : TourConfig) (old new : string)
        (Hpat : id_pattern new = true) (Hne : old <> new)
        (Hfresh : ~ In new (obj_keys (scenes cfg)))
        (Hown : inherited new = false)
        (Hproto : no_proto_key (scenes cfg))
        (Hnd : NoDup (obj_keys (scenes cfg))) :
  exists cfg',
    renameScene old new true cfg = (true, cfg')
    /\ (forall k, k <> new ->
          obj_get (renamed old new k) (scenes cfg') =
          option_map
            (fun sc => set_hotSpots (map (retarget old new) (hotSpots sc)) sc)
            (obj_get k (scenes cfg)))
    /\ obj_get old (scenes cfg') = None
    /\ (forall x : Hotspot,
          text (retarget old new x) = text x
          /\ hs_id (retarget old new x) = hs_id x
          /\ hs_pitch (retarget old new x) = hs_pitch x
          /\ hs_yaw (retarget old new x) = hs_yaw x
          /\ targetPitch (retarget old new x) = targetPitch x
          /\ targetYaw (retarget old new x) = targetYaw x
          /\ targetHfov (retarget old new x) = targetHfov x
          /\ sceneId (retarget old new x) = renamed old new (sceneId x))
    /\ (forall l1 l2, sceneOrder cfg = l1 ++ old :: l2 -> ~ In old l1 ->
                      sceneOrder cfg' = l1 ++ new :: l2)
    /\ (~ In old (sceneOrder cfg) -> sceneOrder cfg' = sceneOrder cfg)
    /\ firstScene cfg' = renamed old new (firstScene cfg)
    /\ ((forall k, In k (new :: obj_keys (scenes cfg)) -> arrayIndex k = None) ->
        obj_keys (scenes cfg') = map (renamed old new) (obj_keys (scenes cfg))).
Proof.
  eexists. split; [now apply renameScene_run|]. simpl.
  pose proof (renamed_keys_NoDup old new (scenes cfg) Hnd Hfresh) as Hnd'.
  split; [|split; [|split; [|split; [|split; [|split]]]]].
  - intros k Hk. rewrite obj_get_map. unfold rename_key.
    rewrite rename_key_fold_get; [|assumption | intros ? _ []]. simpl.
    now rewrite renamed_entries_get.
  - rewrite obj_get_map. unfold rename_key.
    rewrite rename_key_fold_get; [|assumption | intros ? _ []]. simpl.
    now rewrite renamed_entries_get_old.
  - intros x. apply retarget_frame.
  - intros l1 l2 Heq Hnot. rewrite Heq, indexOf_first by assumption.
    apply array_set_app.
  - intros Hnot. apply indexOf_None in Hnot. now rewrite Hnot.
  - reflexivity.
  - intros Hstr. rewrite obj_keys_map. unfold rename_key.
    rewrite rename_key_fold_keys; [|assumption|].
    + simpl. unfold obj_keys. rewrite !map_map. reflexivity.
    + intros k' Hin. split; [intros []|]. apply Hstr.
      unfold obj_keys in Hin. rewrite map_map in Hin.
      apply in_map_iff in Hin as ([k1 v1] & <- & Hin). simpl. unfold renamed.
      destruct (k1 =? old); [now left|]. right.
      change k1 with (fst (k1, v1)). now apply in_map.
Qed.

(** Scenario D: renaming "A" to "Alpha" where a hotspot of "B" targets "A"
    and is labelled "Go to A". *)
Lemma renameScene_spec_witness :
  exists cfg',
    renameScene "A" "Alpha" true doc_linked = (true, cfg')
    /\ option_map (fun sc => map (fun x => (sceneId x, text x)) (hotSpots sc))
                  (obj_get "B" (scenes cfg'))
       = Some [("Alpha", "Go to A")]
    /\ obj_keys (scenes cfg') = ["Alpha"; "B"]
    /\ sceneOrder cfg' = ["Alpha"; "B"]
    /\ firstScene cfg' = "Alpha".
Proof.
  destruct (renameScene_spec doc_linked "A" "Alpha")
    as (cfg' & Hrun & Hget & _ & _ & Horder & _ & Hfirst & Hkeys).
  - reflexivity.
  - discriminate.
  - intros [H|[H|[]]]; discriminate.
  - reflexivity.
  - intros [H|[H|[]]]; discriminate.
  - repeat constructor; simpl; intuition discriminate.
  - exists cfg'. split; [exact Hrun|].
    split; [|split; [|split]].
    + change "B" with (renamed "A" "Alpha" "B") at 1.
      rewrite (Hget "B"); [reflexivity | discriminate].
    + apply Hkeys. intros k [<-|[<-|[<-|[]]]]; reflexivity.
    + apply (Horder [] ["B"]); [reflexivity | intros []].
    + exact Hfirst.
Defined.

(** ** Generated hotspot ids *)

Lemma numeral_value_toStringN (n : N) : numeral_value (toStringN n) = Some n.
Proof.
  unfold numeral_value, toStringN.
  rewrite DecimalString.NilEmpty.usu. simpl.
  now rewrite DecimalN.Unsigned.of_to.
Qed.

Lemma numeral_value_zero (s : string) :
  numeral_value (String "0" s) = numeral_value s.
Proof.
  unfold numeral_value. simpl.
  now destruct (DecimalString.NilEmpty.uint_of_string s).
Qed.

Lemma numeral_value_zeros (k : nat) (s : string) :
  numeral_value (string_of_list_ascii (repeat "0"%char k) ++ s) =
  numeral_value s.
Proof.
  induction k as [|k IH]; simpl; [reflexivity|].
  now rewrite numeral_value_zero.
Qed.

Lemma numeral_value_padStart3 (n : N) :
  numeral_value (padStart3 (toStringN n)) = Some n.
Proof.
  unfold padStart3. rewrite numeral_value_zeros. apply numeral_value_toStringN.
Qed.

Lemma append_inj_l (s a b : string) : (s ++ a = s ++ b)%string -> a = b.
Proof.
  induction s as [|c r IH]; simpl; [auto|]. intros [= H]. auto.
Qed.

Lemma candidateId_inj (t : string) (a b : N) :
  candidateId t a = candidateId t b -> a = b.
Proof.
  unfold candidateId. intros H.
  apply (append_inj_l "hs_") in H. apply append_inj_l in H.
  apply (append_inj_l "_") in H.
  apply (f_equal numeral_value) in H.
  rewrite !numeral_value_padStart3 in H. congruence.
Qed.

Lemma isHotspotIdInUse_In (hid : string) (cfg : TourConfig) :
  isHotspotIdInUse hid cfg = true <-> In (Some hid) (hotspot_ids cfg).
Proof.
  unfold isHotspotIdInUse, hotspot_ids, ids_of.
  rewrite existsb_exists, in_map_iff. split.
  - intros (sc & Hsc & Hex). apply existsb_exists in Hex as (x & Hx & Hid).
    exists x. split; [now apply id_is_true|].
    apply in_flat_map. eauto.
  - intros (x & Hid & Hin). apply in_flat_map in Hin as (sc & Hsc & Hx).
    exists sc. split; [assumption|]. apply existsb_exists.
    exists x. split; [assumption | now apply id_is_true].
Qed.

Lemma candidates_In (t : string) (n : nat) :
  forall c x, In x (candidates t c n) ->
              exists m, x = Some (candidateId t m)
                        /\ (c <= m)%N /\ (m < c + N.of_nat n)%N.
Proof.
  induction n as [|n IH]; intros c x; simpl; [tauto|].
  intros [<-|Hin].
  - exists c. split; [reflexivity | lia].
  - apply IH in Hin as (m & -> & Hlo & Hhi). exists m.
    split; [reflexivity | lia].
Qed.

Lemma candidates_NoDup (t : string) (n : nat) :
  forall c, NoDup (candidates t c n).
Proof.
  induction n as [|n IH]; intros c; simpl; constructor; [|apply IH].
  intros Hin. apply candidates_In in Hin as (m & Heq & Hlo & _).
  assert (Heq' : candidateId t c = candidateId t m) by congruence.
  apply candidateId_inj in Heq'. lia.
Qed.

Lemma candidates_length (t : string) (n : nat) :
  forall c, length (candidates t c n) = n.
Proof. induction n as [|n IH]; intros c; simpl; [reflexivity | now rewrite IH]. Qed.

Lemma candidates_cover (t : string) (n : nat) :
  forall c m, (c <= m)%N -> (m < c + N.of_nat n)%N ->
              In (Some (candidateId t m)) (candidates t c n).
Proof.
  induction n as [|n IH]; intros c m Hlo Hhi; simpl; [lia|].
  destruct (N.eq_dec c m) as [->|Hne]; [now left|].
  right. apply IH; lia.
Qed.

(** Among one more candidate than there are hotspots, one is unused. *)
Lemma free_candidate (t : string) (cfg : TourConfig) (c : N) :
  exists m, (c <= m)%N /\ (m < c + N.of_nat (S (hotspotCount cfg)))%N
            /\ isHotspotIdInUse (candidateId t m) cfg = false.
Proof.
  destruct (forallb (fun x => match x with
                              | Some i => isHotspotIdInUse i cfg
                              | None => true
                              end)
                    (candidates t c (S (hotspotCount cfg)))) eqn:Hall.
  - exfalso. rewrite forallb_forall in Hall.
    assert (Hincl : incl (candidates t c (S (hotspotCount cfg)))
                         (hotspot_ids cfg)).
    { intros x Hx. pose proof (Hall x Hx) as Hu.
      destruct (candidates_In _ _ _ _ Hx) as (m & -> & _).
      now apply isHotspotIdInUse_In. }
    apply NoDup_incl_length in Hincl; [|apply candidates_NoDup].
    rewrite candidates_length in Hincl.
    unfold hotspot_ids, ids_of in Hincl. rewrite length_map in Hincl.
    unfold hotspotCount in Hincl. lia.
  - apply not_true_iff_false in Hall.
    destruct (forallb_forall
                (fun x => match x with
                          | Some i => isHotspotIdInUse i cfg
                          | None => true
                          end)
                (candidates t c (S (hotspotCount cfg)))) as [_ Hback].
    assert (Hex : exists x, In x (candidates t c (S (hotspotCount cfg)))
                            /\ match x with
                               | Some i => isHotspotIdInUse i cfg
                               | None => true
                               end = false).
    { clear Hback. revert Hall.
      generalize (candidates t c (S (hotspotCount cfg))) as l.
      induction l as [|x r IH]; simpl; intros Hall; [now elim Hall|].
      destruct (match x with Some i => isHotspotIdInUse i cfg | None => true end)
        eqn:Hx.
      - simpl in Hall. destruct (IH Hall) as (y & Hy & Hfy). eauto.
      - eauto. }
    destruct Hex as (x & Hx & Hfree).
    destruct (candidates_In _ _ _ _ Hx) as (m & -> & Hlo & Hhi).
    exists m. auto.
Qed.

Lemma generate_loop_least (t : string) (cfg : TourConfig) (fuel : nat) :
  forall c m,
    (c <= m)%N -> (m < c + N.of_nat fuel)%N ->
    isHotspotIdInUse (candidateId t m) cfg = false ->
    exists m', generate_loop fuel t c cfg = Some (candidateId t m')
               /\ (c <= m')%N /\ (m' <= m)%N
               /\ isHotspotIdInUse (candidateId t m') cfg = false
               /\ (forall j, (c <= j)%N -> (j < m')%N ->
                             isHotspotIdInUse (candidateId t j) cfg = true).
Proof.
  induction fuel as [|fuel IH]; intros c m Hlo Hhi Hfree; [lia|].
  simpl. destruct (isHotspotIdInUse (candidateId t c) cfg) eqn:Hc.
  - assert (Hcm : c <> m) by (intros ->; congruence).
    destruct (IH (c + 1)%N m) as (m' & Hrun & Hlo' & Hle & Hf & Hbelow);
      [lia | lia | assumption |].
    exists m'. repeat split; try assumption; try lia.
    intros j Hj1 Hj2. destruct (N.eq_dec j c) as [->|Hne]; [assumption|].
    apply Hbelow; lia.
  - exists c. repeat split; try assumption; try lia.
Qed.

(** The loop of [generateSceneBasedHotspotId] always ends with an id: the
    candidate of the least counter, from 1, that no hotspot carries. *)
Lemma generateSceneBasedHotspotId_total (t : string) (cfg : TourConfig) :
  exists m, generateSceneBasedHotspotId t cfg = Some (candidateId t m)
            /\ (1 <= m)%N
            /\ isHotspotIdInUse (candidateId t m) cfg = false
            /\ (forall j, (1 <= j)%N -> (j < m)%N ->
                          isHotspotIdInUse (candidateId t j) cfg = true).
Proof.
  destruct (free_candidate t cfg 1) as (m & Hlo & Hhi & Hfree).
  destruct (generate_loop_least t cfg (S (hotspotCount cfg)) 1 m Hlo Hhi Hfree)
    as (m' & Hrun & Hlo' & _ & Hf & Hbelow).
  exists m'. auto.
Qed.

Lemma doc_AB_reachable :
  exists cfg1,
    addNewScene "A" " ./A/ " 4 4096 initialConfig = Completed cfg1
    /\ addNewScene "B" "./B/" 4 4096 cfg1 = Completed doc_AB.
Proof. eexists. split; vm_compute; reflexivity. Qed.

(** Confirming the hotspot dialog with a blank id field: the new hotspot
    gets the fallback id made of the owning scene and [hotspotCounter]. *)
Lemma confirmAddHotspot_blank_id
      (ed : Editor) (cur : string) (scene : Scene)
      (textField idField target : string) (p y : float) :
  cur <> "" -> target <> "" -> trim idField = "" ->
  obj_get cur (scenes (tourConfig ed)) = Some scene ->
  exists x,
    confirmAddHotspot cur (Some AddingHotspot) textField idField target p y ed =
    Completed
      {| tourConfig :=
           set_scenes
             (obj_replace cur (set_hotSpots (hotSpots scene ++ [x]) scene)
                          (scenes (tourConfig ed)))
             (tourConfig ed);
         hotspotCounter := (hotspotCounter ed + 1)%N |}
    /\ hs_id x = Some (fallbackId cur (hotspotCounter ed))
    /\ sceneId x = target.
Proof.
  intros Hcur Htarget Hblank Hscene. unfold confirmAddHotspot.
  destruct (String.eqb_spec cur ""); [contradiction|].
  destruct (String.eqb_spec target ""); [contradiction|].
  rewrite Hblank. unfold validateHotspotId. simpl.
  rewrite Hscene.
  destruct (obj_get target (scenes (tourConfig ed))) as [tsc|];
    eexists; (split; [reflexivity | split; reflexivity]).
Qed.

(** C6 (as amended): [generateSceneBasedHotspotId(target)], the id the
    hotspot dialog proposes, always returns the unused identifier
    [hs_<target>_<NNN>] of lowest number, counting from 001 and skipping
    the numbers in use anywhere in the document: with scenes "A" and "B" it
    is [hs_B_001], and [hs_B_002] once a hotspot carries [hs_B_001].
    A hotspot added with an empty id does not get that id but the fallback
    [hs_<ownerSceneId>_<hotspotCounter>], and the counter advances by one,
    as long as the counter is a safe integer (from 2^53 on, the increment
    of the code is lost in rounding). *)
Theorem generated_hotspot_ids :
  (forall cfg t,
      exists m, generateSceneBasedHotspotId t cfg = Some (candidateId t m)
                /\ (1 <= m)%N
                /\ isHotspotIdInUse (candidateId t m) cfg = false
                /\ (forall j, (1 <= j)%N -> (j < m)%N ->
                              isHotspotIdInUse (candidateId t j) cfg = true))
  /\ (forall t m,
         candidateId t m = ("hs_" ++ t ++ "_" ++ padStart3 (toStringN m))%string)
  /\ generateSceneBasedHotspotId "B" doc_AB = Some "hs_B_001"
  /\ (exists ed',
         confirmAddHotspot "A" (Some AddingHotspot) "" "hs_B_001" "B" 0 0
                           {| tourConfig := doc_AB; hotspotCounter := 0 |}
         = Completed ed'
         /\ generateSceneBasedHotspotId "B" (tourConfig ed') = Some "hs_B_002")
  /\ (forall ed cur scene textField idField target p y,
         counter_exact ed ->
         cur <> "" -> target <> "" -> trim idField = "" ->
         obj_get cur (scenes (tourConfig ed)) = Some scene ->
         exists x,
           confirmAddHotspot cur (Some AddingHotspot) textField idField target
                             p y ed =
           Completed
             {| tourConfig :=
                  set_scenes
                    (obj_replace cur
                       (set_hotSpots (hotSpots scene ++ [x]) scene)
                       (scenes (tourConfig ed)))
                    (tourConfig ed);
                hotspotCounter := (hotspotCounter ed + 1)%N |}
           /\ hs_id x =
              Some ("hs_" ++ cur ++ "_" ++ toStringN (hotspotCounter ed))%string
           /\ sceneId x = target).
Proof.
  split; [exact (fun cfg t => generateSceneBasedHotspotId_total t cfg)|].
  split; [reflexivity|].
  split; [vm_compute; reflexivity|].
  split; [eexists; split; vm_compute; reflexivity|].
  intros ed cur scene textField idField target p y _ H1 H2 H3 H4.
  exact (confirmAddHotspot_blank_id ed cur scene textField idField target p y
                                    H1 H2 H3 H4).
Qed.

(** In a fresh editor with scenes "A" and "B", a hotspot of "A" added with
    the id field left empty is "hs_A_0", and the counter becomes 1. *)
Lemma generated_hotspot_ids_witness :
  counter_exact {| tourConfig := doc_AB; hotspotCounter := 0 |}
  /\ exists x ed',
      confirmAddHotspot "A" (Some AddingHotspot) "" " " "B" 0 0
                        {| tourConfig := doc_AB; hotspotCounter := 0 |}
      = Completed ed'
      /\ hotspotCounter ed' = 1%N /\ hs_id x = Some "hs_A_0".
Proof.
  assert (Hexact : counter_exact {| tourConfig := doc_AB; hotspotCounter := 0 |})
    by (unfold counter_exact; cbn; lia).
  destruct generated_hotspot_ids as (_ & _ & _ & _ & Hblank).
  assert (Hcur : "A" <> "") by discriminate.
  assert (Htarget : "B" <> "") by discriminate.
  assert (Htrim : trim " " = "") by reflexivity.
  assert (Hex : obj_get "A" (scenes doc_AB) = Some (newScene "./A/" 4 4096))
    by reflexivity.
  destruct (Hblank {| tourConfig := doc_AB; hotspotCounter := 0 |} "A" _
                   "" " " "B" 0%float 0%float Hexact Hcur Htarget Htrim Hex)
    as (x & Hrun & Hid & _).
  split; [exact Hexact|]. exists x. eexists.
  split; [exact Hrun|]. split; [reflexivity | exact Hid].
Defined.

(** ** The invariants under the operations *)

Lemma ids_of_app (o1 o2 : obj Scene) : ids_of (o1 ++ o2) = ids_of o1 ++ ids_of o2.
Proof.
  unfold ids_of, obj_values. now rewrite map_app, flat_map_app, map_app.
Qed.

Lemma ids_of_cons (k : string) (sc : Scene) (o : obj Scene) :
  ids_of ((k, sc) :: o) = map hs_id (hotSpots sc) ++ ids_of o.
Proof. unfold ids_of. simpl. now rewrite map_app. Qed.

Lemma ids_of_perm (o o' : obj Scene) :
  Permutation o o' -> Permutation (ids_of o) (ids_of o').
Proof.
  intros H. unfold ids_of, obj_values.
  apply Permutation_map, Permutation_flat_map, Permutation_map, H.
Qed.

Lemma obj_keys_perm {V} (o o' : obj V) :
  Permutation o o' -> Permutation (obj_keys o) (obj_keys o').
Proof. apply Permutation_map. Qed.

Lemma obj_insert_index_perm {V} (n : N) (k : string) (v : V) (o : obj V) :
  Permutation (obj_insert_index n k v o) ((k, v) :: o).
Proof.
  induction o as [|[k' v'] r IH]; simpl; [reflexivity|].
  destruct (arrayIndex k') as [m|]; [|reflexivity].
  destruct (m <? n)%N; [|reflexivity].
  rewrite IH. apply perm_swap.
Qed.

Lemma obj_set_fresh_perm {V} (k : string) (v : V) (o : obj V) :
  obj_has k o = false -> Permutation (obj_set k v o) ((k, v) :: o).
Proof.
  intros H. unfold obj_set. rewrite H. destruct (arrayIndex k).
  - apply obj_insert_index_perm.
  - symmetry. apply Permutation_cons_append.
Qed.

Lemma obj_get_split {V} (k : string) (v : V) (o : obj V) :
  obj_get k o = Some v ->
  exists o1 o2, o = o1 ++ (k, v) :: o2 /\ ~ In k (obj_keys o1)
                /\ forall v', obj_replace k v' o = o1 ++ (k, v') :: o2.
Proof.
  induction o as [|[k0 v0] r IH]; simpl; [discriminate|].
  destruct (String.eqb_spec k0 k) as [->|Hne].
  - intros [= ->]. exists [], r. simpl. repeat split; auto.
  - intros Hget. destruct (IH Hget) as (o1 & o2 & -> & Hnot & Hrep).
    exists ((k0, v0) :: o1), o2. simpl. repeat split.
    + intros [H|H]; [contradiction | now apply Hnot].
    + intros v'. now rewrite Hrep.
Qed.

Lemma In_entry_key {V} (k : string) (v : V) (o : obj V) :
  In (k, v) o -> In k (obj_keys o).
Proof. intros H. change k with (fst (k, v)). now apply in_map. Qed.

(** The invariants do not depend on the order of the scenes in the map. *)
Lemma invariants_perm (cfg cfg' : TourConfig) :
  Permutation (scenes cfg) (scenes cfg') ->
  Permutation (sceneOrder cfg') (sceneOrder cfg) ->
  firstScene cfg' = firstScene cfg ->
  invariants cfg -> invariants cfg'.
Proof.
  intros Hp Ho Hf (Hnd & Hids & Hlinks & Hord & Hfirst).
  pose proof (obj_keys_perm _ _ Hp) as Hk.
  repeat split.
  - now apply (Permutation_NoDup Hk).
  - unfold ids_unique, hotspot_ids.
    apply (Permutation_NoDup (ids_of_perm _ _ Hp)). exact Hids.
  - apply (Permutation_in _ Hk).
    apply (Hlinks k sc x); [|assumption].
    now apply (Permutation_in _ (Permutation_sym Hp)).
  - apply (Hlinks k sc x); [|assumption].
    now apply (Permutation_in _ (Permutation_sym Hp)).
  - unfold order_sound. now rewrite Ho, <- Hk.
  - unfold first_sound. rewrite Hf.
    destruct Hfirst as [H|H]; [now left | right].
    now apply (Permutation_in _ Hk).
Qed.

Lemma invariants_initial : invariants initialConfig.
Proof.
  unfold invariants, ids_unique, links_sound, order_sound, first_sound.
  simpl. split; [constructor|]. split; [constructor|].
  split; [intros k sc x []|]. split; [constructor | now left].
Qed.

(** *** Adding a scene *)

Lemma addNewScene_invariants (i p : string) (ml cr : float)
      (cfg cfg' : TourConfig) :
  invariants cfg -> addNewScene i p ml cr cfg = Completed cfg' ->
  invariants cfg'.
Proof.
  intros (Hnd & Hids & Hlinks & Hord & Hfirst).
  unfold addNewScene.
  destruct ((trim i =? "") || (trim p =? "")); [discriminate|].
  unfold obj_truthy in *.
  destruct (obj_has (trim i) (scenes cfg)) eqn:Hhas; [discriminate|].
  destruct (inherited (trim i)) eqn:Hown; [discriminate|].
  intros [= <-].
  pose proof (obj_set_fresh_perm (trim i) (newScene (trim p) ml cr)
                                 (scenes cfg) Hhas) as Hp.
  pose proof (obj_keys_perm _ _ Hp) as Hk. simpl in Hk.
  unfold invariants, ids_unique, hotspot_ids, links_sound, order_sound,
    first_sound. simpl.
  split; [|split; [|split; [|split]]].
  - now apply obj_keys_set_NoDup.
  - apply (Permutation_NoDup (Permutation_sym (ids_of_perm _ _ Hp))).
    rewrite ids_of_cons. exact Hids.
  - intros k sc x Hin Hx.
    apply (Permutation_in _ Hp) in Hin. destruct Hin as [Heq|Hin].
    + injection Heq as <- <-. destruct Hx.
    + destruct (Hlinks k sc x Hin Hx) as [H1 H2]. split; [|assumption].
      apply (Permutation_in _ (Permutation_sym Hk)). now right.
  - eapply Permutation_trans; [|apply Permutation_sym, Hk].
    apply Permutation_sym.
    eapply Permutation_trans; [|apply Permutation_cons_append].
    apply perm_skip, Permutation_sym, Hord.
  - destruct (length _ =? 1)%nat.
    + right. apply (Permutation_in _ (Permutation_sym Hk)). now left.
    + destruct Hfirst as [H|H]; [now left | right].
      apply (Permutation_in _ (Permutation_sym Hk)). now right.
Qed.

(** *** Reordering scenes *)

Lemma rebuild_perm (src : obj Scene) (l : list string) :
  forall acc : obj Scene,
    NoDup l -> (forall k, In k l -> ~ In k (obj_keys acc)) ->
    Permutation (fold_left (rebuild_step src) l acc) (acc ++ pick src l).
Proof.
  induction l as [|k r IH]; intros acc Hnd Hdisj; simpl.
  - now rewrite app_nil_r.
  - inversion Hnd as [|? ? Hnotin Hnd']; subst.
    unfold rebuild_step at 2.
    destruct (obj_get k src) as [sc|] eqn:Hget; simpl.
    + assert (Hfresh : obj_has k acc = false).
      { apply obj_has_false. apply Hdisj. now left. }
      eapply Permutation_trans.
      * apply IH; [assumption|]. intros k' Hin Hin'.
        apply obj_keys_set_In in Hin' as [->|Hin']; [contradiction|].
        apply (Hdisj k'); [now right | assumption].
      * eapply Permutation_trans.
        -- apply Permutation_app_tail. now apply obj_set_fresh_perm.
        -- simpl. apply Permutation_middle.
    + apply IH; [assumption|]. intros k' Hin. apply Hdisj. now right.
Qed.

Lemma pick_ext (src src' : obj Scene) (l : list string) :
  (forall k, In k l -> obj_get k src = obj_get k src') ->
  pick src l = pick src' l.
Proof.
  induction l as [|k r IH]; intros H; simpl; [reflexivity|].
  rewrite H by now left. f_equal. apply IH. intros k' Hin. apply H. now right.
Qed.

Lemma pick_keys_self (src : obj Scene) :
  NoDup (obj_keys src) -> pick src (obj_keys src) = src.
Proof.
  induction src as [|[k0 v0] r IH]; simpl; intros Hnd; [reflexivity|].
  inversion Hnd as [|? ? Hnotin Hnd']; subst.
  rewrite String.eqb_refl. simpl. f_equal.
  transitivity (pick r (obj_keys r)); [|now apply IH].
  apply pick_ext. intros k Hin. simpl.
  destruct (String.eqb_spec k0 k) as [->|Hne]; [contradiction | reflexivity].
Qed.

Lemma reorderScenes_perm (newOrder : list string) (cfg : TourConfig) :
  NoDup (obj_keys (scenes cfg)) ->
  Permutation newOrder (obj_keys (scenes cfg)) ->
  Permutation (scenes (reorderScenes newOrder cfg)) (scenes cfg).
Proof.
  intros Hnd Hperm. rewrite reorderScenes_scenes.
  eapply Permutation_trans.
  - apply rebuild_perm.
    + apply (Permutation_NoDup (Permutation_sym Hperm) Hnd).
    + intros k _ [].
  - simpl. rewrite <- (pick_keys_self (scenes cfg) Hnd) at 2.
    unfold pick. now apply Permutation_flat_map.
Qed.

Lemma reorderScenes_invariants (newOrder : list string) (cfg : TourConfig) :
  invariants cfg -> Permutation newOrder (sceneOrder cfg) ->
  invariants (reorderScenes newOrder cfg).
Proof.
  intros Hinv Hperm.
  apply (invariants_perm cfg); [| exact Hperm | reflexivity | exact Hinv].
  destruct Hinv as (Hnd & _ & _ & Hord & _).
  apply Permutation_sym, reorderScenes_perm; [assumption|].
  exact (Permutation_trans Hperm Hord).
Qed.

Lemma swap_adjacent_perm (a : list string) (i : nat) :
  Permutation (swap i (S i) a) a.
Proof.
  unfold swap.
  destruct (nth_error a i) as [x|] eqn:Hx; [|reflexivity].
  destruct (nth_error a (S i)) as [y|] eqn:Hy; [|reflexivity].
  apply nth_error_split in Hx as (l1 & l2 & -> & <-).
  rewrite nth_error_app2 in Hy by lia.
  replace (S (length l1) - length l1)%nat with 1%nat in Hy by lia.
  simpl in Hy. destruct l2 as [|y' l2']; simpl in Hy; [discriminate|].
  injection Hy as ->.
  rewrite array_set_app.
  replace (l1 ++ y :: y :: l2') with ((l1 ++ [y]) ++ y :: l2')
    by now rewrite <- app_assoc.
  replace (S (length l1)) with (length (l1 ++ [y]))
    by (rewrite length_app; simpl; lia).
  rewrite array_set_app, <- app_assoc. simpl.
  apply Permutation_app_head, perm_swap.
Qed.

Lemma moveScene_invariants (s d : string) (cfg cfg' : TourConfig) :
  invariants cfg -> moveScene s d cfg = Completed cfg' -> invariants cfg'.
Proof.
  intros Hinv. unfold moveScene.
  destruct (indexOf s (sceneOrder cfg)) as [c|]; [|discriminate].
  intros [= <-]. apply reorderScenes_invariants; [assumption|].
  destruct ((d =? "up") && (0 <? c)%nat) eqn:Hup.
  - apply andb_true_iff in Hup as [_ Hc]. apply Nat.ltb_lt in Hc.
    replace c with (S (c - 1)) at 2 by lia. apply swap_adjacent_perm.
  - destruct ((d =? "down") && (c <? length (sceneOrder cfg) - 1)%nat).
    + rewrite Nat.add_1_r. apply swap_adjacent_perm.
    + reflexivity.
Qed.

Lemma splice_insert_perm {A} (t : nat) (x : A) (l : list A) :
  Permutation (splice_insert t x l) (x :: l).
Proof.
  unfold splice_insert. rewrite <- (firstn_skipn t l) at 3.
  apply Permutation_sym, Permutation_middle.
Qed.

Lemma handleDrop_invariants (d t : string) (cfg cfg' : TourConfig) :
  invariants cfg -> handleDrop d t cfg = Completed cfg' -> invariants cfg'.
Proof.
  intros Hinv. unfold handleDrop.
  destruct ((d =? "") || (t =? "") || (d =? t)); [discriminate|].
  destruct (indexOf d (sceneOrder cfg)) as [di|] eqn:Hd; [|discriminate].
  destruct (indexOf t (sceneOrder cfg)) as [ti|]; [|discriminate].
  intros [= <-]. apply reorderScenes_invariants; [assumption|].
  apply indexOf_Some in Hd as (l1 & l2 & Heq & _ & <-).
  rewrite Heq, splice_remove_app.
  eapply Permutation_trans; [apply splice_insert_perm|].
  apply Permutation_middle.
Qed.

(** *** Blank strings *)

Lemma trimStart_empty (s : string) : trimStart s = "" <-> has_ink s = false.
Proof.
  unfold has_ink. induction s as [|c r IH]; simpl; [tauto|].
  destruct (is_ws c); simpl; [exact IH | split; discriminate].
Qed.

Lemma has_ink_trimStart (s : string) : has_ink (trimStart s) = has_ink s.
Proof.
  unfold has_ink. induction s as [|c r IH]; simpl; [reflexivity|].
  destruct (is_ws c) eqn:Hc; simpl; [exact IH | now rewrite Hc].
Qed.

Lemma existsb_rev' {A} (p : A -> bool) (l : list A) :
  existsb p (rev l) = existsb p l.
Proof.
  induction l as [|x r IH]; simpl; [reflexivity|].
  rewrite existsb_app, IH. simpl. rewrite orb_false_r. apply orb_comm.
Qed.

Lemma has_ink_rev (s : string) : has_ink (string_rev s) = has_ink s.
Proof.
  unfold has_ink, string_rev. rewrite list_ascii_of_string_of_list_ascii.
  apply existsb_rev'.
Qed.

Lemma string_rev_empty (s : string) : string_rev s = "" <-> s = "".
Proof.
  split; [|now intros ->].
  intros H. apply (f_equal string_rev) in H.
  now rewrite string_rev_involutive in H.
Qed.

Lemma trim_empty (s : string) : trim s = "" <-> has_ink s = false.
Proof.
  unfold trim, trimEnd.
  now rewrite string_rev_empty, trimStart_empty, has_ink_rev, has_ink_trimStart.
Qed.

Lemma has_ink_trim (s : string) : has_ink (trim s) = has_ink s.
Proof.
  unfold trim, trimEnd.
  now rewrite has_ink_rev, has_ink_trimStart, has_ink_rev, has_ink_trimStart.
Qed.

Lemma trim_trim_empty (s : string) : trim (trim s) = "" <-> trim s = "".
Proof. now rewrite !trim_empty, has_ink_trim. Qed.

(** *** Hotspot ids and validation *)

Lemma NoDup_app_inv {A} (l1 l2 : list A) :
  NoDup (l1 ++ l2) ->
  NoDup l1 /\ NoDup l2 /\ forall a, In a l1 -> ~ In a l2.
Proof.
  induction l1 as [|x r IH]; simpl; intros H.
  - repeat split; [constructor | assumption | tauto].
  - inversion H as [|? ? Hnotin Hnd]; subst.
    destruct (IH Hnd) as (H1 & H2 & H3). repeat split.
    + constructor; [|assumption]. intros Hin. apply Hnotin.
      apply in_or_app. now left.
    + assumption.
    + intros a [<-|Hin] Hin2.
      * apply Hnotin. apply in_or_app. now right.
      * now apply (H3 a).
Qed.

(** Replacing the middle of a duplicate-free list by part of itself. *)
Lemma NoDup_middle_sub {A} (a l l' b : list A) :
  NoDup (a ++ l ++ b) -> NoDup l' -> incl l' l -> NoDup (a ++ l' ++ b).
Proof.
  intros H Hl' Hincl.
  apply NoDup_app_inv in H as (Ha & Hlb & Hdisj).
  apply NoDup_app_inv in Hlb as (Hl & Hb & Hdisj').
  apply NoDup_app; [assumption | |].
  - apply NoDup_app; [assumption | assumption |].
    intros x Hx. apply Hdisj'. now apply Hincl.
  - intros x Hx Hx'. apply (Hdisj x Hx).
    apply in_app_or in Hx' as [Hx'|Hx']; apply in_or_app; [left | now right].
    now apply Hincl.
Qed.

Lemma In_ids_of (hid : option string) (o : obj Scene) :
  In hid (ids_of o) ->
  exists k sc y j, In (k, sc) o /\ nth_error (hotSpots sc) j = Some y
                   /\ hs_id y = hid.
Proof.
  unfold ids_of, obj_values. rewrite in_map_iff.
  intros (y & Hid & Hin). apply in_flat_map in Hin as (sc & Hsc & Hy).
  apply in_map_iff in Hsc as ([k sc'] & Heq & Hin). simpl in Heq. subst sc'.
  apply In_nth_error in Hy as (j & Hj). exists k, sc, y, j. auto.
Qed.

Lemma validateHotspotId_Valid (hid cur : string) (e : Z) (cfg : TourConfig) :
  validateHotspotId hid cur e cfg = Valid ->
  (hid =? "") || (trim hid =? "") = false ->
  forall k sc j y,
    In (k, sc) (scenes cfg) -> nth_error (hotSpots sc) j = Some y ->
    hs_id y = Some hid -> k = cur /\ Z.of_nat j = e.
Proof.
  unfold validateHotspotId. intros Hv Hblank. rewrite Hblank in Hv.
  destruct (negb (id_pattern hid)); [discriminate|].
  destruct (dup_in_scenes hid cur e (scenes cfg)) eqn:Hd; [discriminate|].
  intros k sc j y Hin Hj Hid.
  pose proof (proj1 (dup_in_scenes_None hid cur e (scenes cfg)) Hd k sc Hin)
    as Hnone.
  destruct ((k =? cur) && (Z.of_nat j =? e)%Z) eqn:Hskip.
  - apply andb_true_iff in Hskip as [H1 H2].
    apply String.eqb_eq in H1. apply Z.eqb_eq in H2. auto.
  - assert (Htrue : dup_in_hotspots hid (k =? cur) e 0 (hotSpots sc) = true).
    { apply dup_in_hotspots_true. exists j, y.
      split; [assumption|]. split; [now apply id_is_true | exact Hskip]. }
    congruence.
Qed.

Lemma isValid_Valid (v : validation) : isValid v = true <-> v = Valid.
Proof. destruct v; simpl; split; congruence. Qed.

(** *** Replacing the hotspots of one scene *)

Lemma obj_keys_middle {V} (o1 o2 : obj V) (k : string) (v v' : V) :
  obj_keys (o1 ++ (k, v') :: o2) = obj_keys (o1 ++ (k, v) :: o2).
Proof. unfold obj_keys. now rewrite !map_app. Qed.

Lemma replace_hotspots_invariants
      (cfg : TourConfig) (cur : string) (sc : Scene) (hs' : list Hotspot)
      (o1 o2 : obj Scene) :
  invariants cfg ->
  scenes cfg = o1 ++ (cur, sc) :: o2 ->
  NoDup (ids_of o1 ++ map hs_id hs' ++ ids_of o2) ->
  (forall x, In x hs' ->
             In (sceneId x) (obj_keys (scenes cfg)) /\ sceneId x <> cur) ->
  invariants (set_scenes (o1 ++ (cur, set_hotSpots hs' sc) :: o2) cfg).
Proof.
  intros (Hnd & Hids & Hlinks & Hord & Hfirst) Heq Hnew Hhs.
  unfold invariants, ids_unique, hotspot_ids, links_sound, order_sound,
    first_sound in *. simpl.
  rewrite (obj_keys_middle o1 o2 cur sc (set_hotSpots hs' sc)), <- Heq.
  split; [assumption|]. split; [|split; [|split; assumption]].
  - now rewrite ids_of_app, ids_of_cons.
  - intros k sc0 x Hin Hx.
    apply in_app_or in Hin as [Hin|[Hin|Hin]].
    + apply (Hlinks k sc0 x); [|assumption].
      rewrite Heq. apply in_or_app. now left.
    + injection Hin as <- <-. simpl in Hx. now apply Hhs.
    + apply (Hlinks k sc0 x); [|assumption].
      rewrite Heq. apply in_or_app. right. now right.
Qed.

Lemma ids_split (cfg : TourConfig) (cur : string) (sc : Scene)
      (o1 o2 : obj Scene) :
  scenes cfg = o1 ++ (cur, sc) :: o2 ->
  hotspot_ids cfg = ids_of o1 ++ map hs_id (hotSpots sc) ++ ids_of o2.
Proof.
  intros Heq. unfold hotspot_ids. now rewrite Heq, ids_of_app, ids_of_cons.
Qed.

Lemma own_links (cfg : TourConfig) (cur : string) (sc : Scene) :
  invariants cfg -> obj_get cur (scenes cfg) = Some sc ->
  forall x, In x (hotSpots sc) ->
            In (sceneId x) (obj_keys (scenes cfg)) /\ sceneId x <> cur.
Proof.
  intros (_ & _ & Hlinks & _) Hget x Hx.
  apply (Hlinks cur sc x); [now apply obj_get_In | assumption].
Qed.

Lemma splice_remove_at {A} (x : A) (l : list A) (i : nat) :
  nth_error l i = Some x ->
  exists l1 l2, l = l1 ++ x :: l2 /\ length l1 = i
                /\ splice_remove i l = l1 ++ l2
                /\ forall y, array_set i y l = l1 ++ y :: l2.
Proof.
  intros H. apply nth_error_split in H as (h1 & h2 & -> & <-).
  exists h1, h2. repeat split.
  - apply splice_remove_app.
  - intros y. apply array_set_app.
Qed.

Lemma deleteHotspot_invariants (cur : string) (index : Z)
      (cfg cfg' : TourConfig) :
  invariants cfg -> deleteHotspot cur index cfg = Completed cfg' ->
  invariants cfg'.
Proof.
  intros Hinv. unfold deleteHotspot.
  destruct (cur =? ""); [discriminate|].
  destruct (obj_get cur (scenes cfg)) as [sc|] eqn:Hget; [|discriminate].
  destruct ((0 <=? index)%Z && (index <? Z.of_nat (length (hotSpots sc)))%Z)
    eqn:Hrange; [|discriminate].
  intros [= <-].
  apply andb_true_iff in Hrange as [Hlo Hhi].
  apply Z.leb_le in Hlo. apply Z.ltb_lt in Hhi.
  destruct (nth_error (hotSpots sc) (Z.to_nat index)) as [x|] eqn:Hx.
  2:{ apply nth_error_None in Hx. lia. }
  destruct (splice_remove_at x _ _ Hx) as (h1 & h2 & Hhs & _ & Hrm & _).
  destruct (obj_get_split _ _ _ Hget) as (o1 & o2 & Heq & _ & Hrep).
  rewrite Hrep, Hrm.
  apply replace_hotspots_invariants; [assumption | assumption | |].
  - pose proof Hinv as (_ & Hids & _). unfold ids_unique in Hids.
    rewrite (ids_split cfg cur sc o1 o2 Heq), Hhs in Hids.
    apply (NoDup_middle_sub _ _ _ _ Hids).
    + rewrite map_app in Hids. simpl in Hids.
      apply NoDup_app_inv in Hids as (_ & Hmid & _).
      apply NoDup_app_remove_r in Hmid.
      rewrite map_app. now apply NoDup_remove_1 in Hmid.
    + apply incl_map. intros y Hy.
      apply in_app_or in Hy as [Hy|Hy]; apply in_or_app; [now left|].
      right. now right.
  - intros y Hy. apply (own_links cfg cur sc Hinv Hget). rewrite Hhs.
    apply in_app_or in Hy as [Hy|Hy]; apply in_or_app; [now left|].
    right. now right.
Qed.

Lemma handleHotspotDrop_invariants (cur : string) (d t : nat)
      (cfg cfg' : TourConfig) :
  invariants cfg -> handleHotspotDrop cur (Some d) t cfg = Completed cfg' ->
  invariants cfg'.
Proof.
  intros Hinv. unfold handleHotspotDrop.
  destruct (t =? d)%nat; [discriminate|].
  destruct (obj_get cur (scenes cfg)) as [sc|] eqn:Hget; [|discriminate].
  destruct (nth_error (hotSpots sc) d) as [x|] eqn:Hx; [|discriminate].
  intros [= <-].
  destruct (splice_remove_at x _ _ Hx) as (h1 & h2 & Hhs & _ & Hrm & _).
  destruct (obj_get_split _ _ _ Hget) as (o1 & o2 & Heq & _ & Hrep).
  rewrite Hrep, Hrm.
  assert (Hperm : Permutation (splice_insert t x (h1 ++ h2)) (hotSpots sc)).
  { rewrite Hhs. eapply Permutation_trans; [apply splice_insert_perm|].
    apply Permutation_middle. }
  apply replace_hotspots_invariants; [assumption | assumption | |].
  - pose proof Hinv as (_ & Hids & _). unfold ids_unique in Hids.
    rewrite (ids_split cfg cur sc o1 o2 Heq) in Hids.
    eapply Permutation_NoDup; [|exact Hids].
    apply Permutation_app_head, Permutation_app_tail, Permutation_map.
    now apply Permutation_sym.
  - intros y Hy. apply (own_links cfg cur sc Hinv Hget).
    now apply (Permutation_in _ Hperm).
Qed.

Lemma hotspotTargetOptions_In (cur target : string) (cfg : TourConfig) :
  In target (hotspotTargetOptions cur cfg) <->
  In target (obj_keys (scenes cfg)) /\ target <> cur.
Proof.
  unfold hotspotTargetOptions. rewrite filter_In.
  destruct (String.eqb_spec target cur); simpl; split; intros [H1 H2];
    split; congruence.
Qed.

Lemma typed_id_not_blank (idField : string) :
  trim idField <> "" ->
  (trim idField =? "") || (trim (trim idField) =? "") = false.
Proof.
  intros H. apply orb_false_iff. split; apply String.eqb_neq; [assumption|].
  now rewrite trim_trim_empty.
Qed.

Lemma NoDup_middle_add {A} (a l b : list A) (x : A) :
  NoDup (a ++ l ++ b) -> ~ In x (a ++ l ++ b) -> NoDup (a ++ (l ++ [x]) ++ b).
Proof.
  intros Hnd Hx.
  apply (Permutation_NoDup (l := x :: a ++ l ++ b)); [|now constructor].
  rewrite <- app_assoc. simpl.
  rewrite (app_assoc a l (x :: b)), (app_assoc a l b).
  apply Permutation_middle.
Qed.

Lemma NoDup_middle_set {A} (a l1 l2 b : list A) (x y : A) :
  NoDup (a ++ (l1 ++ x :: l2) ++ b) ->
  ~ In y a -> ~ In y l1 -> ~ In y l2 -> ~ In y b ->
  NoDup (a ++ (l1 ++ y :: l2) ++ b).
Proof.
  intros Hnd Ha H1 H2 Hb.
  rewrite <- app_assoc in *. simpl in *. rewrite app_assoc in *.
  pose proof (NoDup_remove_1 _ _ _ Hnd) as Hrest.
  apply (Permutation_NoDup (l := y :: (a ++ l1) ++ l2 ++ b)).
  - apply Permutation_middle.
  - constructor; [|assumption].
    rewrite !in_app_iff. tauto.
Qed.

Lemma confirmAddHotspot_invariants
      (ed ed' : Editor) (cur textField idField target : string)
      (pending : PendingHotspot) (p y : float) :
  invariants (tourConfig ed) ->
  trim idField <> "" ->
  In target (hotspotTargetOptions cur (tourConfig ed)) ->
  confirmAddHotspot cur (Some pending) textField idField target p y ed
  = Completed ed' ->
  invariants (tourConfig ed').
Proof.
  intros Hinv Hid Htarget. unfold confirmAddHotspot.
  apply hotspotTargetOptions_In in Htarget.
  destruct (cur =? ""); [discriminate|].
  destruct (target =? ""); [discriminate|].
  destruct (isValid _) eqn:Hv; [|discriminate]. simpl.
  destruct (String.eqb_spec (trim idField) ""); [contradiction|].
  apply isValid_Valid in Hv.
  pose proof (validateHotspotId_Valid _ _ _ _ Hv (typed_id_not_blank _ Hid))
    as Honly.
  set (cam := match obj_get target (scenes (tourConfig ed)) with
              | Some t => _
              | None => _
              end).
  destruct cam as [[tp ty] th].
  destruct (obj_get cur (scenes (tourConfig ed))) as [sc|] eqn:Hget;
    [|discriminate].
  destruct (obj_get_split _ _ _ Hget) as (o1 & o2 & Heq & Hnot1 & Hrep).
  pose proof Hinv as (Hkeys & Hids & _). unfold ids_unique in Hids.
  rewrite (ids_split _ cur sc o1 o2 Heq) in Hids.
  destruct pending as [|i].
  - (* a new hotspot is appended *)
    intros [= <-]. simpl. rewrite Hrep.
    apply replace_hotspots_invariants; [assumption | assumption | |].
    + rewrite map_app. simpl. apply NoDup_middle_add; [assumption|].
      rewrite <- (ids_split _ cur sc o1 o2 Heq). intros Hin.
      apply In_ids_of in Hin as (k & sc' & x & j & Hin & Hj & Hx).
      destruct (Honly k sc' j x Hin Hj Hx) as [_ Hneg]. lia.
    + intros x Hx. apply in_app_or in Hx as [Hx|[<-|[]]].
      * now apply (own_links _ cur sc Hinv Hget).
      * exact Htarget.
  - (* the hotspot at index [i] is overwritten *)
    destruct (nth_error (hotSpots sc) i) as [old|] eqn:Hold; [|discriminate].
    intros [= <-]. simpl. rewrite Hrep.
    destruct (splice_remove_at old _ _ Hold) as (h1 & h2 & Hhs & Hlen & _ & Hset).
    rewrite Hset.
    assert (Hnot2 : ~ In cur (obj_keys o2)).
    { rewrite Heq in Hkeys. unfold obj_keys in Hkeys.
      rewrite map_app in Hkeys. simpl in Hkeys.
      apply NoDup_remove_2 in Hkeys. rewrite in_app_iff in Hkeys. tauto. }
    apply replace_hotspots_invariants; [assumption | assumption | |].
    + rewrite Hhs, map_app in Hids. simpl in Hids.
      rewrite map_app. simpl.
      apply (NoDup_middle_set _ _ _ _ _ _ Hids).
      * intros Hin. apply In_ids_of in Hin as (k & sc' & x & j & Hin & Hj & Hx).
        destruct (Honly k sc' j x) as [-> _]; try assumption.
        -- rewrite Heq. apply in_or_app. now left.
        -- apply Hnot1. now apply (In_entry_key _ sc').
      * intros Hin. apply in_map_iff in Hin as (x & Hx & Hin).
        apply In_nth_error in Hin as (j & Hj).
        assert (Hlt : (j < length h1)%nat).
        { apply nth_error_Some. congruence. }
        destruct (Honly cur sc j x) as [_ Hji]; try assumption.
        -- now apply obj_get_In.
        -- rewrite Hhs, nth_error_app1; assumption.
        -- lia.
      * intros Hin. apply in_map_iff in Hin as (x & Hx & Hin).
        apply In_nth_error in Hin as (j & Hj).
        destruct (Honly cur sc (length h1 + S j)%nat x) as [_ Hji];
          try assumption.
        -- now apply obj_get_In.
        -- rewrite Hhs, nth_error_app2 by lia.
           replace (length h1 + S j - length h1)%nat with (S j) by lia.
           exact Hj.
        -- lia.
      * intros Hin. apply In_ids_of in Hin as (k & sc' & x & j & Hin & Hj & Hx).
        destruct (Honly k sc' j x) as [-> _]; try assumption.
        -- rewrite Heq. apply in_or_app. right. now right.
        -- apply Hnot2. now apply (In_entry_key _ sc').
    + intros x Hx. apply in_app_or in Hx as [Hx|[<-|Hx]].
      * apply (own_links _ cur sc Hinv Hget). rewrite Hhs.
        apply in_or_app. now left.
      * exact Htarget.
      * apply (own_links _ cur sc Hinv Hget). rewrite Hhs.
        apply in_or_app. right. now right.
Qed.

(** *** Changes that keep the shape of the document *)

Lemma entries_renamed_keys (f : string -> string) (o o' : obj Scene) :
  Forall2 (entry_renamed f) o o' -> obj_keys o' = map f (obj_keys o).
Proof.
  induction 1 as [|e e' r r' (Hk & _) _ IH]; simpl; [reflexivity|].
  now rewrite Hk, IH.
Qed.

Lemma entries_renamed_ids (f : string -> string) (o o' : obj Scene) :
  Forall2 (entry_renamed f) o o' -> ids_of o' = ids_of o.
Proof.
  induction 1 as [|[k sc] [k' sc'] r r' (_ & Hid & _) _ IH]; [reflexivity|].
  rewrite !ids_of_cons. simpl in Hid. now rewrite Hid, IH.
Qed.

Lemma entries_renamed_In (f : string -> string) (o o' : obj Scene) :
  Forall2 (entry_renamed f) o o' ->
  forall e', In e' o' -> exists e, In e o /\ entry_renamed f e e'.
Proof.
  induction 1 as [|e0 e0' r r' H0 _ IH]; simpl; [tauto|].
  intros e' [<-|Hin].
  - exists e0. auto.
  - destruct (IH e' Hin) as (e & He & Hrel). exists e. auto.
Qed.

Lemma invariants_renaming (f : string -> string) (cfg cfg' : TourConfig) :
  (forall a b, In a (obj_keys (scenes cfg)) -> In b (obj_keys (scenes cfg)) ->
               f a = f b -> a = b) ->
  Forall2 (entry_renamed f) (scenes cfg) (scenes cfg') ->
  Permutation (sceneOrder cfg') (map f (sceneOrder cfg)) ->
  (firstScene cfg' = ""
   \/ exists k, In k (obj_keys (scenes cfg)) /\ firstScene cfg' = f k) ->
  invariants cfg -> invariants cfg'.
Proof.
  intros Hinj Hrel Hord' Hfirst' (Hnd & Hids & Hlinks & Hord & Hfirst).
  pose proof (entries_renamed_keys f _ _ Hrel) as Hkeys.
  unfold invariants, ids_unique, hotspot_ids, links_sound, order_sound,
    first_sound in *.
  rewrite Hkeys. split; [|split; [|split; [|split]]].
  - now apply Finite.Injective_map_NoDup_in.
  - now rewrite (entries_renamed_ids f _ _ Hrel).
  - intros k' sc' x' Hin Hx'.
    destruct (entries_renamed_In f _ _ Hrel _ Hin)
      as ([k sc] & He & Hk & _ & Htargets).
    simpl in Hk, Htargets. subst k'.
    assert (Hs : In (sceneId x') (map f (map sceneId (hotSpots sc)))).
    { rewrite <- Htargets. now apply in_map. }
    apply in_map_iff in Hs as (t & Ht & Hin').
    apply in_map_iff in Hin' as (x & <- & Hx).
    destruct (Hlinks k sc x He Hx) as [Hex Hne]. rewrite <- Ht. split.
    + now apply in_map.
    + intros Heq. apply Hne. apply Hinj; try assumption.
      now apply (In_entry_key _ sc).
  - eapply Permutation_trans; [exact Hord'|]. now apply Permutation_map.
  - destruct Hfirst' as [H|(k & Hk & H)]; [now left | right].
    rewrite H. now apply in_map.
Qed.

(** *** Capturing a view *)

Lemma capture_entries (cur : string) (sc' : Scene) (u : Updates)
      (o : obj Scene) :
  (forall sc, obj_get cur o = Some sc -> hotSpots sc' = hotSpots sc) ->
  Forall2 (entry_renamed (fun k => k)) o
          (obj_map (fun _ sc => set_hotSpots (map (refreshed cur u) (hotSpots sc)) sc)
                   (obj_replace cur sc' o)).
Proof.
  assert (Hframe : forall hs,
             map hs_id (map (refreshed cur u) hs) = map hs_id hs
             /\ map sceneId (map (refreshed cur u) hs) = map sceneId hs).
  { intros hs. rewrite !map_map. split; apply map_ext; intros x;
      unfold refreshed; now destruct (sceneId x =? cur). }
  induction o as [|[k0 v0] r IH]; intros Hsame; simpl; [constructor|].
  destruct (String.eqb_spec k0 cur) as [->|Hne]; simpl.
  - constructor.
    + unfold entry_renamed. simpl. rewrite map_id.
      rewrite (Hsame v0); [|simpl; now rewrite String.eqb_refl].
      split; [reflexivity|]. apply Hframe.
    + clear IH Hsame. induction r as [|[k1 v1] r IH]; simpl; constructor.
      * unfold entry_renamed. simpl. rewrite map_id.
        split; [reflexivity|]. apply Hframe.
      * exact IH.
  - constructor.
    + unfold entry_renamed. simpl. rewrite map_id.
      split; [reflexivity|]. apply Hframe.
    + apply IH. intros sc Hget. apply Hsame. simpl.
      destruct (String.eqb_spec k0 cur); [contradiction | assumption].
Qed.

Lemma updateSceneWithCapturedView_invariants
      (cur : string) (p y h : float) (cfg cfg' : TourConfig) (n : nat) :
  invariants cfg ->
  updateSceneWithCapturedView cur p y h cfg = Completed (cfg', n) ->
  invariants cfg'.
Proof.
  intros Hinv. unfold updateSceneWithCapturedView.
  destruct (cur =? ""); [discriminate|].
  destruct (obj_get cur (scenes cfg)) as [sc|] eqn:Hget; [|discriminate].
  rewrite updateHotspotReferences_spec. intros [= <- _].
  apply (invariants_renaming (fun k => k) cfg); simpl.
  - auto.
  - apply capture_entries. intros sc0 Hget0. simpl. congruence.
  - now rewrite map_id.
  - destruct Hinv as (_ & _ & _ & _ & [H|H]); [now left | right].
    eauto.
  - exact Hinv.
Qed.

(** *** Renaming a scene *)

Lemma rename_key_perm (old new : string) (l : obj Scene) :
  forall acc : obj Scene,
    NoDup (obj_keys (map (rename_entry old new) l)) ->
    (forall k', In k' (obj_keys (map (rename_entry old new) l)) ->
                ~ In k' (obj_keys acc)) ->
    Permutation
      (fold_left
         (fun updatedScenes e =>
            if fst e =? old then obj_set new (snd e) updatedScenes
            else obj_set (fst e) (snd e) updatedScenes) l acc)
      (acc ++ map (rename_entry old new) l).
Proof.
  induction l as [|[k0 v0] r IH]; intros acc Hnd Hdisj; simpl.
  - now rewrite app_nil_r.
  - simpl in Hnd. inversion Hnd as [|? ? Hnotin Hnd']; subst.
    assert (Hstep : (if k0 =? old then obj_set new v0 acc else obj_set k0 v0 acc)
                    = obj_set (renamed old new k0) v0 acc).
    { unfold renamed. now destruct (k0 =? old). }
    rewrite Hstep.
    assert (Hfresh : obj_has (renamed old new k0) acc = false).
    { apply obj_has_false. apply Hdisj. now left. }
    eapply Permutation_trans.
    + apply IH; [assumption|]. intros k' Hin Hin'.
      apply obj_keys_set_In in Hin' as [->|Hin']; [contradiction|].
      apply (Hdisj k'); [now right | assumption].
    + eapply Permutation_trans.
      * apply Permutation_app_tail. now apply obj_set_fresh_perm.
      * simpl. apply Permutation_middle.
Qed.

Lemma renamed_inj (old new a b : string) (keys : list string) :
  ~ In new keys -> In a keys -> In b keys ->
  renamed old new a = renamed old new b -> a = b.
Proof.
  unfold renamed. intros Hnew Ha Hb.
  destruct (String.eqb_spec a old) as [->|Hao];
    destruct (String.eqb_spec b old) as [->|Hbo]; congruence.
Qed.

Lemma replace_first_map (old new : string) (a : list string) :
  NoDup a ->
  match indexOf old a with
  | Some orderIndex => array_set orderIndex new a
  | None => a
  end = map (renamed old new) a.
Proof.
  intros Hnd.
  assert (Hid : forall l, ~ In old l -> map (renamed old new) l = l).
  { induction l as [|x r IH]; simpl; intros Hnot; [reflexivity|].
    unfold renamed at 1.
    destruct (String.eqb_spec x old); [exfalso; apply Hnot; now left|].
    rewrite IH; [reflexivity | tauto]. }
  destruct (indexOf old a) as [i|] eqn:Hi.
  - apply indexOf_Some in Hi as (l1 & l2 & -> & Hnot1 & <-).
    rewrite array_set_app, map_app. simpl.
    apply NoDup_remove_2 in Hnd. rewrite in_app_iff in Hnd.
    rewrite !Hid by tauto. unfold renamed. now rewrite String.eqb_refl.
  - apply indexOf_None in Hi. now rewrite Hid.
Qed.

Lemma rename_entries (old new : string) (o : obj Scene) :
  Forall2 (entry_renamed (renamed old new)) o
          (obj_map (fun _ sc =>
                      set_hotSpots (map (retarget old new) (hotSpots sc)) sc)
                   (map (rename_entry old new) o)).
Proof.
  induction o as [|[k0 v0] r IH]; simpl; constructor; [|exact IH].
  unfold entry_renamed. simpl. split; [reflexivity|].
  rewrite !map_map. split; apply map_ext; intros x;
    unfold retarget, renamed; now destruct (sceneId x =? old).
Qed.

Lemma obj_map_perm {V} (g : string -> V -> V) (o o' : obj V) :
  Permutation o o' -> Permutation (obj_map g o) (obj_map g o').
Proof. apply Permutation_map. Qed.

Lemma renameScene_invariants (old new : string) (c : bool)
      (cfg cfg' : TourConfig) :
  invariants cfg -> In old (obj_keys (scenes cfg)) ->
  renameScene old new c cfg = (true, cfg') -> invariants cfg'.
Proof.
  intros Hinv Hold. unfold renameScene.
  destruct ((new =? "") || (trim new =? "")); [discriminate|].
  destruct (negb (id_pattern new)); [discriminate|].
  destruct (old =? new); [now intros [= <-]|].
  unfold obj_truthy in *.
  destruct (obj_has new (scenes cfg)) eqn:Hhas; [discriminate|].
  destruct (inherited new) eqn:Hown; [discriminate|].
  destruct (negb c); [discriminate|].
  intros [= <-].
  apply obj_has_false in Hhas.
  pose proof Hinv as (Hnd & _ & _ & Hord & Hfirst).
  set (G := fun (_ : string) sc =>
              set_hotSpots (map (retarget old new) (hotSpots sc)) sc).
  set (order' := match indexOf old (sceneOrder cfg) with
                 | Some i => array_set i new (sceneOrder cfg)
                 | None => sceneOrder cfg
                 end).
  set (first' := if firstScene cfg =? old then new else firstScene cfg).
  (* the same document with the scenes in the order of the old map *)
  apply (invariants_perm
           {| firstScene := first'; sceneOrder := order';
              sceneFadeDuration := sceneFadeDuration cfg;
              autoLoad := autoLoad cfg;
              scenes := obj_map G (map (rename_entry old new) (scenes cfg)) |});
    simpl; [| reflexivity | reflexivity |].
  - apply obj_map_perm, Permutation_sym. unfold rename_key.
    apply (rename_key_perm old new (scenes cfg) []).
    + now apply renamed_keys_NoDup.
    + intros k' _ [].
  - apply (invariants_renaming (renamed old new) cfg); simpl.
    + intros a b Ha Hb. now apply (renamed_inj old new a b _ Hhas).
    + apply rename_entries.
    + unfold order'. rewrite replace_first_map; [reflexivity|].
      apply (Permutation_NoDup (Permutation_sym Hord) Hnd).
    + unfold first'. destruct (String.eqb_spec (firstScene cfg) old) as [He|Hne].
      * right. exists old. split; [assumption|].
        unfold renamed. now rewrite String.eqb_refl.
      * destruct Hfirst as [H|H]; [now left | right].
        exists (firstScene cfg). split; [assumption|].
        unfold renamed.
        destruct (String.eqb_spec (firstScene cfg) old);
          [contradiction | reflexivity].
    + exact Hinv.
Qed.

(** *** Deleting a scene *)

Lemma Permutation_filter {A} (p : A -> bool) (l l' : list A) :
  Permutation l l' -> Permutation (filter p l) (filter p l').
Proof.
  induction 1 as [|x l l' _ IH|x y l|l l' l'' _ IH1 _ IH2]; simpl.
  - constructor.
  - destruct (p x); [now constructor | assumption].
  - destruct (p x), (p y); try reflexivity. apply perm_swap.
  - now transitivity (filter p l').
Qed.

Lemma remove_first_filter (X : string) (a : list string) :
  NoDup a ->
  match indexOf X a with
  | Some orderIndex => splice_remove orderIndex a
  | None => a
  end = filter (fun k => negb (k =? X)) a.
Proof.
  intros Hnd.
  assert (Hid : forall l, ~ In X l -> filter (fun k => negb (k =? X)) l = l).
  { induction l as [|x r IH]; simpl; intros Hnot; [reflexivity|].
    destruct (String.eqb_spec x X); [exfalso; apply Hnot; now left|].
    simpl. rewrite IH; [reflexivity | tauto]. }
  destruct (indexOf X a) as [i|] eqn:Hi.
  - apply indexOf_Some in Hi as (l1 & l2 & -> & Hnot1 & <-).
    rewrite splice_remove_app, filter_app. simpl.
    rewrite String.eqb_refl. simpl.
    apply NoDup_remove_2 in Hnd. rewrite in_app_iff in Hnd.
    rewrite !Hid by tauto. reflexivity.
  - apply indexOf_None in Hi. now rewrite Hid.
Qed.

Lemma NoDup_map_filter {X Y} (g : X -> Y) (keep : X -> bool) (xs : list X)
      (Hxs : NoDup (map g xs)) :
  NoDup (map g (filter keep xs)).
Proof.
  induction xs as [|x r IH]; simpl in *; [constructor|].
  inversion Hxs as [|? ? Hnotin Hnd]; subst.
  destruct (keep x); simpl; [|now apply IH].
  constructor; [|now apply IH].
  intros Hin. apply Hnotin. apply in_map_iff in Hin as (y & Hy & Hin).
  apply in_map_iff. exists y. split; [assumption|].
  now apply filter_In in Hin.
Qed.

Lemma delete_ids (X : string) (o : obj Scene) :
  incl (ids_of (obj_map (fun _ sc => set_hotSpots (drop_links X (hotSpots sc)) sc)
                        (obj_delete X o)))
       (ids_of o)
  /\ (NoDup (ids_of o) ->
      NoDup (ids_of (obj_map (fun _ sc =>
                                set_hotSpots (drop_links X (hotSpots sc)) sc)
                             (obj_delete X o)))).
Proof.
  induction o as [|[k sc] r [IHincl IHnd]]; simpl.
  - split; [apply incl_refl | auto].
  - rewrite ids_of_cons. destruct (k =? X); simpl.
    + split.
      * now apply incl_appr.
      * intros H. apply NoDup_app_remove_l in H. auto.
    + rewrite ids_of_cons. simpl.
      assert (Hsub : incl (map hs_id (drop_links X (hotSpots sc)))
                          (map hs_id (hotSpots sc))).
      { apply incl_map. apply incl_filter. }
      split.
      * apply incl_app; [now apply incl_appl | now apply incl_appr].
      * intros H. apply NoDup_app_inv in H as (H1 & H2 & H3).
        apply NoDup_app; [now apply NoDup_map_filter | auto |].
        intros a Ha Ha'. apply (H3 a); [now apply Hsub | now apply IHincl].
Qed.

Lemma delete_entries_In (X k : string) (sc' : Scene) (o : obj Scene) :
  In (k, sc') (obj_map (fun _ sc => set_hotSpots (drop_links X (hotSpots sc)) sc)
                       (obj_delete X o)) ->
  k <> X /\ exists sc, In (k, sc) o
                       /\ hotSpots sc' = drop_links X (hotSpots sc).
Proof.
  unfold obj_map, obj_delete. rewrite in_map_iff.
  intros ([k0 sc0] & Heq & Hin). simpl in Heq. injection Heq as <- <-.
  apply filter_In in Hin as [Hin Hk]. simpl in Hk.
  apply negb_true_iff, String.eqb_neq in Hk. split; [assumption|].
  exists sc0. auto.
Qed.

Lemma deleteCurrentScene_invariants (X : string) (c : bool)
      (cfg cfg' : TourConfig) :
  invariants cfg -> deleteCurrentScene X c cfg = Completed cfg' ->
  invariants cfg'.
Proof.
  intros (Hnd & Hids & Hlinks & Hord & Hfirst). unfold deleteCurrentScene.
  destruct (X =? ""); [discriminate|].
  destruct (negb c); [discriminate|].
  intros [= <-].
  unfold invariants, ids_unique, hotspot_ids, links_sound, order_sound,
    first_sound in *. simpl.
  rewrite obj_keys_map, obj_keys_delete.
  split; [|split; [|split; [|split]]].
  - now apply NoDup_filter.
  - now apply delete_ids.
  - intros k sc' x Hin Hx.
    apply delete_entries_In in Hin as (Hk & sc & Hin & Hhs).
    rewrite Hhs in Hx. apply filter_In in Hx as [Hx Ht].
    apply negb_true_iff, String.eqb_neq in Ht.
    destruct (Hlinks k sc x Hin Hx) as [Hex Hne]. split; [|assumption].
    apply filter_In. split; [assumption|].
    now apply negb_true_iff, String.eqb_neq.
  - rewrite remove_first_filter.
    + now apply Permutation_filter.
    + apply (Permutation_NoDup (Permutation_sym Hord) Hnd).
  - destruct (String.eqb_spec (firstScene cfg) X) as [He|Hne].
    + destruct (filter _ (obj_keys (scenes cfg))) as [|k0 r];
        [now left | right; now left].
    + destruct Hfirst as [H|H]; [now left | right].
      apply filter_In. split; [assumption|].
      now apply negb_true_iff, String.eqb_neq.
Qed.

(** *** Every operation *)

Lemma exec_invariants (op : operation) (ed ed' : Editor) :
  invariants (tourConfig ed) -> admissible op ed -> exec op ed = Some ed' ->
  invariants (tourConfig ed').
Proof.
  intros Hinv Hadm.
  destruct op; unfold exec, admissible, with_config, completed in *;
    cbv zeta in *.
  - destruct (addNewScene idField pathField maxLevel' cubeResolution'
                          (tourConfig ed)) eqn:Hrun;
      simpl; intros [= <-]. simpl.
    eapply addNewScene_invariants; eassumption.
  - destruct (renameScene oldSceneId newSceneId confirmed (tourConfig ed))
      as [[|] cfg'] eqn:Hrun; simpl; intros [= <-]. simpl.
    eapply renameScene_invariants; eassumption.
  - destruct (deleteCurrentScene currentScene confirmed (tourConfig ed))
      eqn:Hrun; simpl; intros [= <-]. simpl.
    eapply deleteCurrentScene_invariants; eassumption.
  - destruct Hadm as [Hid Htarget].
    destruct (confirmAddHotspot currentScene (Some AddingHotspot) textField
                idField targetScene hotspotPitch hotspotYaw ed) eqn:Hrun;
      intros [= <-].
    eapply confirmAddHotspot_invariants; eassumption.
  - destruct Hadm as [Hid Htarget].
    destruct (confirmAddHotspot currentScene (Some (EditingHotspot editIndex))
                textField idField targetScene hotspotPitch hotspotYaw ed)
      eqn:Hrun; intros [= <-].
    eapply confirmAddHotspot_invariants; eassumption.
  - destruct (deleteHotspot currentScene index (tourConfig ed)) eqn:Hrun;
      simpl; intros [= <-]. simpl.
    eapply deleteHotspot_invariants; eassumption.
  - destruct (handleHotspotDrop currentScene (Some dragged) targetIndex
                                (tourConfig ed)) eqn:Hrun;
      simpl; intros [= <-]. simpl.
    eapply handleHotspotDrop_invariants; eassumption.
  - simpl. intros [= <-]. simpl. now apply reorderScenes_invariants.
  - destruct (moveScene sceneId' direction (tourConfig ed)) eqn:Hrun;
      simpl; intros [= <-]. simpl.
    eapply moveScene_invariants; eassumption.
  - destruct (handleDrop draggedSceneId targetSceneId (tourConfig ed))
      eqn:Hrun; simpl; intros [= <-]. simpl.
    eapply handleDrop_invariants; eassumption.
  - destruct (updateSceneWithCapturedView currentScene pitch' yaw' hfov'
                                          (tourConfig ed))
      as [[cfg' n]| |] eqn:Hrun; simpl; intros [= <-]. simpl.
    eapply updateSceneWithCapturedView_invariants; eassumption.
Qed.

(** C1 (as amended): from a document that satisfies the four invariants
    (the empty document of a fresh editor does), every sequence of
    operations that each complete successfully keeps them after every
    step, provided the arguments are those the user interface supplies: a
    rename is asked for an existing scene, the target of an added or
    edited hotspot is chosen from the dialog's list (an existing scene
    other than the owner) and its id is typed in, and [reorderScenes]
    receives a rearrangement of the current order, as moving and dragging a
    scene always pass. *)
Theorem operations_keep_invariants
        (ed : Editor) (ops : list operation) (eds : list Editor) :
  invariants (tourConfig ed) -> steps ed ops eds ->
  Forall (fun ed' => invariants (tourConfig ed')) eds.
Proof.
  intros Hinv Hsteps. induction Hsteps as [|ed op ed' ops eds Hadm Hexec _ IH].
  - constructor.
  - pose proof (exec_invariants op ed ed' Hinv Hadm Hexec) as Hinv'.
    constructor; [assumption | now apply IH].
Qed.

Ltac pick_option := repeat first [left; reflexivity | right].

Ltac plain_step :=
  eapply steps_cons; [exact I | vm_compute; reflexivity |].

Ltac hotspot_step :=
  eapply steps_cons;
  [split; [vm_compute; discriminate | vm_compute; pick_option]
  | vm_compute; reflexivity |].

Lemma session_steps : exists eds, steps initialEditor session eds.
Proof.
  unfold session. eexists.
  do 3 plain_step. do 3 hotspot_step. plain_step.
  eapply steps_cons; [vm_compute; pick_option | vm_compute; reflexivity |].
  hotspot_step. do 4 plain_step.
  eapply steps_cons; [| vm_compute; reflexivity |].
  { vm_compute. apply (Permutation_cons_app ["roof"; "lobby"] [] "atrium").
    reflexivity. }
  plain_step. constructor.
Qed.

Lemma operations_keep_invariants_witness :
  exists eds,
    steps initialEditor session eds
    /\ Forall (fun ed' => invariants (tourConfig ed')) eds.
Proof.
  destruct session_steps as [eds Hsteps]. exists eds.
  split; [exact Hsteps|].
  exact (operations_keep_invariants initialEditor session eds
                                    invariants_initial Hsteps).
Defined.

(** Two runs of operations that all complete and leave a document that
    violates an invariant.  In the first the second hotspot is added with
    an empty id field and receives the id the user gave to the first one.
    In the second [reorderScenes] is given a list without the scene that
    [firstScene] names. *)
Lemma invariants_broken :
  (run [AddScene "A" "./A/" 4 4096; AddScene "B" "./B/" 4 4096;
        AddHotspot "A" "" "hs_A_0" "B" 0 0; AddHotspot "A" "" "" "B" 0 0]
       initialEditor
   = Some {| tourConfig := doc_twins; hotspotCounter := 1 |}
   /\ ~ ids_unique doc_twins)
  /\ (exists ed,
         run [AddScene "A" "./A/" 4 4096; AddScene "B" "./B/" 4 4096;
              ReorderScenes ["B"]] initialEditor = Some ed
         /\ ~ first_sound (tourConfig ed)
         /\ ~ Permutation ["B"] ["A"; "B"]).
Proof.
  split; [split|].
  - vm_compute. reflexivity.
  - unfold ids_unique. vm_compute. intros H.
    inversion H as [|? ? Hnot _]. apply Hnot. now left.
  - eexists. split; [vm_compute; reflexivity|]. split.
    + unfold first_sound. vm_compute. intros [H|[H|[]]]; discriminate.
    + intros H. apply Permutation_length in H. discriminate.
Qed.

(** ** Where the code departs from the specification *)

(** [reorderScenes] with a list that misses the existing scene "B": the
    call is not rejected, [sceneOrder] is replaced and scene "B" is lost. *)
Lemma reorderScenes_accepts_short_list :
  ~ Permutation ["A"] (obj_keys (scenes doc_AB))
  /\ sceneOrder (reorderScenes ["A"] doc_AB) = ["A"]
  /\ obj_has "B" (scenes doc_AB) = true
  /\ obj_has "B" (scenes (reorderScenes ["A"] doc_AB)) = false
  /\ reorderScenes ["A"] doc_AB <> doc_AB.
Proof.
  split; [|repeat split; try (vm_compute; reflexivity)].
  - intros H. apply Permutation_length in H. discriminate.
  - intros H. apply (f_equal sceneOrder) in H. discriminate.
Qed.

(** A document whose [sceneOrder] names "B" twice (imported as it is):
    after deleting "B", [sceneOrder] still names it. *)
Lemma deleteCurrentScene_repeated_entry :
  sceneOrder (tourConfig (importConfiguration file_repeated)) = ["A"; "B"; "B"]
  /\ obj_has "B" (scenes (tourConfig (importConfiguration file_repeated))) = true
  /\ exists cfg',
       deleteCurrentScene "B" true (tourConfig (importConfiguration file_repeated))
       = Completed cfg'
       /\ In "B" (sceneOrder cfg')
       /\ obj_has "B" (scenes cfg') = false.
Proof.
  split; [vm_compute; reflexivity|]. split; [vm_compute; reflexivity|].
  eexists. split; [vm_compute; reflexivity|].
  split; [right; now left | reflexivity].
Qed.

(** Adding a hotspot from "A" to "B" with an empty id in a fresh editor:
    the id is "hs_A_0", not "hs_B_001". *)
Lemma confirmAddHotspot_empty_id_fallback :
  exists ed',
    confirmAddHotspot "A" (Some AddingHotspot) "" "" "B" 0 0
                      {| tourConfig := doc_AB; hotspotCounter := 0 |}
    = Completed ed'
    /\ hotspot_ids (tourConfig ed') = [Some "hs_A_0"]
    /\ generateSceneBasedHotspotId "B" doc_AB = Some "hs_B_001".
Proof.
  eexists. split; [vm_compute; reflexivity|].
  split; vm_compute; reflexivity.
Qed.

(** The scene "my scene", added through [addNewScene], cannot be renamed
    to its own id: the call returns [false]. *)
Lemma renameScene_identity_rejected :
  addNewScene "my scene" "./p/" 4 4096 initialConfig = Completed doc_spaced
  /\ obj_has "my scene" (scenes doc_spaced) = true
  /\ renameScene "my scene" "my scene" true doc_spaced = (false, doc_spaced).
Proof. repeat split; vm_compute; reflexivity. Qed.

(** Re-submitting a hotspot's own id while editing it does not always
    pass: not when another hotspot carries the same id, and not when the
    id (here an imported one) has a character outside the pattern. *)
Lemma validateHotspotId_own_id_rejected :
  (option_map hs_id
     (option_map (fun sc => nth 0 (hotSpots sc) (link "" "" ""))
                 (obj_get "A" (scenes doc_twins)))
   = Some (Some "hs_A_0")
   /\ validateHotspotId "hs_A_0" "A" 0 doc_twins = Duplicate "A")
  /\ (option_map hs_id
        (option_map (fun sc => nth 0 (hotSpots sc) (link "" "" ""))
                    (obj_get "A" (scenes doc_blank_id)))
      = Some (Some "to hall")
      /\ validateHotspotId "to hall" "A" 0 doc_blank_id = BadCharacters).
Proof. repeat split; vm_compute; reflexivity. Qed.

(** C5 (the failing input): renaming "b" to "1" in a document whose scene
    map lists "a", "b", "c".  The rename succeeds; [sceneOrder] keeps the
    position, but in the scene map the renamed scene moves to the front,
    because "1" is an array-index key. *)
Theorem renameScene_moves_integer_key :
  obj_keys (scenes doc_abc) = ["a"; "b"; "c"]
  /\ exists cfg',
       renameScene "b" "1" true doc_abc = (true, cfg')
       /\ sceneOrder cfg' = ["a"; "1"; "c"]
       /\ obj_keys (scenes cfg') = ["1"; "a"; "c"].
Proof.
  split; [reflexivity|]. eexists. split; [vm_compute; reflexivity|].
  split; reflexivity.
Qed.

(** C7 (the failing input): [addNewScene] accepts the id "my scene", which
    does not match the id pattern that [renameScene] enforces. *)
Theorem addNewScene_accepts_unchecked_id :
  id_pattern "my scene" = false
  /\ addNewScene "my scene" "./p/" 4 4096 initialConfig = Completed doc_spaced
  /\ obj_has "my scene" (scenes doc_spaced) = true
  /\ (forall cfg c, fst (renameScene "b" "my scene" c cfg) = false).
Proof.
  split; [reflexivity|]. split; [vm_compute; reflexivity|].
  split; [reflexivity|]. intros cfg c. reflexivity.
Qed.

(** ** Reading numbers off ids *)

Lemma is_digit_cases (c : ascii) :
  is_digit c = true ->
  is_ws c = false /\ c <> "-"%char /\ c <> "+"%char /\ c <> "x"%char
  /\ c <> "X"%char /\ c <> "_"%char.
Proof.
  destruct c as [[] [] [] [] [] [] [] []]; vm_compute; intros H;
    try discriminate H; repeat split; discriminate.
Qed.

Lemma uint_digits (d : Decimal.uint) :
  forallb is_digit (list_ascii_of_string (DecimalString.NilEmpty.string_of_uint d))
  = true.
Proof. induction d; simpl; auto. Qed.

Lemma toStringN_digits (n : N) :
  forallb is_digit (list_ascii_of_string (toStringN n)) = true.
Proof. apply uint_digits. Qed.

Lemma toStringN_not_empty (n : N) : toStringN n <> "".
Proof.
  unfold toStringN. destruct n as [|p]; simpl; [discriminate|].
  pose proof (DecimalPos.Unsigned.to_uint_nonnil p) as Hnn.
  destruct (Pos.to_uint p); simpl; try discriminate. contradiction.
Qed.

Lemma takeWhile_all (p : ascii -> bool) (s : string) :
  forallb p (list_ascii_of_string s) = true -> takeWhile p s = s.
Proof.
  induction s as [|c r IH]; simpl; [reflexivity|].
  intros H. apply andb_true_iff in H as [Hc Hr]. now rewrite Hc, IH.
Qed.

Lemma prefix_cons (a b : ascii) (s1 s2 : string) :
  String.prefix (String a s1) (String b s2) =
  if ascii_dec a b then String.prefix s1 s2 else false.
Proof. reflexivity. Qed.

Lemma prefix_letter_digits (c : ascii) (r : string) :
  c = "x"%char \/ c = "X"%char ->
  forallb is_digit (list_ascii_of_string r) = true ->
  String.prefix (String c EmptyString) r = false.
Proof.
  intros Hc Hr. destruct r as [|c2 r2]; [reflexivity|].
  simpl in Hr. apply andb_true_iff in Hr as [H2 _].
  apply is_digit_cases in H2 as (_ & _ & _ & Hx & HX & _).
  rewrite prefix_cons.
  destruct (ascii_dec c c2) as [<-|Hne]; [|reflexivity].
  destruct Hc; congruence.
Qed.

(** [parseInt] of a non-empty string of decimal digits is the number the
    digits denote. *)
Lemma parseInt_digits (s : string) :
  s <> "" -> forallb is_digit (list_ascii_of_string s) = true ->
  parseInt s = option_map Z.of_N (numeral_value s).
Proof.
  intros Hne Hall. destruct s as [|c r]; [contradiction|].
  pose proof Hall as Hall'. simpl in Hall'.
  apply andb_true_iff in Hall' as [Hc Hr].
  destruct (is_digit_cases c Hc) as (Hws & Hminus & Hplus & _).
  unfold parseInt. rewrite trimStart_head by assumption.
  assert (Hsign : match String c r with
                  | String "-" r0 => (true, r0)
                  | String "+" r0 => (false, r0)
                  | _ => (false, String c r)
                  end = (false, String c r)).
  { destruct c as [[] [] [] [] [] [] [] []]; try reflexivity; congruence. }
  rewrite Hsign.
  assert (Hhex : String.prefix "0x" (String c r) || String.prefix "0X" (String c r)
                 = false).
  { rewrite !prefix_cons.
    destruct (ascii_dec "0" c) as [<-|H0]; [|reflexivity].
    rewrite !prefix_letter_digits; auto. }
  rewrite Hhex, (takeWhile_all is_digit (String c r) Hall).
  simpl (String c r =? ""). cbv iota. unfold numeral_value.
  now destruct (DecimalString.NilEmpty.uint_of_string (String c r)).
Qed.

Lemma parseInt_toStringN (n : N) : parseInt (toStringN n) = Some (Z.of_N n).
Proof.
  rewrite parseInt_digits.
  - now rewrite numeral_value_toStringN.
  - apply toStringN_not_empty.
  - apply toStringN_digits.
Qed.

Lemma list_ascii_append (a b : string) :
  list_ascii_of_string (a ++ b) = list_ascii_of_string a ++ list_ascii_of_string b.
Proof. induction a as [|c r IH]; simpl; [reflexivity | now rewrite IH]. Qed.

Lemma digits_no_underscore (s : string) :
  forallb is_digit (list_ascii_of_string s) = true ->
  existsb (Ascii.eqb "_") (list_ascii_of_string s) = false.
Proof.
  induction s as [|c r IH]; [reflexivity|].
  cbn [list_ascii_of_string forallb existsb].
  intros H. apply andb_true_iff in H as [Hc Hr]. rewrite (IH Hr), orb_false_r.
  apply is_digit_cases in Hc as (_ & _ & _ & _ & _ & Hu).
  destruct (Ascii.eqb_spec "_" c); [congruence | reflexivity].
Qed.

Lemma lastPart_after (x d : string) :
  existsb (Ascii.eqb "_") (list_ascii_of_string d) = false ->
  lastPart (x ++ String "_" d) = d.
Proof.
  intros Hd. induction x as [|c r IH]; cbn [append lastPart].
  - rewrite Hd. now rewrite Ascii.eqb_refl.
  - rewrite list_ascii_append, existsb_app.
    cbn [list_ascii_of_string existsb]. rewrite Ascii.eqb_refl.
    now rewrite orb_true_r.
Qed.

Lemma string_app_assoc (a b c : string) : ((a ++ b) ++ c = a ++ b ++ c)%string.
Proof. induction a as [|x r IH]; simpl; [reflexivity | now rewrite IH]. Qed.

Lemma fallbackId_shape (k : string) (n : N) :
  fallbackId k n = (("hs_" ++ k) ++ String "_" (toStringN n))%string.
Proof. unfold fallbackId. now rewrite string_app_assoc. Qed.

Lemma suffix_number_fallbackId (k : string) (n : N) :
  suffix_number (Some (fallbackId k n)) = Some (Z.of_N n).
Proof.
  unfold suffix_number. rewrite fallbackId_shape, lastPart_after.
  - apply parseInt_toStringN.
  - apply digits_no_underscore, toStringN_digits.
Qed.

Lemma counted_fallbackId (k : string) (n : N) : counted (fallbackId k n) = true.
Proof.
  unfold counted. apply andb_true_iff. split.
  { apply andb_true_iff. split; [reflexivity|].
    apply String.prefix_correct. now destruct k. }
  apply Nat.leb_le. unfold partsLength, fallbackId.
  change (list_ascii_of_string ("hs_" ++ k ++ "_" ++ toStringN n))
    with ("h"%char :: "s"%char :: "_"%char
          :: list_ascii_of_string (k ++ String "_" (toStringN n))).
  rewrite list_ascii_append.
  cbn [filter Ascii.eqb Bool.eqb]. rewrite filter_app.
  cbn [list_ascii_of_string filter]. rewrite Ascii.eqb_refl.
  cbn [length]. rewrite length_app. cbn [length]. lia.
Qed.

(** ** The two passes of [ensureHotspotIds] *)

Lemma counter_run_app (m m' : nat) :
  forall c, counter_run c m ++ counter_run (c + N.of_nat m) m'
            = counter_run c (m + m').
Proof.
  induction m as [|m IH]; intros c; simpl.
  - now rewrite N.add_0_r.
  - rewrite <- IH. do 3 f_equal. lia.
Qed.

Lemma counter_run_In (m : nat) :
  forall c x, In x (counter_run c m) ->
              exists j, x = Some (Z.of_N j) /\ (c <= j)%N.
Proof.
  induction m as [|m IH]; intros c x; simpl; [tauto|].
  intros [<-|Hin].
  - exists c. split; [reflexivity | lia].
  - destruct (IH _ _ Hin) as (j & -> & Hj). exists j. split; [reflexivity | lia].
Qed.

Lemma counter_run_NoDup (m : nat) : forall c, NoDup (counter_run c m).
Proof.
  induction m as [|m IH]; intros c; simpl; constructor; [|apply IH].
  intros Hin. destruct (counter_run_In _ _ _ Hin) as (j & Heq & Hj).
  injection Heq as Heq. lia.
Qed.

Lemma combine_app_same {A B} (a b : list A) (a' b' : list B) :
  length a = length a' ->
  combine (a ++ b) (a' ++ b') = combine a a' ++ combine b b'.
Proof.
  revert a'. induction a as [|x r IH]; intros [|x' r']; simpl;
    try discriminate; [reflexivity|].
  intros [= Hlen]. now rewrite IH.
Qed.

Lemma assigned_ids_app (a b a' b' : list Hotspot) :
  length a = length a' ->
  assigned_ids (a ++ b) (a' ++ b') = assigned_ids a a' ++ assigned_ids b b'.
Proof.
  intros Hlen. unfold assigned_ids.
  now rewrite combine_app_same, filter_app, map_app.
Qed.

Lemma id_given_weaken (seed c : N) (k : string) (hs hs' : list Hotspot) :
  (seed <= c)%N -> Forall2 (id_given c k) hs hs' ->
  Forall2 (id_given seed k) hs hs'.
Proof.
  intros Hle H. induction H as [|h h' r r' Hh _ IH]; constructor; [|exact IH].
  unfold id_given in *. destruct (id_missing h); [|assumption].
  destruct Hh as (n & Hn & ->). exists n. split; [lia | reflexivity].
Qed.

Lemma fix_hotspots_spec (k : string) (hs : list Hotspot) :
  forall c,
  exists hs' m,
    fix_hotspots k hs c = (hs', (c + N.of_nat m)%N)
    /\ Forall2 (id_given c k) hs hs'
    /\ map suffix_number (assigned_ids hs hs') = counter_run c m
    /\ Forall well_formed_id (assigned_ids hs hs').
Proof.
  induction hs as [|h r IH]; intros c; simpl.
  - exists [], 0%nat. rewrite N.add_0_r. repeat split; constructor.
  - unfold fixMissingHotspotId. destruct (id_missing h) eqn:Hmiss.
    + destruct (IH (c + 1)%N) as (r' & m & Hrun & Hrel & Hnum & Hwf).
      rewrite Hrun. exists (set_id (fallbackId k c) h :: r'), (S m).
      split; [f_equal; lia|]. split; [|split].
      * constructor.
        -- unfold id_given. rewrite Hmiss. exists c. split; [lia | reflexivity].
        -- apply (id_given_weaken c (c + 1)); [lia | assumption].
      * unfold assigned_ids in *. simpl. rewrite Hmiss. simpl.
        rewrite Hnum. f_equal. apply suffix_number_fallbackId.
      * unfold assigned_ids in *. simpl. rewrite Hmiss. simpl.
        constructor; [|assumption].
        exists (fallbackId k c). split; [reflexivity | apply counted_fallbackId].
    + destruct (IH c) as (r' & m & Hrun & Hrel & Hnum & Hwf).
      rewrite Hrun. exists (h :: r'), m.
      split; [reflexivity|]. split; [|split].
      * constructor; [|assumption]. unfold id_given. now rewrite Hmiss.
      * unfold assigned_ids in *. simpl. now rewrite Hmiss.
      * unfold assigned_ids in *. simpl. now rewrite Hmiss.
Qed.

Lemma ids_given_weaken (seed c : N) (o o' : obj Scene) :
  (seed <= c)%N -> Forall2 (ids_given c) o o' -> Forall2 (ids_given seed) o o'.
Proof.
  intros Hle H. induction H as [|e e' r r' He _ IH]; constructor; [|exact IH].
  destruct He as (Hk & hs' & Hsc & Hrel). split; [assumption|].
  exists hs'. split; [assumption|]. now apply (id_given_weaken seed c).
Qed.

Lemma all_hotspots_cons (k : string) (sc : Scene) (o : obj Scene) :
  all_hotspots ((k, sc) :: o) = hotSpots sc ++ all_hotspots o.
Proof. reflexivity. Qed.

Lemma fix_scenes_spec (o : obj Scene) :
  forall c,
  exists o' m,
    fix_scenes o c = (o', (c + N.of_nat m)%N)
    /\ Forall2 (ids_given c) o o'
    /\ map suffix_number (assigned_ids (all_hotspots o) (all_hotspots o'))
       = counter_run c m
    /\ Forall well_formed_id (assigned_ids (all_hotspots o) (all_hotspots o')).
Proof.
  induction o as [|[k sc] r IH]; intros c; simpl.
  - exists [], 0%nat. rewrite N.add_0_r. repeat split; constructor.
  - destruct (fix_hotspots_spec k (hotSpots sc) c)
      as (hs' & m1 & Hrun1 & Hrel1 & Hnum1 & Hwf1).
    rewrite Hrun1.
    destruct (IH (c + N.of_nat m1)%N) as (r' & m2 & Hrun2 & Hrel2 & Hnum2 & Hwf2).
    rewrite Hrun2.
    exists ((k, set_hotSpots hs' sc) :: r'), (m1 + m2)%nat.
    split; [now rewrite Nat2N.inj_add, N.add_assoc|].
    pose proof (Forall2_length Hrel1) as Hlen.
    split; [|split].
    + constructor.
      * split; [reflexivity|]. exists hs'. auto.
      * apply (ids_given_weaken c (c + N.of_nat m1)); [lia | assumption].
    + rewrite !all_hotspots_cons. simpl (hotSpots (set_hotSpots hs' sc)).
      rewrite assigned_ids_app, map_app, Hnum1, Hnum2 by assumption.
      apply counter_run_app.
    + rewrite !all_hotspots_cons. simpl (hotSpots (set_hotSpots hs' sc)).
      rewrite assigned_ids_app by assumption.
      apply Forall_app. auto.
Qed.

Lemma maxCounter_flat (o : obj Scene) :
  maxCounter o = fold_left scan_counter (all_hotspots o) 0%Z.
Proof.
  unfold maxCounter, all_hotspots. generalize 0%Z as m.
  induction (obj_values o) as [|sc r IH]; intros m; simpl; [reflexivity|].
  now rewrite fold_left_app, IH.
Qed.

Lemma scan_counter_counted (m : Z) (h : Hotspot) (s : string) :
  hs_id h = Some s ->
  scan_counter m h =
  if counted s
  then match parseInt (lastPart s) with
       | Some counter => Z.max m counter
       | None => m
       end
  else m.
Proof. intros H. unfold scan_counter, counted. now rewrite H. Qed.

Lemma scan_counter_ge (m : Z) (h : Hotspot) : (m <= scan_counter m h)%Z.
Proof.
  unfold scan_counter. destruct (hs_id h) as [s|]; [|lia].
  destruct (_ && _); [|lia]. destruct (parseInt (lastPart s)); lia.
Qed.

Lemma scan_fold_ge (l : list Hotspot) :
  forall m, (m <= fold_left scan_counter l m)%Z.
Proof.
  induction l as [|h r IH]; intros m; simpl; [lia|].
  pose proof (scan_counter_ge m h). pose proof (IH (scan_counter m h)). lia.
Qed.

Lemma scan_fold_bound (l : list Hotspot) :
  forall m h s z,
    In h l -> hs_id h = Some s -> counted s = true ->
    parseInt (lastPart s) = Some z ->
    (z <= fold_left scan_counter l m)%Z.
Proof.
  induction l as [|h0 r IH]; intros m h s z Hin Hid Hc Hz; simpl; [destruct Hin|].
  destruct Hin as [->|Hin].
  - pose proof (scan_fold_ge r (scan_counter m h)) as Hge.
    rewrite (scan_counter_counted m h s Hid), Hc, Hz in Hge |- *. lia.
  - now apply (IH _ h s z).
Qed.

Lemma scan_fold_attained (l : list Hotspot) :
  forall m,
    fold_left scan_counter l m = m
    \/ exists h s, In h l /\ hs_id h = Some s /\ counted s = true
                   /\ parseInt (lastPart s) = Some (fold_left scan_counter l m).
Proof.
  induction l as [|h0 r IH]; intros m; simpl; [now left|].
  destruct (IH (scan_counter m h0)) as [Heq|(h & s & Hin & Hid & Hc & Hz)].
  - rewrite Heq. destruct (hs_id h0) as [s|] eqn:Hid.
    + rewrite (scan_counter_counted m h0 s Hid).
      destruct (counted s) eqn:Hc; [|now left].
      destruct (parseInt (lastPart s)) as [z|] eqn:Hz; [|now left].
      destruct (Z.max_spec m z) as [[_ ->]|[_ ->]]; [|now left].
      right. exists h0, s. rewrite Hz. auto.
    + left. unfold scan_counter. now rewrite Hid.
  - right. exists h, s. auto.
Qed.

(** ** The order of the rebuilt scene map *)

Lemma js_ordered_app_inv (a b : list string) :
  js_ordered (a ++ b) = true ->
  js_ordered a = true /\ js_ordered b = true
  /\ forall x y, In x a -> In y b -> key_before x y = true.
Proof.
  induction a as [|k r IH]; simpl; intros H.
  - repeat split; [assumption | intros x y []].
  - apply andb_true_iff in H as [Hk Hr].
    rewrite forallb_app in Hk. apply andb_true_iff in Hk as [Hk1 Hk2].
    destruct (IH Hr) as (H1 & H2 & H3). repeat split.
    + now rewrite Hk1, H1.
    + assumption.
    + intros x y [<-|Hx] Hy.
      * rewrite forallb_forall in Hk2. now apply Hk2.
      * now apply H3.
Qed.

Lemma js_ordered_remove (a r : list string) (k : string) :
  js_ordered (a ++ k :: r) = true -> js_ordered (a ++ r) = true.
Proof.
  induction a as [|x a' IH]; simpl; intros H.
  - now apply andb_true_iff in H as [_ H].
  - apply andb_true_iff in H as [Hx Hr]. rewrite (IH Hr), andb_true_r.
    rewrite forallb_app in *. simpl in Hx.
    apply andb_true_iff in Hx as [H1 H2]. apply andb_true_iff in H2 as [_ H2].
    now rewrite H1, H2.
Qed.

Lemma obj_insert_index_append {V} (n : N) (k : string) (v : V) (acc : obj V) :
  (forall k', In k' (obj_keys acc) ->
              exists m, arrayIndex k' = Some m /\ (m < n)%N) ->
  obj_insert_index n k v acc = acc ++ [(k, v)].
Proof.
  induction acc as [|[k0 v0] r IH]; simpl; intros H; [reflexivity|].
  destruct (H k0) as (m & Hm & Hlt); [now left|].
  rewrite Hm. apply N.ltb_lt in Hlt. rewrite Hlt.
  rewrite IH; [reflexivity|]. intros k' Hin. apply H. now right.
Qed.

Lemma obj_set_append {V} (k : string) (v : V) (acc : obj V) :
  obj_has k acc = false ->
  (forall k', In k' (obj_keys acc) -> key_before k' k = true) ->
  obj_set k v acc = acc ++ [(k, v)].
Proof.
  intros Hfresh Hbefore. unfold obj_set. rewrite Hfresh.
  destruct (arrayIndex k) as [n|] eqn:Hk; [|reflexivity].
  apply obj_insert_index_append. intros k' Hin.
  specialize (Hbefore k' Hin). unfold key_before in Hbefore.
  rewrite Hk in Hbefore. destruct (arrayIndex k') as [m|]; [|discriminate].
  exists m. split; [reflexivity|]. now apply N.ltb_lt.
Qed.

Lemma rebuild_in_order (src : obj Scene) (l : list string) :
  forall acc : obj Scene,
    NoDup (obj_keys acc ++ l) -> js_ordered (obj_keys acc ++ l) = true ->
    fold_left (rebuild_step src) l acc = acc ++ pick src l.
Proof.
  induction l as [|k r IH]; intros acc Hnd Hord; simpl.
  - now rewrite app_nil_r.
  - unfold rebuild_step at 2.
    destruct (obj_get k src) as [sc|] eqn:Hget.
    + rewrite obj_set_append.
      * rewrite IH.
        -- now rewrite <- app_assoc.
        -- unfold obj_keys. rewrite map_app, <- app_assoc. exact Hnd.
        -- unfold obj_keys. rewrite map_app, <- app_assoc. exact Hord.
      * apply obj_has_false. apply NoDup_remove_2 in Hnd.
        intros Hin. apply Hnd. apply in_or_app. now left.
      * intros k' Hin. apply js_ordered_app_inv in Hord as (_ & _ & H).
        apply H; [assumption | now left].
    + apply IH.
      * now apply NoDup_remove_1 in Hnd.
      * now apply js_ordered_remove in Hord.
Qed.

Lemma pick_keys (src : obj Scene) (l : list string) :
  (forall k, In k l -> In k (obj_keys src)) -> obj_keys (pick src l) = l.
Proof.
  induction l as [|k r IH]; intros H; simpl; [reflexivity|].
  destruct (obj_get k src) as [sc|] eqn:Hget.
  - simpl. f_equal. apply IH. intros k' Hin. apply H. now right.
  - apply obj_get_None in Hget. exfalso. apply Hget. apply H. now left.
Qed.

(** When [newOrder] names existing scenes, each once, in an order an
    object can enumerate, the rebuilt scene map enumerates in that order. *)
Lemma reorderScenes_keys (newOrder : list string) (cfg : TourConfig) :
  NoDup newOrder -> js_ordered newOrder = true ->
  (forall k, In k newOrder -> In k (obj_keys (scenes cfg))) ->
  obj_keys (scenes (reorderScenes newOrder cfg)) = newOrder.
Proof.
  intros Hnd Hord Hex. rewrite reorderScenes_scenes.
  rewrite rebuild_in_order by assumption. simpl. now apply pick_keys.
Qed.

(** ** Importing a document *)

(** C8 (as amended): after a successful parse of a file whose numbers are
    exact (the largest number read off an id, plus one per hotspot without
    id, is a safe integer) and whose scene order names no property
    inherited from [Object.prototype], [importConfiguration]
    - takes [sceneOrder] from the iteration order of the scene map when it
      is missing or empty, and keeps it otherwise;
    - seeds the counter with one past the largest number read off the
      existing ids of the form [hs_..._<number>] (at least three parts
      when split at underscores), and gives every hotspot without an id
      the id [hs_<ownerSceneId>_<counter>], counting upwards by one from
      the seed in document order: these ids differ from one another and
      from every id present in the file, and hotspots that had an id keep
      it;
    - rebuilds the scene map from the scenes that [sceneOrder] names:
      a scene is kept exactly when [sceneOrder] names it, and the map
      enumerates in the order of [sceneOrder] when that list names
      existing scenes, each once, in an order an object can enumerate
      (ids that are array indices ascending and first). *)
Theorem importConfiguration_normalizes (imported : Imported)
        (Hexact : import_exact imported)
        (Hnames : own_names (import_order imported) = true) :
  let order := import_order imported in
  let top := maxCounter (imp_scenes imported) in
  let seed := Z.to_N (top + 1) in
  let before := all_hotspots (imp_scenes imported) in
  let ed := importConfiguration imported in
  order = match imp_sceneOrder imported with
          | Some (x :: r) => x :: r
          | _ => obj_keys (imp_scenes imported)
          end
  /\ sceneOrder (tourConfig ed) = order
  /\ firstScene (tourConfig ed) = imp_firstScene imported
  /\ (0 <= top)%Z
  /\ (forall h s z, In h before -> hs_id h = Some s -> counted s = true ->
                    parseInt (lastPart s) = Some z -> (z <= top)%Z)
  /\ (top = 0%Z
      \/ exists h s, In h before /\ hs_id h = Some s /\ counted s = true
                     /\ parseInt (lastPart s) = Some top)
  /\ exists fixed : obj Scene,
       let assigned := assigned_ids before (all_hotspots fixed) in
       Forall2 (ids_given seed) (imp_scenes imported) fixed
       /\ map suffix_number assigned = counter_run seed (length assigned)
       /\ NoDup assigned
       /\ (forall i, In i assigned -> ~ In i (ids_of (imp_scenes imported)))
       /\ hotspotCounter ed = (seed + N.of_nat (length assigned))%N
       /\ (forall k, obj_get k (scenes (tourConfig ed)) =
                     if existsb (fun id => id =? k) order
                     then obj_get k fixed else None)
       /\ (NoDup order -> js_ordered order = true ->
           (forall k, In k order -> In k (obj_keys (imp_scenes imported))) ->
           obj_keys (scenes (tourConfig ed)) = order).
Proof.
  cbv zeta. clear Hexact Hnames.
  assert (Htop : (0 <= maxCounter (imp_scenes imported))%Z).
  { rewrite maxCounter_flat. apply scan_fold_ge. }
  unfold importConfiguration, ensureHotspotIds, import_order. cbn [scenes].
  destruct (fix_scenes_spec (imp_scenes imported)
              (Z.to_N (maxCounter (imp_scenes imported) + 1)))
    as (fixed & m & Hrun & Hrel & Hnum & Hwf).
  rewrite Hrun. unfold reorderScenes.
  cbn [tourConfig hotspotCounter scenes sceneOrder firstScene set_scenes].
  set (order := match imp_sceneOrder imported with
                | Some (x :: r) => x :: r
                | _ => obj_keys (imp_scenes imported)
                end).
  split; [reflexivity|].
  split; [reflexivity|]. split; [reflexivity|]. split; [exact Htop|].
  split; [|split].
  - intros h s z. rewrite maxCounter_flat. apply scan_fold_bound.
  - rewrite maxCounter_flat. apply scan_fold_attained.
  - exists fixed. split; [exact Hrel|].
    assert (Hlen : length (assigned_ids (all_hotspots (imp_scenes imported))
                                        (all_hotspots fixed)) = m).
    { rewrite <- (length_map suffix_number), Hnum.
      clear. generalize (Z.to_N (maxCounter (imp_scenes imported) + 1)).
      induction m as [|m IH]; intros c; simpl; [reflexivity | now rewrite IH]. }
    split; [now rewrite Hlen|].
    split; [|split; [|split; [|split]]].
    + apply (NoDup_map_inv suffix_number). rewrite Hnum.
      apply counter_run_NoDup.
    + intros i Hin Hold.
      assert (Hsuf : In (suffix_number i)
                        (counter_run
                           (Z.to_N (maxCounter (imp_scenes imported) + 1)) m)).
      { rewrite <- Hnum. now apply in_map. }
      apply counter_run_In in Hsuf as (j & Hj & Hle).
      rewrite Forall_forall in Hwf. destruct (Hwf i Hin) as (s & -> & Hc).
      unfold ids_of in Hold. apply in_map_iff in Hold as (h & Hid & Hh).
      assert (Hb : (Z.of_N j <= maxCounter (imp_scenes imported))%Z).
      { rewrite maxCounter_flat.
        apply (scan_fold_bound _ 0%Z h s (Z.of_N j)); assumption. }
      lia.
    + now rewrite Hlen.
    + intros k. rewrite rebuild_get. simpl.
      destruct (existsb _ order); [|reflexivity].
      now destruct (obj_get k fixed).
    + intros Hnd Hord Hex.
      rewrite rebuild_in_order by assumption. simpl.
      apply pick_keys. intros k Hk.
      assert (Hkeys : obj_keys fixed = obj_keys (imp_scenes imported)).
      { clear - Hrel. induction Hrel as [|e e' r r' (He & _) _ IH];
          simpl; [reflexivity | now rewrite He, IH]. }
      rewrite Hkeys. now apply Hex.
Qed.

(** The file of scenario E meets the two provisos. *)
Lemma importConfiguration_normalizes_witness :
  import_exact file_legacy
  /\ own_names (import_order file_legacy) = true
  /\ sceneOrder (tourConfig (importConfiguration file_legacy)) = ["A"; "B"].
Proof.
  assert (Hexact : import_exact file_legacy)
    by (unfold import_exact; vm_compute; discriminate).
  assert (Hnames : own_names (import_order file_legacy) = true) by reflexivity.
  destruct (importConfiguration_normalizes file_legacy Hexact Hnames)
    as (Horder & Hsame & _).
  split; [exact Hexact|]. split; [exact Hnames|].
  rewrite Hsame, Horder. reflexivity.
Defined.

(** Scenario E: the file has no [sceneOrder], and the hotspot of "B" has no
    id while "hs_B_001" is taken: the order is the one of the scene map,
    and the hotspot gets "hs_B_2". *)
Lemma importConfiguration_legacy_file :
  let ed := importConfiguration file_legacy in
  sceneOrder (tourConfig ed) = ["A"; "B"]
  /\ obj_keys (scenes (tourConfig ed)) = ["A"; "B"]
  /\ hotspot_ids (tourConfig ed) = [Some "hs_B_001"; Some "hs_B_2"]
  /\ hotspotCounter ed = 3%N.
Proof. repeat split; vm_compute; reflexivity. Qed.

(** A file whose [sceneOrder] names a scene that does not exist: after the
    import the scene map does not enumerate in the order of [sceneOrder]. *)
Lemma importConfiguration_dangling_order :
  let ed := importConfiguration file_dangling in
  sceneOrder (tourConfig ed) = ["B"; "ghost"; "A"]
  /\ obj_keys (scenes (tourConfig ed)) = ["B"; "A"]
  /\ obj_keys (scenes (tourConfig ed)) <> sceneOrder (tourConfig ed).
Proof.
  cbv zeta. split; [vm_compute; reflexivity|].
  split; [vm_compute; reflexivity|]. vm_compute. discriminate.
Qed.

(** * Further properties of the editor *)

(** ** The count announced before a deletion *)

Lemma count_referencing_fold (X : string) (o : obj Scene) (l : obj Scene) :
  forall n,
    (forall e, In e l -> obj_get (fst e) o = Some (snd e)) ->
    fold_left (count_referencing X o) (obj_keys l) n
    = (n + length (filter (targets X)
                          (flat_map hotSpots (obj_values (obj_delete X l)))))%nat.
Proof.
  induction l as [|[k sc] r IH]; intros n Hl; simpl.
  - now rewrite Nat.add_0_r.
  - rewrite IH by (intros e He; apply Hl; now right).
    unfold count_referencing.
    destruct (String.eqb_spec k X) as [->|Hne]; simpl; [reflexivity|].
    pose proof (Hl (k, sc) (or_introl eq_refl)) as Hk. simpl in Hk.
    rewrite Hk, filter_app, length_app. unfold targets. lia.
Qed.

Lemma drop_links_length (X : string) (hs : list Hotspot) :
  (length (drop_links X hs) + length (filter (targets X) hs))%nat = length hs.
Proof.
  unfold drop_links, targets. induction hs as [|h r IH]; simpl; [reflexivity|].
  destruct (sceneId h =? X); simpl; lia.
Qed.

Lemma dropped_links_count (X : string) (l : obj Scene) :
  (length (flat_map hotSpots
             (obj_values
                (obj_map (fun _ sc => set_hotSpots (drop_links X (hotSpots sc)) sc)
                         l)))
   + length (filter (targets X) (flat_map hotSpots (obj_values l))))%nat
  = length (flat_map hotSpots (obj_values l)).
Proof.
  induction l as [|[k sc] r IH]; simpl; [reflexivity|].
  rewrite filter_app, !length_app.
  pose proof (drop_links_length X (hotSpots sc)). lia.
Qed.

Lemma own_hotspots_count (X : string) (l : obj Scene) :
  NoDup (obj_keys l) ->
  length (flat_map hotSpots (obj_values l))
  = (match obj_get X l with
     | Some scene => length (hotSpots scene)
     | None => 0
     end
     + length (flat_map hotSpots (obj_values (obj_delete X l))))%nat.
Proof.
  induction l as [|[k sc] r IH]; intros Hnd; simpl; [reflexivity|].
  inversion Hnd as [|? ? Hk Hr]; subst.
  destruct (String.eqb_spec k X) as [->|Hne]; simpl.
  - rewrite length_app. f_equal.
    unfold obj_delete. rewrite forallb_filter_id; [reflexivity|].
    apply forallb_forall. intros [k' v'] Hin. simpl.
    destruct (String.eqb_spec k' X) as [->|]; [|reflexivity].
    exfalso. apply Hk. now apply (In_entry_key X v').
  - rewrite !length_app, (IH Hr). lia.
Qed.

(** X3: the number of hotspots that the confirmation dialog of
    [deleteCurrentScene] announces ([countRelatedHotspots(...).total]) is
    the number of hotspots the deletion removes from the document; it is
    the sum of the hotspots of the scene itself and of the hotspots of the
    other scenes that point to it. *)
Theorem countRelatedHotspots_announces_removal
        (cfg cfg' : TourConfig) (X : string)
        (Hnd : NoDup (obj_keys (scenes cfg)))
        (Hdel : deleteCurrentScene X true cfg = Completed cfg') :
  let counts := countRelatedHotspots X cfg in
  hotspotCount cfg = (hotspotCount cfg' + total counts)%nat
  /\ total counts = (own counts + referencing counts)%nat
  /\ own counts = match obj_get X (scenes cfg) with
                  | Some scene => length (hotSpots scene)
                  | None => 0%nat
                  end
  /\ referencing counts
     = length (filter (targets X)
                      (flat_map hotSpots
                                (obj_values (obj_delete X (scenes cfg))))).
Proof.
  assert (Href : referencing (countRelatedHotspots X cfg)
                 = length (filter (targets X)
                             (flat_map hotSpots
                                (obj_values (obj_delete X (scenes cfg)))))).
  { unfold countRelatedHotspots. cbn [referencing].
    rewrite count_referencing_fold; [reflexivity|].
    intros [k v] Hin. now apply obj_get_NoDup. }
  cbv zeta. split; [|split; [|split]].
  - unfold deleteCurrentScene in Hdel.
    destruct (X =? ""); [discriminate|]. simpl in Hdel.
    injection Hdel as <-. unfold hotspotCount. cbn [scenes].
    rewrite (own_hotspots_count X _ Hnd).
    pose proof (dropped_links_count X (obj_delete X (scenes cfg))) as Hd.
    assert (Htot : total (countRelatedHotspots X cfg)
                   = (own (countRelatedHotspots X cfg)
                      + referencing (countRelatedHotspots X cfg))%nat)
      by reflexivity.
    rewrite Htot, Href. cbn [countRelatedHotspots own]. lia.
  - reflexivity.
  - reflexivity.
  - exact Href.
Qed.

Lemma countRelatedHotspots_announces_removal_witness :
  exists cfg',
    deleteCurrentScene "B" true doc_linked = Completed cfg'
    /\ hotspotCount doc_linked = 2%nat /\ hotspotCount cfg' = 0%nat
    /\ total (countRelatedHotspots "B" doc_linked) = 2%nat.
Proof.
  destruct (deleteCurrentScene "B" true doc_linked) as [cfg'| |] eqn:Hdel;
    try discriminate.
  exists cfg'.
  assert (Hnd : NoDup (obj_keys (scenes doc_linked))).
  { repeat constructor; simpl; intuition discriminate. }
  pose proof (countRelatedHotspots_announces_removal doc_linked cfg' "B" Hnd Hdel)
    as (Hcount & _).
  assert (Htot : total (countRelatedHotspots "B" doc_linked) = 2%nat)
    by reflexivity.
  assert (Hall : hotspotCount doc_linked = 2%nat) by reflexivity.
  repeat split; try assumption. lia.
Defined.

(** ** Previous / next navigation *)

Lemma array_get_In {A} (a : list A) (i : Z) :
  (0 <= i < Z.of_nat (length a))%Z ->
  exists x, array_get a i = Some x /\ In x a.
Proof.
  intros Hi. unfold array_get.
  destruct (Z.ltb_spec i 0); [lia|].
  destruct (nth_error a (Z.to_nat i)) as [x|] eqn:Hx.
  - exists x. split; [reflexivity|]. now apply nth_error_In in Hx.
  - apply nth_error_None in Hx. lia.
Qed.

Lemma guard_order (viewer : bool) (l : list string) :
  l <> [] -> (0 <? length l)%nat && viewer = viewer.
Proof. intros Hl. destruct l; [contradiction | reflexivity]. Qed.

Lemma nextScene_index (cfg : TourConfig) (i : Z) :
  sceneOrder cfg <> [] -> (0 <= i)%Z ->
  nextScene true cfg i
  = (((i + 1) mod Z.of_nat (length (sceneOrder cfg)))%Z,
     LoadScene (array_get (sceneOrder cfg)
                  ((i + 1) mod Z.of_nat (length (sceneOrder cfg)))%Z)).
Proof.
  intros Hne Hi. unfold nextScene. rewrite (guard_order true _ Hne).
  assert (0 < Z.of_nat (length (sceneOrder cfg)))%Z
    by (destruct (sceneOrder cfg); [contradiction | simpl; lia]).
  now rewrite Z.rem_mod_nonneg by lia.
Qed.

Lemma prevScene_index (cfg : TourConfig) (i : Z) :
  sceneOrder cfg <> [] -> (0 <= i)%Z ->
  prevScene true cfg i
  = (((i - 1) mod Z.of_nat (length (sceneOrder cfg)))%Z,
     LoadScene (array_get (sceneOrder cfg)
                  ((i - 1) mod Z.of_nat (length (sceneOrder cfg)))%Z)).
Proof.
  intros Hne Hi. unfold prevScene. rewrite (guard_order true _ Hne).
  assert (0 < Z.of_nat (length (sceneOrder cfg)))%Z
    by (destruct (sceneOrder cfg); [contradiction | simpl; lia]).
  rewrite Z.rem_mod_nonneg by lia.
  replace (i - 1 + Z.of_nat (length (sceneOrder cfg)))%Z
    with (i - 1 + 1 * Z.of_nat (length (sceneOrder cfg)))%Z by lia.
  now rewrite Z.mod_add by lia.
Qed.

Lemma indexOf_at (a : list string) (i : nat) (x : string) :
  NoDup a -> nth_error a i = Some x -> indexOf x a = Some i.
Proof.
  revert i. induction a as [|y r IH]; intros i Hnd Hat; [now destruct i|].
  inversion Hnd as [|? ? Hnot Hnd']; subst. destruct i as [|i]; simpl in *.
  - injection Hat as ->. now rewrite String.eqb_refl.
  - destruct (String.eqb_spec y x) as [->|_].
    + exfalso. apply Hnot. now apply nth_error_In in Hat.
    + now rewrite (IH i Hnd' Hat).
Qed.

(** When [sceneOrder] lists no scene twice, the [scenechange] handler
    finds the scene that a navigation button asked for at the index the
    button computed. *)
Lemma pressed_NoDup (cfg : TourConfig) (fired : bool) (r : Z * ViewerCall) :
  NoDup (sceneOrder cfg) ->
  (forall s, snd r = LoadScene (Some s) ->
             array_get (sceneOrder cfg) (fst r) = Some s) ->
  pressed fired cfg r = fst r.
Proof.
  intros Hnd Hat. destruct r as [i [|[s|]]]; cbn [pressed fst]; try reflexivity.
  destruct fired; [|reflexivity].
  specialize (Hat s eq_refl). cbn [fst] in Hat. unfold array_get in Hat.
  destruct (Z.ltb_spec i 0); [discriminate|].
  unfold updateNavigationIndex. rewrite (indexOf_at _ _ _ Hnd Hat). lia.
Qed.

Lemma pressed_nextScene (cfg : TourConfig) (fired : bool) (i : Z) :
  sceneOrder cfg <> [] -> NoDup (sceneOrder cfg) -> (0 <= i)%Z ->
  pressed fired cfg (nextScene true cfg i)
  = ((i + 1) mod Z.of_nat (length (sceneOrder cfg)))%Z.
Proof.
  intros Hne Hnd Hi. rewrite (nextScene_index cfg i Hne Hi).
  rewrite pressed_NoDup; [reflexivity | assumption|].
  cbn [fst snd]. intros s [= Hs]. exact Hs.
Qed.

Lemma pressed_prevScene (cfg : TourConfig) (fired : bool) (i : Z) :
  sceneOrder cfg <> [] -> NoDup (sceneOrder cfg) -> (0 <= i)%Z ->
  pressed fired cfg (prevScene true cfg i)
  = ((i - 1) mod Z.of_nat (length (sceneOrder cfg)))%Z.
Proof.
  intros Hne Hnd Hi. rewrite (prevScene_index cfg i Hne Hi).
  rewrite pressed_NoDup; [reflexivity | assumption|].
  cbn [fst snd]. intros s [= Hs]. exact Hs.
Qed.

(** X4: with a viewer and a non-empty [sceneOrder], [nextScene] and
    [prevScene] always leave [currentSceneIndex] inside the bounds of
    [sceneOrder] (also when it was stale and beyond the end) and ask the
    viewer for the scene listed at that index.  When [sceneOrder] lists no
    scene twice, the [scenechange] handler, once the viewer reports the
    scene it was asked for, leaves the index where the button put it, and
    from an index inside the bounds each button undoes the other, whether
    or not the viewer has reported in between.  Without a viewer nothing
    happens. *)
Theorem nextScene_prevScene_inverse (cfg : TourConfig) (i : Z)
        (Hne : sceneOrder cfg <> []) (Hi : (0 <= i)%Z) :
  let n := Z.of_nat (length (sceneOrder cfg)) in
  let j := fst (nextScene true cfg i) in
  let k := fst (prevScene true cfg i) in
  (0 <= j < n)%Z
  /\ (exists s, snd (nextScene true cfg i) = LoadScene (Some s)
                /\ array_get (sceneOrder cfg) j = Some s)
  /\ (0 <= k < n)%Z
  /\ (exists s, snd (prevScene true cfg i) = LoadScene (Some s)
                /\ array_get (sceneOrder cfg) k = Some s)
  /\ (NoDup (sceneOrder cfg) ->
      (forall fired, pressed fired cfg (nextScene true cfg i) = j
                     /\ pressed fired cfg (prevScene true cfg i) = k)
      /\ ((i < n)%Z ->
          forall fired fired',
            pressed fired' cfg
              (prevScene true cfg (pressed fired cfg (nextScene true cfg i)))
            = i
            /\ pressed fired' cfg
                 (nextScene true cfg (pressed fired cfg (prevScene true cfg i)))
               = i))
  /\ nextScene false cfg i = (i, NoCall)
  /\ prevScene false cfg i = (i, NoCall).
Proof.
  cbv zeta.
  assert (Hn : (0 < Z.of_nat (length (sceneOrder cfg)))%Z)
    by (destruct (sceneOrder cfg); [contradiction | simpl; lia]).
  rewrite (nextScene_index cfg i Hne Hi), (prevScene_index cfg i Hne Hi).
  cbn [fst snd].
  pose proof (Z.mod_pos_bound (i + 1) _ Hn) as Hj.
  pose proof (Z.mod_pos_bound (i - 1) _ Hn) as Hk.
  split; [exact Hj|]. split.
  { destruct (array_get_In (sceneOrder cfg) _ Hj) as (s & Hs & _).
    exists s. now rewrite Hs. }
  split; [exact Hk|]. split.
  { destruct (array_get_In (sceneOrder cfg) _ Hk) as (s & Hs & _).
    exists s. now rewrite Hs. }
  split.
  - intros Hnd.
    rewrite <- (nextScene_index cfg i Hne Hi), <- (prevScene_index cfg i Hne Hi).
    split.
    + intros fired.
      now rewrite (pressed_nextScene cfg fired i Hne Hnd Hi),
                  (pressed_prevScene cfg fired i Hne Hnd Hi).
    + intros Hlt fired fired'.
      rewrite (pressed_nextScene cfg fired i Hne Hnd Hi),
              (pressed_prevScene cfg fired i Hne Hnd Hi).
      rewrite (pressed_prevScene cfg fired' _ Hne Hnd) by lia.
      rewrite (pressed_nextScene cfg fired' _ Hne Hnd) by lia.
      rewrite Zminus_mod_idemp_l, Zplus_mod_idemp_l.
      replace (i + 1 - 1)%Z with i by lia.
      replace (i - 1 + 1)%Z with i by lia.
      rewrite Z.mod_small by lia. split; reflexivity.
  - unfold nextScene, prevScene. rewrite !andb_false_r. split; reflexivity.
Qed.

Lemma nextScene_prevScene_inverse_witness :
  sceneOrder doc_abc <> [] /\ (0 <= 2)%Z /\ NoDup (sceneOrder doc_abc)
  /\ (0 <= fst (nextScene true doc_abc 2) < 3)%Z
  /\ pressed true doc_abc
       (prevScene true doc_abc (pressed true doc_abc (nextScene true doc_abc 2)))
     = 2%Z.
Proof.
  assert (Hne : sceneOrder doc_abc <> []) by discriminate.
  assert (Hi : (0 <= 2)%Z) by lia.
  assert (Hnd : NoDup (sceneOrder doc_abc)).
  { repeat constructor; simpl; intuition discriminate. }
  destruct (nextScene_prevScene_inverse doc_abc 2 Hne Hi)
    as (Hj & _ & _ & _ & Hinv & _).
  destruct (Hinv Hnd) as [_ Hback].
  split; [exact Hne|]. split; [exact Hi|]. split; [exact Hnd|].
  split; [exact Hj|]. apply Hback. simpl. lia.
Defined.

Lemma fold_nextScene (cfg : TourConfig) (fired : list bool) :
  sceneOrder cfg <> [] -> NoDup (sceneOrder cfg) ->
  forall i, (0 <= i)%Z ->
    fold_left (fun x f => pressed f cfg (nextScene true cfg x)) fired i
    = (if (length fired =? 0)%nat then i
       else (i + Z.of_nat (length fired))
              mod Z.of_nat (length (sceneOrder cfg)))%Z.
Proof.
  intros Hne Hnd.
  assert (Hn : (0 < Z.of_nat (length (sceneOrder cfg)))%Z)
    by (destruct (sceneOrder cfg); [contradiction | simpl; lia]).
  induction fired as [|f r IH]; intros i Hi; [reflexivity|].
  cbn [fold_left length Nat.eqb].
  rewrite (pressed_nextScene cfg f i Hne Hnd Hi).
  pose proof (Z.mod_pos_bound (i + 1) _ Hn) as Hj.
  rewrite IH by lia. destruct r as [|f' r']; cbn [length Nat.eqb].
  - f_equal; lia.
  - rewrite Zplus_mod_idemp_l. f_equal; lia.
Qed.

Lemma fold_prevScene (cfg : TourConfig) (fired : list bool) :
  sceneOrder cfg <> [] -> NoDup (sceneOrder cfg) ->
  forall i, (0 <= i)%Z ->
    fold_left (fun x f => pressed f cfg (prevScene true cfg x)) fired i
    = (if (length fired =? 0)%nat then i
       else (i - Z.of_nat (length fired))
              mod Z.of_nat (length (sceneOrder cfg)))%Z.
Proof.
  intros Hne Hnd.
  assert (Hn : (0 < Z.of_nat (length (sceneOrder cfg)))%Z)
    by (destruct (sceneOrder cfg); [contradiction | simpl; lia]).
  induction fired as [|f r IH]; intros i Hi; [reflexivity|].
  cbn [fold_left length Nat.eqb].
  rewrite (pressed_prevScene cfg f i Hne Hnd Hi).
  pose proof (Z.mod_pos_bound (i - 1) _ Hn) as Hj.
  rewrite IH by lia. destruct r as [|f' r']; cbn [length Nat.eqb].
  - f_equal; lia.
  - rewrite Zminus_mod_idemp_l. f_equal; lia.
Qed.

(** X5: the navigation wraps around when [sceneOrder] lists no scene
    twice: from an index inside the bounds, [m] presses of the next button
    lead to index [(i + m) mod n] and [m] presses of the previous button
    to [(i - m) mod n], where [n] is the length of [sceneOrder]; [n]
    presses of either button lead back to the index they started from.
    After each press the viewer may or may not have reported the scene
    change before the next press ([fired] tells it press by press). *)
Theorem navigation_wraps_around (cfg : TourConfig) (i : Z) (fired : list bool)
        (Hne : sceneOrder cfg <> [])
        (Hnd : NoDup (sceneOrder cfg))
        (Hi : (0 <= i < Z.of_nat (length (sceneOrder cfg)))%Z) :
  let n := length (sceneOrder cfg) in
  let m := length fired in
  let next := fun x f => pressed f cfg (nextScene true cfg x) in
  let prev := fun x f => pressed f cfg (prevScene true cfg x) in
  fold_left next fired i = ((i + Z.of_nat m) mod Z.of_nat n)%Z
  /\ fold_left prev fired i = ((i - Z.of_nat m) mod Z.of_nat n)%Z
  /\ (m = n -> fold_left next fired i = i /\ fold_left prev fired i = i).
Proof.
  cbv zeta.
  pose proof (fold_nextScene cfg fired Hne Hnd i (proj1 Hi)) as Hn.
  pose proof (fold_prevScene cfg fired Hne Hnd i (proj1 Hi)) as Hp.
  assert (Hnext : fold_left (fun x f => pressed f cfg (nextScene true cfg x))
                            fired i
                  = ((i + Z.of_nat (length fired))
                       mod Z.of_nat (length (sceneOrder cfg)))%Z).
  { rewrite Hn. destruct fired; cbn [length Nat.eqb]; [|reflexivity].
    rewrite Z.add_0_r, Z.mod_small; [reflexivity | lia]. }
  assert (Hprev : fold_left (fun x f => pressed f cfg (prevScene true cfg x))
                            fired i
                  = ((i - Z.of_nat (length fired))
                       mod Z.of_nat (length (sceneOrder cfg)))%Z).
  { rewrite Hp. destruct fired; cbn [length Nat.eqb]; [|reflexivity].
    rewrite Z.sub_0_r, Z.mod_small; [reflexivity | lia]. }
  split; [exact Hnext|]. split; [exact Hprev|]. intros Hlen.
  rewrite Hnext, Hprev, Hlen. split.
  - replace (i + Z.of_nat (length (sceneOrder cfg)))%Z
      with (i + 1 * Z.of_nat (length (sceneOrder cfg)))%Z by lia.
    rewrite Z.mod_add by lia. apply Z.mod_small. lia.
  - replace (i - Z.of_nat (length (sceneOrder cfg)))%Z
      with (i + (-1) * Z.of_nat (length (sceneOrder cfg)))%Z by lia.
    rewrite Z.mod_add by lia. apply Z.mod_small. lia.
Qed.

Lemma navigation_wraps_around_witness :
  fold_left (fun x f => pressed f doc_abc (nextScene true doc_abc x))
            [true; false; true] 1%Z = 1%Z
  /\ fold_left (fun x f => pressed f doc_abc (prevScene true doc_abc x))
               [true; false; true] 1%Z = 1%Z.
Proof.
  assert (Hne : sceneOrder doc_abc <> []) by discriminate.
  assert (Hnd : NoDup (sceneOrder doc_abc)).
  { repeat constructor; simpl; intuition discriminate. }
  assert (Hi : (0 <= 1 < Z.of_nat (length (sceneOrder doc_abc)))%Z)
    by (simpl; lia).
  pose proof (navigation_wraps_around doc_abc 1 [true; false; true] Hne Hnd Hi)
    as (_ & _ & Hround).
  exact (Hround eq_refl).
Defined.

Lemma indexOf_nth (x : string) (a : list string) (i : nat) :
  indexOf x a = Some i ->
  nth_error a i = Some x /\ forall j, (j < i)%nat -> nth_error a j <> Some x.
Proof.
  revert i. induction a as [|y r IH]; intros i; simpl; [discriminate|].
  destruct (String.eqb_spec y x) as [->|Hne].
  - intros [= <-]. split; [reflexivity | intros j Hj; lia].
  - destruct (indexOf x r) as [i'|]; [|discriminate].
    intros [= <-]. destruct (IH i' eq_refl) as [Hat Hbefore].
    split; [exact Hat|]. intros [|j] Hj; simpl.
    + congruence.
    + apply Hbefore. lia.
Qed.

Lemma indexOf_NoDup (x : string) (a : list string) (i : nat) :
  NoDup a -> nth_error a i = Some x -> indexOf x a = Some i.
Proof.
  intros Hnd. revert i. induction Hnd as [|y r Hy Hr IH]; intros i;
    [destruct i; discriminate|].
  destruct i as [|i]; simpl.
  - intros [= ->]. now rewrite String.eqb_refl.
  - intros Hat. destruct (String.eqb_spec y x) as [->|Hne].
    + exfalso. apply Hy. now apply nth_error_In in Hat.
    + now rewrite (IH i Hat).
Qed.

(** X6: [updateNavigationIndex(sceneId)] moves [currentSceneIndex] to the
    first position of [sceneId] in [sceneOrder] and leaves it alone for an
    id that [sceneOrder] does not list; when [sceneOrder] has no repeated
    entry, the index it computes for the scene found at an index is that
    index, so the handler of the viewer's scene change agrees with
    [nextScene] and [prevScene]. *)
Theorem updateNavigationIndex_first_position
        (cfg : TourConfig) (s : string) (i : Z) :
  let j := updateNavigationIndex s cfg i in
  (In s (sceneOrder cfg) ->
   (0 <= j < Z.of_nat (length (sceneOrder cfg)))%Z
   /\ array_get (sceneOrder cfg) j = Some s
   /\ forall j', (0 <= j' < j)%Z -> array_get (sceneOrder cfg) j' <> Some s)
  /\ (~ In s (sceneOrder cfg) -> j = i)
  /\ (NoDup (sceneOrder cfg) ->
      forall i', array_get (sceneOrder cfg) i' = Some s ->
                 updateNavigationIndex s cfg i = i').
Proof.
  cbv zeta. unfold updateNavigationIndex. split; [|split].
  - intros Hin. destruct (indexOf s (sceneOrder cfg)) as [n|] eqn:Hidx.
    + destruct (indexOf_nth _ _ _ Hidx) as [Hat Hbefore].
      assert (n < length (sceneOrder cfg))%nat
        by (apply nth_error_Some; congruence).
      split; [lia|]. unfold array_get. split.
      * destruct (Z.ltb_spec (Z.of_nat n) 0); [lia|]. now rewrite Nat2Z.id.
      * intros j' Hj'. destruct (Z.ltb_spec j' 0); [lia|].
        apply Hbefore. lia.
    + apply indexOf_None in Hidx. contradiction.
  - intros Hnot. apply indexOf_None in Hnot. now rewrite Hnot.
  - intros Hnd i'. unfold array_get.
    destruct (Z.ltb_spec i' 0); [discriminate|]. intros Hat.
    rewrite (indexOf_NoDup _ _ _ Hnd Hat). lia.
Qed.

(** ** Editing a scene *)

Lemma renameScene_same_id (x : string) (c : bool) (cfg cfg' : TourConfig) :
  renameScene x x c cfg = (true, cfg') -> cfg' = cfg.
Proof.
  unfold renameScene.
  destruct ((x =? "") || (trim x =? "")); [discriminate|].
  destruct (negb (id_pattern x)); [discriminate|].
  rewrite String.eqb_refl. now intros [= <-].
Qed.

Lemma renameScene_true_inv (old new : string) (c : bool)
      (cfg cfg1 : TourConfig) :
  renameScene old new c cfg = (true, cfg1) -> old <> new ->
  id_pattern new = true /\ c = true /\ ~ In new (obj_keys (scenes cfg))
  /\ inherited new = false.
Proof.
  unfold renameScene, obj_truthy. intros Hrun Hne.
  destruct ((new =? "") || (trim new =? "")); [discriminate|].
  destruct (id_pattern new); [|discriminate]. simpl in Hrun.
  destruct (String.eqb_spec old new); [contradiction|].
  destruct (obj_has new (scenes cfg)) eqn:Hhas; [discriminate|].
  destruct (inherited new) eqn:Hown; [discriminate|].
  destruct c; [|discriminate].
  repeat split. now apply obj_has_false.
Qed.

Lemma renameScene_false_unchanged (old new : string) (c : bool)
      (cfg cfg1 : TourConfig) :
  renameScene old new c cfg = (false, cfg1) -> cfg1 = cfg.
Proof.
  unfold renameScene.
  destruct ((new =? "") || (trim new =? "")); [now intros [= <-]|].
  destruct (id_pattern new); simpl; [|now intros [= <-]].
  destruct (old =? new); [discriminate|].
  destruct (obj_truthy new (scenes cfg)); [now intros [= <-]|].
  destruct c; simpl; [discriminate | now intros [= <-]].
Qed.

Lemma rename_key_get (old new k : string) (o : obj Scene) :
  NoDup (obj_keys o) -> ~ In new (obj_keys o) -> k <> new ->
  obj_get (renamed old new k) (rename_key old new o) = obj_get k o.
Proof.
  intros Hnd Hfresh Hk. unfold rename_key.
  rewrite rename_key_fold_get;
    [|now apply renamed_keys_NoDup | intros ? _ []].
  simpl. now apply renamed_entries_get.
Qed.

Lemma rename_key_get_old (old new : string) (o : obj Scene) :
  NoDup (obj_keys o) -> ~ In new (obj_keys o) -> old <> new ->
  obj_get old (rename_key old new o) = None.
Proof.
  intros Hnd Hfresh Hne. unfold rename_key.
  rewrite rename_key_fold_get;
    [|now apply renamed_keys_NoDup | intros ? _ []].
  simpl. now apply renamed_entries_get_old.
Qed.

Lemma select_value_option (options : list string) (v : string) :
  In v options -> select_value options v = v.
Proof.
  intros Hin. unfold select_value.
  now rewrite (proj2 (existsb_eqb_In v options) Hin).
Qed.

Lemma select_value_sound (cfg : TourConfig) (v : string) :
  select_value (sceneOptions cfg) v = ""
  \/ In (select_value (sceneOptions cfg) v) (obj_keys (scenes cfg)).
Proof.
  unfold select_value.
  destruct (existsb (fun o => o =? v) (sceneOptions cfg)) eqn:Hex;
    [|now left].
  apply existsb_eqb_In in Hex. destruct Hex as [<-|Hin]; [now left | now right].
Qed.

Lemma editCurrentScene_same_id
      (cfg : TourConfig) (cur idField pathField : string)
      (h p y ml cr : float) (c : bool) (scene : Scene) :
  cur <> "" -> trim idField = cur -> trim pathField <> "" ->
  obj_get cur (scenes cfg) = Some scene ->
  editCurrentScene cur idField pathField h p y ml cr c cfg
  = Completed
      (fst (updateHotspotReferences cur
              {| u_targetPitch := Some p; u_targetYaw := Some y;
                 u_targetHfov := Some h |}
              (set_scenes
                 (obj_replace cur
                    (edited_scene (trim pathField) h p y ml cr scene)
                    (scenes cfg)) cfg)),
       cur).
Proof.
  intros Hcur Hid Hpath Hex. unfold editCurrentScene.
  apply String.eqb_neq in Hcur, Hpath. rewrite Hcur, Hid, Hcur, Hpath.
  rewrite String.eqb_refl. cbn [orb negb]. now rewrite Hex.
Qed.

Lemma editCurrentScene_renamed
      (cfg cfg1 : TourConfig) (cur idField pathField : string)
      (h p y ml cr : float) (c : bool) (scene1 : Scene) :
  cur <> "" -> trim idField <> cur -> trim pathField <> "" ->
  renameScene cur (trim idField) c cfg = (true, cfg1) ->
  obj_get (trim idField) (scenes cfg1) = Some scene1 ->
  editCurrentScene cur idField pathField h p y ml cr c cfg
  = Completed
      (fst (updateHotspotReferences (trim idField)
              {| u_targetPitch := Some p; u_targetYaw := Some y;
                 u_targetHfov := Some h |}
              (set_scenes
                 (obj_replace (trim idField)
                    (edited_scene (trim pathField) h p y ml cr scene1)
                    (scenes cfg1)) cfg1)),
       trim idField).
Proof.
  intros Hcur Hne Hpath Hrun Hex. unfold editCurrentScene.
  assert (Hpat : id_pattern (trim idField) = true).
  { apply (renameScene_true_inv _ _ _ _ _ Hrun). congruence. }
  assert (Hnew : (trim idField =? "") = false).
  { apply String.eqb_neq. intros Heq. rewrite Heq in Hpat. discriminate. }
  apply String.eqb_neq in Hcur, Hpath. rewrite Hcur, Hnew, Hpath.
  pose proof Hne as Hne'. apply String.eqb_neq in Hne'. rewrite Hne'.
  cbn [orb negb]. unfold renameScene_selection. rewrite Hrun.
  assert (Hne2 : (cur =? trim idField) = false)
    by (apply String.eqb_neq; congruence).
  rewrite Hne2. cbn [andb negb].
  rewrite select_value_option.
  - now rewrite Hex.
  - right. apply obj_get_In in Hex. now apply In_entry_key in Hex.
Qed.

(** X7: [editCurrentScene] with the id field left as it is (the selected,
    existing scene) completes without any check of the id: it writes the
    camera, the base path, the preview path and the two resolution numbers
    of the form into the scene, gives every hotspot of the document that
    targets the scene the new camera as arrival view, and changes nothing
    else: keys, [sceneOrder], [firstScene], the other fields of the scenes
    and the text, id, position and target of every hotspot stay. *)
Theorem editCurrentScene_writes_form
        (cfg : TourConfig) (cur idField pathField : string)
        (h p y ml cr : float) (c : bool) (scene : Scene)
        (Hcur : cur <> "") (Hid : trim idField = cur)
        (Hpath : trim pathField <> "")
        (Hex : obj_get cur (scenes cfg) = Some scene) :
  let u := {| u_targetPitch := Some p; u_targetYaw := Some y;
              u_targetHfov := Some h |} in
  exists cfg',
    editCurrentScene cur idField pathField h p y ml cr c cfg
    = Completed (cfg', cur)
    /\ firstScene cfg' = firstScene cfg
    /\ sceneOrder cfg' = sceneOrder cfg
    /\ obj_keys (scenes cfg') = obj_keys (scenes cfg)
    /\ obj_get cur (scenes cfg')
       = Some {| hfov := h; pitch := p; yaw := y; sc_type := sc_type scene;
                 preview := trim pathField ++ "1/f_0_0.jpg";
                 multiRes :=
                   {| basePath := trim pathField;
                      path := path (multiRes scene);
                      fallbackPath := fallbackPath (multiRes scene);
                      extension := extension (multiRes scene);
                      tileResolution := tileResolution (multiRes scene);
                      maxLevel := ml; cubeResolution := cr |};
                 hotSpots := map (refreshed cur u) (hotSpots scene) |}
    /\ (forall k, k <> cur ->
          obj_get k (scenes cfg')
          = option_map
              (fun sc => set_hotSpots (map (refreshed cur u) (hotSpots sc)) sc)
              (obj_get k (scenes cfg)))
    /\ (forall x : Hotspot,
          text (refreshed cur u x) = text x
          /\ hs_pitch (refreshed cur u x) = hs_pitch x
          /\ hs_yaw (refreshed cur u x) = hs_yaw x
          /\ hs_id (refreshed cur u x) = hs_id x
          /\ sceneId (refreshed cur u x) = sceneId x
          /\ (sceneId x = cur ->
              targetPitch (refreshed cur u x) = p
              /\ targetYaw (refreshed cur u x) = y
              /\ targetHfov (refreshed cur u x) = h)
          /\ (sceneId x <> cur -> refreshed cur u x = x)).
Proof.
  cbv zeta. eexists. split.
  { exact (editCurrentScene_same_id cfg cur idField pathField h p y ml cr c
             scene Hcur Hid Hpath Hex). }
  rewrite updateHotspotReferences_spec. cbn [fst set_scenes scenes firstScene
                                              sceneOrder].
  split; [reflexivity|]. split; [reflexivity|]. split.
  { now rewrite obj_keys_map, obj_keys_replace. }
  split.
  { rewrite obj_get_map, obj_get_replace, String.eqb_refl.
    unfold obj_has. now rewrite Hex. }
  split.
  { intros k Hk. rewrite obj_get_map, obj_get_replace.
    destruct (String.eqb_spec cur k); [congruence | reflexivity]. }
  intros x. apply (refreshed_frame cur p y h x).
Qed.

Lemma editCurrentScene_writes_form_witness :
  exists cfg',
    editCurrentScene "my scene" " my scene " "./q/" 90 10 20 5 8192 false
                     doc_spaced
    = Completed (cfg', "my scene")
    /\ id_pattern "my scene" = false
    /\ option_map preview (obj_get "my scene" (scenes cfg')) = Some "./q/1/f_0_0.jpg"
    /\ option_map hfov (obj_get "my scene" (scenes cfg')) = Some 90%float.
Proof.
  assert (Hcur : "my scene" <> "") by discriminate.
  assert (Hid : trim " my scene " = "my scene") by reflexivity.
  assert (Hpath : trim "./q/" <> "") by discriminate.
  assert (Hex : obj_get "my scene" (scenes doc_spaced)
                = Some (newScene "./p/" 4 4096)) by reflexivity.
  destruct (editCurrentScene_writes_form doc_spaced "my scene" " my scene "
              "./q/" 90 10 20 5 8192 false _ Hcur Hid Hpath Hex)
    as (cfg' & Hrun & _ & _ & _ & Hget & _).
  exists cfg'. split; [exact Hrun|]. split; [reflexivity|].
  rewrite Hget. split; reflexivity.
Defined.

(** X8: [editCurrentScene] with a changed id composes the rename and the
    form: when the new id is well formed, free and not the name of a
    property inherited from [Object.prototype] (which [renameScene]
    refuses as existing), no scene is filed under "__proto__" (as in
    every scene map the editor builds) and the rename is confirmed, the
    scene is found under the new id only, with the camera,
    paths and resolutions of the form; every hotspot that targeted the old
    id targets the new id and arrives at the new camera; hotspots with
    another target are untouched; [sceneOrder] and [firstScene] follow the
    rename; the selected scene is the new id.  When the rename is declined,
    nothing of the form is applied. *)
Theorem editCurrentScene_renames_and_writes
        (cfg : TourConfig) (cur idField pathField : string)
        (h p y ml cr : float) (scene : Scene)
        (Hcur : cur <> "")
        (Hex : obj_get cur (scenes cfg) = Some scene)
        (Hnd : NoDup (obj_keys (scenes cfg)))
        (Hpat : id_pattern (trim idField) = true)
        (Hne : trim idField <> cur)
        (Hfresh : ~ In (trim idField) (obj_keys (scenes cfg)))
        (Hown : inherited (trim idField) = false)
        (Hproto : no_proto_key (scenes cfg))
        (Hpath : trim pathField <> "") :
  let new := trim idField in
  let u := {| u_targetPitch := Some p; u_targetYaw := Some y;
              u_targetHfov := Some h |} in
  let moved := fun x => refreshed new u (retarget cur new x) in
  editCurrentScene cur idField pathField h p y ml cr false cfg = Rejected
  /\ exists cfg',
      editCurrentScene cur idField pathField h p y ml cr true cfg
      = Completed (cfg', new)
      /\ obj_get cur (scenes cfg') = None
      /\ obj_get new (scenes cfg')
         = Some (set_hotSpots (map moved (hotSpots scene))
                   (edited_scene (trim pathField) h p y ml cr scene))
      /\ (forall k, k <> cur -> k <> new ->
            obj_get k (scenes cfg')
            = option_map
                (fun sc => set_hotSpots (map moved (hotSpots sc)) sc)
                (obj_get k (scenes cfg)))
      /\ (forall x : Hotspot,
            text (moved x) = text x /\ hs_id (moved x) = hs_id x
            /\ hs_pitch (moved x) = hs_pitch x /\ hs_yaw (moved x) = hs_yaw x
            /\ (sceneId x = cur ->
                sceneId (moved x) = new /\ targetPitch (moved x) = p
                /\ targetYaw (moved x) = y /\ targetHfov (moved x) = h)
            /\ (sceneId x <> cur -> sceneId x <> new -> moved x = x))
      /\ sceneOrder cfg'
         = match indexOf cur (sceneOrder cfg) with
           | Some orderIndex => array_set orderIndex new (sceneOrder cfg)
           | None => sceneOrder cfg
           end
      /\ firstScene cfg' = renamed cur new (firstScene cfg).
Proof.
  cbv zeta.
  assert (Hne' : cur <> trim idField) by congruence.
  assert (Hblank : (trim idField =? "") = false).
  { apply String.eqb_neq. intros Heq. rewrite Heq in Hpat. discriminate. }
  split.
  { unfold editCurrentScene.
    pose proof Hcur as Hc. apply String.eqb_neq in Hc. rewrite Hc, Hblank.
    pose proof Hpath as Hp. apply String.eqb_neq in Hp. rewrite Hp.
    pose proof Hne as Hn. apply String.eqb_neq in Hn. rewrite Hn.
    cbn [orb negb]. unfold renameScene, obj_truthy.
    rewrite (id_pattern_not_blank _ Hpat), Hpat. cbn [negb].
    apply String.eqb_neq in Hne'. rewrite Hne'.
    apply obj_has_false in Hfresh. now rewrite Hfresh, Hown. }
  pose proof (renameScene_run cur (trim idField) cfg Hpat Hne' Hfresh Hown)
    as Hrun.
  set (cfg1 := {| firstScene := renamed cur (trim idField) (firstScene cfg);
                  sceneOrder := _; sceneFadeDuration := _; autoLoad := _;
                  scenes := _ |}) in Hrun.
  assert (Hget1 : forall k, k <> trim idField ->
            obj_get (renamed cur (trim idField) k) (scenes cfg1)
            = option_map
                (fun sc => set_hotSpots
                             (map (retarget cur (trim idField)) (hotSpots sc)) sc)
                (obj_get k (scenes cfg))).
  { intros k Hk. unfold cfg1. cbn [scenes].
    now rewrite obj_get_map, rename_key_get. }
  assert (Hnew1 : obj_get (trim idField) (scenes cfg1)
                  = Some (set_hotSpots
                            (map (retarget cur (trim idField)) (hotSpots scene))
                            scene)).
  { pose proof (Hget1 cur Hne') as Hc. unfold renamed in Hc.
    rewrite String.eqb_refl, Hex in Hc. exact Hc. }
  eexists. split.
  { exact (editCurrentScene_renamed cfg cfg1 cur idField pathField h p y ml cr
             true _ Hcur Hne Hpath Hrun Hnew1). }
  rewrite updateHotspotReferences_spec.
  cbn [fst set_scenes scenes firstScene sceneOrder].
  split.
  { rewrite obj_get_map, obj_get_replace.
    apply String.eqb_neq in Hne. rewrite Hne. cbn [andb].
    unfold cfg1. cbn [scenes].
    now rewrite obj_get_map, rename_key_get_old. }
  split.
  { rewrite obj_get_map, obj_get_replace, String.eqb_refl.
    unfold obj_has. rewrite Hnew1. cbn [andb option_map].
    unfold set_hotSpots, edited_scene. cbn. now rewrite map_map. }
  split.
  { intros k Hk1 Hk2. rewrite obj_get_map, obj_get_replace.
    destruct (String.eqb_spec (trim idField) k) as [He|_]; [congruence|].
    cbn [andb]. pose proof (Hget1 k Hk2) as Hk. unfold renamed in Hk.
    apply String.eqb_neq in Hk1. rewrite Hk1 in Hk. rewrite Hk.
    destruct (obj_get k (scenes cfg)) as [sc|]; [|reflexivity].
    cbn [option_map]. unfold set_hotSpots. cbn. now rewrite map_map. }
  split.
  { intros x.
    destruct (retarget_frame cur (trim idField) x)
      as (Ht & Hi & Hp & Hy & _ & _ & _ & Hs).
    destruct (refreshed_frame (trim idField) p y h
                              (retarget cur (trim idField) x))
      as (Ht' & Hp' & Hy' & Hi' & Hs' & Hhit & Hmiss).
    rewrite Ht', Hi', Hp', Hy', Hs', Ht, Hi, Hp, Hy, Hs.
    split; [reflexivity|]. split; [reflexivity|].
    split; [reflexivity|]. split; [reflexivity|]. split.
    - intros Hx.
      assert (Hnow : renamed cur (trim idField) (sceneId x) = trim idField)
        by (unfold renamed; now rewrite Hx, String.eqb_refl).
      split; [exact Hnow|]. apply Hhit. now rewrite Hs.
    - intros Hx1 Hx2. rewrite Hmiss.
      + unfold retarget. apply String.eqb_neq in Hx1. now rewrite Hx1.
      + rewrite Hs. unfold renamed. apply String.eqb_neq in Hx1.
        now rewrite Hx1. }
  split; reflexivity.
Qed.

Lemma editCurrentScene_renames_and_writes_witness :
  exists cfg',
    editCurrentScene "A" "Alpha" "./alpha/" 90 10 20 5 8192 true doc_linked
    = Completed (cfg', "Alpha")
    /\ obj_get "A" (scenes cfg') = None
    /\ option_map
         (fun sc => map (fun x => (sceneId x, targetHfov x)) (hotSpots sc))
         (obj_get "B" (scenes cfg'))
       = Some [("Alpha", 90%float)]
    /\ sceneOrder cfg' = ["Alpha"; "B"] /\ firstScene cfg' = "Alpha".
Proof.
  assert (Hcur : "A" <> "") by discriminate.
  assert (Hex : obj_get "A" (scenes doc_linked)
                = Some (set_hotSpots [link "hs_B_001" "B" "B"]
                                     (newScene "./A/" 4 4096))) by reflexivity.
  assert (Hnd : NoDup (obj_keys (scenes doc_linked))).
  { repeat constructor; simpl; intuition discriminate. }
  assert (Hpat : id_pattern (trim "Alpha") = true) by reflexivity.
  assert (Hne : trim "Alpha" <> "A") by discriminate.
  assert (Hfresh : ~ In (trim "Alpha") (obj_keys (scenes doc_linked))).
  { simpl. intuition discriminate. }
  assert (Hpath : trim "./alpha/" <> "") by discriminate.
  assert (Hown : inherited (trim "Alpha") = false) by reflexivity.
  assert (Hproto : no_proto_key (scenes doc_linked)).
  { intros [H|[H|[]]]; discriminate. }
  destruct (editCurrentScene_renames_and_writes doc_linked "A" "Alpha"
              "./alpha/" 90 10 20 5 8192 _ Hcur Hex Hnd Hpat Hne Hfresh Hown
              Hproto Hpath)
    as (_ & cfg' & Hrun & Hold & _ & Hother & _ & Horder & Hfirst).
  exists cfg'. split; [exact Hrun|]. split; [exact Hold|].
  split; [|split; [exact Horder | exact Hfirst]].
  rewrite (Hother "B") by discriminate. reflexivity.
Defined.

(** X9: [editCurrentScene] applied to an existing selected scene never
    raises an error, and when it completes it keeps the four global
    invariants of the document and leaves an existing scene selected. *)
Theorem editCurrentScene_keeps_invariants
        (cfg : TourConfig) (cur idField pathField : string)
        (h p y ml cr : float) (c : bool)
        (Hinv : invariants cfg)
        (Hsel : In cur (obj_keys (scenes cfg))) :
  editCurrentScene cur idField pathField h p y ml cr c cfg <> Fault
  /\ forall cfg' cur',
      editCurrentScene cur idField pathField h p y ml cr c cfg
      = Completed (cfg', cur') ->
      invariants cfg' /\ In cur' (obj_keys (scenes cfg')).
Proof.
  assert (Hwrite : forall cfg1 cur1 scene1,
             invariants cfg1 -> obj_get cur1 (scenes cfg1) = Some scene1 ->
             let cfg2 :=
               fst (updateHotspotReferences cur1
                      {| u_targetPitch := Some p; u_targetYaw := Some y;
                         u_targetHfov := Some h |}
                      (set_scenes
                         (obj_replace cur1
                            (edited_scene (trim pathField) h p y ml cr scene1)
                            (scenes cfg1)) cfg1)) in
             invariants cfg2 /\ In cur1 (obj_keys (scenes cfg2))).
  { intros cfg1 cur1 scene1 Hinv1 Hget1. cbv zeta.
    rewrite updateHotspotReferences_spec. cbn [fst]. split.
    - apply (invariants_renaming (fun k => k) cfg1); simpl.
      + auto.
      + apply capture_entries. intros sc0 Hget0. simpl. congruence.
      + now rewrite map_id.
      + destruct Hinv1 as (_ & _ & _ & _ & [H|H]); [now left | right]. eauto.
      + exact Hinv1.
    - cbn [set_scenes scenes]. rewrite obj_keys_map, obj_keys_replace.
      apply obj_get_In in Hget1. now apply In_entry_key in Hget1. }
  destruct (obj_get cur (scenes cfg)) as [scene|] eqn:Hex;
    [|apply obj_get_None in Hex; contradiction].
  unfold editCurrentScene.
  destruct (cur =? ""); [split; [discriminate | intros ? ?; discriminate]|].
  destruct ((trim idField =? "") || (trim pathField =? ""));
    [split; [discriminate | intros ? ?; discriminate]|].
  destruct (String.eqb_spec (trim idField) cur) as [Hsame|Hne]; cbn [negb].
  - rewrite Hex. split; [discriminate|]. intros cfg' cur' [= <- <-].
    now apply Hwrite.
  - destruct (renameScene cur (trim idField) c cfg) as [ok cfg1] eqn:Hrun.
    destruct ok; cbn [negb];
      [|split; [discriminate | intros ? ?; discriminate]].
    assert (Hne' : cur <> trim idField) by congruence.
    destruct (renameScene_true_inv _ _ _ _ _ Hrun Hne')
      as (Hpat & -> & Hfresh & Hown).
    pose proof (renameScene_invariants _ _ _ _ _ Hinv Hsel Hrun) as Hinv1.
    assert (Hnew1 : exists scene1,
               obj_get (trim idField) (scenes cfg1) = Some scene1).
    { rewrite (renameScene_run cur (trim idField) cfg Hpat Hne' Hfresh Hown)
        in Hrun.
      injection Hrun as <-. cbn [scenes]. rewrite obj_get_map.
      pose proof (rename_key_get cur (trim idField) cur (scenes cfg)
                    (proj1 Hinv) Hfresh Hne') as Hk.
      unfold renamed in Hk. rewrite String.eqb_refl in Hk.
      rewrite Hk, Hex. eexists. reflexivity. }
    destruct Hnew1 as [scene1 Hnew1].
    unfold renameScene_selection. rewrite Hrun.
    apply String.eqb_neq in Hne'. rewrite Hne'. cbn [andb negb].
    rewrite select_value_option
      by (right; apply obj_get_In in Hnew1; now apply In_entry_key in Hnew1).
    rewrite Hnew1. split; [discriminate|]. intros cfg' cur' [= <- <-].
    now apply Hwrite.
Qed.

Lemma editCurrentScene_keeps_invariants_witness :
  invariants doc_AB /\ In "B" (obj_keys (scenes doc_AB))
  /\ exists cfg',
      editCurrentScene "B" "Beta" "./beta/" 90 10 20 5 8192 true doc_AB
      = Completed (cfg', "Beta")
      /\ invariants cfg' /\ In "Beta" (obj_keys (scenes cfg')).
Proof.
  assert (Hinv : invariants doc_AB).
  { unfold invariants, ids_unique, links_sound, order_sound, first_sound.
    simpl. split; [repeat constructor; simpl; intuition discriminate|].
    split; [constructor|]. split.
    - intros k sc x [[= <- <-]|[[= <- <-]|[]]] [].
    - split; [reflexivity | right; now left]. }
  assert (Hsel : In "B" (obj_keys (scenes doc_AB))) by (simpl; tauto).
  split; [exact Hinv|]. split; [exact Hsel|].
  assert (Hrun : exists cfg',
             editCurrentScene "B" "Beta" "./beta/" 90 10 20 5 8192 true doc_AB
             = Completed (cfg', "Beta")) by (eexists; reflexivity).
  destruct Hrun as [cfg' Hrun].
  destruct (editCurrentScene_keeps_invariants doc_AB "B" "Beta" "./beta/"
              90 10 20 5 8192 true Hinv Hsel) as [_ Hkeep].
  destruct (Hkeep cfg' "Beta" Hrun) as [Hinv' Hsel'].
  exists cfg'. split; [exact Hrun|]. split; assumption.
Defined.

(** ** Round trips *)

Lemma obj_insert_index_delete {V} (n : N) (k : string) (v : V) (o : obj V) :
  ~ In k (obj_keys o) -> obj_delete k (obj_insert_index n k v o) = o.
Proof.
  assert (Hfilter : forall r : obj V,
             ~ In k (obj_keys r) -> obj_delete k r = r).
  { intros r Hr. unfold obj_delete. apply forallb_filter_id.
    apply forallb_forall. intros [k' v'] Hin. simpl.
    destruct (String.eqb_spec k' k) as [->|]; [|reflexivity].
    exfalso. apply Hr. now apply (In_entry_key k v'). }
  induction o as [|[k' v'] r IH]; intros Hk; simpl.
  - now rewrite String.eqb_refl.
  - assert (Hne : k' <> k) by (intros ->; apply Hk; now left).
    assert (Hr : ~ In k (obj_keys r)) by (intros Hin; apply Hk; now right).
    assert (Hhead : obj_delete k ((k, v) :: (k', v') :: r) = (k', v') :: r).
    { unfold obj_delete. simpl. rewrite String.eqb_refl. simpl.
      apply String.eqb_neq in Hne. rewrite Hne. simpl. f_equal.
      now apply Hfilter. }
    destruct (arrayIndex k') as [m|]; [|exact Hhead].
    destruct (m <? n)%N; [|exact Hhead].
    unfold obj_delete in *. simpl.
    apply String.eqb_neq in Hne. rewrite Hne. simpl. f_equal. now apply IH.
Qed.

Lemma obj_set_delete {V} (k : string) (v : V) (o : obj V) :
  ~ In k (obj_keys o) -> obj_delete k (obj_set k v o) = o.
Proof.
  intros Hk. unfold obj_set.
  rewrite (proj2 (obj_has_false k o) Hk).
  destruct (arrayIndex k) as [n|]; [now apply obj_insert_index_delete|].
  unfold obj_delete. rewrite filter_app. simpl. rewrite String.eqb_refl.
  simpl. rewrite app_nil_r. apply forallb_filter_id.
  apply forallb_forall. intros [k' v'] Hin. simpl.
  destruct (String.eqb_spec k' k) as [->|]; [|reflexivity].
  exfalso. apply Hk. now apply (In_entry_key k v').
Qed.

Lemma drop_links_none (X : string) (o : obj Scene) :
  (forall k sc x, In (k, sc) o -> In x (hotSpots sc) -> sceneId x <> X) ->
  obj_map (fun _ sc => set_hotSpots (drop_links X (hotSpots sc)) sc) o = o.
Proof.
  intros Hlinks. unfold obj_map. rewrite <- (map_id o) at 2.
  apply map_ext_in. intros [k sc] Hin. simpl. f_equal.
  unfold drop_links. rewrite forallb_filter_id.
  - now destruct sc.
  - apply forallb_forall. intros x Hx.
    apply negb_true_iff, String.eqb_neq. now apply (Hlinks k sc).
Qed.

Lemma indexOf_last (x : string) (a : list string) :
  ~ In x a -> indexOf x (a ++ [x]) = Some (length a).
Proof. intros Hx. now apply indexOf_first. Qed.

(** X10: deleting a scene right after adding it restores the document:
    from a document that satisfies the four invariants, [addNewScene]
    followed by [deleteCurrentScene] of the new scene gives back exactly
    the document before the add (scene map, [sceneOrder], [firstScene],
    hotspots). *)
Theorem addNewScene_then_delete_restores
        (cfg cfg1 : TourConfig) (idField pathField : string) (ml cr : float)
        (Hinv : invariants cfg)
        (Hadd : addNewScene idField pathField ml cr cfg = Completed cfg1) :
  deleteCurrentScene (trim idField) true cfg1 = Completed cfg.
Proof.
  unfold addNewScene in Hadd.
  destruct (String.eqb_spec (trim idField) "") as [|Hid]; [discriminate|].
  destruct (trim pathField =? ""); [discriminate|]. simpl in Hadd.
  unfold obj_truthy in *.
  destruct (obj_has (trim idField) (scenes cfg)) eqn:Hhas; [discriminate|].
  destruct (inherited (trim idField)) eqn:Hown; [discriminate|].
  apply obj_has_false in Hhas. injection Hadd as <-.
  destruct Hinv as (Hnd & _ & Hlinks & Horder & Hfirst).
  unfold deleteCurrentScene. apply String.eqb_neq in Hid. rewrite Hid.
  apply String.eqb_neq in Hid. cbn [negb firstScene sceneOrder scenes
                                    sceneFadeDuration autoLoad].
  rewrite (obj_set_delete _ _ _ Hhas).
  assert (Hnot : ~ In (trim idField) (sceneOrder cfg)).
  { intros Hin. apply Hhas. eapply Permutation_in; eauto. }
  rewrite (indexOf_last _ _ Hnot).
  replace (splice_remove (length (sceneOrder cfg))
                         (sceneOrder cfg ++ [trim idField]))
    with (sceneOrder cfg)
    by (now rewrite (splice_remove_app (sceneOrder cfg) [] (trim idField)),
          app_nil_r).
  rewrite drop_links_none.
  2:{ intros k sc x Hin Hx Heq. apply Hhas. rewrite <- Heq.
      now apply (Hlinks k sc x). }
  unfold first_sound in Hfirst.
  f_equal. destruct cfg as [first order fade auto o]. cbn in *. f_equal.
  destruct o as [|e r].
  - destruct Hfirst as [->|[]].
    assert (Hlen : length (obj_keys (obj_set (trim idField)
                                       (newScene (trim pathField) ml cr)
                                       (@nil (string * Scene)))) = 1%nat).
    { unfold obj_set. simpl. now destruct (arrayIndex (trim idField)). }
    rewrite Hlen. simpl. now rewrite String.eqb_refl.
  - assert (Hlen : (length (obj_keys (obj_set (trim idField)
                                        (newScene (trim pathField) ml cr)
                                        (e :: r))) =? 1)%nat = false).
    { apply Nat.eqb_neq.
      rewrite (Permutation_length
                 (obj_keys_set_fresh _ _ _ (proj2 (obj_has_false _ _) Hhas))).
      simpl. lia. }
    rewrite Hlen.
    destruct (String.eqb_spec first (trim idField)) as [->|]; [|reflexivity].
    exfalso. destruct Hfirst as [Hf|Hf]; [congruence | now apply Hhas].
Qed.

Lemma addNewScene_then_delete_restores_witness :
  exists cfg1,
    addNewScene " roof " "./roof/" 5 8192 doc_linked = Completed cfg1
    /\ obj_keys (scenes cfg1) = ["A"; "B"; "roof"]
    /\ deleteCurrentScene "roof" true cfg1 = Completed doc_linked.
Proof.
  assert (Hinv : invariants doc_linked).
  { unfold invariants, ids_unique, links_sound, order_sound, first_sound.
    simpl. split; [repeat constructor; simpl; intuition discriminate|].
    split; [repeat constructor; simpl; intuition discriminate|]. split.
    - intros k sc x [[= <- <-]|[[= <- <-]|[]]] [<-|[]]; simpl;
        split; try tauto; discriminate.
    - split; [reflexivity | right; now left]. }
  assert (Hadd : exists cfg1,
             addNewScene " roof " "./roof/" 5 8192 doc_linked = Completed cfg1
             /\ obj_keys (scenes cfg1) = ["A"; "B"; "roof"])
    by (eexists; split; reflexivity).
  destruct Hadd as (cfg1 & Hadd & Hkeys).
  exists cfg1. split; [exact Hadd|]. split; [exact Hkeys|].
  exact (addNewScene_then_delete_restores doc_linked cfg1 " roof " "./roof/"
           5 8192 Hinv Hadd).
Defined.

Lemma obj_replace_back {V} (k : string) (v v' : V) (o : obj V) :
  obj_get k o = Some v -> obj_replace k v (obj_replace k v' o) = o.
Proof.
  induction o as [|[k0 v0] r IH]; simpl; [discriminate|].
  destruct (String.eqb_spec k0 k) as [->|Hne]; simpl.
  - intros [= ->]. now rewrite String.eqb_refl.
  - intros Hget. apply String.eqb_neq in Hne. rewrite Hne. f_equal. now apply IH.
Qed.

Lemma obj_get_replaced {V} (k : string) (v v' : V) (o : obj V) :
  obj_get k o = Some v -> obj_get k (obj_replace k v' o) = Some v'.
Proof.
  intros Hget. rewrite obj_get_replace, String.eqb_refl. unfold obj_has.
  now rewrite Hget.
Qed.

Lemma set_scenes_same (cfg : TourConfig) : set_scenes (scenes cfg) cfg = cfg.
Proof. now destruct cfg. Qed.

Lemma set_scenes_twice (o o' : obj Scene) (cfg : TourConfig) :
  set_scenes o (set_scenes o' cfg) = set_scenes o cfg.
Proof. reflexivity. Qed.

Lemma set_hotSpots_back (hs : list Hotspot) (scene : Scene) :
  set_hotSpots (hotSpots scene) (set_hotSpots hs scene) = scene.
Proof. now destruct scene. Qed.

Lemma splice_remove_last {A} (l : list A) (x : A) :
  splice_remove (length l) (l ++ [x]) = l.
Proof. now rewrite (splice_remove_app l [] x), app_nil_r. Qed.

(** X11: deleting a hotspot right after adding it restores the document:
    after [confirmAddHotspot] has appended a hotspot to the current scene,
    [deleteHotspot] at the index of the new hotspot gives back exactly the
    document before the add.  The global counter is not rolled back: it
    stays one higher when the id field was left blank (as long as the
    counter is a safe integer: from 2^53 on the increment of the code is
    lost in rounding). *)
Theorem confirmAddHotspot_then_delete_restores
        (ed ed' : Editor) (cur textField idField target : string)
        (p y : float) (scene : Scene)
        (Hex : obj_get cur (scenes (tourConfig ed)) = Some scene)
        (Hadd : confirmAddHotspot cur (Some AddingHotspot) textField idField
                                  target p y ed = Completed ed') :
  deleteHotspot cur (Z.of_nat (length (hotSpots scene))) (tourConfig ed')
  = Completed (tourConfig ed)
  /\ (counter_exact ed ->
      hotspotCounter ed'
      = if trim idField =? "" then (hotspotCounter ed + 1)%N
        else hotspotCounter ed).
Proof.
  unfold confirmAddHotspot in Hadd.
  destruct (String.eqb_spec cur "") as [|Hcur]; [discriminate|].
  destruct (target =? ""); [discriminate|].
  destruct (isValid (validateHotspotId (trim idField) cur (-1)
                                       (tourConfig ed))); [|discriminate].
  destruct scene as [sh sp sy st spr sm shs].
  cbn [negb] in Hadd. rewrite Hex in Hadd.
  destruct (trim idField =? "");
    destruct (obj_get target (scenes (tourConfig ed)));
    injection Hadd as <-; cbn [tourConfig hotspotCounter];
    (split; [|intros _; reflexivity]);
    unfold deleteHotspot; apply String.eqb_neq in Hcur; rewrite Hcur;
    cbn [scenes set_scenes];
    rewrite (obj_get_replaced _ _ _ _ Hex);
    cbn [hotSpots set_hotSpots hfov pitch yaw sc_type preview multiRes];
    rewrite length_app; cbn [length];
    (destruct (Z.leb_spec 0 (Z.of_nat (length shs))); [|lia]);
    (destruct (Z.ltb_spec (Z.of_nat (length shs))
                          (Z.of_nat (length shs + 1))); [|lia]);
    cbn [andb]; rewrite Nat2Z.id, splice_remove_last;
    rewrite (obj_replace_back _ _ _ _ Hex);
    f_equal; now destruct (tourConfig ed).
Qed.

Lemma confirmAddHotspot_then_delete_restores_witness :
  exists ed',
    confirmAddHotspot "A" (Some AddingHotspot) "" "" "B" 1 2
                      {| tourConfig := doc_linked; hotspotCounter := 0 |}
    = Completed ed'
    /\ hotspot_ids (tourConfig ed')
       = [Some "hs_B_001"; Some "hs_A_0"; Some "hs_A_001"]
    /\ deleteHotspot "A" 1 (tourConfig ed') = Completed doc_linked
    /\ hotspotCounter ed' = 1%N.
Proof.
  assert (Hadd : exists ed',
             confirmAddHotspot "A" (Some AddingHotspot) "" "" "B" 1 2
                               {| tourConfig := doc_linked; hotspotCounter := 0 |}
             = Completed ed'
             /\ hotspot_ids (tourConfig ed')
                = [Some "hs_B_001"; Some "hs_A_0"; Some "hs_A_001"])
    by (eexists; split; reflexivity).
  destruct Hadd as (ed' & Hadd & Hids).
  assert (Hex : obj_get "A" (scenes doc_linked)
                = Some (set_hotSpots [link "hs_B_001" "B" "B"]
                                     (newScene "./A/" 4 4096))) by reflexivity.
  destruct (confirmAddHotspot_then_delete_restores
              {| tourConfig := doc_linked; hotspotCounter := 0 |} ed'
              "A" "" "" "B" 1 2 _ Hex Hadd) as [Hdel Hcount].
  exists ed'. split; [exact Hadd|]. split; [exact Hids|].
  split; [exact Hdel|]. apply Hcount. unfold counter_exact. cbn. lia.
Defined.

(** ** Moving scenes and hotspots *)

Lemma rebuild_ext (src src' : obj Scene) (l : list string) :
  (forall k, In k l -> obj_get k src = obj_get k src') ->
  forall acc, fold_left (rebuild_step src) l acc
              = fold_left (rebuild_step src') l acc.
Proof.
  induction l as [|k r IH]; intros Hsame acc; simpl; [reflexivity|].
  unfold rebuild_step at 2 4. rewrite (Hsame k) by now left.
  apply IH. intros k' Hk'. apply Hsame. now right.
Qed.

Lemma reorderScenes_twice (l l' : list string) (cfg : TourConfig) :
  (forall k, In k l -> In k l') ->
  reorderScenes l (reorderScenes l' cfg) = reorderScenes l cfg.
Proof.
  intros Hsub. unfold reorderScenes at 1 3. cbn [firstScene sceneFadeDuration
                                                   autoLoad].
  f_equal. apply rebuild_ext. intros k Hk. rewrite reorderScenes_get.
  now rewrite (proj2 (existsb_eqb_In k l') (Hsub k Hk)).
Qed.






Lemma splice_move {A} (l : list A) (d t : nat) (x : A) :
  nth_error l d = Some x -> (t < length l)%nat ->
  let l' := splice_insert t x (splice_remove d l) in
  nth_error l' t = Some x
  /\ length l' = length l
  /\ splice_remove t l' = splice_remove d l.
Proof.
  intros Hat Ht. cbv zeta.
  destruct (splice_remove_at x l d Hat) as (a & b & Hl & Hlen & Hrem & _).
  rewrite Hrem. subst l. rewrite length_app in Ht. simpl in Ht.
  assert (Hfirst : length (firstn t (a ++ b)) = t).
  { rewrite length_firstn, length_app. lia. }
  unfold splice_insert. split; [|split].
  - rewrite nth_error_app2 by lia. now rewrite Hfirst, Nat.sub_diag.
  - rewrite !length_app. cbn [length]. rewrite Hfirst, length_skipn, length_app.
    lia.
  - rewrite <- Hfirst at 1. rewrite splice_remove_app.
    apply firstn_skipn.
Qed.

Lemma filter_splice (p : string -> bool) (l : list string) (t : nat)
      (x : string) :
  p x = false -> filter p (splice_insert t x l) = filter p l.
Proof.
  intros Hx. unfold splice_insert. rewrite filter_app. simpl. rewrite Hx.
  now rewrite <- filter_app, firstn_skipn.
Qed.

(** X13: a scene dropped on another one in the scene order list takes the
    position the target had in [sceneOrder], and the other scenes keep
    their relative order: the new [sceneOrder] without the dragged scene
    is the old one without it.  The drop is ignored when one of the two
    ids is not listed. *)
Theorem handleDrop_takes_target_position
        (cfg : TourConfig) (d t : string)
        (Hd : d <> "") (Ht : t <> "") (Hne : d <> t) :
  (In d (sceneOrder cfg) -> In t (sceneOrder cfg) ->
   exists cfg' ti,
     handleDrop d t cfg = Completed cfg'
     /\ indexOf t (sceneOrder cfg) = Some ti
     /\ nth_error (sceneOrder cfg') ti = Some d
     /\ length (sceneOrder cfg') = length (sceneOrder cfg)
     /\ filter (fun k => negb (k =? d)) (sceneOrder cfg')
        = filter (fun k => negb (k =? d)) (sceneOrder cfg)
     /\ cfg' = reorderScenes (sceneOrder cfg') cfg)
  /\ (~ In d (sceneOrder cfg) \/ ~ In t (sceneOrder cfg) ->
      handleDrop d t cfg = Rejected).
Proof.
  assert (Hguard : (d =? "") || (t =? "") || (d =? t) = false).
  { apply String.eqb_neq in Hd, Ht, Hne. now rewrite Hd, Ht, Hne. }
  unfold handleDrop. rewrite Hguard. split.
  - intros Hind Hint.
    destruct (indexOf d (sceneOrder cfg)) as [di|] eqn:Hdi;
      [|apply indexOf_None in Hdi; contradiction].
    destruct (indexOf t (sceneOrder cfg)) as [ti|] eqn:Hti;
      [|apply indexOf_None in Hti; contradiction].
    destruct (indexOf_nth _ _ _ Hdi) as [Hatd _].
    destruct (indexOf_nth _ _ _ Hti) as [Hatt _].
    assert (Hlt : (ti < length (sceneOrder cfg))%nat)
      by (apply nth_error_Some; congruence).
    destruct (splice_move (sceneOrder cfg) di ti d Hatd Hlt)
      as (Hland & Hlen & _).
    eexists. exists ti. split; [reflexivity|]. cbn [sceneOrder reorderScenes].
    split; [reflexivity|]. split; [exact Hland|]. split; [exact Hlen|].
    split; [|reflexivity].
    rewrite filter_splice by (now rewrite String.eqb_refl).
    apply indexOf_Some in Hdi as (l1 & l2 & Heq & _ & <-).
    rewrite Heq, splice_remove_app, !filter_app. simpl.
    now rewrite String.eqb_refl.
  - intros [Hnot|Hnot]; apply indexOf_None in Hnot; rewrite Hnot;
      [reflexivity|]. now destruct (indexOf d (sceneOrder cfg)).
Qed.

Lemma handleDrop_takes_target_position_witness :
  exists cfg',
    handleDrop "a" "c" doc_abc = Completed cfg'
    /\ sceneOrder cfg' = ["b"; "c"; "a"]
    /\ nth_error (sceneOrder cfg') 2 = Some "a".
Proof.
  assert (Hd : "a" <> "") by discriminate.
  assert (Ht : "c" <> "") by discriminate.
  assert (Hne : "a" <> "c") by discriminate.
  destruct (handleDrop_takes_target_position doc_abc "a" "c" Hd Ht Hne)
    as [Hdrop _].
  destruct Hdrop as (cfg' & ti & Hrun & Hti & Hland & _);
    [simpl; tauto | simpl; tauto |].
  assert (Hti' : ti = 2%nat) by (simpl in Hti; congruence). subst ti.
  exists cfg'. split; [exact Hrun|]. split; [|exact Hland].
  simpl in Hrun. now injection Hrun as <-.
Defined.

(** X14: a hotspot dragged from one index of the current scene's list and
    dropped on another index ends up at the index it was dropped on; the
    list keeps its length and the other hotspots keep their relative
    order; nothing else in the document changes.  A drop on the item's own
    index, or without a dragged item, is ignored. *)
Theorem handleHotspotDrop_takes_target_index
        (cfg : TourConfig) (cur : string) (scene : Scene) (d t : nat)
        (x : Hotspot)
        (Hex : obj_get cur (scenes cfg) = Some scene)
        (Hd : nth_error (hotSpots scene) d = Some x)
        (Ht : (t < length (hotSpots scene))%nat)
        (Hne : t <> d) :
  (exists cfg' scene',
      handleHotspotDrop cur (Some d) t cfg = Completed cfg'
      /\ obj_get cur (scenes cfg') = Some scene'
      /\ nth_error (hotSpots scene') t = Some x
      /\ length (hotSpots scene') = length (hotSpots scene)
      /\ splice_remove t (hotSpots scene') = splice_remove d (hotSpots scene)
      /\ scene' = set_hotSpots (hotSpots scene') scene
      /\ (forall k, k <> cur ->
                    obj_get k (scenes cfg') = obj_get k (scenes cfg))
      /\ obj_keys (scenes cfg') = obj_keys (scenes cfg)
      /\ sceneOrder cfg' = sceneOrder cfg
      /\ firstScene cfg' = firstScene cfg)
  /\ handleHotspotDrop cur (Some d) d cfg = Rejected
  /\ handleHotspotDrop cur None t cfg = Rejected.
Proof.
  split; [|split; [unfold handleHotspotDrop; now rewrite Nat.eqb_refl
                  | reflexivity]].
  destruct (splice_move (hotSpots scene) d t x Hd Ht) as (Hland & Hlen & Hrest).
  unfold handleHotspotDrop. apply Nat.eqb_neq in Hne. rewrite Hne, Hex, Hd.
  eexists. eexists. split; [reflexivity|]. cbn [scenes set_scenes sceneOrder
                                                  firstScene].
  split; [now apply (obj_get_replaced cur scene)|]. cbn [hotSpots set_hotSpots].
  split; [exact Hland|]. split; [exact Hlen|]. split; [exact Hrest|].
  split; [reflexivity|]. split.
  - intros k Hk. rewrite obj_get_replace.
    destruct (String.eqb_spec cur k); [congruence | reflexivity].
  - split; [apply obj_keys_replace|]. split; reflexivity.
Qed.

Lemma handleHotspotDrop_takes_target_index_witness :
  exists cfg',
    handleHotspotDrop "A" (Some 0%nat) 1 doc_twins = Completed cfg'
    /\ option_map (fun sc => length (hotSpots sc)) (obj_get "A" (scenes cfg'))
       = Some 2%nat.
Proof.
  assert (Hex : obj_get "A" (scenes doc_twins)
                = Some (set_hotSpots
                          [link "hs_A_0" "B" "B"; link "hs_A_0" "B" "B"]
                          (newScene "./A/" 4 4096))) by reflexivity.
  destruct (handleHotspotDrop_takes_target_index doc_twins "A" _ 0 1
              (link "hs_A_0" "B" "B") Hex eq_refl) as [Hdrop _];
    [simpl; lia | lia |].
  destruct Hdrop as (cfg' & scene' & Hrun & Hget & _ & Hlen & _).
  exists cfg'. split; [exact Hrun|]. rewrite Hget. simpl. now rewrite Hlen.
Defined.

(** ** Giving ids a second time *)

Lemma fallbackId_has_ink (k : string) (n : N) :
  (fallbackId k n =? "") || (trim (fallbackId k n) =? "") = false.
Proof.
  apply orb_false_iff. split; [reflexivity|].
  apply String.eqb_neq. intros Hblank. apply trim_empty in Hblank.
  discriminate.
Qed.

Lemma fixMissingHotspotId_fixed (h h' : Hotspot) (k : string) (c c' : N) :
  fixMissingHotspotId h k c = (h', c') -> id_missing h' = false.
Proof.
  unfold fixMissingHotspotId. destruct (id_missing h) eqn:Hm.
  - intros [= <- _]. unfold id_missing, set_id. cbn [hs_id].
    apply fallbackId_has_ink.
  - now intros [= <- _].
Qed.

Lemma fix_hotspots_fixed (k : string) (hs : list Hotspot) :
  forall c hs' c',
    fix_hotspots k hs c = (hs', c') ->
    Forall (fun h => id_missing h = false) hs'
    /\ forall d, fix_hotspots k hs' d = (hs', d).
Proof.
  induction hs as [|h r IH]; intros c hs' c'; simpl.
  - intros [= <- _]. split; [constructor | reflexivity].
  - destruct (fixMissingHotspotId h k c) as [h1 c1] eqn:Hh.
    destruct (fix_hotspots k r c1) as [r1 c2] eqn:Hr.
    intros [= <- _]. destruct (IH _ _ _ Hr) as [Hall Hfix].
    pose proof (fixMissingHotspotId_fixed _ _ _ _ _ Hh) as Hm.
    split; [now constructor|]. intros d. simpl.
    unfold fixMissingHotspotId. now rewrite Hm, Hfix.
Qed.

Lemma fix_scenes_fixed (o : obj Scene) :
  forall c o' c',
    fix_scenes o c = (o', c') ->
    Forall (fun h => id_missing h = false) (all_hotspots o')
    /\ forall d, fix_scenes o' d = (o', d).
Proof.
  induction o as [|[k sc] r IH]; intros c o' c'; simpl.
  - intros [= <- _]. split; [constructor | reflexivity].
  - destruct (fix_hotspots k (hotSpots sc) c) as [hs1 c1] eqn:Hh.
    destruct (fix_scenes r c1) as [r1 c2] eqn:Hr.
    intros [= <- _]. destruct (IH _ _ _ Hr) as [Hall Hfix].
    destruct (fix_hotspots_fixed _ _ _ _ _ Hh) as [Hall1 Hfix1].
    split.
    + rewrite all_hotspots_cons. apply Forall_app. now split.
    + intros d. simpl. now rewrite Hfix1, Hfix.
Qed.

Lemma scan_counter_max (m a : Z) (h : Hotspot) :
  scan_counter (Z.max m a) h = Z.max (scan_counter m h) a.
Proof.
  unfold scan_counter. destruct (hs_id h) as [i|]; [|reflexivity].
  destruct (negb (i =? "") && String.prefix "hs_" i && (3 <=? partsLength i)%nat);
    [|reflexivity].
  destruct (parseInt (lastPart i)); [lia | reflexivity].
Qed.

Lemma scan_fold_max (l : list Hotspot) :
  forall m a, fold_left scan_counter l (Z.max m a)
              = Z.max (fold_left scan_counter l m) a.
Proof.
  induction l as [|h r IH]; intros m a; simpl; [reflexivity|].
  now rewrite scan_counter_max, IH.
Qed.

Lemma scan_fold_app (l l' : list Hotspot) (m : Z) :
  fold_left scan_counter (l ++ l') m
  = fold_left scan_counter l' (fold_left scan_counter l m).
Proof. apply fold_left_app. Qed.

Lemma scan_counter_missing (m : Z) (h : Hotspot) :
  id_missing h = true -> scan_counter m h = m.
Proof.
  unfold id_missing, scan_counter. destruct (hs_id h) as [i|]; [|reflexivity].
  destruct (i =? "") eqn:He; [reflexivity|]. simpl. intros Hblank.
  apply String.eqb_eq, trim_empty in Hblank.
  destruct i as [|c r]; [discriminate|].
  assert (Hc : is_ws c = true).
  { unfold has_ink in Hblank. simpl in Hblank.
    apply orb_false_iff in Hblank as [Hc _]. now apply negb_false_iff in Hc. }
  cbn [negb andb]. rewrite prefix_cons.
  destruct (ascii_dec "h" c) as [<-|]; [discriminate | reflexivity].
Qed.

Lemma scan_counter_fallbackId (m : Z) (h : Hotspot) (k : string) (c : N) :
  scan_counter m (set_id (fallbackId k c) h) = Z.max m (Z.of_N c).
Proof.
  rewrite (scan_counter_counted m _ (fallbackId k c)) by reflexivity.
  rewrite counted_fallbackId.
  pose proof (suffix_number_fallbackId k c) as Hs. unfold suffix_number in Hs.
  now rewrite Hs.
Qed.

Lemma fix_hotspots_scan (k : string) (hs : list Hotspot) :
  forall c hs' c' m,
    fix_hotspots k hs c = (hs', c') ->
    (c <= c')%N
    /\ fold_left scan_counter hs' m
       = if (c' =? c)%N then fold_left scan_counter hs m
         else Z.max (fold_left scan_counter hs m) (Z.of_N c' - 1).
Proof.
  induction hs as [|h r IH]; intros c hs' c' m; simpl.
  - intros [= <- <-]. rewrite N.eqb_refl. split; [lia | reflexivity].
  - unfold fixMissingHotspotId. destruct (id_missing h) eqn:Hm.
    + destruct (fix_hotspots k r (c + 1)) as [r1 c2] eqn:Hr.
      intros [= <- <-]. destruct (IH _ _ _ (Z.max m (Z.of_N c)) Hr) as [Hle Hscan].
      split; [lia|]. simpl.
      rewrite scan_counter_fallbackId, Hscan, (scan_counter_missing m h Hm).
      destruct (N.eqb_spec c2 c); [lia|].
      rewrite scan_fold_max.
      destruct (N.eqb_spec c2 (c + 1)) as [->|]; [f_equal; lia | lia].
    + destruct (fix_hotspots k r c) as [r1 c2] eqn:Hr.
      intros [= <- <-]. destruct (IH _ _ _ (scan_counter m h) Hr) as [Hle Hscan].
      split; [exact Hle|]. simpl. exact Hscan.
Qed.

Lemma fix_scenes_scan (o : obj Scene) :
  forall c o' c' m,
    fix_scenes o c = (o', c') ->
    (c <= c')%N
    /\ fold_left scan_counter (all_hotspots o') m
       = if (c' =? c)%N then fold_left scan_counter (all_hotspots o) m
         else Z.max (fold_left scan_counter (all_hotspots o) m) (Z.of_N c' - 1).
Proof.
  induction o as [|[k sc] r IH]; intros c o' c' m; simpl.
  - intros [= <- <-]. rewrite N.eqb_refl. split; [lia | reflexivity].
  - destruct (fix_hotspots k (hotSpots sc) c) as [hs1 c1] eqn:Hh.
    destruct (fix_scenes r c1) as [r1 c2] eqn:Hr.
    intros [= <- <-].
    destruct (fix_hotspots_scan _ _ _ _ _ m Hh) as [Hle1 Hscan1].
    destruct (IH _ _ _ (fold_left scan_counter hs1 m) Hr) as [Hle2 Hscan2].
    split; [lia|].
    rewrite !all_hotspots_cons, !scan_fold_app. cbn [hotSpots set_hotSpots].
    rewrite Hscan2, Hscan1.
    destruct (N.eqb_spec c2 c1) as [E21|Hn21];
      destruct (N.eqb_spec c1 c) as [E1|Hn1];
      destruct (N.eqb_spec c2 c) as [E2|Hn2];
      try lia; try reflexivity; rewrite scan_fold_max; try rewrite E21; lia.
Qed.

Lemma ensureHotspotIds_all_ids (cfg : TourConfig) :
  Forall (fun h => id_missing h = false)
         (all_hotspots (scenes (tourConfig (ensureHotspotIds cfg)))).
Proof.
  unfold ensureHotspotIds.
  destruct (fix_scenes (scenes cfg) (Z.to_N (maxCounter (scenes cfg) + 1)))
    as [o' c'] eqn:Hfix.
  cbn [tourConfig scenes set_scenes].
  now destruct (fix_scenes_fixed _ _ _ _ Hfix).
Qed.

(** X15: [ensureHotspotIds] is idempotent: after one run no hotspot of
    the document lacks an id, and a second run changes neither a hotspot
    nor the global counter that the first run left. *)
Theorem ensureHotspotIds_idempotent (cfg : TourConfig) :
  let ed := ensureHotspotIds cfg in
  ensureHotspotIds (tourConfig ed) = ed
  /\ Forall (fun h => id_missing h = false)
            (all_hotspots (scenes (tourConfig ed))).
Proof.
  cbv zeta. unfold ensureHotspotIds at 2 3 4.
  destruct (fix_scenes (scenes cfg) (Z.to_N (maxCounter (scenes cfg) + 1)))
    as [o' c'] eqn:Hfix.
  cbn [tourConfig scenes set_scenes].
  destruct (fix_scenes_fixed _ _ _ _ Hfix) as [Hall Hagain].
  split; [|exact Hall].
  unfold ensureHotspotIds. cbn [scenes set_scenes]. rewrite Hagain.
  rewrite set_scenes_twice. f_equal.
  destruct (fix_scenes_scan _ _ _ _ 0%Z Hfix) as [Hle Hscan].
  rewrite !maxCounter_flat in *. rewrite Hscan.
  pose proof (scan_fold_ge (all_hotspots (scenes cfg)) 0%Z) as Hpos.
  destruct (N.eqb_spec c' (Z.to_N (fold_left scan_counter
                                     (all_hotspots (scenes cfg)) 0%Z + 1)));
    [congruence | f_equal; lia].
Qed.

(** ** The id check and the id generator *)

Lemma dup_in_hotspots_new (hid : string) (same : bool) (hs : list Hotspot) :
  forall start,
    dup_in_hotspots hid same (-1) start hs = existsb (fun h => id_is h hid) hs.
Proof.
  induction hs as [|h r IH]; intros start; simpl; [reflexivity|].
  destruct (Z.eqb_spec (Z.of_nat start) (-1)); [lia|].
  rewrite andb_false_r, IH. now destruct (id_is h hid).
Qed.

Lemma dup_in_scenes_new (hid s : string) (o : obj Scene) :
  (match dup_in_scenes hid s (-1) o with Some _ => true | None => false end)
  = existsb (fun sc => existsb (fun h => id_is h hid) (hotSpots sc))
            (obj_values o).
Proof.
  induction o as [|[k sc] r IH]; simpl; [reflexivity|].
  rewrite dup_in_hotspots_new.
  destruct (existsb (fun h => id_is h hid) (hotSpots sc)); [reflexivity|].
  exact IH.
Qed.

Lemma dup_free_iff_unused (hid s : string) (cfg : TourConfig) :
  (match dup_in_scenes hid s (-1) (scenes cfg) with
   | Some _ => false
   | None => true
   end) = negb (isHotspotIdInUse hid cfg).
Proof.
  unfold isHotspotIdInUse. rewrite <- (dup_in_scenes_new hid s).
  now destruct (dup_in_scenes hid s (-1) (scenes cfg)).
Qed.

(** X16: for a new hotspot, [validateHotspotId] accepts exactly the blank
    ids (an id will be generated) and the ids that match
    [[a-zA-Z0-9_-]+] and that [isHotspotIdInUse] reports as free; the scene
    argument plays no role. *)
Theorem validateHotspotId_new_hotspot
        (hotspotId sceneId' : string) (cfg : TourConfig) :
  isValid (validateHotspotId hotspotId sceneId' (-1) cfg)
  = ((hotspotId =? "") || (trim hotspotId =? "")
     || id_pattern hotspotId && negb (isHotspotIdInUse hotspotId cfg)).
Proof.
  unfold validateHotspotId.
  destruct ((hotspotId =? "") || (trim hotspotId =? "")); [reflexivity|].
  destruct (id_pattern hotspotId); [|reflexivity]. cbn [negb orb andb].
  rewrite <- (dup_free_iff_unused hotspotId sceneId' cfg).
  now destruct (dup_in_scenes hotspotId sceneId' (-1) (scenes cfg)).
Qed.

Lemma is_digit_id_char (c : ascii) : is_digit c = true -> is_id_char c = true.
Proof.
  unfold is_id_char. intros ->. now rewrite orb_true_r.
Qed.

Lemma padStart3_id_chars (n : N) :
  forallb is_id_char (list_ascii_of_string (padStart3 (toStringN n))) = true.
Proof.
  unfold padStart3. rewrite list_ascii_append, forallb_app.
  apply andb_true_iff. split.
  - rewrite list_ascii_of_string_of_list_ascii.
    apply forallb_forall. intros c Hc. apply repeat_spec in Hc. now subst c.
  - apply forallb_forall. intros c Hc. apply is_digit_id_char.
    pose proof (toStringN_digits n) as Hd.
    rewrite forallb_forall in Hd. now apply Hd.
Qed.

Lemma candidateId_pattern (t : string) (n : N) :
  id_pattern (candidateId t n) = forallb is_id_char (list_ascii_of_string t).
Proof.
  unfold id_pattern, candidateId. cbn [append String.eqb negb andb].
  change (list_ascii_of_string (String "h" (String "s" (String "_" ?s))))
    with ("h"%char :: "s"%char :: "_"%char :: list_ascii_of_string s).
  cbn [list_ascii_of_string forallb].
  change (is_id_char "h") with true. change (is_id_char "s") with true.
  change (is_id_char "_") with true. cbn [andb].
  rewrite list_ascii_append, forallb_app.
  change (String "_" (padStart3 (toStringN n)))
    with ("_" ++ padStart3 (toStringN n))%string.
  rewrite list_ascii_append, forallb_app, padStart3_id_chars.
  cbn. now rewrite !andb_true_r.
Qed.

Lemma candidateId_not_blank (t : string) (n : N) :
  (candidateId t n =? "") || (trim (candidateId t n) =? "") = false.
Proof.
  apply orb_false_iff. split; [reflexivity|].
  apply String.eqb_neq. intros Hblank. apply trim_empty in Hblank.
  discriminate.
Qed.

Lemma trim_fixed (s : string) (c c' : ascii) (r : string) (r' : list ascii) :
  s = String c r -> is_ws c = false ->
  rev (list_ascii_of_string s) = c' :: r' -> is_ws c' = false ->
  trim s = s.
Proof.
  intros Hs Hc Hrev Hc'. unfold trim. subst s. rewrite (trimStart_head c r Hc).
  unfold trimEnd. unfold string_rev at 2. rewrite Hrev.
  cbn [string_of_list_ascii]. rewrite (trimStart_head c' _ Hc').
  change (String c' (string_of_list_ascii r'))
    with (string_of_list_ascii (c' :: r')).
  rewrite <- Hrev. apply (string_rev_involutive (String c r)).
Qed.

Lemma trim_candidateId (t : string) (n : N) :
  trim (candidateId t n) = candidateId t n.
Proof.
  assert (Hpad : exists c r, rev (list_ascii_of_string (padStart3 (toStringN n)))
                             = c :: r /\ is_digit c = true).
  { apply rev_head_forallb.
    - unfold padStart3. rewrite list_ascii_append. intros Hnil.
      apply app_eq_nil in Hnil as [_ Hnil].
      apply (toStringN_not_empty n).
      rewrite <- (string_of_list_ascii_of_string (toStringN n)).
      now rewrite Hnil.
    - unfold padStart3. rewrite list_ascii_append, forallb_app.
      apply andb_true_iff. split; [|apply toStringN_digits].
      rewrite list_ascii_of_string_of_list_ascii.
      apply forallb_forall. intros c Hc. apply repeat_spec in Hc.
      now subst c. }
  destruct Hpad as (c & r & Hrev & Hc).
  apply (trim_fixed _ "h"%char c ("s_" ++ t ++ "_" ++ padStart3 (toStringN n))
                    (r ++ rev (list_ascii_of_string ("hs_" ++ t ++ "_")))).
  - reflexivity.
  - reflexivity.
  - unfold candidateId.
    replace ("hs_" ++ t ++ "_" ++ padStart3 (toStringN n))%string
      with (("hs_" ++ t ++ "_") ++ padStart3 (toStringN n))%string.
    + now rewrite list_ascii_append, rev_app_distr, Hrev.
    + rewrite !string_app_assoc. reflexivity.
  - now apply is_digit_cases.
Qed.

(** X17: the id that the hotspot dialog proposes
    ([generateSceneBasedHotspotId]) is accepted exactly when the scene id
    it is built from consists of letters, digits, underscores and hyphens:
    then [confirmAddHotspot] stores the new hotspot under this very id,
    which no hotspot carried before, and leaves the global counter alone;
    for a scene id with another character (a blank, say, which
    [addNewScene] accepts) the proposal fails the dialog's own id check and
    the hotspot is not added. *)
Theorem proposed_id_accepted_iff_plain_scene_id
        (ed : Editor) (cur t textField target : string) (p y : float)
        (scene : Scene)
        (Hcur : cur <> "") (Htarget : target <> "")
        (Hex : obj_get cur (scenes (tourConfig ed)) = Some scene) :
  exists proposal,
    generateSceneBasedHotspotId t (tourConfig ed) = Some proposal
    /\ ~ In (Some proposal) (hotspot_ids (tourConfig ed))
    /\ (forallb is_id_char (list_ascii_of_string t) = true ->
        exists x,
          confirmAddHotspot cur (Some AddingHotspot) textField proposal target
                            p y ed
          = Completed
              {| tourConfig :=
                   set_scenes
                     (obj_replace cur
                        (set_hotSpots (hotSpots scene ++ [x]) scene)
                        (scenes (tourConfig ed))) (tourConfig ed);
                 hotspotCounter := hotspotCounter ed |}
          /\ hs_id x = Some proposal /\ sceneId x = target)
    /\ (forallb is_id_char (list_ascii_of_string t) = false ->
        validateHotspotId proposal cur (-1) (tourConfig ed) = BadCharacters
        /\ confirmAddHotspot cur (Some AddingHotspot) textField proposal target
                             p y ed = Rejected).
Proof.
  destruct (generateSceneBasedHotspotId_total t (tourConfig ed))
    as (m & Hgen & _ & Hfree & _).
  exists (candidateId t m). split; [exact Hgen|]. split.
  { intros Hin. apply isHotspotIdInUse_In in Hin. congruence. }
  pose proof (candidateId_not_blank t m) as Hink.
  pose proof (candidateId_pattern t m) as Hpat.
  assert (Hval : isValid (validateHotspotId (candidateId t m) cur (-1)
                                            (tourConfig ed))
                 = forallb is_id_char (list_ascii_of_string t)).
  { unfold validateHotspotId. rewrite Hink, Hpat.
    destruct (forallb is_id_char (list_ascii_of_string t)); [|reflexivity].
    cbn [negb].
    pose proof (dup_free_iff_unused (candidateId t m) cur (tourConfig ed))
      as Hdup.
    rewrite Hfree in Hdup.
    now destruct (dup_in_scenes (candidateId t m) cur (-1)
                                (scenes (tourConfig ed))). }
  apply String.eqb_neq in Hcur, Htarget.
  assert (Htrim : trim (candidateId t m) = candidateId t m)
    by apply trim_candidateId.
  split; intros Hplain; rewrite Hplain in *.
  - assert (Hne : (candidateId t m =? "") = false) by reflexivity.
    unfold confirmAddHotspot. rewrite Hcur, Htarget, Htrim, Hval, Hne, Hex.
    cbn [negb].
    destruct (obj_get target (scenes (tourConfig ed)));
      eexists; (split; [reflexivity|]); split; reflexivity.
  - split; [unfold validateHotspotId; now rewrite Hink, Hpat|].
    unfold confirmAddHotspot. now rewrite Hcur, Htarget, Htrim, Hval.
Qed.

Lemma proposed_id_accepted_iff_plain_scene_id_witness :
  exists proposal ed',
    generateSceneBasedHotspotId "B" doc_AB = Some proposal
    /\ confirmAddHotspot "A" (Some AddingHotspot) "" proposal "B" 0 0
                         {| tourConfig := doc_AB; hotspotCounter := 0 |}
       = Completed ed'
    /\ hotspot_ids (tourConfig ed') = [Some proposal]
    /\ hotspotCounter ed' = 0%N.
Proof.
  assert (Hcur : "A" <> "") by discriminate.
  assert (Htarget : "B" <> "") by discriminate.
  assert (Hex : obj_get "A" (scenes doc_AB) = Some (newScene "./A/" 4 4096))
    by reflexivity.
  destruct (proposed_id_accepted_iff_plain_scene_id
              {| tourConfig := doc_AB; hotspotCounter := 0 |}
              "A" "B" "" "B" 0 0 _ Hcur Htarget Hex)
    as (proposal & Hgen & _ & Hok & _).
  destruct (Hok eq_refl) as (x & Hrun & Hid & _).
  exists proposal. eexists. split; [exact Hgen|]. split; [exact Hrun|].
  split; [|reflexivity].
  unfold hotspot_ids, ids_of. simpl. now rewrite Hid.
Defined.

(** ** Every scene stays listed *)

Lemma reorderScenes_listed (newOrder : list string) (cfg : TourConfig) :
  scenes_listed (reorderScenes newOrder cfg).
Proof.
  split; [apply reorderScenes_keys_NoDup|]. intros k Hk.
  apply obj_has_In in Hk. unfold obj_has in Hk.
  rewrite reorderScenes_get in Hk. cbn [sceneOrder reorderScenes].
  destruct (existsb (fun id => id =? k) newOrder) eqn:Hin; [|discriminate].
  now apply existsb_eqb_In.
Qed.

Lemma listed_same_keys (cfg cfg' : TourConfig) :
  obj_keys (scenes cfg') = obj_keys (scenes cfg) ->
  sceneOrder cfg' = sceneOrder cfg ->
  scenes_listed cfg -> scenes_listed cfg'.
Proof. unfold scenes_listed. intros -> ->. auto. Qed.

Lemma addNewScene_listed (i p : string) (ml cr : float)
      (cfg cfg' : TourConfig) :
  scenes_listed cfg -> addNewScene i p ml cr cfg = Completed cfg' ->
  scenes_listed cfg'.
Proof.
  intros [Hnd Hall]. unfold addNewScene.
  destruct ((trim i =? "") || (trim p =? "")); [discriminate|].
  unfold obj_truthy in *.
  destruct (obj_has (trim i) (scenes cfg)) eqn:Hhas; [discriminate|].
  destruct (inherited (trim i)) eqn:Hown; [discriminate|].
  intros [= <-]. split; cbn [scenes sceneOrder].
  - now apply obj_keys_set_NoDup.
  - intros k Hk. apply obj_keys_set_In in Hk. apply in_or_app.
    destruct Hk as [->|Hk]; [right; now left | left; auto].
Qed.

Lemma array_set_In {A} (l1 l2 : list A) (x y z : A) :
  In z (l1 ++ x :: l2) -> z <> x -> In z (l1 ++ y :: l2).
Proof.
  intros Hin Hne. apply in_app_or in Hin. apply in_or_app.
  destruct Hin as [Hin|[Heq|Hin]]; [now left | congruence | right; now right].
Qed.

Lemma renameScene_listed (old new : string) (c : bool)
      (cfg cfg' : TourConfig) :
  scenes_listed cfg -> renameScene old new c cfg = (true, cfg') ->
  scenes_listed cfg'.
Proof.
  intros [Hnd Hall] Hrun.
  destruct (String.eqb_spec old new) as [->|Hne].
  - apply renameScene_same_id in Hrun. subst cfg'. now split.
  - destruct (renameScene_true_inv _ _ _ _ _ Hrun Hne)
      as (Hpat & -> & Hfresh & Hown).
    rewrite (renameScene_run old new cfg Hpat Hne Hfresh Hown) in Hrun.
    injection Hrun as <-.
    pose proof (renamed_keys_NoDup old new (scenes cfg) Hnd Hfresh) as Hnd'.
    assert (Hperm : Permutation
                      (obj_keys (rename_key old new (scenes cfg)))
                      (map (renamed old new) (obj_keys (scenes cfg)))).
    { unfold rename_key.
      eapply Permutation_trans;
        [apply obj_keys_perm, rename_key_perm;
         [assumption | intros ? _ []]|].
      simpl. unfold obj_keys. rewrite !map_map. apply Permutation_refl. }
    split; cbn [scenes sceneOrder]; rewrite obj_keys_map.
    + eapply Permutation_NoDup; [apply Permutation_sym, Hperm|].
      unfold obj_keys in Hnd' |- *. rewrite map_map in Hnd' |- *. exact Hnd'.
    + intros k Hk. apply (Permutation_in _ Hperm) in Hk.
      apply in_map_iff in Hk as (k0 & <- & Hk0). unfold renamed.
      pose proof (Hall k0 Hk0) as Hin0.
      destruct (String.eqb_spec k0 old) as [->|Hk0ne].
      * destruct (indexOf old (sceneOrder cfg)) as [n|] eqn:Hidx;
          [|apply indexOf_None in Hidx; contradiction].
        apply indexOf_Some in Hidx as (l1 & l2 & Heq & _ & <-).
        rewrite Heq, array_set_app. apply in_or_app. right. now left.
      * destruct (indexOf old (sceneOrder cfg)) as [n|] eqn:Hidx;
          [|assumption].
        apply indexOf_Some in Hidx as (l1 & l2 & Heq & _ & <-).
        rewrite Heq, array_set_app. rewrite Heq in Hin0.
        now apply (array_set_In l1 l2 old new k0).
Qed.

Lemma deleteCurrentScene_listed (X : string) (c : bool)
      (cfg cfg' : TourConfig) :
  scenes_listed cfg -> deleteCurrentScene X c cfg = Completed cfg' ->
  scenes_listed cfg'.
Proof.
  intros [Hnd Hall]. unfold deleteCurrentScene.
  destruct (X =? ""); [discriminate|]. destruct c; [|discriminate].
  intros [= <-]. unfold scenes_listed. cbn [negb scenes sceneOrder].
  rewrite obj_keys_map, obj_keys_delete. split.
  - now apply NoDup_filter.
  - intros k Hk. apply filter_In in Hk as [Hk Hne].
    apply negb_true_iff, String.eqb_neq in Hne.
    pose proof (Hall k Hk) as Hin.
    destruct (indexOf X (sceneOrder cfg)) as [n|] eqn:Hidx; [|assumption].
    apply indexOf_Some in Hidx as (l1 & l2 & Heq & _ & <-).
    rewrite Heq, splice_remove_app. rewrite Heq in Hin.
    apply in_app_or in Hin. apply in_or_app.
    destruct Hin as [Hin|[Heq'|Hin]]; [now left | congruence | now right].
Qed.

Lemma confirmAddHotspot_keys (ed ed' : Editor) (cur t i tg : string)
      (pending : option PendingHotspot) (p y : float) :
  confirmAddHotspot cur pending t i tg p y ed = Completed ed' ->
  obj_keys (scenes (tourConfig ed')) = obj_keys (scenes (tourConfig ed))
  /\ sceneOrder (tourConfig ed') = sceneOrder (tourConfig ed).
Proof.
  unfold confirmAddHotspot. destruct pending as [pending|]; [|discriminate].
  destruct (cur =? ""); [discriminate|].
  destruct (tg =? ""); [discriminate|].
  destruct (negb (isValid (validateHotspotId (trim i) cur
                             match pending with
                             | AddingHotspot => (-1)%Z
                             | EditingHotspot editIndex => Z.of_nat editIndex
                             end (tourConfig ed)))); [discriminate|].
  destruct (trim i =? "");
    destruct (obj_get tg (scenes (tourConfig ed)));
    destruct (obj_get cur (scenes (tourConfig ed))); try discriminate;
    destruct pending as [|e];
    try destruct (nth_error (hotSpots s0) e);
    try destruct (nth_error (hotSpots s) e);
    try discriminate; intros [= <-]; cbn [tourConfig scenes set_scenes
                                          sceneOrder];
    (split; [apply obj_keys_replace | reflexivity]).
Qed.

Lemma editCurrentScene_listed
      (cur idField pathField : string) (h p y ml cr : float) (c : bool)
      (cfg cfg' : TourConfig) (cur' : string) :
  scenes_listed cfg ->
  editCurrentScene cur idField pathField h p y ml cr c cfg
  = Completed (cfg', cur') ->
  scenes_listed cfg'.
Proof.
  intros Hl. unfold editCurrentScene.
  destruct (cur =? ""); [discriminate|].
  destruct ((trim idField =? "") || (trim pathField =? "")); [discriminate|].
  assert (Hwrite : forall cfg1 cur1 scene1,
             scenes_listed cfg1 ->
             scenes_listed
               (fst (updateHotspotReferences cur1
                       {| u_targetPitch := Some p; u_targetYaw := Some y;
                          u_targetHfov := Some h |}
                       (set_scenes
                          (obj_replace cur1
                             (edited_scene (trim pathField) h p y ml cr scene1)
                             (scenes cfg1)) cfg1)))).
  { intros cfg1 cur1 scene1 Hl1. rewrite updateHotspotReferences_spec.
    cbn [fst]. apply (listed_same_keys cfg1); [|reflexivity | assumption].
    cbn [scenes set_scenes]. now rewrite obj_keys_map, obj_keys_replace. }
  destruct (negb (trim idField =? cur)).
  - destruct (renameScene cur (trim idField) c cfg) as [ok cfg1] eqn:Hrun.
    destruct ok; [|discriminate]. cbn [negb].
    destruct (obj_get _ (scenes cfg1)); [|discriminate].
    intros [= <- _]. apply Hwrite. eapply renameScene_listed; eauto.
  - cbn [negb]. destruct (obj_get cur (scenes cfg)); [|discriminate].
    intros [= <- _]. now apply Hwrite.
Qed.

(** X18: whatever is imported and whatever the user does afterwards, every
    scene of the document stays listed in [sceneOrder]: the import
    establishes this for every file (scenes that the file's [sceneOrder]
    does not name are dropped), and every operation that completes keeps
    it, the add of a hotspot with a blank id and a [reorderScenes] with an
    arbitrary list included. *)
Theorem scenes_stay_listed :
  (forall imported, scenes_listed (tourConfig (importConfiguration imported)))
  /\ (forall op ed ed',
         scenes_listed (tourConfig ed) -> exec op ed = Some ed' ->
         scenes_listed (tourConfig ed'))
  /\ (forall cur idField pathField h p y ml cr c cfg cfg' cur',
         scenes_listed cfg ->
         editCurrentScene cur idField pathField h p y ml cr c cfg
         = Completed (cfg', cur') ->
         scenes_listed cfg')
  /\ scenes_listed initialConfig.
Proof.
  split; [|split; [|split]].
  - intros imported. unfold importConfiguration. cbn [tourConfig].
    apply reorderScenes_listed.
  - intros op ed ed' Hl. destruct op; unfold exec, with_config, completed.
    + destruct (addNewScene idField pathField maxLevel' cubeResolution'
                            (tourConfig ed)) eqn:Hrun; try discriminate.
      intros [= <-]. eapply addNewScene_listed; eauto.
    + destruct (renameScene oldSceneId newSceneId confirmed (tourConfig ed))
        as [ok cfg'] eqn:Hrun.
      destruct ok; [|discriminate]. intros [= <-].
      eapply renameScene_listed; eauto.
    + destruct (deleteCurrentScene currentScene confirmed (tourConfig ed))
        eqn:Hrun; try discriminate.
      intros [= <-]. eapply deleteCurrentScene_listed; eauto.
    + destruct (confirmAddHotspot currentScene (Some AddingHotspot) textField
                  idField targetScene hotspotPitch hotspotYaw ed) eqn:Hrun;
        try discriminate.
      intros [= <-]. destruct (confirmAddHotspot_keys _ _ _ _ _ _ _ _ _ Hrun).
      now apply (listed_same_keys (tourConfig ed)).
    + destruct (confirmAddHotspot currentScene (Some (EditingHotspot editIndex))
                  textField idField targetScene hotspotPitch hotspotYaw ed)
        eqn:Hrun; try discriminate.
      intros [= <-]. destruct (confirmAddHotspot_keys _ _ _ _ _ _ _ _ _ Hrun).
      now apply (listed_same_keys (tourConfig ed)).
    + unfold deleteHotspot. destruct (currentScene =? ""); [discriminate|].
      destruct (obj_get currentScene (scenes (tourConfig ed))); [|discriminate].
      destruct ((0 <=? index)%Z && (index <? Z.of_nat (length (hotSpots s)))%Z);
        [|discriminate].
      intros [= <-]. apply (listed_same_keys (tourConfig ed));
        [apply obj_keys_replace | reflexivity | assumption].
    + unfold handleHotspotDrop.
      destruct (targetIndex =? dragged)%nat; [discriminate|].
      destruct (obj_get currentScene (scenes (tourConfig ed))); [|discriminate].
      destruct (nth_error (hotSpots s) dragged); [|discriminate].
      intros [= <-]. apply (listed_same_keys (tourConfig ed));
        [apply obj_keys_replace | reflexivity | assumption].
    + intros [= <-]. apply reorderScenes_listed.
    + unfold moveScene.
      destruct (indexOf sceneId' (sceneOrder (tourConfig ed))); [|discriminate].
      intros [= <-]. apply reorderScenes_listed.
    + unfold handleDrop.
      destruct ((draggedSceneId =? "") || (targetSceneId =? "")
                || (draggedSceneId =? targetSceneId)); [discriminate|].
      destruct (indexOf draggedSceneId (sceneOrder (tourConfig ed)));
        [|discriminate].
      destruct (indexOf targetSceneId (sceneOrder (tourConfig ed)));
        [|discriminate].
      intros [= <-]. apply reorderScenes_listed.
    + unfold updateSceneWithCapturedView.
      destruct (currentScene =? ""); [discriminate|].
      destruct (obj_get currentScene (scenes (tourConfig ed))); [|discriminate].
      rewrite updateHotspotReferences_spec. cbn [option_map fst].
      intros [= <-]. apply (listed_same_keys (tourConfig ed));
        [|reflexivity | assumption].
      cbn [tourConfig scenes set_scenes].
      now rewrite obj_keys_map, obj_keys_replace.
  - intros. eapply editCurrentScene_listed; eauto.
  - split; [constructor | intros k []].
Qed.



(** ** Renaming back *)

Lemma renamed_back (a b k : string) :
  k <> b -> renamed b a (renamed a b k) = k.
Proof.
  intros Hk. unfold renamed. destruct (String.eqb_spec k a) as [->|Hka].
  - now rewrite String.eqb_refl.
  - apply String.eqb_neq in Hk. now rewrite Hk.
Qed.

Lemma retarget_back (a b : string) (x : Hotspot) :
  sceneId x <> b -> retarget b a (retarget a b x) = x.
Proof.
  intros Hx. unfold retarget.
  destruct (String.eqb_spec (sceneId x) a) as [Ha|Ha].
  - cbn [sceneId set_sceneId]. rewrite String.eqb_refl.
    destruct x. cbn in *. now subst.
  - apply String.eqb_neq in Hx. now rewrite Hx.
Qed.

Lemma rename_key_plain (old new : string) (o : obj Scene) :
  NoDup (obj_keys o) -> ~ In new (obj_keys o) ->
  (forall k, In k (new :: obj_keys o) -> arrayIndex k = None) ->
  rename_key old new o = map (rename_entry old new) o.
Proof.
  intros Hnd Hfresh Hstr. unfold rename_key.
  rewrite rename_key_fold_keys; [reflexivity | now apply renamed_keys_NoDup|].
  intros k' Hin. split; [intros []|]. apply Hstr.
  unfold obj_keys in Hin. rewrite map_map in Hin.
  apply in_map_iff in Hin as ([k1 v1] & <- & Hin). simpl. unfold renamed.
  destruct (k1 =? old); [now left|]. right.
  change k1 with (fst (k1, v1)). now apply in_map.
Qed.

(** X20: a rename can be taken back: in a document that satisfies the four
    invariants, whose scene ids are not integer-like and in which no scene
    is filed under "__proto__" (as in every scene map the editor
    builds), renaming scene
    [a] to a free, well-formed id [b] that is not the name of a property
    inherited from [Object.prototype], and then renaming [b] to [a], gives
    back exactly the document before the first rename, provided [a] itself
    is well formed and not such a name; a scene whose id [a] has a
    character outside [[a-zA-Z0-9_-]] (as [addNewScene] accepts it) or is
    such a name (as an imported file may have it) can be renamed away, but
    the rename back to [a] is refused. *)
Theorem renameScene_back_restores
        (cfg : TourConfig) (a b : string)
        (Hinv : invariants cfg)
        (Ha : In a (obj_keys (scenes cfg)))
        (Hpb : id_pattern b = true)
        (Hfresh : ~ In b (obj_keys (scenes cfg)))
        (Hown : inherited b = false)
        (Hproto : no_proto_key (scenes cfg))
        (Hstr : forall k, In k (b :: obj_keys (scenes cfg)) ->
                          arrayIndex k = None) :
  let back := id_pattern a && negb (inherited a) in
  exists cfg1,
    renameScene a b true cfg = (true, cfg1)
    /\ a <> b
    /\ renameScene b a true cfg1 = (back, if back then cfg else cfg1).
Proof.
  cbv zeta.
  assert (Hne : a <> b) by (intros ->; contradiction).
  destruct Hinv as (Hnd & _ & Hlinks & Horder & Hfirst).
  eexists. split; [now apply renameScene_run|]. split; [exact Hne|].
  set (cfg1 := {| firstScene := renamed a b (firstScene cfg);
                  sceneOrder := _; sceneFadeDuration := _; autoLoad := _;
                  scenes := _ |}).
  destruct (id_pattern a) eqn:Hpa.
  2:{ unfold renameScene. rewrite Hpa.
      now destruct ((a =? "") || (trim a =? "")). }
  destruct (inherited a) eqn:Hia; cbn [andb negb].
  { unfold renameScene, obj_truthy.
    rewrite (id_pattern_not_blank a Hpa), Hpa, Hia, orb_true_r. cbn [negb].
    apply not_eq_sym in Hne. apply String.eqb_neq in Hne. now rewrite Hne. }
  assert (Hplain : scenes cfg1
                   = obj_map (fun _ sc =>
                                set_hotSpots (map (retarget a b) (hotSpots sc)) sc)
                             (map (rename_entry a b) (scenes cfg))).
  { unfold cfg1. cbn [scenes]. now rewrite rename_key_plain. }
  assert (Hkeys1 : obj_keys (scenes cfg1)
                   = map (renamed a b) (obj_keys (scenes cfg))).
  { rewrite Hplain, obj_keys_map. unfold obj_keys. now rewrite !map_map. }
  assert (Hfresh1 : ~ In a (obj_keys (scenes cfg1))).
  { rewrite Hkeys1. intros Hin. apply in_map_iff in Hin as (k & Hk & _).
    unfold renamed in Hk. destruct (String.eqb_spec k a); congruence. }
  assert (Hnd1 : NoDup (obj_keys (scenes cfg1))).
  { rewrite Hkeys1. pose proof (renamed_keys_NoDup a b _ Hnd Hfresh) as H.
    unfold obj_keys in H |- *. rewrite map_map in H |- *. exact H. }
  assert (Hstr1 : forall k, In k (a :: obj_keys (scenes cfg1)) ->
                            arrayIndex k = None).
  { intros k [<-|Hk]; [apply Hstr; now right|]. rewrite Hkeys1 in Hk.
    apply in_map_iff in Hk as (k0 & <- & Hk0). unfold renamed.
    destruct (k0 =? a); apply Hstr; [now left | now right]. }
  rewrite (renameScene_run b a cfg1 Hpa (not_eq_sym Hne) Hfresh1 Hia).
  f_equal. rewrite (rename_key_plain b a _ Hnd1 Hfresh1 Hstr1), Hplain.
  assert (Hscenes :
            obj_map (fun _ sc => set_hotSpots (map (retarget b a) (hotSpots sc)) sc)
              (map (rename_entry b a)
                 (obj_map (fun _ sc =>
                             set_hotSpots (map (retarget a b) (hotSpots sc)) sc)
                          (map (rename_entry a b) (scenes cfg))))
            = scenes cfg).
  { unfold obj_map. rewrite !map_map. rewrite <- (map_id (scenes cfg)) at 2.
    apply map_ext_in. intros [k sc] Hin. cbn [fst snd rename_entry].
    f_equal.
    - apply renamed_back. intros ->. apply Hfresh. now apply (In_entry_key b sc).
    - cbn [hotSpots set_hotSpots]. rewrite map_map.
      replace (map (fun x => retarget b a (retarget a b x)) (hotSpots sc))
        with (hotSpots sc); [now destruct sc|].
      rewrite <- (map_id (hotSpots sc)) at 1. apply map_ext_in.
      intros x Hx. symmetry. apply retarget_back. intros Heq.
      apply Hfresh. rewrite <- Heq. now apply (Hlinks k sc x). }
  rewrite Hscenes.
  assert (Hfirst' : renamed b a (renamed a b (firstScene cfg)) = firstScene cfg).
  { apply renamed_back. intros Heq. destruct Hfirst as [Hf|Hf].
    - rewrite Hf in Heq. subst b. discriminate.
    - apply Hfresh. now rewrite <- Heq. }
  assert (Horder' :
            match indexOf b (sceneOrder cfg1) with
            | Some orderIndex => array_set orderIndex a (sceneOrder cfg1)
            | None => sceneOrder cfg1
            end = sceneOrder cfg).
  { assert (Hina : In a (sceneOrder cfg))
      by (eapply Permutation_in; [apply Permutation_sym, Horder | exact Ha]).
    assert (Hnotb : ~ In b (sceneOrder cfg))
      by (intros Hin; apply Hfresh; eapply Permutation_in; eauto).
    unfold cfg1. cbn [sceneOrder].
    destruct (indexOf a (sceneOrder cfg)) as [n|] eqn:Hidx;
      [|apply indexOf_None in Hidx; contradiction].
    apply indexOf_Some in Hidx as (l1 & l2 & Heq & Hl1 & <-).
    rewrite Heq, array_set_app.
    rewrite indexOf_first, array_set_app; [reflexivity|].
    intros Hin. apply Hnotb. rewrite Heq. apply in_or_app. now left. }
  rewrite Horder'. unfold cfg1 at 1. cbn [firstScene]. rewrite Hfirst'.
  unfold cfg1. cbn [sceneFadeDuration autoLoad]. now destruct cfg.
Qed.

Lemma renameScene_back_restores_witness :
  exists cfg1,
    renameScene "A" "Alpha" true doc_linked = (true, cfg1)
    /\ obj_keys (scenes cfg1) = ["Alpha"; "B"]
    /\ renameScene "Alpha" "A" true cfg1 = (true, doc_linked).
Proof.
  assert (Hinv : invariants doc_linked).
  { unfold invariants, ids_unique, links_sound, order_sound, first_sound.
    simpl. split; [repeat constructor; simpl; intuition discriminate|].
    split; [repeat constructor; simpl; intuition discriminate|]. split.
    - intros k sc x [[= <- <-]|[[= <- <-]|[]]] [<-|[]]; simpl;
        split; try tauto; discriminate.
    - split; [reflexivity | right; now left]. }
  assert (Ha : In "A" (obj_keys (scenes doc_linked))) by (simpl; tauto).
  assert (Hfresh : ~ In "Alpha" (obj_keys (scenes doc_linked)))
    by (simpl; intuition discriminate).
  assert (Hstr : forall k, In k ("Alpha" :: obj_keys (scenes doc_linked)) ->
                           arrayIndex k = None).
  { intros k [<-|[<-|[<-|[]]]]; reflexivity. }
  assert (Hproto : no_proto_key (scenes doc_linked)).
  { intros [H|[H|[]]]; discriminate. }
  destruct (renameScene_back_restores doc_linked "A" "Alpha" Hinv Ha eq_refl
              Hfresh eq_refl Hproto Hstr) as (cfg1 & Hrun & _ & Hback).
  exists cfg1. split; [exact Hrun|]. split; [|exact Hback].
  simpl in Hrun. now injection Hrun as <-.
Defined.

(** ** Generated ids after an import *)

Lemma all_hotspots_app (o1 o2 : obj Scene) :
  all_hotspots (o1 ++ o2) = all_hotspots o1 ++ all_hotspots o2.
Proof.
  unfold all_hotspots, obj_values. now rewrite map_app, flat_map_app.
Qed.

Lemma all_hotspots_In (h : Hotspot) (o : obj Scene) :
  In h (all_hotspots o) <-> exists k sc, In (k, sc) o /\ In h (hotSpots sc).
Proof.
  unfold all_hotspots, obj_values. rewrite in_flat_map. split.
  - intros (sc & Hsc & Hh). apply in_map_iff in Hsc as ([k sc'] & <- & Hin).
    now exists k, sc'.
  - intros (k & sc & Hin & Hh). exists sc. split; [|exact Hh].
    change sc with (snd (k, sc)). now apply in_map.
Qed.

Lemma reorderScenes_hotspots (newOrder : list string) (cfg : TourConfig)
      (h : Hotspot) :
  In h (all_hotspots (scenes (reorderScenes newOrder cfg))) ->
  In h (all_hotspots (scenes cfg)).
Proof.
  rewrite !all_hotspots_In. intros (k & sc & Hin & Hh). exists k, sc.
  split; [|exact Hh]. apply obj_get_In.
  pose proof (obj_get_NoDup k _ sc (reorderScenes_keys_NoDup newOrder cfg) Hin)
    as Hget.
  rewrite reorderScenes_get in Hget.
  now destruct (existsb (fun id => id =? k) newOrder).
Qed.

Lemma ensureHotspotIds_counter_above (cfg : TourConfig) :
  counter_above (ensureHotspotIds cfg).
Proof.
  unfold counter_above, ensureHotspotIds.
  destruct (fix_scenes (scenes cfg) (Z.to_N (maxCounter (scenes cfg) + 1)))
    as [o' c'] eqn:Hfix.
  cbn [tourConfig hotspotCounter scenes set_scenes].
  intros h s z Hin Hid Hcounted Hnum.
  destruct (fix_scenes_scan _ _ _ _ 0%Z Hfix) as [Hle Hscan].
  pose proof (scan_fold_bound (all_hotspots o') 0%Z h s z Hin Hid Hcounted Hnum)
    as Hbound.
  rewrite Hscan in Hbound. rewrite maxCounter_flat in *.
  pose proof (scan_fold_ge (all_hotspots (scenes cfg)) 0%Z) as Hpos.
  destruct (N.eqb_spec c' (Z.to_N (fold_left scan_counter
                                     (all_hotspots (scenes cfg)) 0%Z + 1)));
    lia.
Qed.

(** X21: the ids that [confirmAddHotspot] generates for a blank id field
    are fresh as long as the global counter is above every number that
    the ids of the document end in and is a safe integer (below 2^53,
    where the code counts without rounding).  The import leaves the
    counter above every such number, for every file whose numbers are
    exact (the largest number read off an id, plus one per hotspot
    without id, is a safe integer); a fresh editor is in such a state;
    and an add with a blank id field keeps the counter above.  So after
    an import, hotspots added with the id field left blank get ids that
    no hotspot of the document carries. *)
Theorem fallback_ids_fresh_after_import :
  (forall imported, import_exact imported ->
                    counter_above (importConfiguration imported))
  /\ counter_above initialEditor /\ counter_exact initialEditor
  /\ (forall ed cur scene textField idField target p y,
         counter_above ed -> counter_exact ed ->
         cur <> "" -> target <> "" -> trim idField = "" ->
         obj_get cur (scenes (tourConfig ed)) = Some scene ->
         exists ed' x,
           confirmAddHotspot cur (Some AddingHotspot) textField idField target
                             p y ed = Completed ed'
           /\ obj_get cur (scenes (tourConfig ed'))
              = Some (set_hotSpots (hotSpots scene ++ [x]) scene)
           /\ hs_id x = Some (fallbackId cur (hotspotCounter ed))
           /\ ~ In (Some (fallbackId cur (hotspotCounter ed)))
                   (hotspot_ids (tourConfig ed))
           /\ counter_above ed').
Proof.
  split; [|split; [|split]].
  - intros imported _. unfold importConfiguration.
    set (cfg0 := {| firstScene := _; sceneOrder := _; sceneFadeDuration := _;
                    autoLoad := _; scenes := _ |}).
    pose proof (ensureHotspotIds_counter_above cfg0) as Habove.
    intros h s z Hin. cbn [tourConfig hotspotCounter] in Hin |- *.
    apply reorderScenes_hotspots in Hin. now apply Habove.
  - intros h s z [].
  - unfold counter_exact. cbn. lia.
  - intros ed cur scene textField idField target p y Habove _ Hcur Htarget
           Hblank Hex.
    destruct (confirmAddHotspot_blank_id ed cur scene textField idField target
                p y Hcur Htarget Hblank Hex) as (x & Hrun & Hid & _).
    eexists. exists x. split; [exact Hrun|]. cbn [tourConfig scenes set_scenes].
    split; [now apply (obj_get_replaced cur scene)|]. split; [exact Hid|].
    assert (Hfresh : forall h, In h (all_hotspots (scenes (tourConfig ed))) ->
                               hs_id h <> Some (fallbackId cur (hotspotCounter ed))).
    { intros h Hin Heq.
      pose proof (suffix_number_fallbackId cur (hotspotCounter ed)) as Hnum.
      unfold suffix_number in Hnum.
      pose proof (Habove h _ _ Hin Heq (counted_fallbackId _ _) Hnum). lia. }
    split.
    + unfold hotspot_ids, ids_of. intros Hin.
      apply in_map_iff in Hin as (h & Hh & Hin). now apply (Hfresh h).
    + intros h s z Hin Hs Hcounted Hnum.
      cbn [tourConfig hotspotCounter scenes set_scenes] in Hin |- *.
      destruct (obj_get_split cur scene _ Hex) as (o1 & o2 & Heq & _ & Hrep).
      rewrite Hrep in Hin.
      rewrite all_hotspots_app, all_hotspots_cons in Hin.
      cbn [hotSpots set_hotSpots] in Hin.
      assert (Hcases : h = x \/ In h (all_hotspots (scenes (tourConfig ed)))).
      { rewrite Heq, all_hotspots_app, all_hotspots_cons.
        repeat (apply in_app_or in Hin; destruct Hin as [Hin|Hin]).
        - right. apply in_or_app. now left.
        - right. apply in_or_app. right. apply in_or_app. now left.
        - destruct Hin as [<-|[]]. now left.
        - right. apply in_or_app. right. apply in_or_app. now right. }
      destruct Hcases as [->|Hold].
      * rewrite Hid in Hs. injection Hs as <-.
        pose proof (suffix_number_fallbackId cur (hotspotCounter ed)) as Hn.
        unfold suffix_number in Hn. rewrite Hn in Hnum. injection Hnum as <-.
        lia.
      * pose proof (Habove h s z Hold Hs Hcounted Hnum). lia.
Qed.

(** ** Importing what an import produced *)

Lemma fix_hotspots_nothing (k : string) (hs : list Hotspot) :
  Forall (fun h => id_missing h = false) hs ->
  forall d, fix_hotspots k hs d = (hs, d).
Proof.
  induction 1 as [|h r Hh Hr IH]; intros d; simpl; [reflexivity|].
  unfold fixMissingHotspotId. now rewrite Hh, IH.
Qed.

Lemma fix_scenes_nothing (o : obj Scene) :
  Forall (fun h => id_missing h = false) (all_hotspots o) ->
  forall d, fix_scenes o d = (o, d).
Proof.
  induction o as [|[k sc] r IH]; intros Hall d; simpl; [reflexivity|].
  rewrite all_hotspots_cons in Hall. apply Forall_app in Hall as [Hsc Hr].
  rewrite (fix_hotspots_nothing k _ Hsc), (IH Hr). now destruct sc.
Qed.

Lemma import_again (cfgF : TourConfig) (c : N) :
  Forall (fun h => id_missing h = false) (all_hotspots (scenes cfgF)) ->
  counter_above {| tourConfig := cfgF; hotspotCounter := c |} ->
  (1 <= c)%N ->
  let cfg1 := reorderScenes (sceneOrder cfgF) cfgF in
  tourConfig (importConfiguration (file_of cfg1)) = cfg1
  /\ (hotspotCounter (importConfiguration (file_of cfg1)) <= c)%N.
Proof.
  intros Hall Habove0 Hseed. cbv zeta.
  remember (reorderScenes (sceneOrder cfgF) cfgF) as cfg1 eqn:Hcfg1.
  assert (Hsub : forall h, In h (all_hotspots (scenes cfg1)) ->
                           In h (all_hotspots (scenes cfgF))).
  { intros h Hin. rewrite Hcfg1 in Hin. now apply reorderScenes_hotspots in Hin. }
  assert (Hall1 : Forall (fun h => id_missing h = false)
                         (all_hotspots (scenes cfg1))).
  { apply Forall_forall. intros h Hin. rewrite Forall_forall in Hall. auto. }
  assert (Horder1 : sceneOrder cfg1 = sceneOrder cfgF) by now rewrite Hcfg1.
  unfold importConfiguration.
  assert (Horder : match imp_sceneOrder (file_of cfg1) with
                   | Some (x :: r) => x :: r
                   | _ => obj_keys (imp_scenes (file_of cfg1))
                   end = sceneOrder cfgF).
  { unfold file_of. cbn [imp_sceneOrder imp_scenes]. rewrite Horder1.
    destruct (sceneOrder cfgF) eqn:Ho; [|reflexivity].
    rewrite Hcfg1. cbn [scenes reorderScenes]. rewrite ?Ho. reflexivity. }
  rewrite Horder. unfold ensureHotspotIds.
  cbn [scenes imp_scenes file_of].
  rewrite (fix_scenes_nothing _ Hall1). cbn [tourConfig hotspotCounter].
  split.
  - unfold set_scenes. cbn [firstScene sceneOrder sceneFadeDuration autoLoad
                             scenes imp_firstScene imp_sceneFadeDuration
                             imp_autoLoad file_of].
    replace {| firstScene := firstScene cfg1; sceneOrder := sceneOrder cfgF;
               sceneFadeDuration := sceneFadeDuration cfg1;
               autoLoad := autoLoad cfg1; scenes := scenes cfg1 |}
      with cfg1 by (rewrite <- Horder1; now destruct cfg1).
    rewrite Hcfg1. apply reorderScenes_twice. auto.
  - rewrite maxCounter_flat.
    destruct (scan_fold_attained (all_hotspots (scenes cfg1)) 0%Z)
      as [Hzero|(h & s & Hin & Hs & Hcounted & Hnum)].
    + rewrite Hzero. simpl. lia.
    + pose proof (Habove0 h s _ (Hsub h Hin) Hs Hcounted Hnum) as Hlt.
      cbn [hotspotCounter] in Hlt.
      pose proof (scan_fold_ge (all_hotspots (scenes cfg1)) 0%Z). lia.
Qed.

(** X22: the normalization of the import is idempotent: importing a file
    whose content is a document that an import produced gives that
    document again (same scenes in the same order, same hotspots and ids,
    same [sceneOrder] and [firstScene]), and the global counter it leaves
    is not above the one the first import left. *)
Theorem importConfiguration_twice (imported : Imported) :
  let ed := importConfiguration imported in
  let ed2 := importConfiguration (file_of (tourConfig ed)) in
  tourConfig ed2 = tourConfig ed
  /\ (hotspotCounter ed2 <= hotspotCounter ed)%N.
Proof.
  cbv zeta. unfold importConfiguration at 2 3 5 6.
  set (cfg0 := {| firstScene := imp_firstScene imported; sceneOrder := _;
                  sceneFadeDuration := _; autoLoad := _; scenes := _ |}).
  pose proof (ensureHotspotIds_all_ids cfg0) as Hall.
  pose proof (ensureHotspotIds_counter_above cfg0) as Habove0.
  assert (Hseed : (1 <= hotspotCounter (ensureHotspotIds cfg0))%N).
  { unfold ensureHotspotIds.
    destruct (fix_scenes (scenes cfg0)
                (Z.to_N (maxCounter (scenes cfg0) + 1))) as [o' c'] eqn:Hfix.
    cbn [hotspotCounter].
    destruct (fix_scenes_scan _ _ _ _ 0%Z Hfix) as [Hle _].
    rewrite maxCounter_flat in Hle.
    pose proof (scan_fold_ge (all_hotspots (scenes cfg0)) 0%Z). lia. }
  destruct (ensureHotspotIds cfg0) as [cfgF c].
  cbn [tourConfig hotspotCounter] in *.
  exact (import_again cfgF c Hall Habove0 Hseed).
Qed.

(** ** The target drop-down and the proposed id *)

Lemma substring_all (s : string) : String.substring 0 (String.length s) s = s.
Proof. induction s as [|c r IH]; simpl; [reflexivity | now rewrite IH]. Qed.

Lemma forallb_rev {A} (p : A -> bool) (l : list A) :
  forallb p (rev l) = forallb p l.
Proof.
  induction l as [|x r IH]; simpl; [reflexivity|].
  rewrite forallb_app, IH. simpl. rewrite andb_true_r. apply andb_comm.
Qed.

Lemma three_digits_below_1000 (m : N) :
  (m < 1000)%N ->
  exists d1 d2 d3,
    padStart3 (toStringN m) = String d1 (String d2 (String d3 ""))
    /\ is_digit d1 = true /\ is_digit d2 = true /\ is_digit d3 = true.
Proof.
  intros Hm.
  assert (Hall : forallb
                   (fun n => match padStart3 (toStringN (N.of_nat n)) with
                             | String d1 (String d2 (String d3 "")) =>
                                 is_digit d1 && is_digit d2 && is_digit d3
                             | _ => false
                             end) (seq 0 1000) = true)
    by (vm_compute; reflexivity).
  rewrite forallb_forall in Hall.
  specialize (Hall (N.to_nat m)). rewrite N2Nat.id in Hall.
  assert (Hin : In (N.to_nat m) (seq 0 1000)) by (apply in_seq; lia).
  specialize (Hall Hin).
  destruct (padStart3 (toStringN m)) as [|d1 [|d2 [|d3 [|? ?]]]];
    try discriminate.
  apply andb_true_iff in Hall as [Hall H3].
  apply andb_true_iff in Hall as [H1 H2].
  now exists d1, d2, d3.
Qed.

Lemma generated_pattern_candidateId (t : string) (m : N) :
  (m < 1000)%N ->
  generated_pattern (candidateId t m)
  = negb (t =? "") && forallb is_word_char (list_ascii_of_string t).
Proof.
  intros Hm. destruct (three_digits_below_1000 m Hm)
    as (d1 & d2 & d3 & Hpad & H1 & H2 & H3).
  unfold generated_pattern, candidateId. rewrite Hpad.
  change ("hs_" ++ t ++ "_" ++ String d1 (String d2 (String d3 "")))%string
    with (String "h" (String "s" (String "_"
            (t ++ "_" ++ String d1 (String d2 (String d3 "")))))).
  set (rest := (t ++ "_" ++ String d1 (String d2 (String d3 "")))%string).
  assert (Hprefix : String.prefix "hs_" (String "h" (String "s" (String "_" rest)))
                    = true)
    by (rewrite !prefix_cons;
        repeat (destruct (ascii_dec _ _); [|congruence]);
        generalize rest; intros []; reflexivity).
  rewrite Hprefix. cbn [andb].
  assert (Hsub : String.substring 3
                   (String.length (String "h" (String "s" (String "_" rest))) - 3)
                   (String "h" (String "s" (String "_" rest))) = rest).
  { cbn [String.length]. replace (S (S (S (String.length rest))) - 3)%nat
      with (String.length rest) by lia.
    cbn [String.substring]. apply substring_all. }
  rewrite Hsub. unfold rest.
  rewrite list_ascii_append. cbn [append list_ascii_of_string].
  rewrite rev_app_distr. cbn [rev app].
  rewrite H1, H2, H3. cbn [andb].
  destruct t as [|c r]; [reflexivity|].
  cbn [String.eqb negb andb].
  destruct (rev (list_ascii_of_string (String c r))) as [|w0 w] eqn:Hrev.
  - apply (f_equal (@length ascii)) in Hrev. rewrite length_rev in Hrev.
    discriminate.
  - change (Ascii.eqb "_" "_") with true. cbn [andb].
    rewrite <- Hrev. apply forallb_rev.
Qed.

(** X23: the handler of the target drop-down recognises a proposed id by
    the pattern [hs_\w+_\d{3}], which is narrower than the ids the
    generator makes: while the document has fewer than 999 hotspots, a
    change of the target replaces the proposal made for a scene id of
    letters, digits and underscores by the proposal for the new target,
    but keeps the proposal made for a scene id with a hyphen (or another
    character outside [\w], or the empty id) as if the user had typed it.
    An id field that is blank gets the proposal; without a target nothing
    changes. *)
Theorem targetChanged_recognises_proposals
        (cfg : TourConfig) (t1 t2 textField : string)
        (Htarget : t2 <> "")
        (Hsmall : (hotspotCount cfg < 999)%nat) :
  exists id1 id2,
    generateSceneBasedHotspotId t1 cfg = Some id1
    /\ generateSceneBasedHotspotId t2 cfg = Some id2
    /\ option_map snd (targetChanged t2 textField id1 cfg)
       = Some (if negb (t1 =? "")
                  && forallb is_word_char (list_ascii_of_string t1)
               then id2 else id1)
    /\ option_map snd (targetChanged t2 textField "  " cfg) = Some id2
    /\ targetChanged "" textField id1 cfg = Some (textField, id1).
Proof.
  assert (Hgen : forall t, exists m,
             generateSceneBasedHotspotId t cfg = Some (candidateId t m)
             /\ (m < 1000)%N).
  { intros t. destruct (free_candidate t cfg 1) as (m & Hlo & Hhi & Hfree).
    destruct (generate_loop_least t cfg (S (hotspotCount cfg)) 1 m Hlo Hhi Hfree)
      as (m' & Hrun & _ & Hle & _).
    exists m'. split; [exact Hrun | lia]. }
  destruct (Hgen t1) as (m1 & Hg1 & Hm1). destruct (Hgen t2) as (m2 & Hg2 & _).
  exists (candidateId t1 m1), (candidateId t2 m2).
  split; [exact Hg1|]. split; [exact Hg2|].
  apply String.eqb_neq in Htarget. unfold targetChanged. rewrite Htarget.
  rewrite trim_candidateId, (generated_pattern_candidateId t1 m1 Hm1), Hg2.
  change (candidateId t1 m1 =? "") with false. cbn [orb].
  split; [|split; reflexivity].
  now destruct (negb (t1 =? "")
                && forallb is_word_char (list_ascii_of_string t1)).
Qed.

Lemma targetChanged_recognises_proposals_witness :
  option_map snd (targetChanged "B" "" "hs_A_001" doc_AB) = Some "hs_B_001"
  /\ option_map snd (targetChanged "B" "" "hs_my-scene_001" doc_AB)
     = Some "hs_my-scene_001"
  /\ generateSceneBasedHotspotId "my-scene" doc_AB = Some "hs_my-scene_001".
Proof.
  assert (Htarget : "B" <> "") by discriminate.
  assert (Hzero : hotspotCount doc_AB = 0%nat) by reflexivity.
  assert (Hsmall : (hotspotCount doc_AB < 999)%nat) by (rewrite Hzero; lia).
  destruct (targetChanged_recognises_proposals doc_AB "A" "B" "" Htarget Hsmall)
    as (id1 & id2 & Hg1 & Hg2 & Hch & _).
  destruct (targetChanged_recognises_proposals doc_AB "my-scene" "B" ""
              Htarget Hsmall) as (id3 & id4 & Hg3 & _ & Hch3 & _).
  assert (H1 : id1 = "hs_A_001") by (vm_compute in Hg1; congruence).
  assert (H2 : id2 = "hs_B_001") by (vm_compute in Hg2; congruence).
  assert (H3 : id3 = "hs_my-scene_001") by (vm_compute in Hg3; congruence).
  subst. split; [exact Hch|]. split; [exact Hch3 | exact Hg3].
Defined.

(** ** Scene operations and the hotspots' ids *)

Lemma renamed_scenes_ids (old new : string) (o : obj Scene) :
  NoDup (obj_keys o) -> ~ In new (obj_keys o) ->
  Permutation
    (ids_of (obj_map (fun _ sc =>
                        set_hotSpots (map (retarget old new) (hotSpots sc)) sc)
                     (rename_key old new o)))
    (ids_of o).
Proof.
  intros Hnd Hfresh.
  rewrite <- (entries_renamed_ids _ _ _ (rename_entries old new o)).
  apply ids_of_perm, obj_map_perm. unfold rename_key.
  apply (rename_key_perm old new o []);
    [now apply renamed_keys_NoDup | intros ? _ []].
Qed.

Lemma written_scenes_ids (cur : string) (sc' : Scene) (u : Updates)
      (o : obj Scene) :
  (forall sc, obj_get cur o = Some sc -> hotSpots sc' = hotSpots sc) ->
  ids_of (obj_map (fun _ sc => set_hotSpots (map (refreshed cur u) (hotSpots sc)) sc)
                  (obj_replace cur sc' o))
  = ids_of o.
Proof.
  intros Hsame. apply (entries_renamed_ids (fun k => k)).
  now apply capture_entries.
Qed.

(** X24: adding, renaming, moving and dropping a scene, capturing a view
    and editing a scene never add, remove or change a hotspot id: in a
    document that satisfies the four invariants the hotspot ids after such
    an operation are the ids before it (listed scene by scene, so up to
    the order of the scenes), and the global counter is untouched. *)
Theorem scene_operations_keep_hotspot_ids :
  (forall op ed ed',
      invariants (tourConfig ed) -> scene_operation op = true ->
      exec op ed = Some ed' ->
      Permutation (hotspot_ids (tourConfig ed')) (hotspot_ids (tourConfig ed))
      /\ hotspotCounter ed' = hotspotCounter ed)
  /\ (forall cur idField pathField h p y ml cr c cfg cfg' cur',
         invariants cfg ->
         editCurrentScene cur idField pathField h p y ml cr c cfg
         = Completed (cfg', cur') ->
         Permutation (hotspot_ids cfg') (hotspot_ids cfg)).
Proof.
  assert (Hrename : forall old new c cfg cfg',
             invariants cfg -> renameScene old new c cfg = (true, cfg') ->
             Permutation (hotspot_ids cfg') (hotspot_ids cfg)).
  { intros old new c cfg cfg' Hinv Hrun.
    destruct (String.eqb_spec old new) as [->|Hne].
    - apply renameScene_same_id in Hrun. subst cfg'.
      apply Permutation_refl.
    - destruct (renameScene_true_inv _ _ _ _ _ Hrun Hne)
      as (Hpat & -> & Hfresh & Hown).
      rewrite (renameScene_run old new cfg Hpat Hne Hfresh Hown) in Hrun.
      injection Hrun as <-. unfold hotspot_ids. cbn [scenes].
      apply renamed_scenes_ids; [apply Hinv | assumption]. }
  assert (Hreorder : forall newOrder cfg,
             invariants cfg -> Permutation newOrder (sceneOrder cfg) ->
             Permutation (hotspot_ids (reorderScenes newOrder cfg))
                         (hotspot_ids cfg)).
  { intros newOrder cfg Hinv Hperm. unfold hotspot_ids.
    apply ids_of_perm, reorderScenes_perm; [apply Hinv|].
    destruct Hinv as (_ & _ & _ & Hord & _).
    eapply Permutation_trans; eauto. }
  split.
  - intros op ed ed' Hinv Hop. destruct op; try discriminate;
      unfold exec, with_config, completed.
    + destruct (addNewScene idField pathField maxLevel' cubeResolution'
                            (tourConfig ed)) as [cfg'| |] eqn:Hrun;
        try discriminate.
      intros [= <-]. cbn [tourConfig hotspotCounter]. split; [|reflexivity].
      unfold addNewScene in Hrun.
      destruct ((trim idField =? "") || (trim pathField =? ""));
        [discriminate|].
      unfold obj_truthy in Hrun.
      destruct (obj_has (trim idField) (scenes (tourConfig ed))) eqn:Hhas;
        [discriminate|].
      destruct (inherited (trim idField)); [discriminate|].
      injection Hrun as <-. unfold hotspot_ids. cbn [scenes].
      eapply Permutation_trans;
        [apply ids_of_perm, (obj_set_fresh_perm _ _ _ Hhas)|].
      rewrite ids_of_cons. apply Permutation_refl.
    + destruct (renameScene oldSceneId newSceneId confirmed (tourConfig ed))
        as [ok cfg'] eqn:Hrun.
      destruct ok; [|discriminate]. intros [= <-].
      cbn [tourConfig hotspotCounter]. split; [|reflexivity].
      eapply Hrename; eauto.
    + destruct (moveScene sceneId' direction (tourConfig ed)) as [cfg'| |]
        eqn:Hrun; try discriminate.
      intros [= <-]. cbn [tourConfig hotspotCounter]. split; [|reflexivity].
      unfold moveScene in Hrun.
      destruct (indexOf sceneId' (sceneOrder (tourConfig ed))) as [i|];
        [|discriminate].
      injection Hrun as <-. apply Hreorder; [assumption|].
      destruct ((direction =? "up") && (0 <? i)%nat) eqn:Hup.
      * apply andb_true_iff in Hup as [_ Hc]. apply Nat.ltb_lt in Hc.
        replace i with (S (i - 1)) at 2 by lia. apply swap_adjacent_perm.
      * destruct ((direction =? "down")
                  && (i <? length (sceneOrder (tourConfig ed)) - 1)%nat).
        -- rewrite Nat.add_1_r. apply swap_adjacent_perm.
        -- reflexivity.
    + destruct (handleDrop draggedSceneId targetSceneId (tourConfig ed))
        as [cfg'| |] eqn:Hrun; try discriminate.
      intros [= <-]. cbn [tourConfig hotspotCounter]. split; [|reflexivity].
      unfold handleDrop in Hrun.
      destruct ((draggedSceneId =? "") || (targetSceneId =? "")
                || (draggedSceneId =? targetSceneId)); [discriminate|].
      destruct (indexOf draggedSceneId (sceneOrder (tourConfig ed)))
        as [di|] eqn:Hd; [|discriminate].
      destruct (indexOf targetSceneId (sceneOrder (tourConfig ed)));
        [|discriminate].
      injection Hrun as <-. apply Hreorder; [assumption|].
      apply indexOf_Some in Hd as (l1 & l2 & Heq & _ & <-).
      rewrite Heq, splice_remove_app.
      eapply Permutation_trans; [apply splice_insert_perm|].
      apply Permutation_middle.
    + unfold updateSceneWithCapturedView.
      destruct (currentScene =? ""); [discriminate|].
      destruct (obj_get currentScene (scenes (tourConfig ed))) eqn:Hget;
        [|discriminate].
      rewrite updateHotspotReferences_spec. cbn [option_map fst].
      intros [= <-]. cbn [tourConfig hotspotCounter]. split; [|reflexivity].
      unfold hotspot_ids. cbn [scenes set_scenes].
      rewrite written_scenes_ids; [apply Permutation_refl|].
      intros sc Hsc. simpl. congruence.
  - intros cur idField pathField h p y ml cr c cfg cfg' cur' Hinv.
    unfold editCurrentScene.
    destruct (cur =? ""); [discriminate|].
    destruct ((trim idField =? "") || (trim pathField =? "")); [discriminate|].
    assert (Hwrite : forall cfg1 cur1 scene1,
               obj_get cur1 (scenes cfg1) = Some scene1 ->
               hotspot_ids
                 (fst (updateHotspotReferences cur1
                         {| u_targetPitch := Some p; u_targetYaw := Some y;
                            u_targetHfov := Some h |}
                         (set_scenes
                            (obj_replace cur1
                               (edited_scene (trim pathField) h p y ml cr scene1)
                               (scenes cfg1)) cfg1)))
               = hotspot_ids cfg1).
    { intros cfg1 cur1 scene1 Hget1. rewrite updateHotspotReferences_spec.
      cbn [fst]. unfold hotspot_ids. cbn [scenes set_scenes].
      apply written_scenes_ids. intros sc Hsc. simpl. congruence. }
    destruct (negb (trim idField =? cur)).
    + destruct (renameScene cur (trim idField) c cfg) as [ok cfg1] eqn:Hrun.
      destruct ok; [|discriminate]. cbn [negb].
      destruct (obj_get _ (scenes cfg1)) eqn:Hget1; [|discriminate].
      intros [= <- _]. rewrite (Hwrite _ _ _ Hget1). eapply Hrename; eauto.
    + cbn [negb]. destruct (obj_get cur (scenes cfg)) eqn:Hget; [|discriminate].
      intros [= <- _]. rewrite (Hwrite _ _ _ Hget). apply Permutation_refl.
Qed.

(** ** Arrival views and scene cameras *)

Lemma synced_frame (cfg cfg' : TourConfig) :
  (forall x, In x (all_hotspots (scenes cfg')) ->
             In x (all_hotspots (scenes cfg))) ->
  (forall x t', In x (all_hotspots (scenes cfg')) ->
                obj_get (sceneId x) (scenes cfg') = Some t' ->
                exists t, obj_get (sceneId x) (scenes cfg) = Some t
                          /\ pitch t' = pitch t /\ yaw t' = yaw t
                          /\ hfov t' = hfov t) ->
  arrivals_synced cfg -> arrivals_synced cfg'.
Proof.
  intros Hsub Hget Hs x t' Hx Ht'.
  destruct (Hget x t' Hx Ht') as (t & Ht & -> & -> & ->).
  apply Hs; auto.
Qed.

Lemma plain_frame (cfg cfg' : TourConfig) :
  (forall s t', obj_get s (scenes cfg') = Some t' ->
                (exists t, obj_get s (scenes cfg) = Some t
                           /\ pitch t' = pitch t /\ yaw t' = yaw t
                           /\ hfov t' = hfov t)
                \/ camera_plain (pitch t') (yaw t') (hfov t')) ->
  cameras_plain cfg -> cameras_plain cfg'.
Proof.
  intros Hget Hp s t' Ht'.
  destruct (Hget s t' Ht') as [(t & Ht & -> & -> & ->)|Hplain];
    [eapply Hp; eauto | exact Hplain].
Qed.

Lemma all_hotspots_replace (cur : string) (scene : Scene)
      (hs' : list Hotspot) (o : obj Scene) (x : Hotspot) :
  obj_get cur o = Some scene ->
  In x (all_hotspots (obj_replace cur (set_hotSpots hs' scene) o)) ->
  In x hs' \/ In x (all_hotspots o).
Proof.
  intros Hget Hin.
  destruct (obj_get_split cur scene o Hget) as (o1 & o2 & Heq & _ & Hrep).
  rewrite Hrep in Hin. rewrite Heq.
  rewrite !all_hotspots_app, !all_hotspots_cons in *.
  cbn [hotSpots set_hotSpots] in Hin.
  apply in_app_or in Hin as [Hin|Hin];
    [right; apply in_or_app; now left|].
  apply in_app_or in Hin as [Hin|Hin]; [now left|].
  right. apply in_or_app. right. apply in_or_app. now right.
Qed.

Lemma own_hotspots_In (cur : string) (scene : Scene) (o : obj Scene)
      (x : Hotspot) :
  obj_get cur o = Some scene -> In x (hotSpots scene) -> In x (all_hotspots o).
Proof.
  intros Hget Hx. apply all_hotspots_In. exists cur, scene.
  split; [now apply obj_get_In | exact Hx].
Qed.

Lemma replaced_get_camera (cur s : string) (scene t' : Scene)
      (hs' : list Hotspot) (o : obj Scene) :
  obj_get cur o = Some scene ->
  obj_get s (obj_replace cur (set_hotSpots hs' scene) o) = Some t' ->
  exists t, obj_get s o = Some t
            /\ pitch t' = pitch t /\ yaw t' = yaw t /\ hfov t' = hfov t.
Proof.
  intros Hget. rewrite obj_get_replace.
  destruct (String.eqb_spec cur s) as [<-|Hne]; cbn [andb].
  - unfold obj_has. rewrite Hget. intros [= <-]. exists scene. now repeat split.
  - intros Hs. exists t'. now repeat split.
Qed.

Lemma replace_hotspots_arrivals (cfg : TourConfig) (cur : string)
      (scene : Scene) (hs' : list Hotspot) :
  obj_get cur (scenes cfg) = Some scene ->
  incl hs' (hotSpots scene) ->
  arrivals_synced cfg -> cameras_plain cfg ->
  let cfg' := set_scenes (obj_replace cur (set_hotSpots hs' scene) (scenes cfg))
                         cfg in
  arrivals_synced cfg' /\ cameras_plain cfg'.
Proof.
  intros Hget Hincl Hs Hp. cbv zeta. split.
  - apply (synced_frame cfg); [| |exact Hs]; cbn [scenes set_scenes].
    + intros x Hx.
      destruct (all_hotspots_replace _ _ _ _ _ Hget Hx) as [Hin|Hin];
        [|exact Hin].
      apply (own_hotspots_In cur scene); auto.
    + intros x t' _ Ht'. now apply (replaced_get_camera cur _ scene t' hs').
  - apply (plain_frame cfg); [|exact Hp]. cbn [scenes set_scenes].
    intros s t' Ht'. left. now apply (replaced_get_camera cur _ scene t' hs').
Qed.

Lemma incl_splice_remove {A} (i : nat) (l : list A) :
  incl (splice_remove i l) l.
Proof.
  intros x Hx. unfold splice_remove in Hx. apply in_app_or in Hx as [Hx|Hx].
  - rewrite <- (firstn_skipn i l). apply in_or_app. now left.
  - rewrite <- (firstn_skipn (S i) l). apply in_or_app. now right.
Qed.

Lemma reorderScenes_arrivals (newOrder : list string) (cfg : TourConfig) :
  arrivals_synced cfg -> cameras_plain cfg ->
  arrivals_synced (reorderScenes newOrder cfg)
  /\ cameras_plain (reorderScenes newOrder cfg).
Proof.
  intros Hs Hp.
  assert (Hget : forall s t',
             obj_get s (scenes (reorderScenes newOrder cfg)) = Some t' ->
             exists t, obj_get s (scenes cfg) = Some t
                       /\ pitch t' = pitch t /\ yaw t' = yaw t
                       /\ hfov t' = hfov t).
  { intros s t'. rewrite reorderScenes_get.
    destruct (existsb (fun id => id =? s) newOrder); [|discriminate].
    intros Ht. exists t'. now repeat split. }
  split.
  - apply (synced_frame cfg); [| |exact Hs].
    + intros x. apply reorderScenes_hotspots.
    + intros x t' _. apply Hget.
  - apply (plain_frame cfg); [|exact Hp]. intros s t' Ht'. left. now apply Hget.
Qed.

Lemma camera_plain_default : camera_plain 0 0 100.
Proof. repeat split. Qed.

Lemma addNewScene_arrivals (i p : string) (ml cr : float)
      (cfg cfg' : TourConfig) :
  invariants cfg -> arrivals_synced cfg -> cameras_plain cfg ->
  addNewScene i p ml cr cfg = Completed cfg' ->
  arrivals_synced cfg' /\ cameras_plain cfg'.
Proof.
  intros Hinv Hs Hp. unfold addNewScene.
  destruct ((trim i =? "") || (trim p =? "")); [discriminate|].
  unfold obj_truthy in *.
  destruct (obj_has (trim i) (scenes cfg)) eqn:Hhas; [discriminate|].
  destruct (inherited (trim i)) eqn:Hown; [discriminate|].
  intros [= <-].
  pose proof (obj_set_fresh_perm (trim i) (newScene (trim p) ml cr)
                                 (scenes cfg) Hhas) as Hperm.
  apply obj_has_false in Hhas.
  assert (Hsub : forall x,
             In x (all_hotspots (obj_set (trim i) (newScene (trim p) ml cr)
                                         (scenes cfg))) ->
             In x (all_hotspots (scenes cfg))).
  { intros x Hx. apply all_hotspots_In in Hx as (k & sc & Hin & Hx).
    apply (Permutation_in _ Hperm) in Hin. destruct Hin as [[= <- <-]|Hin].
    - destruct Hx.
    - apply all_hotspots_In. now exists k, sc. }
  split.
  - apply (synced_frame cfg); [exact Hsub| |exact Hs]. cbn [scenes].
    intros x t' Hx. rewrite obj_get_set.
    destruct (String.eqb_spec (trim i) (sceneId x)) as [Heq|Hne].
    + exfalso. apply Hsub in Hx.
      apply all_hotspots_In in Hx as (k & sc & Hin & Hx).
      destruct Hinv as (_ & _ & Hlinks & _).
      apply Hhas. rewrite Heq. now apply (Hlinks k sc x).
    + intros Ht. exists t'. now repeat split.
  - apply (plain_frame cfg); [|exact Hp]. cbn [scenes].
    intros s t'. rewrite obj_get_set.
    destruct (trim i =? s).
    + intros [= <-]. right. apply camera_plain_default.
    + intros Ht. left. exists t'. now repeat split.
Qed.

Lemma deleteCurrentScene_arrivals (X : string) (c : bool)
      (cfg cfg' : TourConfig) :
  arrivals_synced cfg -> cameras_plain cfg ->
  deleteCurrentScene X c cfg = Completed cfg' ->
  arrivals_synced cfg' /\ cameras_plain cfg'.
Proof.
  intros Hs Hp. unfold deleteCurrentScene.
  destruct (X =? ""); [discriminate|]. destruct c; [|discriminate].
  intros [= <-]. cbn [negb].
  assert (Hget : forall s t',
             obj_get s (obj_map (fun _ sc =>
                                   set_hotSpots (drop_links X (hotSpots sc)) sc)
                                (obj_delete X (scenes cfg))) = Some t' ->
             exists t, obj_get s (scenes cfg) = Some t
                       /\ pitch t' = pitch t /\ yaw t' = yaw t
                       /\ hfov t' = hfov t).
  { intros s t'. rewrite obj_get_map, obj_get_delete.
    destruct (X =? s); [discriminate|].
    destruct (obj_get s (scenes cfg)) as [t|]; [|discriminate].
    intros [= <-]. exists t. now repeat split. }
  split.
  - apply (synced_frame cfg); [| |exact Hs]; cbn [scenes].
    + intros x Hx. apply all_hotspots_In in Hx as (k & sc' & Hin & Hx).
      apply delete_entries_In in Hin as (_ & sc & Hin & Heq).
      rewrite Heq in Hx. unfold drop_links in Hx. apply filter_In in Hx as [Hx _].
      apply all_hotspots_In. now exists k, sc.
    + intros x t' _. apply Hget.
  - apply (plain_frame cfg); [|exact Hp]. cbn [scenes].
    intros s t' Ht'. left. now apply Hget.
Qed.

Lemma new_hotspot_arrivals (cfg : TourConfig) (cur : string) (scene : Scene)
      (hs' : list Hotspot) (x : Hotspot) :
  obj_get cur (scenes cfg) = Some scene ->
  (forall h, In h hs' -> h = x \/ In h (hotSpots scene)) ->
  (forall t, obj_get (sceneId x) (scenes cfg) = Some t ->
             targetPitch x = pitch t /\ targetYaw x = yaw t
             /\ targetHfov x = hfov t) ->
  arrivals_synced cfg -> cameras_plain cfg ->
  let cfg' := set_scenes (obj_replace cur (set_hotSpots hs' scene) (scenes cfg))
                         cfg in
  arrivals_synced cfg' /\ cameras_plain cfg'.
Proof.
  intros Hget Hhs Hx Hs Hp. cbv zeta. split.
  - intros h t' Hin Ht'. cbn [scenes set_scenes] in Hin, Ht'.
    destruct (replaced_get_camera cur _ scene t' hs' _ Hget Ht')
      as (t & Ht & -> & -> & ->).
    destruct (all_hotspots_replace _ _ _ _ _ Hget Hin) as [Hnew|Hold].
    + destruct (Hhs h Hnew) as [->|Hown]; [now apply Hx|].
      apply Hs; [|exact Ht]. now apply (own_hotspots_In cur scene).
    + now apply Hs.
  - apply (plain_frame cfg); [|exact Hp]. cbn [scenes set_scenes].
    intros s t' Ht'. left. now apply (replaced_get_camera cur _ scene t' hs').
Qed.

Lemma confirmAddHotspot_arrivals (ed ed' : Editor) (cur t i tg : string)
      (pending : option PendingHotspot) (p y : float) :
  arrivals_synced (tourConfig ed) -> cameras_plain (tourConfig ed) ->
  confirmAddHotspot cur pending t i tg p y ed = Completed ed' ->
  arrivals_synced (tourConfig ed') /\ cameras_plain (tourConfig ed').
Proof.
  intros Hs Hp. unfold confirmAddHotspot.
  destruct pending as [pending|]; [|discriminate].
  destruct (cur =? ""); [discriminate|].
  destruct (tg =? ""); [discriminate|].
  destruct (negb (isValid (validateHotspotId (trim i) cur
                             match pending with
                             | AddingHotspot => (-1)%Z
                             | EditingHotspot editIndex => Z.of_nat editIndex
                             end (tourConfig ed)))); [discriminate|].
  set (hid := if trim i =? "" then _ else _).
  destruct hid as [hotspotId counter'].
  set (cam := match obj_get tg (scenes (tourConfig ed)) with
              | Some targetSceneConfig => _
              | None => _
              end).
  assert (Hcam : forall tsc, obj_get tg (scenes (tourConfig ed)) = Some tsc ->
                             cam = (pitch tsc, yaw tsc, hfov tsc)).
  { intros tsc Htsc. unfold cam. rewrite Htsc.
    destruct (Hp tg tsc Htsc) as ((-> & -> & ->) & _). reflexivity. }
  destruct cam as [[tp ty] th].
  destruct (obj_get cur (scenes (tourConfig ed))) as [scene|] eqn:Hget;
    [|discriminate].
  assert (Hnew : forall txt tsc,
             obj_get
               (sceneId {| hs_pitch := p; hs_yaw := y; hs_type := "scene";
                           text := txt; sceneId := tg;
                           hs_id := Some hotspotId; targetPitch := tp;
                           targetYaw := ty; targetHfov := th |})
               (scenes (tourConfig ed)) = Some tsc ->
             tp = pitch tsc /\ ty = yaw tsc /\ th = hfov tsc).
  { intros txt tsc Htsc. cbn [sceneId] in Htsc.
    pose proof (Hcam tsc Htsc) as Heq. now injection Heq as -> -> ->. }
  destruct pending as [|editIndex].
  - intros [= <-]. cbn [tourConfig].
    eapply new_hotspot_arrivals; eauto.
    + intros h Hin. apply in_app_or in Hin as [Hin|[<-|[]]]; [now right|].
      left. reflexivity.
    + apply Hnew.
  - destruct (nth_error (hotSpots scene) editIndex) as [old|] eqn:Hat;
      [|discriminate].
    intros [= <-]. cbn [tourConfig].
    eapply new_hotspot_arrivals; eauto.
    + intros h Hin. unfold array_set in Hin.
      apply in_app_or in Hin as [Hin|[<-|Hin]].
      * right. rewrite <- (firstn_skipn editIndex (hotSpots scene)).
        apply in_or_app. now left.
      * left. reflexivity.
      * right. rewrite <- (firstn_skipn (S editIndex) (hotSpots scene)).
        apply in_or_app. now right.
    + apply Hnew.
Qed.

Lemma all_hotspots_map (g : Hotspot -> Hotspot) (o : obj Scene) :
  all_hotspots (obj_map (fun _ sc => set_hotSpots (map g (hotSpots sc)) sc) o)
  = map g (all_hotspots o).
Proof.
  induction o as [|[k sc] r IH]; [reflexivity|].
  change (obj_map (fun _ sc0 => set_hotSpots (map g (hotSpots sc0)) sc0)
                  ((k, sc) :: r))
    with ((k, set_hotSpots (map g (hotSpots sc)) sc)
            :: obj_map (fun _ sc0 => set_hotSpots (map g (hotSpots sc0)) sc0) r).
  rewrite !all_hotspots_cons, map_app, IH. reflexivity.
Qed.

Lemma written_arrivals (cfg : TourConfig) (cur : string) (scene sc' : Scene)
      (p y h : float) :
  obj_get cur (scenes cfg) = Some scene ->
  hotSpots sc' = hotSpots scene ->
  pitch sc' = p -> yaw sc' = y -> hfov sc' = h ->
  camera_plain p y h ->
  arrivals_synced cfg -> cameras_plain cfg ->
  let cfg' :=
    fst (updateHotspotReferences cur
           {| u_targetPitch := Some p; u_targetYaw := Some y;
              u_targetHfov := Some h |}
           (set_scenes (obj_replace cur sc' (scenes cfg)) cfg)) in
  arrivals_synced cfg' /\ cameras_plain cfg'.
Proof.
  intros Hget Hhs Hpitch Hyaw Hhfov Hplain Hs Hp. cbv zeta.
  rewrite updateHotspotReferences_spec. cbn [fst].
  set (u := {| u_targetPitch := Some p; u_targetYaw := Some y;
               u_targetHfov := Some h |}).
  assert (Hlook : forall s t',
             obj_get s (obj_map (fun _ sc =>
                                   set_hotSpots
                                     (map (refreshed cur u) (hotSpots sc)) sc)
                                (obj_replace cur sc' (scenes cfg))) = Some t' ->
             (s = cur /\ pitch t' = p /\ yaw t' = y /\ hfov t' = h)
             \/ (s <> cur /\ exists t, obj_get s (scenes cfg) = Some t
                                       /\ pitch t' = pitch t /\ yaw t' = yaw t
                                       /\ hfov t' = hfov t)).
  { intros s t'. rewrite obj_get_map, obj_get_replace.
    destruct (String.eqb_spec cur s) as [<-|Hne]; cbn [andb].
    - unfold obj_has. rewrite Hget. cbn [option_map]. intros [= <-].
      left. cbn. auto.
    - destruct (obj_get s (scenes cfg)) as [t|]; [|discriminate].
      cbn [option_map]. intros [= <-]. right. split; [congruence|].
      exists t. now repeat split. }
  split.
  - intros x' t' Hin Ht'. cbn [scenes set_scenes] in Hin, Ht'.
    rewrite all_hotspots_map in Hin.
    apply in_map_iff in Hin as (x & <- & Hin).
    unfold all_hotspots in Hin.
    rewrite (flat_map_hotSpots_replace cur scene sc' _ Hget Hhs) in Hin.
    destruct (refreshed_frame cur p y h x)
      as (_ & _ & _ & _ & Hsid & Hhit & Hmiss).
    fold u in Hsid, Hhit, Hmiss. rewrite Hsid in Ht'.
    destruct (Hlook _ _ Ht') as [(Heq & -> & -> & ->)|(Hne & t & Ht & -> & -> & ->)].
    + now apply Hhit.
    + rewrite (Hmiss Hne). now apply Hs.
  - intros s t' Ht'. cbn [scenes set_scenes] in Ht'.
    destruct (Hlook _ _ Ht') as [(_ & -> & -> & ->)|(_ & t & Ht & -> & -> & ->)];
      [exact Hplain | eapply Hp; eauto].
Qed.

Lemma renameScene_arrivals (old new : string) (c : bool)
      (cfg cfg' : TourConfig) :
  invariants cfg -> arrivals_synced cfg -> cameras_plain cfg ->
  renameScene old new c cfg = (true, cfg') ->
  arrivals_synced cfg' /\ cameras_plain cfg'.
Proof.
  intros Hinv Hs Hp Hrun.
  destruct (String.eqb_spec old new) as [->|Hne].
  { apply renameScene_same_id in Hrun. subst cfg'. now split. }
  destruct (renameScene_true_inv _ _ _ _ _ Hrun Hne)
      as (Hpat & -> & Hfresh & Hown).
  rewrite (renameScene_run old new cfg Hpat Hne Hfresh Hown) in Hrun.
  injection Hrun as <-.
  destruct Hinv as (Hnd & _ & Hlinks & _).
  pose proof (renamed_keys_NoDup old new (scenes cfg) Hnd Hfresh) as Hnd'.
  assert (Hperm : Permutation (rename_key old new (scenes cfg))
                              (map (rename_entry old new) (scenes cfg))).
  { unfold rename_key. apply (rename_key_perm old new (scenes cfg) []);
      [assumption | intros ? _ []]. }
  assert (Hsub : forall x, In x (all_hotspots (rename_key old new (scenes cfg))) ->
                           In x (all_hotspots (scenes cfg))).
  { intros x Hx. apply all_hotspots_In in Hx as (k & sc & Hin & Hx).
    apply (Permutation_in _ Hperm) in Hin.
    apply in_map_iff in Hin as ([k0 sc0] & Heq & Hin).
    unfold rename_entry in Heq. cbn in Heq. injection Heq as _ <-.
    apply all_hotspots_In. now exists k0, sc0. }
  split.
  - intros x' t' Hin Ht'. cbn [scenes] in Hin, Ht'.
    rewrite all_hotspots_map in Hin.
    apply in_map_iff in Hin as (x & <- & Hin). apply Hsub in Hin.
    destruct (retarget_frame old new x)
      as (_ & _ & _ & _ & -> & -> & -> & Hsid).
    rewrite Hsid, obj_get_map in Ht'.
    assert (Hxnew : sceneId x <> new).
    { intros Heq. apply Hfresh. rewrite <- Heq.
      apply all_hotspots_In in Hin as (k & sc & Hk & Hx).
      now apply (Hlinks k sc x). }
    rewrite (rename_key_get old new _ _ Hnd Hfresh Hxnew) in Ht'.
    destruct (obj_get (sceneId x) (scenes cfg)) as [t|] eqn:Ht; [|discriminate].
    cbn [option_map] in Ht'. injection Ht' as <-. cbn [pitch yaw hfov set_hotSpots].
    now apply Hs.
  - intros s t' Ht'. cbn [scenes] in Ht'. rewrite obj_get_map in Ht'.
    unfold rename_key in Ht'.
    rewrite rename_key_fold_get in Ht'; [|assumption | intros ? _ []].
    cbn [obj_get] in Ht'.
    destruct (obj_get s (map (rename_entry old new) (scenes cfg))) as [t|] eqn:Ht;
      [|discriminate].
    cbn [option_map] in Ht'. injection Ht' as <-. cbn [pitch yaw hfov set_hotSpots].
    apply obj_get_In in Ht. apply in_map_iff in Ht as ([k0 sc0] & Heq & Hin).
    unfold rename_entry in Heq. cbn in Heq. injection Heq as _ <-.
    apply (Hp k0). now apply obj_get_NoDup.
Qed.

(** X25: hotspots arrive at the camera of their target scene, and this is
    kept: in a document that satisfies the four invariants, in which the
    arrival view (targetPitch, targetYaw, targetHfov) of every hotspot is
    the camera of its target scene and in which every camera number is
    stored as it is by [confirmAddHotspot] (it is finite and not [-0], so
    that the JSON copy keeps it, and it is not one that [|| 0] / [|| 100]
    would replace), every operation that completes leaves a document with
    the same two properties, provided a captured or edited camera has
    such numbers too and a scene order given to [reorderScenes] names no
    property inherited from [Object.prototype].  So the arrival views
    follow every change of a camera ([updateSceneWithCapturedView],
    [editCurrentScene]) and every rename. *)
Theorem arrival_views_follow_cameras :
  (forall op ed ed',
      invariants (tourConfig ed) ->
      arrivals_synced (tourConfig ed) -> cameras_plain (tourConfig ed) ->
      plain_arguments op ->
      exec op ed = Some ed' ->
      arrivals_synced (tourConfig ed') /\ cameras_plain (tourConfig ed'))
  /\ (forall cur idField pathField h p y ml cr c cfg cfg' cur',
         invariants cfg -> arrivals_synced cfg -> cameras_plain cfg ->
         camera_plain p y h ->
         editCurrentScene cur idField pathField h p y ml cr c cfg
         = Completed (cfg', cur') ->
         arrivals_synced cfg' /\ cameras_plain cfg')
  /\ arrivals_synced initialConfig /\ cameras_plain initialConfig.
Proof.
  split; [|split; [|split]].
  - intros op ed ed' Hinv Hs Hp Hcam.
    destruct op; unfold exec, with_config, completed.
    + destruct (addNewScene idField pathField maxLevel' cubeResolution'
                            (tourConfig ed)) eqn:Hrun; try discriminate.
      intros [= <-]. eapply addNewScene_arrivals; eauto.
    + destruct (renameScene oldSceneId newSceneId confirmed (tourConfig ed))
        as [ok cfg'] eqn:Hrun.
      destruct ok; [|discriminate]. intros [= <-].
      eapply renameScene_arrivals; eauto.
    + destruct (deleteCurrentScene currentScene confirmed (tourConfig ed))
        eqn:Hrun; try discriminate.
      intros [= <-]. eapply deleteCurrentScene_arrivals; eauto.
    + destruct (confirmAddHotspot currentScene (Some AddingHotspot) textField
                  idField targetScene hotspotPitch hotspotYaw ed) eqn:Hrun;
        try discriminate.
      intros [= <-]. eapply confirmAddHotspot_arrivals; eauto.
    + destruct (confirmAddHotspot currentScene (Some (EditingHotspot editIndex))
                  textField idField targetScene hotspotPitch hotspotYaw ed)
        eqn:Hrun; try discriminate.
      intros [= <-]. eapply confirmAddHotspot_arrivals; eauto.
    + unfold deleteHotspot. destruct (currentScene =? ""); [discriminate|].
      destruct (obj_get currentScene (scenes (tourConfig ed))) as [scene|]
        eqn:Hget; [|discriminate].
      destruct ((0 <=? index)%Z
                && (index <? Z.of_nat (length (hotSpots scene)))%Z);
        [|discriminate].
      intros [= <-]. cbn [tourConfig].
      apply replace_hotspots_arrivals; auto. apply incl_splice_remove.
    + unfold handleHotspotDrop.
      destruct (targetIndex =? dragged)%nat; [discriminate|].
      destruct (obj_get currentScene (scenes (tourConfig ed))) as [scene|]
        eqn:Hget; [|discriminate].
      destruct (nth_error (hotSpots scene) dragged) as [x|] eqn:Hat;
        [|discriminate].
      intros [= <-]. cbn [tourConfig].
      apply replace_hotspots_arrivals; auto.
      intros z Hz. unfold splice_insert in Hz.
      assert (Hrem : forall z', In z' (splice_remove dragged (hotSpots scene)) ->
                                In z' (hotSpots scene))
        by apply incl_splice_remove.
      apply in_app_or in Hz as [Hz|[<-|Hz]].
      * apply Hrem. rewrite <- (firstn_skipn targetIndex (splice_remove _ _)).
        apply in_or_app. now left.
      * now apply nth_error_In in Hat.
      * apply Hrem. rewrite <- (firstn_skipn targetIndex (splice_remove _ _)).
        apply in_or_app. now right.
    + intros [= <-]. now apply reorderScenes_arrivals.
    + unfold moveScene.
      destruct (indexOf sceneId' (sceneOrder (tourConfig ed))); [|discriminate].
      intros [= <-]. now apply reorderScenes_arrivals.
    + unfold handleDrop.
      destruct ((draggedSceneId =? "") || (targetSceneId =? "")
                || (draggedSceneId =? targetSceneId)); [discriminate|].
      destruct (indexOf draggedSceneId (sceneOrder (tourConfig ed)));
        [|discriminate].
      destruct (indexOf targetSceneId (sceneOrder (tourConfig ed)));
        [|discriminate].
      intros [= <-]. now apply reorderScenes_arrivals.
    + unfold updateSceneWithCapturedView.
      destruct (currentScene =? ""); [discriminate|].
      destruct (obj_get currentScene (scenes (tourConfig ed))) as [scene|]
        eqn:Hget; [|discriminate].
      cbn [option_map]. intros [= <-]. cbn [tourConfig].
      now apply (written_arrivals (tourConfig ed) currentScene scene).
  - intros cur idField pathField h p y ml cr c cfg cfg' cur' Hinv Hs Hp Hcam.
    unfold editCurrentScene.
    destruct (cur =? ""); [discriminate|].
    destruct ((trim idField =? "") || (trim pathField =? "")); [discriminate|].
    destruct (negb (trim idField =? cur)).
    + destruct (renameScene cur (trim idField) c cfg) as [ok cfg1] eqn:Hrun.
      destruct ok; [|discriminate]. cbn [negb].
      destruct (obj_get _ (scenes cfg1)) as [scene1|] eqn:Hget1; [|discriminate].
      intros [= <- _].
      destruct (renameScene_arrivals _ _ _ _ _ Hinv Hs Hp Hrun) as [Hs1 Hp1].
      now apply (written_arrivals cfg1 _ scene1).
    + cbn [negb]. destruct (obj_get cur (scenes cfg)) as [scene|] eqn:Hget;
        [|discriminate].
      intros [= <- _]. now apply (written_arrivals cfg cur scene).
  - intros x t [].
  - intros k sc Hget. discriminate.
Qed.

(** ** The statements at work on the example documents *)

Lemma doc_linked_invariants : invariants doc_linked.
Proof.
  unfold invariants, ids_unique, links_sound, order_sound, first_sound.
  simpl. split; [repeat constructor; simpl; intuition discriminate|].
  split; [repeat constructor; simpl; intuition discriminate|]. split.
  - intros k sc x [[= <- <-]|[[= <- <-]|[]]] [<-|[]]; simpl;
      split; try tauto; discriminate.
  - split; [reflexivity | right; now left].
Qed.

Lemma doc_linked_arrivals :
  arrivals_synced doc_linked /\ cameras_plain doc_linked.
Proof.
  split.
  - intros x t [<-|[<-|[]]]; cbn [sceneId link]; intros [= <-];
      repeat split.
  - intros k sc Hget. apply obj_get_In in Hget.
    destruct Hget as [[= <- <-]|[[= <- <-]|[]]]; repeat split.
Qed.

Lemma updateNavigationIndex_first_position_witness :
  NoDup (sceneOrder doc_abc)
  /\ array_get (sceneOrder doc_abc) 1 = Some "b"
  /\ updateNavigationIndex "b" doc_abc 0 = 1%Z.
Proof.
  assert (Hnd : NoDup (sceneOrder doc_abc)).
  { repeat constructor; simpl; intuition discriminate. }
  assert (Hat : array_get (sceneOrder doc_abc) 1 = Some "b") by reflexivity.
  destruct (updateNavigationIndex_first_position doc_abc "b" 0)
    as (_ & _ & Hagree).
  split; [exact Hnd|]. split; [exact Hat|]. exact (Hagree Hnd 1%Z Hat).
Defined.

Lemma scenes_stay_listed_witness :
  obj_keys (scenes (tourConfig (importConfiguration file_dangling)))
  = ["B"; "A"]
  /\ scenes_listed (tourConfig (importConfiguration file_dangling))
  /\ exists ed',
      exec (AddHotspot "A" "" "" "B" 0 0) (importConfiguration file_dangling)
      = Some ed'
      /\ scenes_listed (tourConfig ed').
Proof.
  destruct scenes_stay_listed as (Himport & Hstep & _).
  pose proof (Himport file_dangling) as Hl.
  split; [reflexivity|]. split; [exact Hl|].
  assert (Hrun : exists ed',
             exec (AddHotspot "A" "" "" "B" 0 0)
                  (importConfiguration file_dangling) = Some ed')
    by (eexists; reflexivity).
  destruct Hrun as [ed' Hrun]. exists ed'. split; [exact Hrun|].
  exact (Hstep _ _ _ Hl Hrun).
Defined.

Lemma fallback_ids_fresh_after_import_witness :
  hotspot_ids (tourConfig (importConfiguration file_legacy))
  = [Some "hs_B_001"; Some "hs_B_2"]
  /\ exists ed' x,
      confirmAddHotspot "A" (Some AddingHotspot) "" " " "B" 0 0
                        (importConfiguration file_legacy) = Completed ed'
      /\ hs_id x = Some "hs_A_3"
      /\ ~ In (Some "hs_A_3")
              (hotspot_ids (tourConfig (importConfiguration file_legacy)))
      /\ counter_above ed'.
Proof.
  destruct fallback_ids_fresh_after_import as (Himport & _ & _ & Hadd).
  assert (Hfile : import_exact file_legacy)
    by (unfold import_exact; vm_compute; discriminate).
  assert (Hexact : counter_exact (importConfiguration file_legacy))
    by (unfold counter_exact; vm_compute; discriminate).
  split; [reflexivity|].
  assert (Hex : obj_get "A" (scenes (tourConfig (importConfiguration file_legacy)))
                = Some (set_hotSpots [link "hs_B_001" "B" "B"]
                                     (newScene "./A/" 4 4096))) by reflexivity.
  assert (Hcur : "A" <> "") by discriminate.
  assert (Htarget : "B" <> "") by discriminate.
  assert (Hblank : trim " " = "") by reflexivity.
  destruct (Hadd (importConfiguration file_legacy) "A" _ "" " " "B"
                 0%float 0%float (Himport file_legacy Hfile) Hexact
                 Hcur Htarget Hblank Hex)
    as (ed' & x & Hrun & _ & Hid & Hfresh & Habove).
  exists ed', x. split; [exact Hrun|]. split; [exact Hid|].
  split; [exact Hfresh | exact Habove].
Defined.

Lemma scene_operations_keep_hotspot_ids_witness :
  exists ed',
    exec (RenameScene "A" "Alpha" true)
         {| tourConfig := doc_linked; hotspotCounter := 0 |} = Some ed'
    /\ obj_keys (scenes (tourConfig ed')) = ["Alpha"; "B"]
    /\ Permutation (hotspot_ids (tourConfig ed')) (hotspot_ids doc_linked).
Proof.
  destruct scene_operations_keep_hotspot_ids as [Hop _].
  assert (Hrun : exists ed',
             exec (RenameScene "A" "Alpha" true)
                  {| tourConfig := doc_linked; hotspotCounter := 0 |} = Some ed'
             /\ obj_keys (scenes (tourConfig ed')) = ["Alpha"; "B"])
    by (eexists; split; reflexivity).
  destruct Hrun as (ed' & Hrun & Hkeys). exists ed'.
  split; [exact Hrun|]. split; [exact Hkeys|].
  exact (proj1 (Hop (RenameScene "A" "Alpha" true)
                    {| tourConfig := doc_linked; hotspotCounter := 0 |} ed'
                    doc_linked_invariants eq_refl Hrun)).
Defined.

Lemma arrival_views_follow_cameras_witness :
  arrivals_synced doc_linked /\ cameras_plain doc_linked
  /\ camera_plain 10 20 90
  /\ exists ed',
      exec (CaptureView "B" 10 20 90)
           {| tourConfig := doc_linked; hotspotCounter := 0 |} = Some ed'
      /\ map targetHfov (all_hotspots (scenes (tourConfig ed')))
         = [90%float; 100%float]
      /\ arrivals_synced (tourConfig ed') /\ cameras_plain (tourConfig ed').
Proof.
  destruct arrival_views_follow_cameras as [Hop _].
  destruct doc_linked_arrivals as [Hs Hp].
  assert (Hcam : camera_plain 10 20 90) by (repeat split).
  split; [exact Hs|]. split; [exact Hp|]. split; [exact Hcam|].
  assert (Hrun : exists ed',
             exec (CaptureView "B" 10 20 90)
                  {| tourConfig := doc_linked; hotspotCounter := 0 |} = Some ed'
             /\ map targetHfov (all_hotspots (scenes (tourConfig ed')))
                = [90%float; 100%float])
    by (eexists; split; reflexivity).
  destruct Hrun as (ed' & Hrun & Hviews). exists ed'.
  split; [exact Hrun|]. split; [exact Hviews|].
  exact (Hop (CaptureView "B" 10 20 90)
             {| tourConfig := doc_linked; hotspotCounter := 0 |} ed'
             doc_linked_invariants Hs Hp Hcam Hrun).
Defined.

(** ** Updating twice *)

Lemma apply_updates_twice (u1 u2 : Updates) (x : Hotspot) :
  (u_targetPitch u1 <> None -> u_targetPitch u2 <> None) ->
  (u_targetYaw u1 <> None -> u_targetYaw u2 <> None) ->
  (u_targetHfov u1 <> None -> u_targetHfov u2 <> None) ->
  apply_updates u2 (apply_updates u1 x) = apply_updates u2 x.
Proof.
  intros Hp Hy Hh. unfold apply_updates. cbn.
  destruct (u_targetPitch u1), (u_targetPitch u2),
           (u_targetYaw u1), (u_targetYaw u2),
           (u_targetHfov u1), (u_targetHfov u2);
    try reflexivity;
    try (exfalso; apply Hp; congruence);
    try (exfalso; apply Hy; congruence);
    try (exfalso; apply Hh; congruence).
Qed.

Lemma refreshed_twice (t : string) (u1 u2 : Updates) (x : Hotspot) :
  (u_targetPitch u1 <> None -> u_targetPitch u2 <> None) ->
  (u_targetYaw u1 <> None -> u_targetYaw u2 <> None) ->
  (u_targetHfov u1 <> None -> u_targetHfov u2 <> None) ->
  refreshed t u2 (refreshed t u1 x) = refreshed t u2 x.
Proof.
  intros Hp Hy Hh. unfold refreshed.
  destruct (sceneId x =? t) eqn:Hx.
  - cbn [sceneId apply_updates]. rewrite Hx. now apply apply_updates_twice.
  - now rewrite Hx.
Qed.

Lemma refreshed_targets (t : string) (u : Updates) (hs : list Hotspot) :
  filter (targets t) (map (refreshed t u) hs)
  = map (refreshed t u) (filter (targets t) hs).
Proof.
  induction hs as [|x r IH]; simpl; [reflexivity|].
  assert (Hsame : targets t (refreshed t u x) = targets t x).
  { unfold targets, refreshed.
    destruct (sceneId x =? t) eqn:Hx; [|exact Hx].
    cbn [sceneId apply_updates]. exact Hx. }
  rewrite Hsame. destruct (targets t x); simpl; now rewrite IH.
Qed.

(** X26: [updateHotspotReferences] is idempotent, and a later update
    overrides an earlier one: after an update of the references to a
    scene, an update that sets at least the same properties gives the
    document that it would have given alone, and both calls return the
    same count, the number of hotspots that target the scene.  An update
    that sets no property leaves the document unchanged and still counts
    these hotspots. *)
Theorem updateHotspotReferences_overrides
        (t : string) (u1 u2 : Updates) (cfg : TourConfig) :
  let first := updateHotspotReferences t u1 cfg in
  snd first = length (filter (targets t) (all_hotspots (scenes cfg)))
  /\ ((u_targetPitch u1 <> None -> u_targetPitch u2 <> None) ->
      (u_targetYaw u1 <> None -> u_targetYaw u2 <> None) ->
      (u_targetHfov u1 <> None -> u_targetHfov u2 <> None) ->
      updateHotspotReferences t u2 (fst first)
      = updateHotspotReferences t u2 cfg)
  /\ updateHotspotReferences t u1 (fst first) = first
  /\ (u1 = {| u_targetPitch := None; u_targetYaw := None;
              u_targetHfov := None |} ->
      fst first = cfg).
Proof.
  cbv zeta.
  assert (Hover : forall u u',
             (u_targetPitch u <> None -> u_targetPitch u' <> None) ->
             (u_targetYaw u <> None -> u_targetYaw u' <> None) ->
             (u_targetHfov u <> None -> u_targetHfov u' <> None) ->
             updateHotspotReferences t u'
               (set_scenes
                  (obj_map (fun _ sc =>
                              set_hotSpots (map (refreshed t u) (hotSpots sc)) sc)
                           (scenes cfg)) cfg)
             = (set_scenes
                  (obj_map (fun _ sc =>
                              set_hotSpots (map (refreshed t u') (hotSpots sc)) sc)
                           (scenes cfg)) cfg,
                length (filter (targets t)
                               (flat_map hotSpots (obj_values (scenes cfg)))))).
  { intros u u' Hp Hy Hh. rewrite updateHotspotReferences_spec.
    cbn [scenes set_scenes]. f_equal.
    - rewrite set_scenes_twice. f_equal. unfold obj_map. rewrite map_map.
      apply map_ext. intros [k sc]. cbn [fst snd]. f_equal.
      unfold set_hotSpots. cbn. f_equal. rewrite map_map.
      apply map_ext. intros x. now apply refreshed_twice.
    - change (flat_map hotSpots (obj_values ?o)) with (all_hotspots o).
      rewrite all_hotspots_map, refreshed_targets. apply length_map. }
  rewrite (updateHotspotReferences_spec t u1 cfg). cbn [fst snd].
  split; [reflexivity|]. split; [|split].
  - intros Hp Hy Hh. rewrite (Hover u1 u2 Hp Hy Hh).
    now rewrite updateHotspotReferences_spec.
  - apply Hover; auto.
  - intros ->.
    transitivity (set_scenes (scenes cfg) cfg); [|apply set_scenes_same].
    f_equal.
    unfold obj_map. rewrite <- (map_id (scenes cfg)) at 2.
    apply map_ext. intros [k sc]. cbn [fst snd]. f_equal.
    replace (map _ (hotSpots sc)) with (hotSpots sc); [now destruct sc|].
    rewrite <- (map_id (hotSpots sc)) at 1. apply map_ext. intros x.
    unfold refreshed. destruct (sceneId x =? t); [|reflexivity].
    now destruct x.
Qed.

Lemma written_twice (cur : string) (u1 u2 : Updates)
      (cam1 cam2 : Scene -> Scene) (o : obj Scene) :
  (forall sc, hotSpots (cam1 sc) = hotSpots sc) ->
  (forall sc, hotSpots (cam2 sc) = hotSpots sc) ->
  (forall sc hs, cam2 (set_hotSpots hs (cam1 sc)) = set_hotSpots hs (cam2 sc)) ->
  (forall x, refreshed cur u2 (refreshed cur u1 x) = refreshed cur u2 x) ->
  forall scene,
    obj_get cur o = Some scene ->
    let G := fun u (_ : string) sc =>
               set_hotSpots (map (refreshed cur u) (hotSpots sc)) sc in
    let o1 := obj_map (G u1) (obj_replace cur (cam1 scene) o) in
    exists scene1,
      obj_get cur o1 = Some scene1
      /\ obj_map (G u2) (obj_replace cur (cam2 scene1) o1)
         = obj_map (G u2) (obj_replace cur (cam2 scene) o).
Proof.
  intros Hc1 Hc2 Hcam Htwice scene Hget. cbv zeta.
  assert (Hmap : forall r : obj Scene,
             obj_map (fun _ sc =>
                        set_hotSpots (map (refreshed cur u2) (hotSpots sc)) sc)
               (obj_map (fun _ sc =>
                           set_hotSpots (map (refreshed cur u1) (hotSpots sc)) sc)
                        r)
             = obj_map (fun _ sc =>
                          set_hotSpots (map (refreshed cur u2) (hotSpots sc)) sc)
                       r).
  { intros r. unfold obj_map. rewrite map_map. apply map_ext.
    intros [k sc]. cbn [fst snd]. f_equal. unfold set_hotSpots. cbn.
    f_equal. rewrite map_map. apply map_ext. exact Htwice. }
  induction o as [|[k sc] r IH]; [discriminate|].
  cbn [obj_get] in Hget. cbn [obj_replace].
  destruct (String.eqb_spec k cur) as [->|Hne].
  - injection Hget as ->.
    eexists. split.
    + cbn [obj_map map fst snd obj_get]. rewrite String.eqb_refl. reflexivity.
    + cbn [obj_map map fst snd obj_replace]. rewrite String.eqb_refl.
      cbn [map fst snd]. f_equal.
      * f_equal. rewrite Hcam, !Hc2, Hc1.
        unfold set_hotSpots. cbn. f_equal. rewrite map_map.
        apply map_ext. exact Htwice.
      * apply Hmap.
  - destruct (IH Hget) as (scene1 & Hget1 & Heq).
    exists scene1. split.
    + cbn [obj_map map fst snd obj_get].
      apply String.eqb_neq in Hne. rewrite Hne. exact Hget1.
    + cbn [obj_map map fst snd obj_replace].
      pose proof Hne as Hne'. apply String.eqb_neq in Hne'. rewrite Hne'.
      cbn [map fst snd]. f_equal.
      * f_equal. unfold set_hotSpots. cbn. f_equal. rewrite map_map.
        apply map_ext. exact Htwice.
      * exact Heq.
Qed.

(** X27: the last captured view wins: capturing a view for a scene and
    then capturing another view for the same scene gives exactly the
    document that the second capture alone would have given, and reports
    the same number of updated hotspots; in particular capturing the same
    view twice changes nothing the second time. *)
Theorem updateSceneWithCapturedView_last_wins
        (cfg cfg1 : TourConfig) (cur : string) (n1 : nat)
        (p1 y1 h1 p2 y2 h2 : float)
        (Hfirst : updateSceneWithCapturedView cur p1 y1 h1 cfg
                  = Completed (cfg1, n1)) :
  updateSceneWithCapturedView cur p2 y2 h2 cfg1
  = updateSceneWithCapturedView cur p2 y2 h2 cfg
  /\ updateSceneWithCapturedView cur p1 y1 h1 cfg1 = Completed (cfg1, n1).
Proof.
  assert (Hgen : forall p y h,
             updateSceneWithCapturedView cur p y h cfg1
             = updateSceneWithCapturedView cur p y h cfg).
  { intros p y h. revert Hfirst. unfold updateSceneWithCapturedView.
    destruct (cur =? ""); [discriminate|].
    destruct (obj_get cur (scenes cfg)) as [scene|] eqn:Hget; [|discriminate].
    rewrite !updateHotspotReferences_spec. intros [= <- <-].
    cbn [scenes set_scenes].
    destruct (written_twice cur
                {| u_targetPitch := Some p1; u_targetYaw := Some y1;
                   u_targetHfov := Some h1 |}
                {| u_targetPitch := Some p; u_targetYaw := Some y;
                   u_targetHfov := Some h |}
                (set_camera p1 y1 h1) (set_camera p y h) (scenes cfg))
      with (scene := scene) as (scene1 & Hget1 & Heq); auto.
    { intros x. apply refreshed_twice; discriminate. }
    rewrite Hget1, !updateHotspotReferences_spec. cbn [scenes set_scenes].
    rewrite set_scenes_twice, Heq. f_equal. f_equal.
    rewrite (flat_map_hotSpots_replace cur scene1 _ _ Hget1) by reflexivity.
    rewrite (flat_map_hotSpots_replace cur scene _ (scenes cfg) Hget)
      by reflexivity.
    change (flat_map hotSpots (obj_values ?o)) with (all_hotspots o).
    rewrite all_hotspots_map, refreshed_targets, length_map.
    unfold all_hotspots.
    now rewrite (flat_map_hotSpots_replace cur scene _ (scenes cfg) Hget). }
  split; [apply Hgen|]. now rewrite Hgen.
Qed.

Lemma updateSceneWithCapturedView_last_wins_witness :
  exists cfg1 cfg2,
    updateSceneWithCapturedView "B" 10 20 90 doc_linked = Completed (cfg1, 1%nat)
    /\ updateSceneWithCapturedView "B" 1 2 80 cfg1 = Completed (cfg2, 1%nat)
    /\ updateSceneWithCapturedView "B" 1 2 80 doc_linked
       = Completed (cfg2, 1%nat).
Proof.
  assert (Hfirst : exists cfg1,
             updateSceneWithCapturedView "B" 10 20 90 doc_linked
             = Completed (cfg1, 1%nat)) by (eexists; reflexivity).
  destruct Hfirst as [cfg1 Hfirst].
  assert (Hsecond : exists cfg2,
             updateSceneWithCapturedView "B" 1 2 80 doc_linked
             = Completed (cfg2, 1%nat)) by (eexists; reflexivity).
  destruct Hsecond as [cfg2 Hsecond].
  destruct (updateSceneWithCapturedView_last_wins doc_linked cfg1 "B" 1
              10 20 90 1 2 80 Hfirst) as [Hwin _].
  exists cfg1, cfg2. split; [exact Hfirst|]. split; [|exact Hsecond].
  now rewrite Hwin.
Defined.
